(** * Verification of the DOCX translation pipeline

    A shallow embedding of [xml-chunker.ts] (paragraph segmentation, marker
    extraction, reconstruction), [translator.ts] (batched translation with
    retries) and [translate.ts] (the orchestrator with its tag-balance check),
    together with the properties the specification states about them.

    JavaScript strings are sequences of UTF-16 code units; a code unit is a
    value of [N] and a string is a [list N].  Regular expressions of the
    source are embedded as anchored matchers driven by a generic left-to-right
    search, which is how a backtracking engine explores them. *)

From Stdlib Require Import String Ascii NArith ZArith List Lia.
From Stdlib Require DecimalNat DecimalFacts.
From stdpp Require Import base list gmap.

Open Scope N_scope.

(** ** Strings *)

Module Js.

Notation char := N (only parsing).
Notation jsstring := (list N) (only parsing).

(** String literals of the source, as code units. *)
Definition lit (s : string) : jsstring := N_of_ascii <$> list_ascii_of_string s.
Arguments lit s%_string.

Definition eqc (a b : char) : bool := N.eqb a b.

(** [s.startsWith(p)], returning what follows the prefix. *)
Fixpoint strip_prefix (p s : jsstring) : option jsstring :=
  match p with
  | [] => Some s
  | a :: p' =>
      match s with
      | [] => None
      | b :: s' => if eqc a b then strip_prefix p' s' else None
      end
  end.

(** The first occurrence of [p] in [s]: the text before it and the text after
    it.  [s.indexOf(p)] is the length of the first component. *)
Fixpoint find_sub (p s : jsstring) : option (jsstring * jsstring) :=
  match strip_prefix p s with
  | Some rest => Some ([], rest)
  | None =>
      match s with
      | [] => None
      | c :: t =>
          match find_sub p t with
          | Some (pre, rest) => Some (c :: pre, rest)
          | None => None
          end
      end
  end.

(** [s.indexOf(p)], with -1 when [p] does not occur. *)
Definition indexOf (s p : jsstring) : Z :=
  match find_sub p s with
  | Some (pre, _) => Z.of_nat (length pre)
  | None => (-1)%Z
  end.

(** [s.slice(a, b)] and [s.slice(a)] with JavaScript's treatment of negative
    and out-of-range positions. *)
Definition clamp_pos (n : nat) (a : Z) : nat :=
  if (a <? 0)%Z then Z.to_nat (Z.max (Z.of_nat n + a) 0)
  else Nat.min (Z.to_nat a) n.

Definition slice (s : jsstring) (a b : Z) : jsstring :=
  let from := clamp_pos (length s) a in
  let to := clamp_pos (length s) b in
  take (to - from)%nat (drop from s).

Definition slice_from (s : jsstring) (a : Z) : jsstring :=
  drop (clamp_pos (length s) a) s.

(** [s.indexOf(p, pos)] for a position [0 <= pos]. *)
Definition indexOf_from (s p : jsstring) (pos : Z) : Z :=
  let k := clamp_pos (length s) (Z.max pos 0) in
  match find_sub p (drop k s) with
  | Some (pre, _) => Z.of_nat (k + length pre)
  | None => (-1)%Z
  end.

(** Character classes of ECMAScript regular expressions. *)

(** [\s], which is also the set [String.prototype.trim] strips: WhiteSpace
    and LineTerminator code units. *)
Definition is_space (c : char) : bool :=
  ((9 <=? c) && (c <=? 13)) || eqc c 32 || eqc c 160 || eqc c 5760
  || ((8192 <=? c) && (c <=? 8202)) || eqc c 8232 || eqc c 8233
  || eqc c 8239 || eqc c 8287 || eqc c 12288 || eqc c 65279.

(** [\d] *)
Definition is_digit (c : char) : bool := (48 <=? c) && (c <=? 57).

Definition is_alpha (c : char) : bool :=
  ((65 <=? c) && (c <=? 90)) || ((97 <=? c) && (c <=? 122)).

(** [\w], the class that decides [\b] *)
Definition is_word (c : char) : bool := is_alpha c || is_digit c || eqc c 95.

(** The longest prefix whose characters satisfy [f], and the rest: the
    behaviour of a greedy [[class]*] that is followed by a character outside
    the class. *)
Fixpoint span (f : char -> bool) (s : jsstring) : jsstring * jsstring :=
  match s with
  | [] => ([], [])
  | c :: t =>
      if f c then let '(a, b) := span f t in (c :: a, b) else ([], s)
  end.

Fixpoint drop_while (f : char -> bool) (s : jsstring) : jsstring :=
  match s with
  | [] => []
  | c :: t => if f c then drop_while f t else s
  end.

(** [s.trim()] *)
Definition trim (s : jsstring) : jsstring :=
  reverse (drop_while is_space (reverse (drop_while is_space s))).

(** White-space-only strings, and what it means for [t] to be [s] without
    its leading and trailing white space. *)
Definition blank (s : jsstring) : bool := forallb is_space s.

Definition trimmed_of (s t : jsstring) : Prop :=
  exists l r, s = l ++ t ++ r
    /\ Forall (fun c => is_space c = true) l
    /\ Forall (fun c => is_space c = true) r
    /\ (forall c, head t = Some c -> is_space c = false)
    /\ (forall c, last t = Some c -> is_space c = false).

(** A string is falsy exactly when it is empty. *)
Definition truthy (s : jsstring) : bool :=
  match s with [] => false | _ => true end.

(** [parts.join(sep)] *)
Fixpoint join (sep : jsstring) (parts : list jsstring) : jsstring :=
  match parts with
  | [] => []
  | [p] => p
  | p :: rest => p ++ sep ++ join sep rest
  end.

(** Decimal digits.  [String(n)] of a natural number below 10^21 is its plain
    decimal numeral, and [parseInt(ds, 10)] of a non-empty digit string is the
    number it denotes (exactly so below 2^53, which bounds every array index
    and every allocated ID). *)
Fixpoint uint_chars (u : Decimal.uint) : jsstring :=
  match u with
  | Decimal.Nil => []
  | Decimal.D0 r => 48 :: uint_chars r
  | Decimal.D1 r => 49 :: uint_chars r
  | Decimal.D2 r => 50 :: uint_chars r
  | Decimal.D3 r => 51 :: uint_chars r
  | Decimal.D4 r => 52 :: uint_chars r
  | Decimal.D5 r => 53 :: uint_chars r
  | Decimal.D6 r => 54 :: uint_chars r
  | Decimal.D7 r => 55 :: uint_chars r
  | Decimal.D8 r => 56 :: uint_chars r
  | Decimal.D9 r => 57 :: uint_chars r
  end.

Definition cons_digit (c : char) (r : Decimal.uint) : Decimal.uint :=
  if eqc c 48 then Decimal.D0 r else
  if eqc c 49 then Decimal.D1 r else
  if eqc c 50 then Decimal.D2 r else
  if eqc c 51 then Decimal.D3 r else
  if eqc c 52 then Decimal.D4 r else
  if eqc c 53 then Decimal.D5 r else
  if eqc c 54 then Decimal.D6 r else
  if eqc c 55 then Decimal.D7 r else
  if eqc c 56 then Decimal.D8 r else Decimal.D9 r.

Fixpoint chars_uint (s : jsstring) : Decimal.uint :=
  match s with
  | [] => Decimal.Nil
  | c :: t => cons_digit c (chars_uint t)
  end.

(** [String(n)] *)
Definition dec (n : nat) : jsstring := uint_chars (Nat.to_uint n).

(** [parseInt(ds, 10)] on a string matched by [\d+].  The numbers of the
    code are doubles, which hold every integer up to 2^53; the value here is
    the exact one, as the code's is up to that bound.  The IDs and indices
    the code writes stay below it. *)
Definition parseInt (ds : jsstring) : nat := Nat.of_uint (chars_uint ds).

End Js.
Import Js.

(** ** Regular-expression matching

    Every regular expression of the source is embedded as an _anchored
    matcher_: a function that, given the text at a position, returns the match
    found there (with its capture groups) and the text after it, or [None].
    None of the expressions looks behind the starting position, so a match at
    position [i] of [s] is a match at the head of [s.slice(i)]. *)

Module Regex.

Section Search.
Context {M : Type}.
Variable matcher : jsstring -> option (M * jsstring).

(** The leftmost match: the engine tries the start positions from left to
    right (also the position at the end of the input). *)
Fixpoint search (s : jsstring) : option (jsstring * M * jsstring) :=
  match matcher s with
  | Some (m, rest) => Some ([], m, rest)
  | None =>
      match s with
      | [] => None
      | c :: t =>
          match search t with
          | Some (pre, m, rest) => Some (c :: pre, m, rest)
          | None => None
          end
      end
  end.

(** All matches of a [/g] expression from left to right, each with the
    unmatched text before it, and the unmatched tail: the loop
    [while ((m = re.exec(s)) !== null)] as well as the iteration inside
    [s.replace(re, fn)].  Matches of the expressions used here are never
    empty, so [S (length s)] rounds always reach the end of the input (see
    [scan_fuel_enough]). *)
Fixpoint scan (fuel : nat) (s : jsstring) : list (jsstring * M) * jsstring :=
  match fuel with
  | O => ([], s)
  | S f =>
      match search s with
      | None => ([], s)
      | Some (pre, m, rest) =>
          let '(ms, tl) := scan f rest in ((pre, m) :: ms, tl)
      end
  end.

Definition matches (s : jsstring) : list (jsstring * M) * jsstring :=
  scan (S (length s)) s.

Definition exec_all (s : jsstring) : list M := snd <$> fst (matches s).

(** A matcher is productive when every match takes at least one
    character. *)
Definition productive : Prop :=
  forall s m rest, matcher s = Some (m, rest) -> (length rest < length s)%nat.
End Search.

End Regex.
Import Regex.

(** ** Exceptions *)

Inductive exn : Type :=
  | SyntaxError
  | TypeError
  | Error (message : jsstring).

Definition result (A : Type) : Type := exn + A.

Definition ok {A} (a : A) : result A := inr a.
Definition throw {A} (e : exn) : result A := inl e.

#[global] Instance result_ret : MRet result := fun A a => inr a.
#[global] Instance result_bind : MBind result := fun A B k r =>
  match r with
  | inl e => inl e
  | inr a => k a
  end.

(** [try { body } catch { handler }] *)
Definition try_catch {A} (body : result A) (handler : exn -> result A) : result A :=
  match body with
  | inl e => handler e
  | inr a => inr a
  end.

(** ** JSON

    [JSON.stringify] of the fragment record and a parser for the JSON grammar
    (ECMA-404), which is what [JSON.parse] accepts. *)

Module Json.

Inductive json : Type :=
  | JNull
  | JBool (b : bool)
  | JNum (lexeme : jsstring)
  | JStr (s : jsstring)
  | JArr (items : list json)
  | JObj (members : list (jsstring * json)).

Definition hex_digit (d : N) : char :=
  if d <? 10 then 48 + d else 87 + d.

(** [\uXXXX] with lowercase digits, as [JSON.stringify] writes it. *)
Definition unicode_escape (c : char) : jsstring :=
  [92; 117; hex_digit (c / 4096 mod 16); hex_digit (c / 256 mod 16);
   hex_digit (c / 16 mod 16); hex_digit (c mod 16)].

Definition is_high_surrogate (c : char) : bool := (55296 <=? c) && (c <=? 56319).
Definition is_low_surrogate (c : char) : bool := (56320 <=? c) && (c <=? 57343).

(** QuoteJSONString without the surrounding quotes.  The standard iterates
    over code points: a high surrogate followed by a low surrogate is one code
    point and is copied, a lone surrogate is escaped. *)
Fixpoint quote_chars (s : jsstring) : jsstring :=
  match s with
  | [] => []
  | c :: t =>
      if eqc c 8 then 92 :: 98 :: quote_chars t
      else if eqc c 9 then 92 :: 116 :: quote_chars t
      else if eqc c 10 then 92 :: 110 :: quote_chars t
      else if eqc c 12 then 92 :: 102 :: quote_chars t
      else if eqc c 13 then 92 :: 114 :: quote_chars t
      else if eqc c 34 then 92 :: 34 :: quote_chars t
      else if eqc c 92 then 92 :: 92 :: quote_chars t
      else if c <? 32 then unicode_escape c ++ quote_chars t
      else if is_high_surrogate c then
        match t with
        | d :: t' =>
            if is_low_surrogate d then c :: d :: quote_chars t'
            else unicode_escape c ++ quote_chars t
        | [] => unicode_escape c
        end
      else if is_low_surrogate c then unicode_escape c ++ quote_chars t
      else c :: quote_chars t
  end.

Definition quote (s : jsstring) : jsstring := 34 :: quote_chars s ++ [34].

Definition k_before : jsstring := Eval vm_compute in lit "before".
Definition k_after : jsstring := Eval vm_compute in lit "after".
Definition k_tTemplate : jsstring := Eval vm_compute in lit "tTemplate".

Definition s_json_before : jsstring :=
  Eval vm_compute in lit "{" ++ quote k_before ++ lit ":".
Definition s_json_after : jsstring :=
  Eval vm_compute in lit "," ++ quote k_after ++ lit ":".
Definition s_json_tTemplate : jsstring :=
  Eval vm_compute in lit "," ++ quote k_tTemplate ++ lit ":".
Definition s_json_end : jsstring := Eval vm_compute in lit "}".

(** [JSON.stringify({ before, after, tTemplate })] for three strings: the
    three members in this order, without white space. *)
Definition stringify_fragment (before after tTemplate : jsstring) : jsstring :=
  s_json_before ++ quote before ++
  s_json_after ++ quote after ++
  s_json_tTemplate ++ quote tTemplate ++ s_json_end.

(** The value the stored text of a text-run fragment denotes. *)
Definition fragment_object (before after tTemplate : jsstring) : json :=
  JObj [(k_before, JStr before); (k_after, JStr after);
        (k_tTemplate, JStr tTemplate)].

(** *** Parsing *)

Definition is_json_ws (c : char) : bool :=
  eqc c 32 || eqc c 9 || eqc c 10 || eqc c 13.

Definition skip_ws (s : jsstring) : jsstring := drop_while is_json_ws s.

Definition hex_value (c : char) : option N :=
  if is_digit c then Some (c - 48)
  else if (97 <=? c) && (c <=? 102) then Some (c - 87)
  else if (65 <=? c) && (c <=? 70) then Some (c - 55)
  else None.

Definition hex4 (a b c d : char) : option char :=
  match hex_value a, hex_value b, hex_value c, hex_value d with
  | Some x, Some y, Some z, Some w => Some (x * 4096 + y * 256 + z * 16 + w)
  | _, _, _, _ => None
  end.

Definition simple_escape (e : char) : option char :=
  if eqc e 34 then Some 34
  else if eqc e 92 then Some 92
  else if eqc e 47 then Some 47
  else if eqc e 98 then Some 8
  else if eqc e 102 then Some 12
  else if eqc e 110 then Some 10
  else if eqc e 114 then Some 13
  else if eqc e 116 then Some 9
  else None.

(** The characters of a string literal after its opening quote, up to and
    including the closing quote. *)
Fixpoint parse_chars (s : jsstring) : option (jsstring * jsstring) :=
  match s with
  | [] => None
  | c :: t =>
      if eqc c 34 then Some ([], t)
      else if eqc c 92 then
        match t with
        | [] => None
        | e :: t1 =>
            if eqc e 117 then
              match t1 with
              | h1 :: h2 :: h3 :: h4 :: t2 =>
                  match hex4 h1 h2 h3 h4, parse_chars t2 with
                  | Some u, Some (r, rest) => Some (u :: r, rest)
                  | _, _ => None
                  end
              | _ => None
              end
            else
              match simple_escape e, parse_chars t1 with
              | Some u, Some (r, rest) => Some (u :: r, rest)
              | _, _ => None
              end
        end
      else if c <? 32 then None
      else
        match parse_chars t with
        | Some (r, rest) => Some (c :: r, rest)
        | None => None
        end
  end.

(** A number literal: an optional minus sign, an integer part ([0] or a
    non-zero digit followed by digits), an optional fraction and an optional
    exponent. *)
Definition digits1 (s : jsstring) : option (jsstring * jsstring) :=
  match span is_digit s with
  | ([], _) => None
  | (ds, rest) => Some (ds, rest)
  end.

Definition parse_int_part (s : jsstring) : option (jsstring * jsstring) :=
  match s with
  | c :: t =>
      if eqc c 48 then Some ([48], t)
      else if is_digit c then digits1 s
      else None
  | [] => None
  end.

Definition parse_frac (s : jsstring) : jsstring * jsstring :=
  match s with
  | c :: t =>
      if eqc c 46 then
        match digits1 t with
        | Some (ds, rest) => (46 :: ds, rest)
        | None => ([], s)
        end
      else ([], s)
  | [] => ([], s)
  end.

Definition parse_exp (s : jsstring) : jsstring * jsstring :=
  match s with
  | c :: t =>
      if eqc c 101 || eqc c 69 then
        match t with
        | sg :: t' =>
            if eqc sg 43 || eqc sg 45 then
              match digits1 t' with
              | Some (ds, rest) => (c :: sg :: ds, rest)
              | None => ([], s)
              end
            else
              match digits1 t with
              | Some (ds, rest) => (c :: ds, rest)
              | None => ([], s)
              end
        | [] => ([], s)
        end
      else ([], s)
  | [] => ([], s)
  end.

Definition parse_number (s : jsstring) : option (jsstring * jsstring) :=
  let '(sign, s1) :=
    match s with
    | c :: t => if eqc c 45 then ([45], t) else ([], s)
    | [] => ([], s)
    end in
  match parse_int_part s1 with
  | None => None
  | Some (ip, s2) =>
      let '(fp, s3) := parse_frac s2 in
      let '(ep, s4) := parse_exp s3 in
      Some (sign ++ ip ++ fp ++ ep, s4)
  end.

(** Values.  The fuel bounds the number of nested and consecutive values;
    every value takes at least one character, so [2 * length s + 2] is never
    exhausted. *)
Fixpoint parse_value (fuel : nat) (s : jsstring) : option (json * jsstring) :=
  match fuel with
  | O => None
  | S f =>
      match skip_ws s with
      | [] => None
      | c :: t =>
          if eqc c 34 then
            match parse_chars t with
            | Some (str, rest) => Some (JStr str, rest)
            | None => None
            end
          else if eqc c 91 then
            match skip_ws t with
            | d :: t' =>
                if eqc d 93 then Some (JArr [], t')
                else
                  match parse_elements f t with
                  | Some (items, rest) => Some (JArr items, rest)
                  | None => None
                  end
            | [] => None
            end
          else if eqc c 123 then
            match skip_ws t with
            | d :: t' =>
                if eqc d 125 then Some (JObj [], t')
                else
                  match parse_members f t with
                  | Some (ms, rest) => Some (JObj ms, rest)
                  | None => None
                  end
            | [] => None
            end
          else
            match strip_prefix (lit "true") (c :: t),
                  strip_prefix (lit "false") (c :: t),
                  strip_prefix (lit "null") (c :: t) with
            | Some rest, _, _ => Some (JBool true, rest)
            | _, Some rest, _ => Some (JBool false, rest)
            | _, _, Some rest => Some (JNull, rest)
            | None, None, None =>
                match parse_number (c :: t) with
                | Some (lx, rest) => Some (JNum lx, rest)
                | None => None
                end
            end
      end
  end

(** The elements of an array after its opening bracket, up to the closing
    bracket. *)
with parse_elements (fuel : nat) (s : jsstring) : option (list json * jsstring) :=
  match fuel with
  | O => None
  | S f =>
      match parse_value f s with
      | None => None
      | Some (v, rest) =>
          match skip_ws rest with
          | d :: t =>
              if eqc d 93 then Some ([v], t)
              else if eqc d 44 then
                match parse_elements f t with
                | Some (vs, rest') => Some (v :: vs, rest')
                | None => None
                end
              else None
          | [] => None
          end
      end
  end

(** The members of an object after its opening brace, up to the closing
    brace. *)
with parse_members (fuel : nat) (s : jsstring) : option (list (jsstring * json) * jsstring) :=
  match fuel with
  | O => None
  | S f =>
      match skip_ws s with
      | q :: t =>
          if eqc q 34 then
            match parse_chars t with
            | None => None
            | Some (key, rest) =>
                match skip_ws rest with
                | col :: t1 =>
                    if eqc col 58 then
                      match parse_value f t1 with
                      | None => None
                      | Some (v, rest1) =>
                          match skip_ws rest1 with
                          | d :: t2 =>
                              if eqc d 125 then Some ([(key, v)], t2)
                              else if eqc d 44 then
                                match parse_members f t2 with
                                | Some (ms, rest2) => Some ((key, v) :: ms, rest2)
                                | None => None
                                end
                              else None
                          | [] => None
                          end
                      end
                    else None
                | [] => None
                end
            end
          else None
      | [] => None
      end
  end.

(** [JSON.parse(text)]; a [SyntaxError] when the text is not one JSON value
    surrounded by optional white space. *)
Definition parse (text : jsstring) : result json :=
  match parse_value (2 * length text + 2) text with
  | Some (v, rest) =>
      match skip_ws rest with
      | [] => ok v
      | _ => throw SyntaxError
      end
  | None => throw SyntaxError
  end.

(** Property read [v.key] on a parsed value that is not [null]: the last
    member of that name for an object ([JSON.parse] keeps the last of
    duplicate names), [undefined] ([None]) otherwise. *)
Fixpoint member (key : jsstring) (ms : list (jsstring * json)) : option json :=
  match ms with
  | [] => None
  | (k, v) :: rest =>
      match member key rest with
      | Some w => Some w
      | None => if decide (k = key) then Some v else None
      end
  end.

Definition get_prop (v : json) (key : jsstring) : option json :=
  match v with
  | JObj ms => member key ms
  | _ => None
  end.

End Json.
Import Json.

(** ** xml-chunker.ts *)

Module Chunker.

(** A paragraph chunk ready for translation. *)
Record ParagraphChunk : Type := {
  index : nat;
  simplifiedText : jsstring;
  hasText : bool
}.

#[global] Instance ParagraphChunk_eq_dec : EqDecision ParagraphChunk.
Proof. solve_decision. Defined.

Definition s_p_open : jsstring := Eval vm_compute in lit "<w:p".
Definition s_p_close : jsstring := Eval vm_compute in lit "</w:p>".
Definition s_r_open : jsstring := Eval vm_compute in lit "<w:r".
Definition s_r_close : jsstring := Eval vm_compute in lit "</w:r>".
Definition s_t_open : jsstring := Eval vm_compute in lit "<w:t".
Definition s_t_close : jsstring := Eval vm_compute in lit "</w:t>".
Definition s_TEXT : jsstring := Eval vm_compute in lit "{{TEXT}}".
Definition s_RUN : jsstring := Eval vm_compute in lit "[RUN:".
Definition s_RUN_end : jsstring := Eval vm_compute in lit "[/RUN:".
Definition s_TAG : jsstring := Eval vm_compute in lit "[TAG:".
Definition s_rb : jsstring := Eval vm_compute in lit "]".
Definition s_gt : jsstring := Eval vm_compute in lit ">".

Definition not_gt (c : char) : bool := negb (eqc c 62).
Definition not_lt (c : char) : bool := negb (eqc c 60).

(** The paragraph expression: [<w:p], one white-space character or [>], the
    shortest text that is followed by [</w:p>], and [</w:p>].  The lazy
    quantifier over every character stops at the first occurrence of the
    closing tag. *)
Definition para_at (s : jsstring) : option (jsstring * jsstring) :=
  match strip_prefix s_p_open s with
  | Some (c :: t) =>
      if is_space c || eqc c 62 then
        match find_sub s_p_close t with
        | Some (body, rest) => Some (s_p_open ++ c :: body ++ s_p_close, rest)
        | None => None
        end
      else None
  | _ => None
  end.

(** Extract paragraph blocks from document XML. *)
Definition chunkParagraphs (documentXml : jsstring) : list jsstring :=
  exec_all para_at documentXml.

(** The run expression: [<w:r], a word boundary, characters other than [>],
    [>], the shortest text followed by [</w:r>] (capture 1), [</w:r>].  The
    boundary after the word character [r] holds when no word character
    follows; the greedy class cannot cross the first [>]. *)
Record run_match : Type := { run_whole : jsstring; run_inner : jsstring }.

Definition run_at (s : jsstring) : option (run_match * jsstring) :=
  match strip_prefix s_r_open s with
  | Some t =>
      if match t with c :: _ => is_word c | [] => false end then None
      else
        let '(attrs, t1) := span not_gt t in
        match t1 with
        | _ :: t2 =>
            match find_sub s_r_close t2 with
            | Some (inner, rest) =>
                Some ({| run_whole := s_r_open ++ attrs ++ 62 :: inner ++ s_r_close;
                         run_inner := inner |}, rest)
            | None => None
            end
        | [] => None
        end
  | None => None
  end.

(** The text-node expression: [<w:t], optionally a white-space character
    followed by characters other than [>], then [>], characters other than
    [<] (capture 1), and [</w:t>]. *)
Record t_match : Type := { t_whole : jsstring; t_text : jsstring }.

Definition t_at (s : jsstring) : option (t_match * jsstring) :=
  match strip_prefix s_t_open s with
  | Some t =>
      let '(attrs, t1) :=
        match t with
        | c :: t' =>
            if is_space c then let '(a, r) := span not_gt t' in (c :: a, r)
            else ([], t)
        | [] => ([], t)
        end in
      match t1 with
      | g :: t2 =>
          if eqc g 62 then
            let '(text, t3) := span not_lt t2 in
            match strip_prefix s_t_close t3 with
            | Some rest =>
                Some ({| t_whole := s_t_open ++ attrs ++ 62 :: text ++ s_t_close;
                         t_text := text |}, rest)
            | None => None
            end
          else None
      | [] => None
      end
  | None => None
  end.

(** Extract plain text content from a paragraph XML string. *)
Definition extractTextContent (paragraphXml : jsstring) : jsstring :=
  concat (t_text <$> exec_all t_at paragraphXml).

(** The extraction state: the ID counter and the ID map.  [history] is a
    ghost field recording the calls [idTagMap.set(id, fragment)] in order. *)
Record ext_state : Type := {
  nextId : nat;
  idTagMap : gmap nat jsstring;
  history : list (nat * jsstring)
}.

Definition initial_state : ext_state :=
  {| nextId := 1; idTagMap := ∅; history := [] |}.

(** [const id = nextId++; idTagMap.set(id, fragment)] *)
Definition alloc (fragment : jsstring) (st : ext_state) : nat * ext_state :=
  (nextId st,
   {| nextId := S (nextId st);
      idTagMap := <[nextId st := fragment]> (idTagMap st);
      history := history st ++ [(nextId st, fragment)] |}).

(** The markers appended to [simplified]. *)
Inductive piece : Type :=
  | TagMarker (id : nat)
  | RunMarker (id : nat) (text : jsstring).

Definition render_piece (p : piece) : jsstring :=
  match p with
  | TagMarker id => s_TAG ++ dec id ++ s_rb
  | RunMarker id text =>
      s_RUN ++ dec id ++ s_rb ++ text ++ s_RUN_end ++ dec id ++ s_rb
  end.

Definition render (ps : list piece) : jsstring := concat (render_piece <$> ps).

Definition piece_id (p : piece) : nat :=
  match p with TagMarker id => id | RunMarker id _ => id end.

(** [if (span.trim()) { allocate; simplified += `[TAG:${id}]` }] *)
Definition opaque_span (span : jsstring) (acc : list piece * ext_state)
  : list piece * ext_state :=
  if truthy (trim span) then
    let '(id, st) := alloc span (snd acc) in (fst acc ++ [TagMarker id], st)
  else acc.

(** The fragment stored for a run with a text node: the run's markup before
    and after the text element, and the text element with its content replaced
    by the placeholder. *)
Definition text_run_fragment (whole : jsstring) (tm : t_match) : jsstring :=
  let tFull := t_whole tm in
  let text := t_text tm in
  let beforeText := slice whole 0 (indexOf whole tFull) in
  let afterText :=
    slice_from whole (indexOf whole tFull + Z.of_nat (length tFull)) in
  let closingBracket := (indexOf tFull s_gt + 1)%Z in
  let textStart := indexOf_from tFull text closingBracket in
  let tElementTemplate :=
    slice tFull 0 textStart ++ s_TEXT ++
    slice_from tFull (textStart + Z.of_nat (length text)) in
  stringify_fragment beforeText afterText tElementTemplate.

(** One iteration of the loop over the runs of a paragraph: [between] is
    [para.slice(lastIndex, runMatch.index)]. *)
Definition process_run (acc : list piece * ext_state)
    (m : jsstring * run_match) : list piece * ext_state :=
  let '(between, rm) := m in
  let acc1 :=
    match between with
    | [] => acc
    | _ => opaque_span between acc
    end in
  match search t_at (run_inner rm) with
  | Some (_, tm, _) =>
      let '(id, st) := alloc (text_run_fragment (run_whole rm) tm) (snd acc1) in
      (fst acc1 ++ [RunMarker id (t_text tm)], st)
  | None =>
      let '(id, st) := alloc (run_whole rm) (snd acc1) in
      (fst acc1 ++ [TagMarker id], st)
  end.

(** The markers of a paragraph that has text. *)
Definition simplify (para : jsstring) (st : ext_state) : list piece * ext_state :=
  let '(runs, trailing) := matches run_at para in
  let acc := foldl process_run ([], st) runs in
  match trailing with
  | [] => acc
  | _ => opaque_span trailing acc
  end.

(** A chunk together with the markers its [simplifiedText] was built from. *)
Record extracted : Type := { chunk : ParagraphChunk; markers : list piece }.

Definition extract_paragraph (i : nat) (para : jsstring) (st : ext_state)
  : extracted * ext_state :=
  if negb (truthy (trim (extractTextContent para))) then
    ({| chunk := {| index := i; simplifiedText := []; hasText := false |};
        markers := [] |}, st)
  else
    let '(ps, st') := simplify para st in
    ({| chunk := {| index := i; simplifiedText := render ps; hasText := true |};
        markers := ps |}, st').

Fixpoint extract_from (i : nat) (paragraphs : list jsstring) (st : ext_state)
  : list extracted * ext_state :=
  match paragraphs with
  | [] => ([], st)
  | para :: rest =>
      let '(e, st1) := extract_paragraph i para st in
      let '(es, st2) := extract_from (S i) rest st1 in
      (e :: es, st2)
  end.

Definition extraction (paragraphs : list jsstring) : list extracted * ext_state :=
  extract_from 0 paragraphs initial_state.

(** Replace XML tags within paragraph text runs with ID markers. *)
Definition replaceTagsWithIds (paragraphs : list jsstring)
  : list ParagraphChunk * gmap nat jsstring :=
  let '(es, st) := extraction paragraphs in (chunk <$> es, idTagMap st).

(** *** Reconstruction *)

Definition replace_char (c : char) (r : jsstring) (s : jsstring) : jsstring :=
  flat_map (fun x => if eqc x c then r else [x]) s.

(** Escape special XML characters in translated text: five global
    replacements, applied one after the other. *)
Definition escapeXml (text : jsstring) : jsstring :=
  replace_char 39 (lit "&apos;")
    (replace_char 34 (lit "&quot;")
      (replace_char 62 (lit "&gt;")
        (replace_char 60 (lit "&lt;")
          (replace_char 38 (lit "&amp;") text)))).

(** The entity that stands for a character after [escapeXml]. *)
Definition xml_entity (c : char) : jsstring :=
  if eqc c 38 then lit "&amp;"
  else if eqc c 60 then lit "&lt;"
  else if eqc c 62 then lit "&gt;"
  else if eqc c 34 then lit "&quot;"
  else if eqc c 39 then lit "&apos;"
  else [c].

(** GetSubstitution for [String.prototype.replace] with a string pattern: the
    replacement text is not copied literally, [$$] stands for a dollar sign,
    [$&] for the matched text, [$`] for the text before the match and [$']
    for the text after it.  A string pattern has no capture groups, so a
    dollar sign before anything else stands for itself. *)
Fixpoint get_substitution (matched before after replacement : jsstring) : jsstring :=
  match replacement with
  | [] => []
  | c :: t =>
      if eqc c 36 then
        match t with
        | d :: t' =>
            if eqc d 36 then 36 :: get_substitution matched before after t'
            else if eqc d 38 then matched ++ get_substitution matched before after t'
            else if eqc d 96 then before ++ get_substitution matched before after t'
            else if eqc d 39 then after ++ get_substitution matched before after t'
            else 36 :: get_substitution matched before after t
        | [] => [36]
        end
      else c :: get_substitution matched before after t
  end.

(** [s.replace(pattern, replacement)] for two strings: the first occurrence
    only. *)
Definition replace_first (s pattern replacement : jsstring) : jsstring :=
  match find_sub pattern s with
  | None => s
  | Some (before, after) =>
      before ++ get_substitution pattern before after replacement ++ after
  end.

(** [s.replace(re, fn)] for a [/g] expression and a callback. *)
Fixpoint replace_loop {M} (fn : M -> result jsstring)
    (ms : list (jsstring * M)) (tl : jsstring) : result jsstring :=
  match ms with
  | [] => ok tl
  | (pre, m) :: rest =>
      r ← fn m;
      out ← replace_loop fn rest tl;
      ok (pre ++ r ++ out)
  end.

Definition replace_all {M} (matcher : jsstring -> option (M * jsstring))
    (fn : M -> result jsstring) (s : jsstring) : result jsstring :=
  let '(ms, tl) := matches matcher s in replace_loop fn ms tl.

(** The paired marker: [[RUN:], digits (capture 1), []], the shortest text
    (capture 2) followed by [[/RUN:], the same digits and []]. *)
Record run_marker : Type := { rm_id : jsstring; rm_text : jsstring }.

Definition run_marker_at (s : jsstring) : option (run_marker * jsstring) :=
  match strip_prefix s_RUN s with
  | Some t =>
      match span is_digit t with
      | ([], _) => None
      | (ds, t1) =>
          match strip_prefix s_rb t1 with
          | Some t2 =>
              match find_sub (s_RUN_end ++ ds ++ s_rb) t2 with
              | Some (text, rest) => Some ({| rm_id := ds; rm_text := text |}, rest)
              | None => None
              end
          | None => None
          end
      end
  | None => None
  end.

(** The unpaired marker: [[TAG:], digits (capture 1), []]. *)
Definition tag_marker_at (s : jsstring) : option (jsstring * jsstring) :=
  match strip_prefix s_TAG s with
  | Some t =>
      match span is_digit t with
      | ([], _) => None
      | (ds, t1) =>
          match strip_prefix s_rb t1 with
          | Some rest => Some (ds, rest)
          | None => None
          end
      end
  | None => None
  end.

Section Restore.
(** The string a parsed JSON number, array or object converts to when it is
    an operand of [+] next to a string (ToPrimitive, then ToString); [None]
    when the conversion raises a [TypeError].  No fragment written by
    [replaceTagsWithIds] has such a field; the conversion of these values is
    left to the platform. *)
Variable to_primitive : json -> option jsstring.

Definition to_string (v : option json) : result jsstring :=
  match v with
  | None => ok (lit "undefined")
  | Some (JStr s) => ok s
  | Some JNull => ok (lit "null")
  | Some (JBool true) => ok (lit "true")
  | Some (JBool false) => ok (lit "false")
  | Some w =>
      match to_primitive w with
      | Some s => ok s
      | None => throw TypeError
      end
  end.

(** [const { before, after, tTemplate } = value], which raises a [TypeError]
    on [null]. *)
Definition destructure (v : json)
  : result (option json * option json * option json) :=
  match v with
  | JNull => throw TypeError
  | _ => ok (get_prop v k_before, get_prop v k_after, get_prop v k_tTemplate)
  end.

(** [tTemplate.replace(pattern, replacement)]: only a string has the
    method. *)
Definition call_replace (tTemplate : option json) (pattern replacement : jsstring)
  : result jsstring :=
  match tTemplate with
  | Some (JStr t) => ok (replace_first t pattern replacement)
  | _ => throw TypeError
  end.

(** The body of the [try] block of the paired-marker callback. *)
Definition fill_template (stored translatedText : jsstring) : result jsstring :=
  v ← Json.parse stored;
  '(before, after, tTemplate) ← destructure v;
  tElement ← call_replace tTemplate s_TEXT (escapeXml translatedText);
  b ← to_string before;
  a ← to_string after;
  ok (b ++ tElement ++ a).

(** The callback of the paired-marker replacement. *)
Definition run_replacer (idTagMap : gmap nat jsstring) (m : run_marker)
  : result jsstring :=
  let translatedText := rm_text m in
  let id := parseInt (rm_id m) in
  match idTagMap !! id with
  | None => ok translatedText
  | Some stored =>
      if negb (truthy stored) then ok translatedText
      else try_catch (fill_template stored translatedText)
                     (fun _ => ok translatedText)
  end.

(** The callback of the unpaired-marker replacement:
    [idTagMap.get(id) ?? ""]. *)
Definition tag_replacer (idTagMap : gmap nat jsstring) (idStr : jsstring)
  : result jsstring :=
  ok (default [] (idTagMap !! parseInt idStr)).

(** Convert a simplified translated paragraph back to full XML. *)
Definition restoreParagraphXml (simplified : jsstring)
    (idTagMap : gmap nat jsstring) : result jsstring :=
  xml ← replace_all run_marker_at (run_replacer idTagMap) simplified;
  replace_all tag_marker_at (tag_replacer idTagMap) xml.

(** [translatedByIndex]: paragraph index to translated simplified text. *)
Definition translatedByIndex (translatedChunks : list ParagraphChunk)
  : gmap nat jsstring :=
  foldl (fun m c => if hasText c then <[index c := simplifiedText c]> m else m)
        ∅ translatedChunks.

(** The replacement callback of [reconstructXml], applied to the paragraphs
    from left to right; [paragraphIndex] counts them. *)
Fixpoint rebuild (byIndex idTagMap : gmap nat jsstring) (paragraphIndex : nat)
    (ms : list (jsstring * jsstring)) (tl : jsstring) : result jsstring :=
  match ms with
  | [] => ok tl
  | (pre, originalParagraph) :: rest =>
      r ← match byIndex !! paragraphIndex with
          | None => ok originalParagraph
          | Some translated => restoreParagraphXml translated idTagMap
          end;
      out ← rebuild byIndex idTagMap (S paragraphIndex) rest tl;
      ok (pre ++ r ++ out)
  end.

(** Reconstruct the full document XML by replacing original paragraphs with
    translated ones, restoring all XML tags from the ID map. *)
Definition reconstructXml (originalDocumentXml : jsstring)
    (translatedChunks : list ParagraphChunk) (idTagMap : gmap nat jsstring)
  : result jsstring :=
  let '(ms, tl) := matches para_at originalDocumentXml in
  rebuild (translatedByIndex translatedChunks) idTagMap 0 ms tl.
End Restore.

End Chunker.
Import Chunker.

(** ** translator.ts *)

Module Translator.

Definition MAX_RETRIES : nat := 2.

(** What one call of the translation backend does.  The agent session is an
    external collaborator: the session can fail outside the [try] block (its
    creation or its disposal raises), the prompt can fail inside it, or the
    prompt completes and the text of the last assistant message is left in
    [resultText]. *)
Inductive backend_outcome : Type :=
  | SessionFailure (e : exn)
  | PromptFailure
  | Reply (resultText : jsstring).

(** The options the orchestration reads.  [concurrency] and [batchSize] are
    positive integers (the tool schema sets their minimum to 1); [batchSize]
    is optional.  [signal] gives, when a signal is passed, the value of
    [signal.aborted] at each successive read; [onProgress] tells whether a
    callback is passed. *)
Record TranslateOptions : Type := {
  concurrency : positive;
  batchSize : option positive;
  signal : option (nat -> bool);
  onProgress : bool
}.

(** The observable effects of a run: the batches handed to the backend in
    dispatch order, the messages passed to [onProgress], the number of reads
    of [signal.aborted] so far, and the documents handed to [repackDocx],
    whether the call then succeeds or raises.  The last field is not an
    effect but a fact of the environment the program does not control: when
    several calls awaited together reject, [settles k] tells which of the
    rejections settles first, for the wave awaited after [k] calls were
    dispatched. *)
Record world : Type := {
  dispatched : list (list ParagraphChunk);
  progress : list jsstring;
  checks : nat;
  repacked : list jsstring;
  settles : nat -> nat
}.

Definition initial_world : world :=
  {| dispatched := []; progress := []; checks := 0; repacked := [];
     settles := fun _ => 0%nat |}.

Definition log_dispatch (batch : list ParagraphChunk) (w : world) : world :=
  {| dispatched := dispatched w ++ [batch]; progress := progress w;
     checks := checks w; repacked := repacked w; settles := settles w |}.

Definition log_progress (msg : jsstring) (w : world) : world :=
  {| dispatched := dispatched w; progress := progress w ++ [msg];
     checks := checks w; repacked := repacked w; settles := settles w |}.

Definition log_check (w : world) : world :=
  {| dispatched := dispatched w; progress := progress w;
     checks := S (checks w); repacked := repacked w; settles := settles w |}.

Definition log_repack (xml : jsstring) (w : world) : world :=
  {| dispatched := dispatched w; progress := progress w;
     checks := checks w; repacked := repacked w ++ [xml];
     settles := settles w |}.

Record BatchResult : Type := {
  translated : list ParagraphChunk;
  missing : list ParagraphChunk
}.

Definition s_pid_open : jsstring := Eval vm_compute in lit "<p id=" ++ [34].
Definition s_pid_mid : jsstring := Eval vm_compute in 34 :: lit ">".
Definition s_pid_close : jsstring := Eval vm_compute in lit "</p>".

(** The reply expression: the opening tag with its quoted digits
    (capture 1), the shortest text (capture 2) followed by the closing tag. *)
Record p_match : Type := { p_id : jsstring; p_body : jsstring }.

Definition p_at (s : jsstring) : option (p_match * jsstring) :=
  match strip_prefix s_pid_open s with
  | Some t =>
      match span is_digit t with
      | ([], _) => None
      | (ds, t1) =>
          match strip_prefix s_pid_mid t1 with
          | Some t2 =>
              match find_sub s_pid_close t2 with
              | Some (body, rest) => Some ({| p_id := ds; p_body := body |}, rest)
              | None => None
              end
          | None => None
          end
      end
  | None => None
  end.

(** [batch.find((c) => c.index === id)] *)
Definition find_chunk (batch : list ParagraphChunk) (id : nat)
  : option ParagraphChunk :=
  list_find (fun c => index c = id) batch ≫= fun p => Some (snd p).

(** [{ ...original, simplifiedText: translatedText || original.simplifiedText,
    hasText: true }] *)
Definition accepted (original : ParagraphChunk) (translatedText : jsstring)
  : ParagraphChunk :=
  {| index := index original;
     simplifiedText :=
       if truthy translatedText then translatedText
       else simplifiedText original;
     hasText := true |}.

(** One iteration of the loop over the matches of the reply. *)
Definition accept_match (batch : list ParagraphChunk)
    (acc : list ParagraphChunk * gset nat) (m : p_match)
  : list ParagraphChunk * gset nat :=
  let id := parseInt (p_id m) in
  let translatedText := trim (p_body m) in
  match find_chunk batch id with
  | Some original =>
      (fst acc ++ [accepted original translatedText], snd acc ∪ {[id]})
  | None => acc
  end.

Definition reply_fold (batch : list ParagraphChunk) (ms : list p_match)
  : list ParagraphChunk * gset nat :=
  foldl (accept_match batch) ([], ∅) ms.

(** Parse results: the units found in the reply, and the units of the batch
    the reply does not mention. *)
Definition parse_reply (batch : list ParagraphChunk) (resultText : jsstring)
  : BatchResult :=
  let '(results, foundIds) := reply_fold batch (exec_all p_at resultText) in
  {| translated := results;
     missing := filter (fun c => index c ∉ foundIds) batch |}.

(** The prompt sent for a batch carries each unit between an opening tag
    with its index and a closing tag, joined by line feeds. *)
Definition inputContent (batch : list ParagraphChunk) : jsstring :=
  join [10]
    ((fun c => s_pid_open ++ dec (index c) ++ s_pid_mid ++ simplifiedText c
               ++ s_pid_close) <$> batch).

(** [results[i]] read from an array that may have holes: [undefined] for a
    hole and past the end. *)
Definition slot (results : list (option ParagraphChunk)) (i : nat)
  : option ParagraphChunk :=
  results !! i ≫= id.

(** The indices a reply mentions. *)
Definition reply_ids (resultText : jsstring) : list nat :=
  parseInt ∘ p_id <$> exec_all p_at resultText.

Section Orchestration.
(** The backend: what the [k]-th dispatched call does with its batch.  The
    function is arbitrary, so every behaviour of the backend is covered;
    the order in which the calls of a wave complete matters only for which
    rejection is reported, which the world tells. *)
Variable respond : nat -> list ParagraphChunk -> backend_outcome.
Variable options : TranslateOptions.

(** Translate a batch of chunks using a single agent session. *)
Definition translateBatch (batch : list ParagraphChunk) (w : world)
  : result BatchResult * world :=
  match batch with
  | [] => (ok {| translated := []; missing := [] |}, w)
  | _ =>
      let w' := log_dispatch batch w in
      match respond (length (dispatched w)) batch with
      | SessionFailure e => (throw e, w')
      | PromptFailure => (ok {| translated := []; missing := batch |}, w')
      | Reply resultText => (ok (parse_reply batch resultText), w')
      end
  end.

(** [currentBatches.map((batch) => translateBatch(batch, options))]: every
    call of the wave is started. *)
Fixpoint dispatch_wave (wave : list (list ParagraphChunk)) (w : world)
  : list (result BatchResult) * world :=
  match wave with
  | [] => ([], w)
  | batch :: rest =>
      let '(r, w1) := translateBatch batch w in
      let '(rs, w2) := dispatch_wave rest w1 in
      (r :: rs, w2)
  end.

(** The rejections and the fulfilled values among the outcomes of the
    promises, in the order of the promises. *)
Definition rejections {A} (rs : list (result A)) : list exn :=
  omap (fun r => match r with inl e => Some e | inr _ => None end) rs.

Definition fulfilled {A} (rs : list (result A)) : list A :=
  omap (fun r => match r with inl _ => None | inr a => Some a end) rs.

(** [await Promise.all(promises)]: the values in the order of the promises
    when all are fulfilled; otherwise the rejection that settles first,
    which is the [first]-th of the rejections (the first in the order of
    the promises when [first] is out of range). *)
Definition promise_all {A} (first : nat) (rs : list (result A))
  : result (list A) :=
  match rejections rs with
  | [] => ok (fulfilled rs)
  | e :: es => throw (default e ((e :: es) !! first))
  end.

(** [if (options.signal?.aborted)] *)
Definition read_aborted (w : world) : bool * world :=
  match signal options with
  | None => (false, w)
  | Some sig => (sig (checks w), log_check w)
  end.

(** [options.onProgress?.(message)]; the callback is taken to return
    normally. *)
Definition report (message : jsstring) (w : world) : world :=
  if onProgress options then log_progress message w else w.

(** [results[i] = chunk] on an array that may have holes: a write past the
    end extends the array. *)
Definition array_set (results : list (option ParagraphChunk)) (i : nat)
    (c : ParagraphChunk) : list (option ParagraphChunk) :=
  if decide (i < length results)%nat then <[i := Some c]> results
  else results ++ replicate (i - length results)%nat None ++ [Some c].

Definition store_all (results : list (option ParagraphChunk))
    (cs : list ParagraphChunk) : list (option ParagraphChunk) :=
  foldl (fun res c => array_set res (index c) c) results cs.

(** The loop over the results of a wave: store the translated chunks and
    collect the missing ones. *)
Definition absorb
    (st : list (option ParagraphChunk) * list ParagraphChunk)
    (brs : list BatchResult)
  : list (option ParagraphChunk) * list ParagraphChunk :=
  foldl (fun st br => (store_all (fst st) (translated br), snd st ++ missing br))
        st brs.

(** Consecutive slices of [step] elements: the loop
    [for (i = 0; i < l.length; i += step) push(l.slice(i, i + step))]. *)
Fixpoint slices_aux {A} (fuel step : nat) (l : list A) : list (list A) :=
  match fuel with
  | O => []
  | S f =>
      match l with
      | [] => []
      | _ => take step l :: slices_aux f step (drop step l)
      end
  end.

Definition slices {A} (step : positive) (l : list A) : list (list A) :=
  slices_aux (length l) (Pos.to_nat step) l.

Definition aborted_error : exn := Error (lit "Translation aborted").

(** The loop over the waves, shared by the first pass and the retries. *)
Fixpoint run_waves (waves : list (list (list ParagraphChunk)))
    (st : list (option ParagraphChunk) * list ParagraphChunk) (w : world)
  : result (list (option ParagraphChunk) * list ParagraphChunk) * world :=
  match waves with
  | [] => (ok st, w)
  | currentBatches :: rest =>
      let '(ab, w1) := read_aborted w in
      if ab then (throw aborted_error, w1)
      else
        let '(rs, w2) := dispatch_wave currentBatches w1 in
        match promise_all (settles w2 (length (dispatched w2))) rs with
        | inl e => (throw e, w2)
        | inr batchResults => run_waves rest (absorb st batchResults) w2
        end
  end.

Definition ids_text (cs : list ParagraphChunk) : jsstring :=
  join (lit ", ") (dec ∘ index <$> cs).

Definition retry_message (retry : nat) (allMissing : list ParagraphChunk)
  : jsstring :=
  lit "Retry " ++ dec retry ++ lit "/" ++ dec MAX_RETRIES ++ lit ": " ++
  dec (length allMissing) ++ lit " chunks missing (ids: " ++
  ids_text allMissing ++ lit "), retranslating...".

Definition warning_message (allMissing : list ParagraphChunk) : jsstring :=
  lit "Warning: " ++ dec (length allMissing) ++
  lit " chunks could not be translated after " ++ dec MAX_RETRIES ++
  lit " retries (ids: " ++ ids_text allMissing ++
  lit "). Keeping original text.".

(** The retry loop; [remaining] is [MAX_RETRIES + 1 - retry]. *)
Fixpoint retry_loop (remaining retry : nat)
    (results : list (option ParagraphChunk))
    (allMissing : list ParagraphChunk) (w : world)
  : result (list (option ParagraphChunk) * list ParagraphChunk) * world :=
  match remaining, allMissing with
  | O, _ | _, [] => (ok (results, allMissing), w)
  | S remaining', _ :: _ =>
      let '(ab, w1) := read_aborted w in
      if ab then (throw aborted_error, w1)
      else
        let w2 := report (retry_message retry allMissing) w1 in
        let retryBatches := (fun c => [c]) <$> allMissing in
        match run_waves (slices (concurrency options) retryBatches)
                        (results, []) w2 with
        | (inl e, w3) => (throw e, w3)
        | (inr (results', stillMissing), w3) =>
            retry_loop remaining' (S retry) results' stillMissing w3
        end
  end.

(** A chunk is sent for translation when it has text and its simplified
    text is not blank. *)
Definition translatable (c : ParagraphChunk) : bool :=
  hasText c && truthy (trim (simplifiedText c)).

(** The complementary filter:
    [!c.hasText || !c.simplifiedText.trim()]. *)
Definition passes_through (c : ParagraphChunk) : bool :=
  negb (hasText c) || negb (truthy (trim (simplifiedText c))).

Definition default_batchSize : positive := 50%positive.

(** Translate all chunks in parallel with bounded concurrency. *)
Definition translateChunksInParallel (chunks : list ParagraphChunk) (w : world)
  : result (list (option ParagraphChunk)) * world :=
  let results := replicate (length chunks) None in
  let size := default default_batchSize (batchSize options) in
  let toTranslate := List.filter translatable chunks in
  let passThrough := List.filter passes_through chunks in
  let results := store_all results passThrough in
  let batches := slices size toTranslate in
  match run_waves (slices (concurrency options) batches) (results, []) w with
  | (inl e, w1) => (throw e, w1)
  | (inr (results, allMissing), w1) =>
      match retry_loop MAX_RETRIES 1 results allMissing w1 with
      | (inl e, w2) => (throw e, w2)
      | (inr (results, allMissing), w2) =>
          match allMissing with
          | [] => (ok results, w2)
          | _ =>
              (ok (store_all results allMissing),
               report (warning_message allMissing) w2)
          end
      end
  end.
End Orchestration.

(** *** Vocabulary of the statements *)

(** The result a batch can have when its call does not reject. *)
Inductive batch_result (respond : nat -> list ParagraphChunk -> backend_outcome)
  : list ParagraphChunk -> BatchResult -> Prop :=
  | batch_empty :
      batch_result respond [] {| translated := []; missing := [] |}
  | batch_failed k batch :
      batch <> [] -> respond k batch = PromptFailure ->
      batch_result respond batch {| translated := []; missing := batch |}
  | batch_replied k batch text :
      batch <> [] -> respond k batch = Reply text ->
      batch_result respond batch (parse_reply batch text).

(** Why a call can reject: cancellation was observed, or a session failed. *)
Definition rejection (respond : nat -> list ParagraphChunk -> backend_outcome)
    (options : TranslateOptions) (e : exn) : Prop :=
  (e = aborted_error /\ exists sig k, signal options = Some sig /\ sig k = true)
  \/ exists k batch, respond k batch = SessionFailure e.

Definition same_logs (w w' : world) : Prop :=
  progress w' = progress w /\ repacked w' = repacked w.

(** A chunk the backend never returns: every call whose batch holds it fails
    or replies without its index. *)
Definition always_absent (respond : nat -> list ParagraphChunk -> backend_outcome)
    (c : ParagraphChunk) : Prop :=
  forall k batch, c ∈ batch ->
    match respond k batch with
    | SessionFailure _ => True
    | PromptFailure => True
    | Reply text => index c ∉ reply_ids text
    end.

(** No cancellation is ever observed and no session fails outside the [try]
    block. *)
Definition quiet (respond : nat -> list ParagraphChunk -> backend_outcome)
    (options : TranslateOptions) : Prop :=
  (forall sig k, signal options = Some sig -> sig k = false) /\
  (forall k batch e, respond k batch <> SessionFailure e).

(** The [index] of every chunk is its position in the array. *)
Definition positioned (chunks : list ParagraphChunk) : Prop :=
  forall i c, chunks !! i = Some c -> index c = i.

Definition demo_chunk (i : nat) (text : jsstring) (h : bool) : ParagraphChunk :=
  {| index := i; simplifiedText := text; hasText := h |}.

End Translator.
Import Translator.

(** ** translate.ts *)

Module Translate.

(** The tag expression of [validateXml]: [<], an optional [/] (capture 1), a
    name of letters, digits and colons (capture 2), the shortest run of
    characters other than [>] (capture 3), an optional [/] (capture 4) and
    [>].  The name is the longest run of name characters; capture 4 takes the
    [/] exactly when it is the character before the first [>]. *)
Record tag_match : Type := {
  isClosing : bool;
  tagName : jsstring;
  isSelfClosing : bool;
  tag_length : nat
}.

Definition is_name_char (c : char) : bool :=
  is_alpha c || is_digit c || eqc c 58.

Definition tag_at (s : jsstring) : option (tag_match * jsstring) :=
  match s with
  | lt :: t =>
      if eqc lt 60 then
        let '(closing, t1) :=
          match t with
          | c :: t' => if eqc c 47 then (true, t') else (false, t)
          | [] => (false, t)
          end in
        match span is_name_char t1 with
        | ([], _) => None
        | (name, t2) =>
            let '(body, t3) := span not_gt t2 in
            match t3 with
            | _ :: rest =>
                Some ({| isClosing := closing;
                         tagName := name;
                         isSelfClosing :=
                           match last body with
                           | Some c => eqc c 47
                           | None => false
                           end;
                         tag_length :=
                           (1 + (if closing then 1 else 0) + length name
                            + length body + 1)%nat |}, rest)
            | [] => None
            end
        end
      else None
  | [] => None
  end.

Definition mismatch_message (xml tagName : jsstring) (expected : option jsstring)
    (pos : nat) : jsstring :=
  let context :=
    slice xml (Z.max 0 (Z.of_nat pos - 80))
              (Z.min (Z.of_nat (length xml)) (Z.of_nat pos + 80)) in
  lit "Malformed XML: closing </" ++ tagName ++ lit "> but expected </" ++
  default (lit "?") expected ++ lit "> near position " ++ dec pos ++
  [10] ++ lit "Context: ..." ++ context ++ lit "...".

(** The loop of [validateXml] over the tags; [offset] is the position where
    the search for the current tag started and [tagStack] has its top at the
    head. *)
Fixpoint validate_loop (xml : jsstring) (ms : list (jsstring * tag_match))
    (offset : nat) (tagStack : list jsstring) : result (list jsstring) :=
  match ms with
  | [] => ok tagStack
  | (pre, m) :: rest =>
      let pos := (offset + length pre)%nat in
      let next := (pos + tag_length m)%nat in
      if isSelfClosing m then validate_loop xml rest next tagStack
      else if isClosing m then
        match tagStack with
        | expected :: below =>
            if decide (expected = tagName m) then validate_loop xml rest next below
            else throw (Error (mismatch_message xml (tagName m) (Some expected) pos))
        | [] => throw (Error (mismatch_message xml (tagName m) None pos))
        end
      else validate_loop xml rest next (tagName m :: tagStack)
  end.

(** Basic XML well-formedness check: every opening tag has a matching
    closing tag and vice versa; throws on mismatches. *)
Definition validateXml (xml : jsstring) : result unit :=
  tagStack ← validate_loop xml (fst (matches tag_at xml)) 0 [];
  match tagStack with
  | [] => ok tt
  | _ =>
      throw (Error (lit "Malformed XML: unclosed tags: " ++
                    join (lit ", ") (reverse tagStack)))
  end.

Record TranslateDocxResult : Type := {
  outputPath : jsstring;
  chunksTranslated : nat;
  targetLanguage : jsstring
}.

Section Orchestrator.
Variable to_primitive : json -> option jsstring.
Variable respond : nat -> list ParagraphChunk -> backend_outcome.

(** The archive collaborator: [extract] is the outcome of
    [extractDocxXml(inputPath)], the document XML or an exception;
    [repack_error xml] is the exception [repackDocx] raises for [xml], if
    any. *)
Variable extract : result jsstring.
Variable repack_error : jsstring -> option exn.

Variable out_path language : jsstring.
Variable opt_concurrency : option positive.
Variable opt_signal : option (nat -> bool).
Variable opt_onProgress : bool.

(** [onProgress?.(message)]; the callback is taken to return normally. *)
Definition notify (message : jsstring) (w : world) : world :=
  if opt_onProgress then log_progress message w else w.

(** [await repackDocx(zip, xml, outputPath)]: the call is logged, then it
    succeeds or raises. *)
Definition repackDocx (xml : jsstring) (w : world) : result unit * world :=
  let w := log_repack xml w in
  match repack_error xml with
  | Some e => (throw e, w)
  | None => (ok tt, w)
  end.

(** The options handed to [translateChunksInParallel]: no batch size and no
    progress callback are passed on. *)
Definition translator_options : TranslateOptions :=
  {| concurrency := default 5%positive opt_concurrency;
     batchSize := None;
     signal := opt_signal;
     onProgress := false |}.

(** An array without holes as a list; iterating over a hole yields
    [undefined]. *)
Definition dense (results : list (option ParagraphChunk))
  : option (list ParagraphChunk) := mapM id results.

Definition translateDocx (w : world) : result TranslateDocxResult * world :=
  let w := notify (lit "Extracting document XML...") w in
  match extract with
  | inl e => (throw e, w)
  | inr documentXml =>
      let w := notify (lit "Chunking paragraphs...") w in
      let paragraphs := chunkParagraphs documentXml in
      let '(chunks, idTagMap) := replaceTagsWithIds paragraphs in
      if bool_decide (length chunks = 0%nat) || negb (existsb hasText chunks) then
        let w := notify (lit "No translatable text found.") w in
        match repackDocx documentXml w with
        | (inl e, w) => (throw e, w)
        | (inr _, w) =>
            (ok {| outputPath := out_path; chunksTranslated := 0;
                   targetLanguage := language |}, w)
        end
      else
        let translatableCount := length (List.filter hasText chunks) in
        let w :=
          notify (lit "Translating " ++ dec translatableCount ++
                  lit " chunks to " ++ language ++ lit "...") w in
        match translateChunksInParallel respond translator_options chunks w with
        | (inl e, w) => (throw e, w)
        | (inr translatedChunks, w) =>
            let w := notify (lit "Reconstructing document...") w in
            (* reading [chunk.hasText] of a hole raises a TypeError *)
            match dense translatedChunks with
            | None => (throw TypeError, w)
            | Some cs =>
                match reconstructXml to_primitive documentXml cs idTagMap with
                | inl e => (throw e, w)
                | inr translatedXml =>
                    match validateXml translatedXml with
                    | inl e => (throw e, w)
                    | inr _ =>
                        match repackDocx translatedXml w with
                        | (inl e, w) => (throw e, w)
                        | (inr _, w) =>
                            let w :=
                              notify (lit "Done. Translated " ++
                                      dec translatableCount ++
                                      lit " chunks to " ++ language ++
                                      lit ".") w in
                            (ok {| outputPath := out_path;
                                   chunksTranslated := translatableCount;
                                   targetLanguage := language |}, w)
                        end
                    end
                end
            end
        end
  end.
End Orchestrator.

End Translate.
Import Translate.

(** ** Vocabulary of the further properties *)

Module Further.

(** The text put back together from the matches of a [/g] expression: each
    match after the unmatched text before it, then the unmatched tail. *)
Definition weave (ms : list (jsstring * jsstring)) (tl : jsstring) : jsstring :=
  concat ((fun m => fst m ++ snd m) <$> ms) ++ tl.

(** The shape of a paragraph block: the opening of the paragraph tag, one
    white-space character or [>], a body without closing paragraph tag, and
    the closing paragraph tag. *)
Definition paragraph_block (p : jsstring) : Prop :=
  exists c body,
    p = s_p_open ++ c :: body ++ s_p_close
    /\ (is_space c = true \/ c = 62)
    /\ find_sub s_p_close body = None.

(** A paragraph block begins the text [s]. *)
Definition begins_block (s : jsstring) : Prop :=
  exists p rest, s = p ++ rest /\ paragraph_block p.

(** The text [s] is cut into the paragraph blocks [ps]: each block is the
    first one that begins in the text left after the block before it (no
    block begins at an earlier position), and no block begins in the text
    after the last one. *)
Inductive segmented : jsstring -> list jsstring -> Prop :=
  | segmented_tail tl :
      (forall u v, tl = u ++ v -> ~ begins_block v) ->
      segmented tl []
  | segmented_block gap p rest ps :
      paragraph_block p ->
      (forall u v, gap = u ++ v -> v <> [] -> ~ begins_block (v ++ p ++ rest)) ->
      segmented rest ps ->
      segmented (gap ++ p ++ rest) (p :: ps).

(** What a marker of [replaceTagsWithIds] stands for: a stretch of the
    paragraph kept as it is (the text between two runs, after the last run,
    or a run without text element), or a run with the first text element
    found in it. *)
Inductive origin : Type :=
  | FromSpan (span : jsstring)
  | FromRun (whole : jsstring) (tm : t_match).

(** The stretch of the paragraph an origin covers. *)
Definition source_of (o : origin) : jsstring :=
  match o with FromSpan s => s | FromRun whole _ => whole end.

(** The fragment stored in the ID map for an origin. *)
Definition fragment_of (o : origin) : jsstring :=
  match o with
  | FromSpan s => s
  | FromRun whole tm => text_run_fragment whole tm
  end.

(** The marker written for an origin. *)
Definition piece_of (id : nat) (o : origin) : piece :=
  match o with
  | FromSpan _ => TagMarker id
  | FromRun _ tm => RunMarker id (t_text tm)
  end.

(** A stretch outside the runs gets a marker when it is not blank. *)
Definition span_origin (s : jsstring) : list origin :=
  if truthy (trim s) then [FromSpan s] else [].

Definition run_origin (rm : run_match) : origin :=
  match search t_at (run_inner rm) with
  | Some (_, tm, _) => FromRun (run_whole rm) tm
  | None => FromSpan (run_whole rm)
  end.

(** The origins of the markers of a paragraph, in the order of the text. *)
Definition origins (para : jsstring) : list origin :=
  let '(runs, trailing) := matches run_at para in
  flat_map (fun m => span_origin (fst m) ++ [run_origin (snd m)]) runs
  ++ span_origin trailing.

(** The text [s] is laid out as the stretches of the origins [os], in
    order, with nothing but white space before, between and after them. *)
Inductive covers : list origin -> jsstring -> Prop :=
  | covers_end s : blank s = true -> covers [] s
  | covers_next gap o os s :
      blank gap = true -> covers os s ->
      covers (o :: os) (gap ++ source_of o ++ s).

(** The parts of a run with a text element, as [replaceTagsWithIds] cuts
    them: the run before and after the first occurrence of the text element,
    and the text element before and after its text. *)
Definition beforeText (whole : jsstring) (tm : t_match) : jsstring :=
  slice whole 0 (indexOf whole (t_whole tm)).

Definition afterText (whole : jsstring) (tm : t_match) : jsstring :=
  slice_from whole (indexOf whole (t_whole tm) + Z.of_nat (length (t_whole tm))).

Definition textStart (tm : t_match) : Z :=
  indexOf_from (t_whole tm) (t_text tm) (indexOf (t_whole tm) s_gt + 1)%Z.

Definition t_open (tm : t_match) : jsstring :=
  slice (t_whole tm) 0 (textStart tm).

Definition t_close (tm : t_match) : jsstring :=
  slice_from (t_whole tm) (textStart tm + Z.of_nat (length (t_text tm))).

(** An origin is sound when its stretch is not blank or, for a run with a
    text element, when the text element has the shape of a match and occurs
    in the run. *)
Definition sound_origin (o : origin) : Prop :=
  match o with
  | FromSpan s => blank s = false
  | FromRun whole tm =>
      exists attrs u v,
        t_whole tm = (s_t_open ++ attrs ++ [62]) ++ t_text tm ++ s_t_close
        /\ Forall (fun c => c <> 62) attrs
        /\ Forall (fun c => c <> 60) (t_text tm)
        /\ whole = u ++ t_whole tm ++ v
  end.

(** The text of a paired marker. *)
Definition piece_text (p : piece) : jsstring :=
  match p with TagMarker _ => [] | RunMarker _ text => text end.

(** What a marker restores to when the map holds the fragment of its origin:
    the stretch itself, or the run with the escaped text of the marker in
    place of the text of its text element. *)
Definition restored (o : origin) (p : piece) : jsstring :=
  match o with
  | FromSpan s => s
  | FromRun whole tm =>
      beforeText whole tm ++ t_open tm ++ escapeXml (piece_text p)
      ++ t_close tm ++ afterText whole tm
  end.

(** The markers [ps'] are the markers [ps] with other texts between the
    paired markers. *)
Definition retexted (ps ps' : list piece) : Prop :=
  Forall2 (fun p p' =>
             match p, p' with
             | TagMarker id, TagMarker id' => id = id'
             | RunMarker id _, RunMarker id' _ => id = id'
             | _, _ => False
             end) ps ps'.

(** A text that can stand between paired markers and be written into a
    template: no opening bracket, which could open a marker, and no dollar
    sign, which could open a replacement pattern. *)
Definition marker_safe (text : jsstring) : bool :=
  forallb (fun c => negb (eqc c 91 || eqc c 36)) text.

(** A run with a text element can be refilled when it holds no opening
    bracket and the opening tag of the text element holds no opening
    brace. *)
Definition fillable (o : origin) : bool :=
  match o with
  | FromSpan _ => true
  | FromRun whole tm =>
      forallb (fun c => negb (eqc c 91)) whole
      && forallb (fun c => negb (eqc c 123)) (t_open tm)
  end.

(** The marker [p] can be restored from the map [m] to the origin [o] with
    the text of [p]. *)
Definition refillable (m : gmap nat jsstring) (p : piece) (o : origin) : Prop :=
  match o, p with
  | FromSpan s, TagMarker id => m !! id = Some s
  | FromRun whole tm, RunMarker id text =>
      m !! id = Some (text_run_fragment whole tm)
      /\ sound_origin o /\ fillable o = true /\ marker_safe text = true
  | _, _ => False
  end.

(** A part of a simplified text: a marker, or text outside the markers. *)
Inductive part : Type :=
  | Marker (p : piece)
  | Outside (text : jsstring).

Definition render_part (x : part) : jsstring :=
  match x with Marker p => render_piece p | Outside text => text end.

Definition render_parts (xs : list part) : jsstring :=
  concat (render_part <$> xs).

(** An ID that [parseInt] reads exactly: the numbers of the code are doubles,
    which hold every integer up to 2^53. *)
Definition exact_id (id : nat) : Prop := (N.of_nat id <= 9007199254740992)%N.

(** A paired marker falls back to its text when its ID is not in the map or
    the stored fragment fails to parse as JSON. *)
Definition falls_back (m : gmap nat jsstring) (id : nat) : Prop :=
  m !! id = None
  \/ exists stored e, m !! id = Some stored /\ Json.parse stored = inl e.

(** What a part of a simplified text restores to with the map [m]: text
    outside the markers to itself, an unpaired marker to the stored fragment
    or to nothing, a paired marker that falls back to the text between the
    markers, and a paired marker of a run that can be refilled to that run
    with the escaped text.  The texts hold no opening bracket, which could
    open a marker. *)
Definition restores (m : gmap nat jsstring) (x : part) (out : jsstring) : Prop :=
  match x with
  | Outside text => Forall (fun c => c <> 91) text /\ out = text
  | Marker (TagMarker id) => exact_id id /\ out = default [] (m !! id)
  | Marker (RunMarker id text) =>
      exact_id id /\ Forall (fun c => c <> 91) text
      /\ ((falls_back m id /\ out = text)
          \/ exists whole tm,
               refillable m (RunMarker id text) (FromRun whole tm)
               /\ out = restored (FromRun whole tm) (RunMarker id text))
  end.

(** What the first pass leaves of a part. *)
Definition after_runs (x : part) (out : jsstring) : jsstring :=
  match x with
  | Marker (TagMarker id) => render_piece (TagMarker id)
  | _ => out
  end.

(** What the first pass of [restoreParagraphXml] leaves of a marker. *)
Definition half_restored (o : origin) (p : piece) : jsstring :=
  match o with
  | FromSpan _ => render_piece p
  | FromRun _ _ => restored o p
  end.

(** The characters of a text that reconstruction writes differently or that
    steer a replacement: the characters [escapeXml] rewrites, the dollar sign
    of replacement patterns and the bracket that opens a marker. *)
Definition plain_char (c : char) : bool :=
  negb (eqc c 38 || eqc c 60 || eqc c 62 || eqc c 34 || eqc c 39
        || eqc c 36 || eqc c 91).

(** A stretch between runs survives extraction when it is empty or not
    blank. *)
Definition kept_span (s : jsstring) : bool :=
  match s with [] => true | _ => negb (blank s) end.

(** A run survives a round trip when it can be refilled and the text of its
    text element is plain. *)
Definition clean_origin (o : origin) : bool :=
  fillable o &&
  match o with
  | FromSpan _ => true
  | FromRun _ tm => forallb plain_char (t_text tm)
  end.

Definition clean_paragraph (para : jsstring) : bool :=
  let '(runs, trailing) := matches run_at para in
  forallb (fun m => kept_span (fst m) && clean_origin (run_origin (snd m))) runs
  && kept_span trailing.

(** The ID allocation of a paragraph's markers, one origin after the
    other. *)
Definition number_step (acc : list piece * ext_state) (o : origin)
  : list piece * ext_state :=
  let '(id, st) := alloc (fragment_of o) (snd acc) in
  (fst acc ++ [piece_of id o], st).

Definition number (os : list origin) (acc : list piece * ext_state)
  : list piece * ext_state :=
  foldl number_step acc os.

(** The invariant of the extraction state: the calls of [idTagMap.set] so
    far used the IDs 1, 2, ... in order, the counter is the next unused ID,
    and the map holds exactly what the calls stored. *)
Definition well_numbered (st : ext_state) : Prop :=
  nextId st = S (length (history st))
  /\ (history st).*1 = seq 1 (length (history st))
  /\ forall id fragment,
       idTagMap st !! id = Some fragment <-> (id, fragment) ∈ history st.

(** The markers [ps] stand for the origins [os] and the map [m] holds the
    fragment of each. *)
Definition recorded (m : gmap nat jsstring) (ps : list piece) (os : list origin)
  : Prop :=
  Forall2 (fun p o => p = piece_of (piece_id p) o
                      /\ m !! piece_id p = Some (fragment_of o)) ps os.

(** The origins of the markers of a paragraph as extraction treats it: a
    paragraph whose text content is blank gets no marker. *)
Definition para_origins (para : jsstring) : list origin :=
  if truthy (trim (extractTextContent para)) then origins para else [].

(** The markers [ps] stand for the origins [os] and the calls [h] of
    [idTagMap.set] stored the fragment of each. *)
Definition logged (h : list (nat * jsstring)) (ps : list piece)
    (os : list origin) : Prop :=
  Forall2 (fun p o => p = piece_of (piece_id p) o
                      /\ (piece_id p, fragment_of o) ∈ h) ps os.

(** The [k]-th call of the backend was made between the worlds [w] and
    [w'], with the batch [batch]. *)
Definition called (w w' : world) (k : nat) (batch : list ParagraphChunk) : Prop :=
  (length (dispatched w) <= k)%nat /\ dispatched w' !! k = Some batch.

(** A reply unit for the chunk [o] with the body [body]: a call made between
    [w] and [w'] with a batch that holds [o] was answered with a text in
    which a unit carries the index of [o] and the body [body]. *)
Definition reply_unit (respond : nat -> list ParagraphChunk -> backend_outcome)
    (w w' : world) (o : ParagraphChunk) (body : jsstring) : Prop :=
  exists k batch text m,
    called w w' k batch /\ o ∈ batch /\ respond k batch = Reply text
    /\ m ∈ exec_all p_at text /\ parseInt (p_id m) = index o /\ p_body m = body.

(** A chunk of a result is genuine when it is a chunk of the input or the
    accepted translation of a translatable chunk of the input: the same
    index, [hasText] set, and as text the trimmed body of a reply unit for
    that chunk (the original text when that body is blank). *)
Definition genuine (respond : nat -> list ParagraphChunk -> backend_outcome)
    (w w' : world) (chunks : list ParagraphChunk) (c : ParagraphChunk) : Prop :=
  c ∈ chunks
  \/ exists o body,
       o ∈ chunks /\ translatable o = true /\ reply_unit respond w w' o body
       /\ c = accepted o (trim body).

(** A read of [signal.aborted] made between [w] and [w'] returned [true]; it
    is the last read before [w']. *)
Definition observed_abort (options : TranslateOptions) (w w' : world) : Prop :=
  exists sig k,
    signal options = Some sig /\ (checks w <= k)%nat /\ checks w' = S k
    /\ sig k = true.

(** A call made between [w] and [w'] failed outside the [try] block with the
    error [e]. *)
Definition failed_session (respond : nat -> list ParagraphChunk -> backend_outcome)
    (w w' : world) (e : exn) : Prop :=
  exists k batch, called w w' k batch /\ respond k batch = SessionFailure e.

(** What the [k]-th call gives for a batch that is not empty. *)
Definition outcome (respond : nat -> list ParagraphChunk -> backend_outcome)
    (k : nat) (batch : list ParagraphChunk) : result BatchResult :=
  match respond k batch with
  | SessionFailure e => throw e
  | PromptFailure => ok {| translated := []; missing := batch |}
  | Reply resultText => ok (parse_reply batch resultText)
  end.

(** The world [wa] is [w] with further progress messages. *)
Definition only_messages (w wa : world) : Prop :=
  dispatched wa = dispatched w /\ checks wa = checks w
  /\ repacked wa = repacked w /\ settles wa = settles w
  /\ exists msgs, progress wa = progress w ++ msgs.

(** The document [xml] is what a run of [translateDocx] from [w] to [w']
    reconstructs for the input [doc]: the translation of the chunks of [doc]
    returned an array without holes, and [reconstructXml] made [xml] of the
    document, the returned chunks and the ID map. *)
Definition reconstructed (to_primitive : json -> option jsstring)
    (respond : nat -> list ParagraphChunk -> backend_outcome)
    (options : TranslateOptions) (doc : jsstring) (w w' : world)
    (xml : jsstring) : Prop :=
  exists wa results wb cs,
    only_messages w wa
    /\ translateChunksInParallel respond options
         (fst (replaceTagsWithIds (chunkParagraphs doc))) wa = (inr results, wb)
    /\ dispatched w' = dispatched wb /\ checks w' = checks wb
    /\ dense results = Some cs
    /\ reconstructXml to_primitive doc cs
         (snd (replaceTagsWithIds (chunkParagraphs doc))) = ok xml.

(** A chunk that comes back from a backend that repeats it: its text holds
    no [<], which could close its unit, and has no white space at its ends,
    which the parser would trim. *)
Definition stable (c : ParagraphChunk) : Prop :=
  hasText c = true
  /\ Forall (fun x => x <> 60) (simplifiedText c)
  /\ trim (simplifiedText c) = simplifiedText c
  /\ translatable c = true.

(** A backend that answers every call with the units of its prompt. *)
Definition echo : nat -> list ParagraphChunk -> backend_outcome :=
  fun _ batch => Reply (inputContent batch).

(** The IDs of the markers of the extracted paragraphs, in document order. *)
Definition marker_ids (es : list extracted) : list nat :=
  piece_id <$> concat (markers <$> es).

(** The IDs a simplified text refers to: the IDs of the unpaired and of the
    paired markers that the expressions of [restoreParagraphXml] find in
    it. *)
Definition referenced (s : jsstring) : list nat :=
  (parseInt <$> exec_all tag_marker_at s)
  ++ ((fun mk => parseInt (rm_id mk)) <$> exec_all run_marker_at s).

(** The tags [validateXml] looks at: every match of the tag expression that
    is not self-closing, as an opening or a closing tag with its name. *)
Inductive tag_event : Type :=
  | Open (name : jsstring)
  | Close (name : jsstring).

Definition event_of (m : tag_match) : option tag_event :=
  if isSelfClosing m then None
  else Some (if isClosing m then Close (tagName m) else Open (tagName m)).

Definition tag_events (xml : jsstring) : list tag_event :=
  omap event_of (matches tag_at xml).1.*2.

(** Properly nested tags: nothing, or an opening tag, properly nested tags,
    the closing tag of the same name, and properly nested tags. *)
Inductive balanced : list tag_event -> Prop :=
  | balanced_nil : balanced []
  | balanced_wrap name inner after :
      balanced inner -> balanced after ->
      balanced (Open name :: inner ++ Close name :: after).

(** The stack discipline of [validateXml] on the tags alone. *)
Fixpoint run_events (evs : list tag_event) (tagStack : list jsstring)
  : option (list jsstring) :=
  match evs with
  | [] => Some tagStack
  | Open name :: rest => run_events rest (name :: tagStack)
  | Close name :: rest =>
      match tagStack with
      | expected :: below =>
          if decide (expected = name) then run_events rest below else None
      | [] => None
      end
  end.

(** Tags that close the elements of a stack, innermost first, with properly
    nested tags in between. *)
Fixpoint closes (tagStack : list jsstring) (evs : list tag_event) : Prop :=
  match tagStack with
  | [] => balanced evs
  | name :: below =>
      exists inner after,
        evs = inner ++ Close name :: after /\ balanced inner /\ closes below after
  end.

(** The markers with the text of every paired marker rewritten by [f]. *)
Definition retext (f : jsstring -> jsstring) (ps : list piece) : list piece :=
  (fun p => match p with
            | TagMarker id => TagMarker id
            | RunMarker id text => RunMarker id (f text)
            end) <$> ps.

(** A chunk with its text rewritten by [g]. *)
Definition with_text (g : jsstring -> jsstring) (c : ParagraphChunk)
  : ParagraphChunk :=
  {| index := index c; simplifiedText := g (simplifiedText c);
     hasText := hasText c |}.

(** A backend that answers every call with the units of its prompt, their
    texts rewritten by [g]. *)
Definition rewriting (g : jsstring -> jsstring)
  : nat -> list ParagraphChunk -> backend_outcome :=
  fun _ batch => Reply (inputContent (with_text g <$> batch)).

(** The translation of a document by a function [f] on the texts of its text
    runs: in every paragraph with text, each run with a text element carries
    the escaped translation of the text of its first text element, the other
    stretches that have a marker are kept, and blank stretches between runs
    are dropped, as extraction drops them; everything else is kept. *)
Definition translated_origin (f : jsstring -> jsstring) (o : origin) : jsstring :=
  match o with
  | FromSpan s => s
  | FromRun whole tm =>
      beforeText whole tm ++ t_open tm ++ escapeXml (f (t_text tm))
      ++ t_close tm ++ afterText whole tm
  end.

Definition translated_paragraph (f : jsstring -> jsstring) (para : jsstring)
  : jsstring :=
  if truthy (trim (extractTextContent para))
  then concat (translated_origin f <$> origins para)
  else para.

Definition translated_document (f : jsstring -> jsstring) (doc : jsstring)
  : jsstring :=
  let '(ms, tl) := matches para_at doc in
  weave ((fun m => (fst m, translated_paragraph f (snd m))) <$> ms) tl.

(** A chunk whose text rewritten by [g] comes back from the parser as it is:
    it holds no [<], has no white space at its ends and is not empty. *)
Definition rewritable (g : jsstring -> jsstring) (c : ParagraphChunk) : Prop :=
  hasText c = true
  /\ Forall (fun x => x <> 60) (g (simplifiedText c))
  /\ trim (g (simplifiedText c)) = g (simplifiedText c)
  /\ g (simplifiedText c) <> [].

(** The chunk the translation with a rewriting backend returns for [c]. *)
Definition rewritten (g : jsstring -> jsstring) (c : ParagraphChunk)
  : ParagraphChunk :=
  if translatable c then with_text g c else c.

End Further.
Import Further.

(** * Properties *)

Section StringFacts.
Implicit Types (s p r u v : jsstring) (c d : char).

Lemma eqc_eq c d : eqc c d = true ↔ c = d.
Proof. apply N.eqb_eq. Qed.

Lemma eqc_refl c : eqc c c = true.
Proof. apply N.eqb_refl. Qed.

Lemma eqc_neq c d : eqc c d = false ↔ c ≠ d.
Proof. apply N.eqb_neq. Qed.

Lemma strip_prefix_app p s : strip_prefix p (p ++ s) = Some s.
Proof. induction p as [|c p IH]; simpl; [done|]. by rewrite eqc_refl. Qed.

Lemma strip_prefix_Some p s r : strip_prefix p s = Some r → s = p ++ r.
Proof.
  revert s. induction p as [|c p IH]; intros s; simpl; [congruence|].
  destruct s as [|d s]; [done|]. destruct (eqc c d) eqn:E; [|done].
  apply eqc_eq in E as ->. intros H. by rewrite (IH _ H).
Qed.

Lemma strip_prefix_head c p d s :
  c ≠ d → strip_prefix (c :: p) (d :: s) = None.
Proof. intros H. simpl. by apply eqc_neq in H as ->. Qed.

Lemma find_sub_here p s r : strip_prefix p s = Some r → find_sub p s = Some ([], r).
Proof. intros H. destruct s; simpl; by rewrite H. Qed.

Lemma find_sub_next p c s :
  strip_prefix p (c :: s) = None →
  find_sub p (c :: s) =
  match find_sub p s with Some (u, v) => Some (c :: u, v) | None => None end.
Proof. intros H. simpl find_sub. by rewrite H. Qed.

Lemma find_sub_Some p s u v : find_sub p s = Some (u, v) → s = u ++ p ++ v.
Proof.
  revert u. induction s as [|c s IH]; intros u.
  - simpl. destruct (strip_prefix p []) eqn:E; [|done]. intros [= <- <-].
    by apply strip_prefix_Some in E.
  - destruct (strip_prefix p (c :: s)) eqn:E.
    + rewrite (find_sub_here _ _ _ E). intros [= <- <-].
      by apply strip_prefix_Some in E.
    + rewrite (find_sub_next _ _ _ E).
      destruct (find_sub p s) as [[u' v']|]; [|done]. intros [= <- <-].
      by rewrite (IH u' eq_refl).
Qed.

(** [find_sub] finds the occurrence after [u] when [u] avoids the first
    character of the pattern. *)
Lemma find_sub_skip p c u v :
  head p = Some c → Forall (λ d, d ≠ c) u →
  find_sub p (u ++ p ++ v) = Some (u, v).
Proof.
  intros Hp. destruct p as [|c' p]; [done|]. injection Hp as ->.
  induction 1 as [|d u Hd _ IH].
  - apply find_sub_here, (strip_prefix_app (c :: p)).
  - change ((d :: u) ++ (c :: p) ++ v) with (d :: (u ++ (c :: p) ++ v)).
    rewrite find_sub_next by (by apply strip_prefix_head).
    by rewrite IH.
Qed.

Lemma span_app f u c v :
  Forall (λ d, f d = true) u → f c = false → span f (u ++ c :: v) = (u, c :: v).
Proof.
  intros Hu Hc. induction Hu as [|d u Hd _ IH]; simpl.
  - by rewrite Hc.
  - by rewrite Hd, IH.
Qed.

Lemma span_stop f u v :
  Forall (λ d, f d = true) u → (∀ c, head v = Some c → f c = false) →
  span f (u ++ v) = (u, v).
Proof.
  intros Hu Hv. induction Hu as [|d u Hd _ IH]; simpl.
  - destruct v as [|c v]; simpl; [done|]. by rewrite (Hv c).
  - by rewrite Hd, IH.
Qed.

Lemma span_all f u :
  Forall (λ d, f d = true) u → span f u = (u, []).
Proof. induction 1 as [|d u Hd _ IH]; simpl; [done|]. by rewrite Hd, IH. Qed.

Lemma span_spec f s u v :
  span f s = (u, v) →
  s = u ++ v ∧ Forall (λ d, f d = true) u
  ∧ match v with [] => True | c :: _ => f c = false end.
Proof.
  revert u v. induction s as [|c s IH]; intros u v; simpl.
  - by intros [= <- <-].
  - destruct (f c) eqn:E.
    + destruct (span f s) as [u' v'] eqn:E'. intros [= <- <-].
      destruct (IH _ _ eq_refl) as (-> & Hu & Hv). by repeat constructor.
    + intros [= <- <-]. by repeat constructor.
Qed.

(** Decimal numerals *)
Lemma chars_uint_chars n : chars_uint (uint_chars n) = n.
Proof. induction n; simpl; unfold cons_digit; simpl; by rewrite ?IHn. Qed.

Lemma parseInt_dec n : parseInt (dec n) = n.
Proof. unfold parseInt, dec. rewrite chars_uint_chars. apply DecimalNat.Unsigned.of_to. Qed.

Lemma uint_chars_digits n : Forall (λ d, is_digit d = true) (uint_chars n).
Proof. induction n; simpl; by constructor. Qed.

Lemma dec_digits n : Forall (λ d, is_digit d = true) (dec n).
Proof. apply uint_chars_digits. Qed.

Lemma dec_nonempty n : dec n ≠ [].
Proof.
  unfold dec. intros E.
  assert (H : Nat.to_uint n = Decimal.Nil) by (by destruct (Nat.to_uint n)).
  pose proof (DecimalNat.Unsigned.to_of (Nat.to_uint n)) as Hn.
  rewrite DecimalNat.Unsigned.of_to, H in Hn. by apply (DecimalFacts.unorm_nonnil Decimal.Nil).
Qed.
End StringFacts.

Section TrimFacts.
Implicit Types (s t : list N).

Lemma drop_while_spec f s :
  ∃ l, s = l ++ drop_while f s ∧ Forall (λ c, f c = true) l
       ∧ ∀ c, head (drop_while f s) = Some c → f c = false.
Proof.
  induction s as [|c s (l & Hs & Hl & Hh)]; simpl.
  - exists []. repeat split; [constructor|done].
  - destruct (f c) eqn:E.
    + exists (c :: l). repeat split; [by rewrite Hs at 1|by constructor|done].
    + exists []. repeat split; [constructor|]. simpl. by intros ? [= <-].
Qed.

Lemma drop_while_blank f s : Forall (λ c, f c = true) s → drop_while f s = [].
Proof. induction 1 as [|c s Hc _ IH]; simpl; [done|]. by rewrite Hc. Qed.

Lemma trim_trimmed s : trimmed_of s (trim s).
Proof.
  unfold trim. destruct (drop_while_spec is_space s) as (l & Hs & Hl & Hh).
  set (s1 := drop_while is_space s) in *.
  destruct (drop_while_spec is_space (reverse s1)) as (r & Hr & Hr' & Hh').
  set (s2 := drop_while is_space (reverse s1)) in *.
  assert (Hs1 : s1 = reverse s2 ++ reverse r).
  { rewrite <- (reverse_involutive s1), Hr. by rewrite reverse_app. }
  exists l, (reverse r). repeat split.
  - by rewrite <- Hs1.
  - done.
  - by apply Forall_reverse.
  - intros c Hc. apply Hh. rewrite Hs1. by destruct (reverse s2).
  - intros c Hc. apply Hh'. by rewrite <- last_reverse.
Qed.

Lemma blank_Forall s : blank s = true ↔ Forall (λ c, is_space c = true) s.
Proof.
  unfold blank. rewrite forallb_forall, Forall_forall.
  split; intros H x Hx; apply H; by apply list_elem_of_In.
Qed.

Lemma trim_blank s : blank s = true → trim s = [].
Proof.
  intros H. apply blank_Forall in H. unfold trim.
  rewrite (drop_while_blank _ _ H). reflexivity.
Qed.

Lemma trim_not_blank s : blank s = false → trim s ≠ [].
Proof.
  intros Hb Ht. destruct (trim_trimmed s) as (l & r & Hs & Hl & Hr & _).
  rewrite Ht in Hs. simpl in Hs. subst s.
  assert (blank (l ++ r) = true) by (apply blank_Forall, Forall_app; done).
  congruence.
Qed.
End TrimFacts.

Section SearchFacts.
Context {M : Type}.
Variable matcher : list N → option (M * list N).
Implicit Types (s u v pre rest : list N) (m : M).

Lemma search_here s m rest :
  matcher s = Some (m, rest) → search matcher s = Some ([], m, rest).
Proof. intros H. destruct s; simpl; by rewrite H. Qed.

Lemma search_next c s :
  matcher (c :: s) = None →
  search matcher (c :: s) =
  match search matcher s with
  | Some (pre, m, rest) => Some (c :: pre, m, rest)
  | None => None
  end.
Proof. intros H. simpl search. by rewrite H. Qed.

Lemma search_skip u s :
  (∀ u1 u2, u = u1 ++ u2 → u2 ≠ [] → matcher (u2 ++ s) = None) →
  search matcher (u ++ s) =
  match search matcher s with
  | Some (pre, m, rest) => Some (u ++ pre, m, rest)
  | None => None
  end.
Proof.
  induction u as [|c u IH]; intros H.
  - simpl. by destruct (search matcher s) as [[[??]?]|].
  - change ((c :: u) ++ s) with (c :: (u ++ s)).
    rewrite search_next by (by apply (H [] (c :: u))).
    rewrite IH.
    + by destruct (search matcher s) as [[[??]?]|].
    + intros u1 u2 -> Hne. by apply (H (c :: u1) u2).
Qed.

Lemma search_Some s pre m rest :
  search matcher s = Some (pre, m, rest) →
  ∃ s', s = pre ++ s' ∧ matcher s' = Some (m, rest).
Proof.
  revert pre. induction s as [|c s IH]; intros pre.
  - simpl. destruct (matcher []) as [[m' r']|] eqn:E; [|done].
    intros [= <- <- <-]. by exists [].
  - destruct (matcher (c :: s)) as [[m' r']|] eqn:E.
    + rewrite (search_here _ _ _ E). intros [= <- <- <-]. by exists (c :: s).
    + rewrite (search_next _ _ E).
      destruct (search matcher s) as [[[pre' m''] r'']|]; [|done].
      intros [= <- <- <-]. destruct (IH _ eq_refl) as (s' & -> & Hs').
      by exists s'.
Qed.


Hypothesis Hprod : productive matcher.

Lemma search_shorter s pre m rest :
  search matcher s = Some (pre, m, rest) → (length rest < length s)%nat.
Proof.
  intros E. apply search_Some in E. destruct E as (s' & Hs & H).
  subst s. apply Hprod in H. rewrite length_app. lia.
Qed.

Lemma scan_fuel f1 f2 s :
  (length s < f1)%nat → (length s < f2)%nat →
  scan matcher f1 s = scan matcher f2 s.
Proof.
  revert f2 s. induction f1 as [|f1 IH]; intros f2 s H1 H2; [lia|].
  destruct f2 as [|f2]; [lia|]. simpl.
  destruct (search matcher s) as [[[pre m] rest]|] eqn:E; [|done].
  apply search_shorter in E. by rewrite (IH f2 rest) by lia.
Qed.

Lemma matches_step s pre m rest :
  search matcher s = Some (pre, m, rest) →
  matches matcher s =
  ((pre, m) :: (matches matcher rest).1, (matches matcher rest).2).
Proof.
  intros E. unfold matches.
  remember (scan matcher (S (length rest)) rest) as R eqn:ER.
  simpl. rewrite E. apply search_shorter in E.
  rewrite (scan_fuel (length s) (S (length rest)) rest), <- ER by lia.
  by destruct R.
Qed.

Lemma matches_none s : search matcher s = None → matches matcher s = ([], s).
Proof. intros E. unfold matches. simpl. by rewrite E. Qed.

(** An induction principle over the matches of a string. *)
Lemma matches_ind (P : list N → list (list N * M) * list N → Prop) :
  (∀ s, search matcher s = None → P s ([], s)) →
  (∀ s pre m rest, search matcher s = Some (pre, m, rest) →
      P rest (matches matcher rest) →
      P s ((pre, m) :: (matches matcher rest).1, (matches matcher rest).2)) →
  ∀ s, P s (matches matcher s).
Proof.
  intros Hnone Hstep s.
  remember (length s) as n eqn:En. revert s En.
  induction n as [n IH] using lt_wf_ind. intros s ->.
  assert (IH' : ∀ s', (length s' < length s)%nat → P s' (matches matcher s')).
  { intros s' Hs'. by eapply IH. }
  destruct (search matcher s) as [[[pre m] rest]|] eqn:E.
  - rewrite (matches_step _ _ _ _ E). apply Hstep; [done|].
    apply IH'. by eapply search_shorter.
  - rewrite (matches_none _ E). by apply Hnone.
Qed.
End SearchFacts.

Section MarkerFacts.
Implicit Types (s text ds rest : list N).

Lemma run_marker_at_shape s mk rest :
  run_marker_at s = Some (mk, rest) →
  s = s_RUN ++ rm_id mk ++ s_rb ++ rm_text mk ++ s_RUN_end ++ rm_id mk ++ s_rb ++ rest
  ∧ rm_id mk ≠ [] ∧ Forall (λ d, is_digit d = true) (rm_id mk).
Proof.
  unfold run_marker_at.
  destruct (strip_prefix s_RUN s) as [t|] eqn:E1; [|done].
  apply strip_prefix_Some in E1 as ->.
  destruct (span is_digit t) as [ds t1] eqn:E2.
  apply span_spec in E2 as (-> & Hds & _).
  destruct ds as [|d ds]; [done|].
  destruct (strip_prefix s_rb t1) as [t2|] eqn:E3; [|done].
  apply strip_prefix_Some in E3 as ->.
  destruct (find_sub _ t2) as [[text r]|] eqn:E4; [|done].
  apply find_sub_Some in E4 as ->. intros [= <- <-]. simpl rm_id. simpl rm_text.
  split; [|done]. by rewrite <- !app_assoc.
Qed.

Lemma tag_marker_at_shape s ds rest :
  tag_marker_at s = Some (ds, rest) →
  s = s_TAG ++ ds ++ s_rb ++ rest
  ∧ ds ≠ [] ∧ Forall (λ d, is_digit d = true) ds.
Proof.
  unfold tag_marker_at.
  destruct (strip_prefix s_TAG s) as [t|] eqn:E1; [|done].
  apply strip_prefix_Some in E1 as ->.
  destruct (span is_digit t) as [ds' t1] eqn:E2.
  apply span_spec in E2 as (-> & Hds & _).
  destruct ds' as [|d ds']; [done|].
  destruct (strip_prefix s_rb t1) as [t2|] eqn:E3; [|done].
  apply strip_prefix_Some in E3 as ->. by intros [= <- <-].
Qed.

Lemma run_marker_at_productive : productive run_marker_at.
Proof.
  intros s mk rest (-> & _)%run_marker_at_shape.
  rewrite !length_app. simpl. lia.
Qed.

Lemma tag_marker_at_productive : productive tag_marker_at.
Proof.
  intros s ds rest (-> & _)%tag_marker_at_shape.
  rewrite !length_app. simpl. lia.
Qed.

(** Both marker expressions start with an opening bracket. *)
Lemma run_marker_at_bracket c s : c ≠ 91 → run_marker_at (c :: s) = None.
Proof. intros H. unfold run_marker_at, s_RUN. by rewrite strip_prefix_head. Qed.

Lemma tag_marker_at_bracket c s : c ≠ 91 → tag_marker_at (c :: s) = None.
Proof. intros H. unfold tag_marker_at, s_TAG. by rewrite strip_prefix_head. Qed.

Lemma run_marker_at_here ds text rest :
  ds ≠ [] → Forall (λ d, is_digit d = true) ds → Forall (λ c, c ≠ 91) text →
  run_marker_at (s_RUN ++ ds ++ s_rb ++ text ++ s_RUN_end ++ ds ++ s_rb ++ rest)
  = Some ({| rm_id := ds; rm_text := text |}, rest).
Proof.
  intros Hne Hds Htext. unfold run_marker_at. rewrite strip_prefix_app.
  rewrite span_stop by (done || by intros c [= <-]).
  destruct ds as [|d ds]; [done|]. rewrite strip_prefix_app.
  replace (text ++ s_RUN_end ++ (d :: ds) ++ s_rb ++ rest)
    with (text ++ (s_RUN_end ++ (d :: ds) ++ s_rb) ++ rest)
    by (by rewrite <- !app_assoc).
  by rewrite (find_sub_skip _ 91).
Qed.

Lemma tag_marker_at_here ds rest :
  ds ≠ [] → Forall (λ d, is_digit d = true) ds →
  tag_marker_at (s_TAG ++ ds ++ s_rb ++ rest) = Some (ds, rest).
Proof.
  intros Hne Hds. unfold tag_marker_at. rewrite strip_prefix_app.
  rewrite span_stop by (done || by intros c [= <-]).
  destruct ds as [|d ds]; [done|]. by rewrite strip_prefix_app.
Qed.

Lemma search_no_bracket {M} (matcher : list N → option (M * list N)) text s :
  matcher [] = None →
  (∀ c t, c ≠ 91 → matcher (c :: t) = None) →
  Forall (λ c, c ≠ 91) text →
  search matcher (text ++ s) =
  match search matcher s with
  | Some (pre, m, rest) => Some (text ++ pre, m, rest)
  | None => None
  end.
Proof.
  intros H0 Hb Ht. apply search_skip. intros u1 u2 -> Hne.
  apply Forall_app in Ht as [_ Ht]. destruct Ht as [|c u2 Hc _]; [done|].
  by apply Hb.
Qed.
End MarkerFacts.

Section JsonFacts.
Implicit Types (s rest : list N) (c : N).


Lemma hex_value_digit d : d < 16 → hex_value (hex_digit d) = Some d.
Proof.
  intros Hd.
  assert (d = 0 ∨ d = 1 ∨ d = 2 ∨ d = 3 ∨ d = 4 ∨ d = 5 ∨ d = 6 ∨ d = 7
          ∨ d = 8 ∨ d = 9 ∨ d = 10 ∨ d = 11 ∨ d = 12 ∨ d = 13 ∨ d = 14
          ∨ d = 15) as H by lia.
  repeat (destruct H as [->|H]; [reflexivity|]). by subst d.
Qed.

Lemma hex_digits_sum c :
  c < 65536 →
  (c / 4096 mod 16) * 4096 + (c / 256 mod 16) * 256
  + (c / 16 mod 16) * 16 + c mod 16 = c.
Proof.
  intros H.
  pose proof (N.div_mod' c 16) as H1.
  pose proof (N.mod_lt c 16) as H1'.
  pose proof (N.div_mod' (c / 16) 16) as H2.
  pose proof (N.mod_lt (c / 16) 16) as H2'.
  pose proof (N.div_mod' (c / 256) 16) as H3.
  pose proof (N.mod_lt (c / 256) 16) as H3'.
  pose proof (N.div_mod' (c / 4096) 16) as H4.
  pose proof (N.mod_lt (c / 4096) 16) as H4'.
  assert (E1 : c / 16 / 16 = c / 256) by (rewrite N.Div0.div_div; reflexivity).
  assert (E2 : c / 256 / 16 = c / 4096) by (rewrite N.Div0.div_div; reflexivity).
  assert (E3 : c / 4096 / 16 = c / 65536) by (rewrite N.Div0.div_div; reflexivity).
  assert (E4 : c / 65536 = 0) by (apply N.div_small; exact H).
  rewrite E1 in H2. rewrite E2 in H3. rewrite E3, E4 in H4.
  lia.
Qed.

Lemma hex4_escape c :
  c < 65536 →
  hex4 (hex_digit (c / 4096 mod 16)) (hex_digit (c / 256 mod 16))
       (hex_digit (c / 16 mod 16)) (hex_digit (c mod 16)) = Some c.
Proof.
  intros Hc. unfold hex4.
  rewrite !hex_value_digit by (apply N.mod_lt; discriminate).
  f_equal. by apply hex_digits_sum.
Qed.

Lemma parse_chars_unicode c s :
  c < 65536 →
  parse_chars (unicode_escape c ++ s) =
  match parse_chars s with
  | Some (r, rest) => Some (c :: r, rest)
  | None => None
  end.
Proof.
  intros Hc. unfold unicode_escape. simpl. by rewrite hex4_escape.
Qed.

Lemma parse_chars_literal c s :
  eqc c 34 = false → eqc c 92 = false → (c <? 32) = false →
  parse_chars (c :: s) =
  match parse_chars s with
  | Some (r, rest) => Some (c :: r, rest)
  | None => None
  end.
Proof. intros H1 H2 H3. simpl. by rewrite H1, H2, H3. Qed.

Lemma parse_chars_quote s rest :
  parse_chars (quote_chars s ++ 34 :: rest) = Some (s, rest).
Proof.
  remember (length s) as n eqn:En. revert s En.
  induction n as [n IH] using lt_wf_ind. intros s ->.
  assert (IH' : ∀ t, (length t < length s)%nat →
                     parse_chars (quote_chars t ++ 34 :: rest) = Some (t, rest))
    by (intros t Ht; by eapply IH).
  clear IH. destruct s as [|c t]; [done|].
  assert (Ht : parse_chars (quote_chars t ++ 34 :: rest) = Some (t, rest))
    by (apply IH'; simpl; lia).
  cbn [quote_chars].
  destruct (eqc c 8) eqn:E8; [apply eqc_eq in E8 as ->; simpl; by rewrite Ht|].
  destruct (eqc c 9) eqn:E9; [apply eqc_eq in E9 as ->; simpl; by rewrite Ht|].
  destruct (eqc c 10) eqn:E10; [apply eqc_eq in E10 as ->; simpl; by rewrite Ht|].
  destruct (eqc c 12) eqn:E12; [apply eqc_eq in E12 as ->; simpl; by rewrite Ht|].
  destruct (eqc c 13) eqn:E13; [apply eqc_eq in E13 as ->; simpl; by rewrite Ht|].
  destruct (eqc c 34) eqn:E34; [apply eqc_eq in E34 as ->; simpl; by rewrite Ht|].
  destruct (eqc c 92) eqn:E92; [apply eqc_eq in E92 as ->; simpl; by rewrite Ht|].
  destruct (c <? 32) eqn:E32.
  { rewrite <- app_assoc, parse_chars_unicode, Ht; [done|].
    apply N.ltb_lt in E32. lia. }
  destruct (is_high_surrogate c) eqn:Eh.
  { assert (Hc : c < 65536).
    { unfold is_high_surrogate in Eh. apply andb_true_iff in Eh as [_ Eh].
      apply N.leb_le in Eh. lia. }
    destruct t as [|d t'].
    - by rewrite parse_chars_unicode.
    - destruct (is_low_surrogate d) eqn:El.
      + assert (Hd : eqc d 34 = false ∧ eqc d 92 = false ∧ (d <? 32) = false).
        { unfold is_low_surrogate in El. apply andb_true_iff in El as [El _].
          apply N.leb_le in El. repeat split.
          - apply eqc_neq. lia.
          - apply eqc_neq. lia.
          - apply N.ltb_ge. lia. }
        destruct Hd as (D1 & D2 & D3).
        change ((c :: d :: quote_chars t') ++ 34 :: rest)
          with (c :: d :: (quote_chars t' ++ 34 :: rest)).
        rewrite parse_chars_literal, parse_chars_literal by done.
        rewrite IH' by (simpl; lia). done.
      + rewrite <- app_assoc, parse_chars_unicode, Ht; done. }
  destruct (is_low_surrogate c) eqn:El.
  { rewrite <- app_assoc, parse_chars_unicode, Ht; [done|].
    unfold is_low_surrogate in El. apply andb_true_iff in El as [_ El].
    apply N.leb_le in El. lia. }
  change ((c :: quote_chars t) ++ 34 :: rest)
    with (c :: (quote_chars t ++ 34 :: rest)).
  by rewrite parse_chars_literal, Ht.
Qed.

Lemma parse_chars_quoted s rest :
  parse_chars (quote_chars s ++ [34] ++ rest) = Some (s, rest).
Proof. apply parse_chars_quote. Qed.


Lemma parse_value_quote f s rest :
  parse_value (S f) (quote s ++ rest) = Some (JStr s, rest).
Proof.
  unfold quote. rewrite <- app_comm_cons, <- app_assoc.
  cbn -[quote_chars parse_chars]. by rewrite parse_chars_quote.
Qed.

Lemma parse_members_unfold f s :
  parse_members (S f) s =
  match skip_ws s with
  | q :: t =>
      if eqc q 34 then
        match parse_chars t with
        | None => None
        | Some (key, rest) =>
            match skip_ws rest with
            | col :: t1 =>
                if eqc col 58 then
                  match parse_value f t1 with
                  | None => None
                  | Some (v, rest1) =>
                      match skip_ws rest1 with
                      | d :: t2 =>
                          if eqc d 125 then Some ([(key, v)], t2)
                          else if eqc d 44 then
                            match parse_members f t2 with
                            | Some (ms, rest2) => Some ((key, v) :: ms, rest2)
                            | None => None
                            end
                          else None
                      | [] => None
                      end
                  end
                else None
            | [] => None
            end
        end
      else None
  | [] => None
  end.
Proof. reflexivity. Qed.

Lemma parse_members_more f key v more :
  parse_members (S (S f)) (quote key ++ [58] ++ quote v ++ [44] ++ more) =
  match parse_members (S f) more with
  | Some (ms, rest) => Some ((key, JStr v) :: ms, rest)
  | None => None
  end.
Proof.
  rewrite parse_members_unfold.
  unfold quote at 1. rewrite <- app_comm_cons, <- app_assoc.
  cbn -[quote quote_chars parse_chars parse_value parse_members].
  rewrite parse_chars_quote.
  cbn -[quote quote_chars parse_chars parse_value parse_members].
  rewrite parse_value_quote.
  cbn -[quote quote_chars parse_chars parse_value parse_members].
  done.
Qed.

Lemma parse_members_last f key v rest :
  parse_members (S (S f)) (quote key ++ [58] ++ quote v ++ [125] ++ rest) =
  Some ([(key, JStr v)], rest).
Proof.
  rewrite parse_members_unfold.
  unfold quote at 1. rewrite <- app_comm_cons, <- app_assoc.
  cbn -[quote quote_chars parse_chars parse_value parse_members].
  rewrite parse_chars_quote.
  cbn -[quote quote_chars parse_chars parse_value parse_members].
  rewrite parse_value_quote.
  cbn -[quote quote_chars parse_chars parse_value parse_members].
  done.
Qed.

Lemma parse_value_object f key rest :
  parse_value (S f) ([123] ++ quote key ++ rest) =
  match parse_members f (quote key ++ rest) with
  | Some (ms, rest') => Some (JObj ms, rest')
  | None => None
  end.
Proof.
  unfold quote. rewrite <- !app_comm_cons.
  cbn -[quote_chars parse_chars parse_members]. done.
Qed.

Lemma stringify_fragment_grammar before after tTemplate :
  stringify_fragment before after tTemplate =
  [123] ++ quote k_before ++ [58] ++ quote before ++ [44] ++
  quote k_after ++ [58] ++ quote after ++ [44] ++
  quote k_tTemplate ++ [58] ++ quote tTemplate ++ [125] ++ [].
Proof.
  reflexivity.
Qed.

Lemma parse_value_fragment k before after tTemplate :
  parse_value (5 + k) (stringify_fragment before after tTemplate)
  = Some (fragment_object before after tTemplate, []).
Proof.
  rewrite stringify_fragment_grammar.
  change (5 + k)%nat with (S (S (S (S (S k))))).
  rewrite parse_value_object, parse_members_more, parse_members_more,
    parse_members_last. done.
Qed.

Theorem parse_stringify_fragment before after tTemplate :
  Json.parse (stringify_fragment before after tTemplate)
  = ok (fragment_object before after tTemplate).
Proof.
  unfold Json.parse.
  assert (∃ k, (2 * length (stringify_fragment before after tTemplate) + 2
                = 5 + k)%nat) as [k ->].
  { exists (2 * length (stringify_fragment before after tTemplate) - 3)%nat.
    rewrite stringify_fragment_grammar, !length_app. simpl. lia. }
  by rewrite parse_value_fragment.
Qed.
End JsonFacts.

Section RestoreFacts.
Variable to_primitive : json → option (list N).
Implicit Types (s text : list N) (idTagMap : gmap nat (list N)).

Lemma replace_char_app c r s1 s2 :
  replace_char c r (s1 ++ s2) = replace_char c r s1 ++ replace_char c r s2.
Proof. unfold replace_char. apply flat_map_app. Qed.

Lemma escapeXml_app s1 s2 : escapeXml (s1 ++ s2) = escapeXml s1 ++ escapeXml s2.
Proof. unfold escapeXml. by rewrite !replace_char_app. Qed.

Lemma escapeXml_one c : escapeXml [c] = xml_entity c.
Proof.
  unfold xml_entity.
  destruct (eqc c 38) eqn:E1; [apply eqc_eq in E1 as ->; reflexivity|].
  destruct (eqc c 60) eqn:E2; [apply eqc_eq in E2 as ->; reflexivity|].
  destruct (eqc c 62) eqn:E3; [apply eqc_eq in E3 as ->; reflexivity|].
  destruct (eqc c 34) eqn:E4; [apply eqc_eq in E4 as ->; reflexivity|].
  destruct (eqc c 39) eqn:E5; [apply eqc_eq in E5 as ->; reflexivity|].
  unfold escapeXml, replace_char. simpl.
  rewrite E1. simpl. rewrite E2. simpl. rewrite E3. simpl. rewrite E4. simpl.
  by rewrite E5.
Qed.

(** The five replacements amount to one pass that writes each special
    character as its entity. *)
Lemma escapeXml_entities s : escapeXml s = flat_map xml_entity s.
Proof.
  induction s as [|c s IH]; [done|].
  change (c :: s) with ([c] ++ s). rewrite escapeXml_app, escapeXml_one, IH.
  done.
Qed.

Lemma get_substitution_plain matched before after repl :
  Forall (λ c, c ≠ 36) repl →
  get_substitution matched before after repl = repl.
Proof.
  induction 1 as [|c repl Hc _ IH]; simpl; [done|].
  apply eqc_neq in Hc. by rewrite Hc, IH.
Qed.

Lemma xml_entity_no_dollar c : c ≠ 36 → Forall (λ d, d ≠ 36) (xml_entity c).
Proof.
  intros Hc. unfold xml_entity.
  repeat (destruct (eqc c _); [by repeat constructor|]). by constructor.
Qed.

Lemma escapeXml_no_dollar s :
  Forall (λ c, c ≠ 36) s → Forall (λ c, c ≠ 36) (escapeXml s).
Proof.
  rewrite escapeXml_entities. induction 1 as [|c s Hc _ IH]; simpl; [done|].
  apply Forall_app. split; [by apply xml_entity_no_dollar|done].
Qed.

(** A template whose opening tag has no brace is filled at the
    placeholder. *)
Lemma replace_first_template open close repl :
  Forall (λ c, c ≠ 123) open → Forall (λ c, c ≠ 36) repl →
  replace_first (open ++ s_TEXT ++ close) s_TEXT repl = open ++ repl ++ close.
Proof.
  intros Ho Hr. unfold replace_first.
  rewrite (find_sub_skip _ 123) by done.
  by rewrite get_substitution_plain.
Qed.

Lemma fill_template_stringify before after tTemplate text :
  fill_template to_primitive (stringify_fragment before after tTemplate) text
  = ok (before ++ replace_first tTemplate s_TEXT (escapeXml text) ++ after).
Proof. unfold fill_template. by rewrite parse_stringify_fragment. Qed.

Lemma stringify_fragment_truthy before after tTemplate :
  truthy (stringify_fragment before after tTemplate) = true.
Proof. done. Qed.

Lemma run_replacer_stored idTagMap mk before after tTemplate :
  idTagMap !! parseInt (rm_id mk) = Some (stringify_fragment before after tTemplate) →
  run_replacer to_primitive idTagMap mk
  = ok (before ++ replace_first tTemplate s_TEXT (escapeXml (rm_text mk)) ++ after).
Proof.
  intros H. unfold run_replacer. rewrite H, stringify_fragment_truthy.
  simpl negb. cbv iota. by rewrite fill_template_stringify.
Qed.

Lemma run_replacer_total idTagMap mk :
  ∃ out, run_replacer to_primitive idTagMap mk = inr out.
Proof.
  unfold run_replacer. destruct (idTagMap !! _) as [stored|]; [|by eexists].
  destruct (negb (truthy stored)); [by eexists|].
  destruct (fill_template to_primitive stored (rm_text mk)); by eexists.
Qed.

Lemma replace_loop_total {M} (fn : M → result (list N)) ms tl :
  (∀ m, ∃ out, fn m = inr out) → ∃ out, replace_loop fn ms tl = inr out.
Proof.
  intros Hfn. induction ms as [|[pre m] ms [out IH]]; simpl; [by eexists|].
  destruct (Hfn m) as [r ->]. simpl. rewrite IH. by eexists.
Qed.

Lemma replace_all_total {M} matcher (fn : M → result (list N)) s :
  (∀ m, ∃ out, fn m = inr out) → ∃ out, replace_all matcher fn s = inr out.
Proof.
  intros Hfn. unfold replace_all. destruct (matches matcher s).
  by apply replace_loop_total.
Qed.

Lemma restoreParagraphXml_total s idTagMap :
  ∃ out, restoreParagraphXml to_primitive s idTagMap = inr out.
Proof.
  unfold restoreParagraphXml.
  destruct (replace_all_total run_marker_at (run_replacer to_primitive idTagMap) s)
    as [xml ->]; [apply run_replacer_total|]. simpl.
  apply replace_all_total. intros m. by eexists.
Qed.

Lemma replace_all_step {M} (matcher : list N → option (M * list N)) fn
    s pre m rest :
  productive matcher →
  search matcher s = Some (pre, m, rest) →
  replace_all matcher fn s =
  (r ← fn m; out ← replace_all matcher fn rest; ok (pre ++ r ++ out)).
Proof.
  intros Hp E. unfold replace_all. rewrite (matches_step _ Hp _ _ _ _ E).
  by destruct (matches matcher rest).
Qed.

Lemma replace_all_none {M} (matcher : list N → option (M * list N)) fn s :
  search matcher s = None → replace_all matcher fn s = ok s.
Proof. intros E. unfold replace_all. by rewrite matches_none. Qed.

Lemma search_plain {M} (matcher : list N → option (M * list N)) text :
  matcher [] = None →
  (∀ c t, c ≠ 91 → matcher (c :: t) = None) →
  Forall (λ c, c ≠ 91) text → search matcher text = None.
Proof.
  intros H0 Hb Ht. rewrite <- (app_nil_r text).
  rewrite search_no_bracket by done. simpl. by rewrite H0.
Qed.

(** A search passes over a bracket that starts no match and the
    bracket-free text after it. *)
Lemma search_pass {M} (matcher : list N → option (M * list N)) w s :
  (∀ c t, c ≠ 91 → matcher (c :: t) = None) →
  matcher ((91 :: w) ++ s) = None →
  Forall (λ c, c ≠ 91) w →
  search matcher ((91 :: w) ++ s) =
  match search matcher s with
  | Some (pre, m, rest) => Some ((91 :: w) ++ pre, m, rest)
  | None => None
  end.
Proof.
  intros Hb H0 Hw. apply search_skip. intros u1 u2 E Hne.
  destruct u1 as [|c u1]; simpl in E.
  - by subst u2.
  - injection E as _ ->. apply Forall_app in Hw as [_ Hw].
    destruct Hw as [|d u2 Hd _]; [done|]. by apply Hb.
Qed.

Lemma tag_text_plain n : Forall (λ c, c ≠ 91) (drop 1 s_TAG ++ dec n ++ s_rb).
Proof.
  apply Forall_app. split; [by repeat constructor|].
  apply Forall_app. split; [|by repeat constructor].
  eapply Forall_impl; [apply dec_digits|]. intros c Hc ->. done.
Qed.

Lemma run_marker_at_tag s : run_marker_at (s_TAG ++ s) = None.
Proof. done. Qed.

(** A paired marker on its own. *)
Lemma restore_single_run idTagMap n text out :
  Forall (λ c, c ≠ 91) text → Forall (λ c, c ≠ 91) out →
  run_replacer to_primitive idTagMap {| rm_id := dec n; rm_text := text |} = ok out →
  restoreParagraphXml to_primitive
    (s_RUN ++ dec n ++ s_rb ++ text ++ s_RUN_end ++ dec n ++ s_rb) idTagMap
  = ok out.
Proof.
  intros Ht Ho Hrun. unfold restoreParagraphXml.
  rewrite (replace_all_step run_marker_at _ _ []
             {| rm_id := dec n; rm_text := text |} []).
  - rewrite Hrun. rewrite replace_all_none by done. simpl.
    rewrite app_nil_r. apply replace_all_none, search_plain; [done| |done].
    apply tag_marker_at_bracket.
  - apply run_marker_at_productive.
  - apply search_here.
    rewrite <- (app_nil_r s_rb) at 2.
    apply run_marker_at_here; [apply dec_nonempty|apply dec_digits|done].
Qed.

(** An unpaired marker on its own. *)
Lemma restore_single_tag idTagMap n :
  restoreParagraphXml to_primitive (s_TAG ++ dec n ++ s_rb) idTagMap
  = ok (default [] (idTagMap !! n)).
Proof.
  unfold restoreParagraphXml.
  rewrite replace_all_none.
  - simpl.
    rewrite (replace_all_step tag_marker_at _ _ [] (dec n) []).
    + unfold tag_replacer. rewrite parseInt_dec.
      rewrite replace_all_none by done. simpl. by rewrite app_nil_r.
    + apply tag_marker_at_productive.
    + apply search_here. rewrite <- (app_nil_r s_rb).
      apply tag_marker_at_here; [apply dec_nonempty|apply dec_digits].
  - rewrite <- (app_nil_r (s_TAG ++ _)).
    change s_TAG with (91 :: drop 1 s_TAG).
    rewrite <- app_comm_cons.
    rewrite (search_pass run_marker_at (drop 1 s_TAG ++ dec n ++ s_rb) []).
    + done.
    + apply run_marker_at_bracket.
    + done.
    + apply tag_text_plain.
Qed.
End RestoreFacts.

Section ArrayFacts.
Implicit Types (res : list (option ParagraphChunk)) (c : ParagraphChunk).

Lemma slot_array_set res i c j :
  slot (array_set res i c) j = if decide (i = j) then Some c else slot res j.
Proof.
  unfold slot, array_set. destruct (decide (i < length res)%nat) as [Hlt|Hge].
  - destruct (decide (i = j)) as [->|Hne].
    + by rewrite list_lookup_insert_eq.
    + by rewrite list_lookup_insert_ne.
  - destruct (decide (i = j)) as [->|Hne].
    + rewrite lookup_app_r by lia.
      rewrite lookup_app_r by (rewrite length_replicate; lia).
      rewrite length_replicate.
      by replace (j - length res - (j - length res))%nat with 0%nat by lia.
    + destruct (decide (j < length res)%nat) as [Hj|Hj].
      * by rewrite lookup_app_l.
      * rewrite (lookup_ge_None_2 res j) by lia.
        rewrite lookup_app_r by lia.
        destruct (decide (j - length res < i - length res)%nat).
        -- rewrite lookup_app_l by (rewrite length_replicate; lia).
           by rewrite lookup_replicate_2.
        -- rewrite lookup_app_r by (rewrite length_replicate; lia).
           rewrite length_replicate.
           destruct (j - length res - (i - length res))%nat as [|k] eqn:E; [lia|].
           done.
Qed.

Lemma length_array_set res i c :
  length (array_set res i c) = Nat.max (length res) (S i).
Proof.
  unfold array_set. destruct (decide _).
  - rewrite length_insert. lia.
  - rewrite !length_app, length_replicate. simpl. lia.
Qed.

Lemma store_all_snoc res cs c :
  store_all res (cs ++ [c]) = array_set (store_all res cs) (index c) c.
Proof. unfold store_all. by rewrite foldl_app. Qed.

Lemma length_store_all res cs :
  (∀ c, c ∈ cs → index c < length res)%nat →
  length (store_all res cs) = length res.
Proof.
  induction cs as [|c cs IH] using rev_ind; [done|]. intros Hb.
  rewrite store_all_snoc, length_array_set, IH.
  - assert (index c < length res)%nat by (apply Hb; set_solver). lia.
  - intros x Hx. apply Hb. set_solver.
Qed.

(** What a slot holds after a sequence of writes. *)
Lemma slot_store_all res cs j :
  slot (store_all res cs) j = slot res j ∨
  ∃ c, c ∈ cs ∧ index c = j ∧ slot (store_all res cs) j = Some c.
Proof.
  induction cs as [|c cs IH] using rev_ind; [by left|].
  rewrite store_all_snoc, slot_array_set. destruct (decide (index c = j)) as [E|E].
  - right. exists c. set_solver.
  - destruct IH as [IH|(x & ? & ? & ?)]; [by left|].
    right. exists x. set_solver.
Qed.

Lemma slot_store_all_keep res cs j :
  (∀ c, c ∈ cs → index c ≠ j) → slot (store_all res cs) j = slot res j.
Proof.
  intros H. destruct (slot_store_all res cs j) as [|(c & ? & ? & _)]; [done|].
  exfalso. by eapply H.
Qed.

Lemma slot_store_all_filled res cs j :
  is_Some (slot res j) → is_Some (slot (store_all res cs) j).
Proof.
  intros H. destruct (slot_store_all res cs j) as [->|(c & _ & _ & ->)]; eauto.
Qed.

Lemma slot_store_all_elem res cs c :
  c ∈ cs → is_Some (slot (store_all res cs) (index c)).
Proof.
  induction cs as [|x cs IH] using rev_ind; [set_solver|].
  rewrite store_all_snoc, slot_array_set. intros Hin.
  destruct (decide (index x = index c)); [eauto|].
  apply IH. set_solver.
Qed.

Lemma slot_store_all_last res cs c :
  c ∈ cs → (∀ x, x ∈ cs → index x = index c → x = c) →
  slot (store_all res cs) (index c) = Some c.
Proof.
  intros Hin Huniq.
  destruct (slot_store_all res cs (index c)) as [E|(x & Hx & Hi & ->)].
  - induction cs as [|y cs IH] using rev_ind; [set_solver|].
    revert E. rewrite store_all_snoc, slot_array_set.
    destruct (decide (index y = index c)) as [Ey|Ey].
    + intros _. f_equal. apply Huniq; [set_solver|done].
    + intros E. apply IH; [set_solver| |done].
      intros x Hx. apply Huniq. set_solver.
  - f_equal. by apply Huniq.
Qed.
End ArrayFacts.

Section ReplyFacts.
Implicit Types (batch : list ParagraphChunk) (c o t : ParagraphChunk).

Lemma find_chunk_Some batch id o :
  find_chunk batch id = Some o → o ∈ batch ∧ index o = id.
Proof.
  unfold find_chunk. destruct (list_find _ batch) as [[i x]|] eqn:E; [|done].
  simpl. intros [= ->]. apply list_find_Some in E as (Hl & Hp & _).
  split; [by eapply list_elem_of_lookup_2|done].
Qed.

Lemma find_chunk_elem batch c : c ∈ batch → is_Some (find_chunk batch (index c)).
Proof.
  intros Hin. unfold find_chunk.
  destruct (list_find (λ x, index x = index c) batch) as [[i x]|] eqn:E; [by eexists|].
  exfalso. eapply list_find_None in E. rewrite Forall_forall in E.
  by eapply E.
Qed.


Lemma reply_fold_snoc batch ms m :
  reply_fold batch (ms ++ [m]) = accept_match batch (reply_fold batch ms) m.
Proof. unfold reply_fold. by rewrite foldl_app. Qed.

Lemma reply_fold_found batch ms id :
  id ∈ (reply_fold batch ms).2 ↔
  ∃ m, m ∈ ms ∧ parseInt (p_id m) = id ∧ is_Some (find_chunk batch id).
Proof.
  induction ms as [|m ms IH] using rev_ind.
  - split; [set_solver|]. intros (m & Hm & _). set_solver.
  - rewrite reply_fold_snoc. unfold accept_match at 1.
    destruct (find_chunk batch (parseInt (p_id m))) as [o|] eqn:E; simpl.
    + rewrite elem_of_union, IH, elem_of_singleton. split.
      * intros [(x & ? & ? & ?)| ->].
        -- exists x. set_solver.
        -- exists m. split; [set_solver|]. eauto.
      * intros (x & Hx & Hid & Hs). apply elem_of_app in Hx as [Hx|Hx].
        -- left. eauto.
        -- right. set_solver.
    + rewrite IH. split.
      * intros (x & ? & ? & ?). exists x. set_solver.
      * intros (x & Hx & Hid & Hs). apply elem_of_app in Hx as [Hx|Hx]; [eauto|].
        apply list_elem_of_singleton in Hx as ->. rewrite <- Hid, E in Hs.
        by destruct Hs.
Qed.

Lemma reply_fold_results batch ms t :
  t ∈ (reply_fold batch ms).1 ↔
  ∃ m o, m ∈ ms ∧ find_chunk batch (parseInt (p_id m)) = Some o
         ∧ t = accepted o (trim (p_body m)).
Proof.
  induction ms as [|m ms IH] using rev_ind.
  - split; [set_solver|]. intros (m & ? & Hm & _). set_solver.
  - rewrite reply_fold_snoc. unfold accept_match at 1.
    destruct (find_chunk batch (parseInt (p_id m))) as [o|] eqn:E; simpl.
    + rewrite elem_of_app, IH, list_elem_of_singleton. split.
      * intros [(x & y & ? & ? & ?)| ->].
        -- exists x, y. set_solver.
        -- exists m, o. set_solver.
      * intros (x & y & Hx & Hf & Ht). apply elem_of_app in Hx as [Hx|Hx].
        -- left. eauto.
        -- right. apply list_elem_of_singleton in Hx as ->. congruence.
    + rewrite IH. split.
      * intros (x & y & ? & ? & ?). exists x, y. set_solver.
      * intros (x & y & Hx & Hf & Ht). apply elem_of_app in Hx as [Hx|Hx]; [eauto|].
        apply list_elem_of_singleton in Hx as ->. congruence.
Qed.

Lemma parse_reply_unfold batch text :
  parse_reply batch text =
  {| translated := (reply_fold batch (exec_all p_at text)).1;
     missing := filter (λ c, index c ∉ (reply_fold batch (exec_all p_at text)).2) batch |}.
Proof. unfold parse_reply, reply_fold. by destruct (foldl _ _ _). Qed.

Lemma parse_reply_translated batch text t :
  t ∈ translated (parse_reply batch text) ↔
  ∃ m o, m ∈ exec_all p_at text ∧ find_chunk batch (parseInt (p_id m)) = Some o
         ∧ t = accepted o (trim (p_body m)).
Proof. rewrite parse_reply_unfold. apply reply_fold_results. Qed.

Lemma parse_reply_missing batch text c :
  c ∈ missing (parse_reply batch text) ↔ c ∈ batch ∧ index c ∉ reply_ids text.
Proof.
  rewrite parse_reply_unfold. simpl. rewrite list_elem_of_filter, reply_fold_found.
  unfold reply_ids. rewrite list_elem_of_fmap. split.
  - intros [Hn Hin]. split; [done|]. intros (m & Hid & Hm). apply Hn.
    exists m. split; [done|]. split; [done|]. by apply find_chunk_elem.
  - intros [Hin Hn]. split; [|done]. intros (m & Hm & Hid & _). apply Hn.
    by exists m.
Qed.
End ReplyFacts.

Section BatchReply.
Variable respond : nat → list ParagraphChunk → backend_outcome.

(** C10.  Reply parsing: for every unit of a reply whose index names a
    chunk of the batch, the chunk counts as translated (it is among the
    translated chunks, not among the missing ones), keeps its index and has
    [hasText] set; its text is the unit's content without leading and
    trailing white space, or the original text when that content is empty
    or white space only. *)
Theorem reply_text_trimmed batch w text m original :
  respond (length (dispatched w)) batch = Reply text →
  m ∈ exec_all p_at text →
  find_chunk batch (parseInt (p_id m)) = Some original →
  ∃ br w' t,
    translateBatch respond batch w = (inr br, w')
    ∧ t ∈ translated br ∧ original ∉ missing br
    ∧ index t = index original ∧ hasText t = true
    ∧ (blank (p_body m) = true → simplifiedText t = simplifiedText original)
    ∧ (blank (p_body m) = false →
       simplifiedText t = trim (p_body m)
       ∧ trimmed_of (p_body m) (simplifiedText t)).
Proof.
  intros Hr Hm Hf.
  exists (parse_reply batch text), (log_dispatch batch w),
         (accepted original (trim (p_body m))).
  split; [|split; [|split; [|split; [|split; [|split]]]]].
  - unfold translateBatch. rewrite Hr. destruct batch; [|done].
    by unfold find_chunk in Hf.
  - apply parse_reply_translated. by exists m, original.
  - intros [_ Hn]%parse_reply_missing. apply Hn. unfold reply_ids.
    apply list_elem_of_fmap. exists m. split; [|done]. simpl.
    by apply find_chunk_Some in Hf as [_ ->].
  - done.
  - done.
  - intros Hb. simpl. by rewrite (trim_blank _ Hb).
  - intros Hb. simpl. pose proof (trim_not_blank _ Hb) as Hne.
    destruct (trim (p_body m)) eqn:E; [done|]. simpl. rewrite <- E.
    split; [done|]. apply trim_trimmed.
Qed.
End BatchReply.

Section WaveFacts.
Variable respond : nat → list ParagraphChunk → backend_outcome.
Variable options : TranslateOptions.
Implicit Types (batch : list ParagraphChunk) (w : world).

Lemma translateBatch_spec batch w :
  ∀ r w', translateBatch respond batch w = (r, w') →
  same_logs w w' ∧
  (∀ b, b ∈ dispatched w' → b ∈ dispatched w ∨ b = batch) ∧
  match r with
  | inr br => batch_result respond batch br
  | inl e => rejection respond options e
  end.
Proof.
  intros r w'. unfold translateBatch. destruct batch as [|c batch].
  - intros [= <- <-]. repeat split; [by left|constructor].
  - destruct (respond _ _) eqn:E; intros [= <- <-]; (split; [done|]);
      (split; [simpl; intros b [?|Hb%list_elem_of_singleton]%elem_of_app; [by left|by right]|]).
    + right. eauto.
    + by eapply batch_failed.
    + by eapply batch_replied.
Qed.

Lemma dispatch_wave_spec wave w :
  ∀ rs w', dispatch_wave respond wave w = (rs, w') →
  same_logs w w' ∧
  (∀ b, b ∈ dispatched w' → b ∈ dispatched w ∨ b ∈ wave) ∧
  Forall2 (λ batch r, match r with
                      | inr br => batch_result respond batch br
                      | inl e => rejection respond options e
                      end) wave rs.
Proof.
  revert w. induction wave as [|batch wave IH]; intros w rs w'; simpl.
  - intros [= <- <-]. repeat split; [by left|constructor].
  - destruct (translateBatch respond batch w) as [r w1] eqn:E1.
    destruct (dispatch_wave respond wave w1) as [rs' w2] eqn:E2.
    intros [= <- <-].
    apply translateBatch_spec in E1 as ([Hp1 Hr1] & Hd1 & Hb1).
    apply IH in E2 as ([Hp2 Hr2] & Hd2 & Hb2).
    split; [split; congruence|]. split.
    + intros b Hb. apply Hd2 in Hb as [Hb|Hb]; [|set_solver].
      apply Hd1 in Hb as [Hb| ->]; [by left|set_solver].
    + by constructor.
Qed.

Lemma rejections_elem {A} (rs : list (result A)) e :
  e ∈ rejections rs → inl e ∈ rs.
Proof.
  induction rs as [|[e'|a] rs IH]; simpl; [by intros ?%elem_of_nil| |].
  - intros [->|H]%elem_of_cons; [by left|]. right. by apply IH.
  - intros H. right. by apply IH.
Qed.

Lemma rejections_none {A} (rs : list (result A)) :
  rejections rs = [] → rs = inr <$> fulfilled rs.
Proof.
  induction rs as [|[e'|a] rs IH]; cbn; [done..|].
  intros H. f_equal. by apply IH.
Qed.

Lemma promise_all_spec {A} first (rs : list (result A)) :
  match promise_all first rs with
  | inr xs => rs = inr <$> xs
  | inl e => inl e ∈ rs
  end.
Proof.
  unfold promise_all. destruct (rejections rs) as [|e es] eqn:E; simpl.
  - by apply rejections_none.
  - apply rejections_elem. rewrite E.
    destruct ((e :: es) !! first) as [e'|] eqn:El; simpl; [|by left].
    by eapply list_elem_of_lookup_2.
Qed.

Lemma store_all_app res cs1 cs2 :
  store_all (store_all res cs1) cs2 = store_all res (cs1 ++ cs2).
Proof. unfold store_all. by rewrite foldl_app. Qed.

Lemma absorb_closed res miss (brs : list BatchResult) :
  absorb (res, miss) brs =
  (store_all res (concat (translated <$> brs)), miss ++ concat (missing <$> brs)).
Proof.
  revert res miss. induction brs as [|br brs IH]; intros res miss; simpl.
  - by rewrite app_nil_r.
  - unfold absorb in *. simpl. rewrite IH. simpl.
    by rewrite store_all_app, app_assoc.
Qed.

Lemma run_waves_spec waves res miss w :
  ∀ out w', run_waves respond options waves (res, miss) w = (out, w') →
  same_logs w w' ∧
  (∀ b, b ∈ dispatched w' → b ∈ dispatched w ∨ b ∈ concat waves) ∧
  match out with
  | inr (res', miss') =>
      ∃ brs, Forall2 (batch_result respond) (concat waves) brs
             ∧ res' = store_all res (concat (translated <$> brs))
             ∧ miss' = miss ++ concat (missing <$> brs)
  | inl e => rejection respond options e
  end.
Proof.
  revert res miss w. induction waves as [|wave waves IH]; intros res miss w out w'; simpl.
  - intros [= <- <-]. repeat split; [by left|]. exists []. simpl.
    split; [constructor|]. by rewrite app_nil_r.
  - assert (Hchk : same_logs w (read_aborted options w).2
                   ∧ dispatched (read_aborted options w).2 = dispatched w
                   ∧ ((read_aborted options w).1 = true →
                      ∃ sig k, signal options = Some sig ∧ sig k = true)).
    { unfold read_aborted. destruct (signal options) as [sig|]; simpl; [|done].
      repeat split. eauto. }
    destruct (read_aborted options w) as [ab w1]. simpl in Hchk.
    destruct Hchk as ([Hp0 Hr0] & Hd0 & Hab). destruct ab.
    + intros [= <- <-]. split; [done|]. split; [rewrite Hd0; by left|].
      left. split; [done|]. by apply Hab.
    + destruct (dispatch_wave respond wave w1) as [rs w2] eqn:E2.
      apply (dispatch_wave_spec) in E2 as ([Hp2 Hr2] & Hd2 & Hf2).
      pose proof (promise_all_spec (settles w2 (length (dispatched w2))) rs)
        as Hpa.
      destruct (promise_all _ rs) as [e|brs].
      * intros [= <- <-]. split; [split; congruence|]. split.
        -- intros b Hb. apply Hd2 in Hb as [Hb|Hb]; [left; congruence|].
           right. set_solver.
        -- apply list_elem_of_lookup in Hpa as [i Hi].
           eapply Forall2_lookup_r in Hf2 as (batch & _ & Hrej); [|done]. done.
      * rewrite absorb_closed. intros Hrun.
        apply IH in Hrun as ([Hp3 Hr3] & Hd3 & Hout).
        split; [split; congruence|]. split.
        -- intros b Hb. apply Hd3 in Hb as [Hb|Hb]; [|set_solver].
           apply Hd2 in Hb as [Hb|Hb]; [left; congruence|set_solver].
        -- destruct out as [e|[res' miss']]; [done|].
           destruct Hout as (brs' & Hf3 & -> & ->).
           exists (brs ++ brs'). subst rs. split.
           ++ apply Forall2_app; [|done]. by apply Forall2_fmap_r in Hf2.
           ++ rewrite !fmap_app, !concat_app, store_all_app. by rewrite !app_assoc.
Qed.
End WaveFacts.

Section BatchFacts.
Variable respond : nat → list ParagraphChunk → backend_outcome.
Variable options : TranslateOptions.
Implicit Types (batch : list ParagraphChunk) (c o t : ParagraphChunk).

Lemma batch_result_translated batch br t :
  batch_result respond batch br → t ∈ translated br →
  ∃ o, o ∈ batch ∧ index t = index o.
Proof.
  intros [| |k b text Hne Hr]; simpl; [set_solver..|].
  intros (m & o & _ & Hf & ->)%parse_reply_translated.
  apply find_chunk_Some in Hf as [Ho _]. by exists o.
Qed.

Lemma batch_result_missing batch br c :
  batch_result respond batch br → c ∈ missing br → c ∈ batch.
Proof.
  intros [| |k b text Hne Hr]; simpl; [done..|].
  by intros [? _]%parse_reply_missing.
Qed.

Lemma batch_result_cover batch br c :
  batch_result respond batch br → c ∈ batch →
  c ∈ missing br ∨ ∃ t, t ∈ translated br ∧ index t = index c.
Proof.
  intros [| |k b text Hne Hr] Hin; simpl; [set_solver|by left|].
  destruct (decide (index c ∈ reply_ids text)) as [Hid|Hid].
  - right. unfold reply_ids in Hid. apply list_elem_of_fmap in Hid as (m & Hid & Hm).
    destruct (find_chunk_elem b c Hin) as [o Ho]. simpl in Hid.
    exists (accepted o (trim (p_body m))). split.
    + apply parse_reply_translated. exists m, o. by rewrite <- Hid.
    + simpl. by apply find_chunk_Some in Ho as [_ ?].
  - left. by apply parse_reply_missing.
Qed.

Lemma batch_result_absent batch br c :
  batch_result respond batch br → always_absent respond c → c ∈ batch →
  c ∈ missing br.
Proof.
  intros [| |k b text Hne Hr] Habs Hin; simpl; [done..|].
  apply parse_reply_missing. split; [done|].
  specialize (Habs k b Hin). by rewrite Hr in Habs.
Qed.

(** The same facts for the batches of a whole pass. *)
Lemma pass_facts batches brs :
  Forall2 (batch_result respond) batches brs →
  (∀ t, t ∈ concat (translated <$> brs) →
        ∃ o, o ∈ concat batches ∧ index t = index o) ∧
  (∀ c, c ∈ concat (missing <$> brs) → c ∈ concat batches) ∧
  (∀ c, c ∈ concat batches →
        c ∈ concat (missing <$> brs)
        ∨ ∃ t, t ∈ concat (translated <$> brs) ∧ index t = index c) ∧
  (∀ c, always_absent respond c → c ∈ concat batches →
        c ∈ concat (missing <$> brs)).
Proof.
  induction 1 as [|batch br batches brs Hbr _ (IH1 & IH2 & IH3 & IH4)]; simpl.
  - set_solver.
  - repeat split.
    + intros t [Ht|Ht]%elem_of_app.
      * destruct (batch_result_translated _ _ _ Hbr Ht) as (o & ? & ?).
        exists o. set_solver.
      * destruct (IH1 _ Ht) as (o & ? & ?). exists o. set_solver.
    + intros c [Hc|Hc]%elem_of_app.
      * apply elem_of_app. left. by eapply batch_result_missing.
      * apply elem_of_app. right. by apply IH2.
    + intros c [Hc|Hc]%elem_of_app.
      * destruct (batch_result_cover _ _ _ Hbr Hc) as [?|(t & ? & ?)].
        -- left. set_solver.
        -- right. exists t. set_solver.
      * destruct (IH3 _ Hc) as [?|(t & ? & ?)].
        -- left. set_solver.
        -- right. exists t. set_solver.
    + intros c Habs [Hc|Hc]%elem_of_app.
      * apply elem_of_app. left. by eapply batch_result_absent.
      * apply elem_of_app. right. by apply IH4.
Qed.

Lemma concat_slices_aux {A} fuel step (l : list A) :
  (0 < step)%nat → (length l <= fuel)%nat →
  concat (slices_aux fuel step l) = l.
Proof.
  intros Hs. revert l. induction fuel as [|f IH]; intros l Hl; simpl.
  - destruct l; [done|simpl in Hl; lia].
  - destruct l as [|x l]; [done|]. simpl. rewrite IH.
    + apply take_drop.
    + rewrite length_drop. simpl in *. lia.
Qed.

Lemma concat_slices {A} step (l : list A) : concat (slices step l) = l.
Proof. apply concat_slices_aux; [lia|done]. Qed.

Lemma slices_nonempty {A} step (l : list A) : l ≠ [] → slices step l ≠ [].
Proof. unfold slices. by destruct l. Qed.

Lemma concat_singletons {A} (l : list A) :
  concat ((λ c : A, [c]) <$> l) = l.
Proof. induction l as [|x l IH]; [done|]. csimpl. by rewrite IH. Qed.

Lemma retry_loop_spec remaining retry res miss w :
  ∀ out w', retry_loop respond options remaining retry res miss w = (out, w') →
  repacked w' = repacked w ∧
  (∀ b, b ∈ dispatched w' → b ∈ dispatched w ∨ ∃ c, c ∈ miss ∧ b = [c]) ∧
  (∀ m, m ∈ progress w → m ∈ progress w') ∧
  match out with
  | inr (res', miss') =>
      ∃ T, res' = store_all res T
           ∧ (∀ t, t ∈ T → ∃ o, o ∈ miss ∧ index t = index o)
           ∧ (∀ c, c ∈ miss' → c ∈ miss)
           ∧ (∀ c, c ∈ miss → c ∈ miss' ∨ ∃ t, t ∈ T ∧ index t = index c)
           ∧ (∀ c, always_absent respond c → c ∈ miss → c ∈ miss')
  | inl e => rejection respond options e
  end.
Proof.
  revert retry res miss w.
  induction remaining as [|n IH]; intros retry res miss w out w'.
  - simpl. intros [= <- <-]. repeat split; [by left|done|].
    exists []. set_solver.
  - destruct miss as [|c0 miss0] eqn:Emiss.
    { simpl. intros [= <- <-]. repeat split; [by left|done|]. exists []. set_solver. }
    rewrite <- Emiss. assert (Hne : miss ≠ []) by by subst.
    clear Emiss. unfold retry_loop; fold retry_loop.
    destruct miss as [|c1 miss1] eqn:Emiss; [done|]. rewrite <- Emiss. clear Emiss Hne c0 miss0 c1 miss1.
    assert (Hchk : same_logs w (read_aborted options w).2
                   ∧ dispatched (read_aborted options w).2 = dispatched w
                   ∧ ((read_aborted options w).1 = true →
                      ∃ sig k, signal options = Some sig ∧ sig k = true)).
    { unfold read_aborted. destruct (signal options) as [sig|]; simpl; [|done].
      repeat split. eauto. }
    destruct (read_aborted options w) as [ab w1]. simpl in Hchk.
    destruct Hchk as ([Hp0 Hr0] & Hd0 & Hab). destruct ab.
    + intros [= <- <-]. split; [done|]. split; [rewrite Hd0; by left|].
      split; [by rewrite Hp0|]. left. split; [done|]. by apply Hab.
    + set (w2 := report options (retry_message retry miss) w1).
      assert (Hw2 : repacked w2 = repacked w1 ∧ dispatched w2 = dispatched w1
                    ∧ ∀ m, m ∈ progress w1 → m ∈ progress w2).
      { unfold w2, report. destruct (onProgress options); simpl; [|done].
        repeat split. set_solver. }
      destruct Hw2 as (Hr2 & Hd2 & Hp2).
      destruct (run_waves respond options _ (res, []) w2) as [o3 w3] eqn:E3.
      apply run_waves_spec in E3 as ([Hp3 Hr3] & Hd3 & Hout3).
      rewrite concat_slices in Hd3, Hout3.
      assert (Hdisp : ∀ b, b ∈ dispatched w3 →
                           b ∈ dispatched w ∨ ∃ c, c ∈ miss ∧ b = [c]).
      { intros b Hb. apply Hd3 in Hb as [Hb|Hb]; [left; congruence|].
        right. apply list_elem_of_fmap in Hb as (c & -> & Hc). eauto. }
      destruct o3 as [e|[res3 miss3]].
      * intros [= <- <-]. split; [congruence|]. split; [done|].
        split; [|done]. intros m Hm. rewrite Hp3. apply Hp2. by rewrite Hp0.
      * destruct Hout3 as (brs & Hf & -> & ->). simpl.
        destruct (pass_facts _ _ Hf) as (F1 & F2 & F3 & F4).
        rewrite concat_singletons in F1, F2, F3, F4.
        intros Hrec. apply IH in Hrec as (Hr4 & Hd4 & Hp4 & Hout).
        split; [congruence|]. split.
        { intros b Hb. apply Hd4 in Hb as [Hb|(c & Hc & ->)]; [by apply Hdisp|].
          right. exists c. split; [by apply F2|done]. }
        split. { intros m Hm. apply Hp4. rewrite Hp3. apply Hp2. by rewrite Hp0. }
        destruct out as [e|[res' miss']]; [done|].
        destruct Hout as (T & -> & G1 & G2 & G3 & G4).
        exists (concat (translated <$> brs) ++ T). rewrite store_all_app.
        split; [done|]. repeat split.
        -- intros t [Ht|Ht]%elem_of_app; [by apply F1|].
           destruct (G1 _ Ht) as (o & Ho & ?). exists o. split; [by apply F2|done].
        -- intros c Hc. by apply F2, G2.
        -- intros c Hc. destruct (F3 _ Hc) as [Hm|(t & Ht & ?)].
           ++ destruct (G3 _ Hm) as [?|(t & Ht & ?)]; [by left|].
              right. exists t. set_solver.
           ++ right. exists t. set_solver.
        -- intros c Habs Hc. apply G4; [done|]. by apply F4.
Qed.
End BatchFacts.

Section ParallelFacts.
Variable respond : nat → list ParagraphChunk → backend_outcome.
Variable options : TranslateOptions.
Implicit Types (c o t : ParagraphChunk) (chunks : list ParagraphChunk).

Lemma passes_through_negb c : passes_through c = negb (translatable c).
Proof. unfold passes_through, translatable. by destruct (hasText c), (truthy _). Qed.

Lemma elem_of_bfilter {A} (f : A → bool) (l : list A) x :
  x ∈ List.filter f l ↔ x ∈ l ∧ f x = true.
Proof. rewrite !list_elem_of_In. apply filter_In. Qed.

Lemma elem_of_concat {A} (ls : list (list A)) x :
  x ∈ concat ls ↔ ∃ l, l ∈ ls ∧ x ∈ l.
Proof.
  rewrite list_elem_of_In, in_concat.
  split; intros (l & H1 & H2); exists l; rewrite ?list_elem_of_In in *; done.
Qed.

Lemma elem_of_slices {A} step (l b : list A) x :
  b ∈ slices step l → x ∈ b → x ∈ l.
Proof.
  intros Hb Hx. rewrite <- (concat_slices step l). apply elem_of_concat. eauto.
Qed.

Lemma slices_aux_nonempty {A} fuel step (l b : list A) :
  (0 < step)%nat → b ∈ slices_aux fuel step l → b ≠ [].
Proof.
  intros Hs. revert l. induction fuel as [|f IH]; intros l; simpl; [set_solver|].
  destruct l as [|x l]; [set_solver|].
  intros [->|Hb]%elem_of_cons; [|by eapply IH].
  destruct step; [lia|done].
Qed.

Lemma translateChunksInParallel_spec chunks w :
  ∀ out w', translateChunksInParallel respond options chunks w = (out, w') →
  repacked w' = repacked w ∧
  (∀ b, b ∈ dispatched w' →
        b ∈ dispatched w
        ∨ b ≠ [] ∧ ∀ c, c ∈ b → c ∈ chunks ∧ translatable c = true) ∧
  (∀ m, m ∈ progress w → m ∈ progress w') ∧
  match out with
  | inr res =>
      ∃ T Mi,
        res = store_all
                (store_all
                   (store_all (replicate (length chunks) None)
                              (List.filter passes_through chunks)) T) Mi
        ∧ (∀ t, t ∈ T → ∃ o, o ∈ chunks ∧ translatable o = true
                              ∧ index t = index o)
        ∧ (∀ c, c ∈ Mi → c ∈ chunks ∧ translatable c = true)
        ∧ (∀ c, c ∈ chunks → translatable c = true →
                c ∈ Mi ∨ ∃ t, t ∈ T ∧ index t = index c)
        ∧ (∀ c, c ∈ chunks → translatable c = true →
                always_absent respond c → c ∈ Mi)
        ∧ (Mi ≠ [] → onProgress options = true →
           warning_message Mi ∈ progress w')
  | inl e => rejection respond options e
  end.
Proof.
  intros out w'. unfold translateChunksInParallel.
  set (res0 := store_all _ (List.filter passes_through chunks)).
  set (size := default default_batchSize (batchSize options)).
  set (TT := List.filter translatable chunks).
  destruct (run_waves respond options _ (res0, []) w) as [o1 w1] eqn:E1.
  apply run_waves_spec in E1 as ([Hp1 Hr1] & Hd1 & Hout1).
  rewrite concat_slices in Hd1, Hout1.
  assert (HTT : ∀ c, c ∈ TT ↔ c ∈ chunks ∧ translatable c = true)
    by (intros c; apply elem_of_bfilter).
  assert (Hdisp1 : ∀ b, b ∈ dispatched w1 →
            b ∈ dispatched w
            ∨ b ≠ [] ∧ ∀ c, c ∈ b → c ∈ chunks ∧ translatable c = true).
  { intros b Hb. apply Hd1 in Hb as [Hb|Hb]; [by left|]. right. split.
    - eapply slices_aux_nonempty; [|exact Hb]. lia.
    - intros c Hc. apply HTT. by eapply elem_of_slices. }
  destruct o1 as [e|[res1 miss1]].
  { intros [= <- <-]. repeat split; [done..|by rewrite Hp1|done]. }
  destruct Hout1 as (brs & Hf & -> & ->).
  destruct (pass_facts respond _ _ Hf) as (F1 & F2 & F3 & F4).
  rewrite concat_slices in F1, F2, F3, F4.
  match goal with
  | |- context [retry_loop ?a ?b ?c ?d ?e ?f ?g] =>
      destruct (retry_loop a b c d e f g) as [o2 w2] eqn:E2
  end.
  apply retry_loop_spec in E2 as (Hr2 & Hd2 & Hp2 & Hout2).
  assert (Hdisp2 : ∀ b, b ∈ dispatched w2 →
            b ∈ dispatched w
            ∨ b ≠ [] ∧ ∀ c, c ∈ b → c ∈ chunks ∧ translatable c = true).
  { intros b Hb. apply Hd2 in Hb as [Hb|(c & Hc & ->)]; [by apply Hdisp1|].
    right. split; [done|]. intros x ->%list_elem_of_singleton. by apply HTT, F2. }
  destruct o2 as [e|[res2 miss2]].
  { intros [= <- <-]. repeat split; [congruence|done| |done].
    intros m Hm. apply Hp2. by rewrite Hp1. }
  destruct Hout2 as (T & -> & G1 & G2 & G3 & G4).
  assert (Hfacts :
    (∀ t, t ∈ concat (translated <$> brs) ++ T →
          ∃ o, o ∈ chunks ∧ translatable o = true ∧ index t = index o) ∧
    (∀ c, c ∈ miss2 → c ∈ chunks ∧ translatable c = true) ∧
    (∀ c, c ∈ chunks → translatable c = true →
          c ∈ miss2 ∨ ∃ t, t ∈ concat (translated <$> brs) ++ T
                           ∧ index t = index c) ∧
    (∀ c, c ∈ chunks → translatable c = true →
          always_absent respond c → c ∈ miss2)).
  { repeat split.
    - intros t [Ht|Ht]%elem_of_app.
      + destruct (F1 _ Ht) as (o & Ho%HTT & ?). exists o. tauto.
      + destruct (G1 _ Ht) as (o & Ho%F2%HTT & ?). exists o. tauto.
    - by apply HTT, F2, G2.
    - by apply HTT, F2, G2.
    - intros c Hc Ht. assert (Hin : c ∈ TT) by by apply HTT.
      destruct (F3 _ Hin) as [Hm|(t & ? & ?)].
      + destruct (G3 _ Hm) as [?|(t & ? & ?)]; [by left|].
        right. exists t. set_solver.
      + right. exists t. set_solver.
    - intros c Hc Ht Habs. apply G4; [done|]. apply F4; [done|]. by apply HTT. }
  destruct Hfacts as (H1 & H2 & H3 & H4).
  destruct miss2 as [|c0 miss2'] eqn:Emiss.
  - intros [= <- <-]. split; [congruence|]. split; [done|].
    split; [intros m Hm; apply Hp2; by rewrite Hp1|].
    exists (concat (translated <$> brs) ++ T), []. rewrite <- store_all_app.
    repeat split; try done; by apply H2.
  - rewrite <- Emiss in *. assert (Hne : miss2 ≠ []) by by subst.
    clear Emiss. intros [= <- <-].
    split; [unfold report; destruct (onProgress options); simpl; congruence|].
    split; [unfold report; by destruct (onProgress options)|].
    split.
    { intros m Hm. unfold report. destruct (onProgress options); simpl.
      - apply elem_of_app. left. apply Hp2. by rewrite Hp1.
      - apply Hp2. by rewrite Hp1. }
    exists (concat (translated <$> brs) ++ T), miss2. rewrite <- store_all_app.
    repeat split; try done; try by apply H2.
    intros _ Hon. unfold report. rewrite Hon. simpl. set_solver.
Qed.
End ParallelFacts.

Section Claims.
Variable respond : nat → list ParagraphChunk → backend_outcome.
Variable options : TranslateOptions.
Implicit Types (c o t : ParagraphChunk) (chunks : list ParagraphChunk).

Lemma quiet_no_rejection e : quiet respond options → ¬ rejection respond options e.
Proof.
  intros [Hs Hr] [[_ (sig & k & Hsig & Hk)]|(k & b & Hk)].
  - specialize (Hs _ k Hsig). congruence.
  - by eapply Hr.
Qed.

Lemma quiet_returns chunks w :
  quiet respond options →
  ∃ res w', translateChunksInParallel respond options chunks w = (inr res, w').
Proof.
  intros Hq.
  destruct (translateChunksInParallel respond options chunks w) as [[e|res] w'] eqn:E.
  - apply translateChunksInParallel_spec in E as (_ & _ & _ & Hrej).
    by apply quiet_no_rejection in Hrej.
  - eauto.
Qed.

Lemma distinct_index chunks c1 c2 :
  NoDup (index <$> chunks) → c1 ∈ chunks → c2 ∈ chunks →
  index c1 = index c2 → c1 = c2.
Proof.
  intros Hnd [i Hi]%list_elem_of_lookup [j Hj]%list_elem_of_lookup Heq.
  assert (i = j) as ->.
  { eapply NoDup_lookup; [exact Hnd|..].
    - by rewrite list_lookup_fmap, Hi.
    - by rewrite list_lookup_fmap, Hj, Heq. }
  congruence.
Qed.

Lemma slot_replicate n i : slot (replicate n None) i = None.
Proof.
  unfold slot. destruct (replicate n None !! i) as [x|] eqn:E; [|done].
  by apply lookup_replicate in E as [-> _].
Qed.

Lemma slot_Some res i c : slot res i = Some c → res !! i = Some (Some c).
Proof. unfold slot. by destruct (res !! i) as [[x|]|]; simpl; intros [= ->]. Qed.

(** C2.  Order preservation: when the [index] of every input chunk is its
    array position, every result [translateChunksInParallel] returns has
    the length of the input and holds at every position [i] a chunk whose
    [index] is [i], whatever the backend replies to whichever call; and the
    call does return when no cancellation is observed and no session
    fails. *)
Theorem order_preserved chunks w :
  positioned chunks →
  (∀ res w',
      translateChunksInParallel respond options chunks w = (inr res, w') →
      length res = length chunks ∧
      ∀ i, (i < length chunks)%nat →
           ∃ c, res !! i = Some (Some c) ∧ index c = i) ∧
  (quiet respond options →
   ∃ res w', translateChunksInParallel respond options chunks w = (inr res, w')).
Proof.
  intros Hpos. split; [|apply quiet_returns].
  intros res w' E.
  apply translateChunksInParallel_spec in E as (_ & _ & _ & T & Mi & -> & H1 & H2 & H3 & _).
  assert (Hb : ∀ c, c ∈ chunks → (index c < length chunks)%nat).
  { intros c [i Hi]%list_elem_of_lookup. rewrite (Hpos _ _ Hi).
    by eapply lookup_lt_Some. }
  set (r0 := replicate (length chunks) None).
  set (PT := List.filter passes_through chunks).
  assert (L1 : length (store_all r0 PT) = length chunks).
  { rewrite length_store_all; [apply length_replicate|].
    intros c [Hc _]%elem_of_bfilter. unfold r0. rewrite length_replicate. by apply Hb. }
  assert (L2 : length (store_all (store_all r0 PT) T) = length chunks).
  { rewrite length_store_all; [done|]. intros t Ht. rewrite L1.
    destruct (H1 _ Ht) as (o & Ho & _ & ->). by apply Hb. }
  split.
  { rewrite length_store_all; [done|]. intros c Hc. rewrite L2.
    apply Hb. by apply H2. }
  intros i Hi. destruct (lookup_lt_is_Some_2 chunks i Hi) as [c Hc].
  assert (Hin : c ∈ chunks) by by eapply list_elem_of_lookup_2.
  assert (Hidx : index c = i) by by apply Hpos.
  assert (Hfill : is_Some (slot (store_all (store_all (store_all r0 PT) T) Mi) i)).
  { destruct (translatable c) eqn:Etr.
    - destruct (H3 _ Hin Etr) as [Hm|(t & Ht & Hti)].
      + rewrite <- Hidx. by apply slot_store_all_elem.
      + apply slot_store_all_filled. rewrite <- Hidx, <- Hti.
        by apply slot_store_all_elem.
    - do 2 apply slot_store_all_filled. rewrite <- Hidx.
      apply slot_store_all_elem, elem_of_bfilter. split; [done|].
      by rewrite passes_through_negb, Etr. }
  destruct Hfill as [x Hx]. exists x. split; [by apply slot_Some|].
  (* every stored chunk sits at its own index *)
  destruct (slot_store_all (store_all (store_all r0 PT) T) Mi i)
    as [E3|(y & _ & Hy & E3)]; rewrite E3 in Hx; [|congruence].
  destruct (slot_store_all (store_all r0 PT) T i)
    as [E2|(y & _ & Hy & E2)]; rewrite E2 in Hx; [|congruence].
  destruct (slot_store_all r0 PT i)
    as [E1|(y & _ & Hy & E1)]; rewrite E1 in Hx; [|congruence].
  unfold r0 in Hx. by rewrite slot_replicate in Hx.
Qed.

(** C4.  Missing-unit fallback: a translatable chunk that no reply ever
    returns (on the first pass and on both retry passes) ends up in the
    result at its index as the original input chunk, and the warning passed
    to [onProgress] names its index: the message is the warning of the
    source, with the number of chunks that could not be translated and
    their indices in decimal, separated by commas, and the chunk is one of
    them; the call returns, it does not throw. *)
Theorem missing_falls_back chunks w c :
  NoDup (index <$> chunks) →
  c ∈ chunks → translatable c = true →
  always_absent respond c →
  quiet respond options →
  onProgress options = true →
  ∃ res w' stillMissing,
    translateChunksInParallel respond options chunks w = (inr res, w')
    ∧ slot res (index c) = Some c
    ∧ c ∈ stillMissing
    ∧ lit "Warning: " ++ dec (length stillMissing)
      ++ lit " chunks could not be translated after " ++ dec 2
      ++ lit " retries (ids: "
      ++ join (lit ", ") ((λ x, dec (index x)) <$> stillMissing)
      ++ lit "). Keeping original text." ∈ progress w'.
Proof.
  intros Hnd Hin Htr Habs Hq Hon.
  destruct (quiet_returns chunks w Hq) as (res & w' & E).
  exists res, w'.
  pose proof E as E'.
  apply translateChunksInParallel_spec in E' as (_ & _ & _ & T & Mi & -> & H1 & H2 & H3 & H4 & H5).
  exists Mi. assert (Hm : c ∈ Mi) by by apply H4.
  split; [done|]. split; [|split; [done|]].
  - apply slot_store_all_last; [done|]. intros x Hx Hxi.
    eapply distinct_index; [done| |done..]. by apply H2.
  - apply (H5 ltac:(intros ->; set_solver) Hon).
Qed.

(** C5.  Pass-through invariance: a chunk without text, or whose simplified
    text is blank, is in no batch handed to the backend, for every input and
    every behaviour of the backend; and when the indices of the input are
    pairwise distinct, every returned result holds that very chunk at its
    index.  The call returns when no cancellation is observed and no session
    fails. *)
Theorem pass_through_untouched chunks w c :
  c ∈ chunks →
  hasText c = false ∨ trim (simplifiedText c) = [] →
  (∀ batch,
     batch ∈ dispatched (translateChunksInParallel respond options chunks w).2 →
     batch ∈ dispatched w ∨ c ∉ batch) ∧
  (NoDup (index <$> chunks) →
   ∀ res, (translateChunksInParallel respond options chunks w).1 = inr res →
          slot res (index c) = Some c) ∧
  (quiet respond options →
   ∃ res, (translateChunksInParallel respond options chunks w).1 = inr res).
Proof.
  intros Hin Hpt.
  destruct (translateChunksInParallel respond options chunks w) as [out w'] eqn:E.
  simpl.
  assert (Hntr : translatable c = false).
  { unfold translatable. destruct Hpt as [-> | ->]; [done|]. by rewrite andb_false_r. }
  pose proof E as E'.
  apply translateChunksInParallel_spec in E' as (_ & Hd & _ & Hout).
  split; [|split].
  - intros b Hb. destruct (Hd _ Hb) as [?|[_ Hall]]; [by left|].
    right. intros Hc. apply Hall in Hc as [_ Hc]. congruence.
  - intros Hnd res ->. destruct Hout as (T & Mi & -> & H1 & H2 & _).
    rewrite slot_store_all_keep.
    2:{ intros x Hx Hxi. destruct (H2 _ Hx) as [Hxc Hxt].
        assert (x = c) by by eapply distinct_index. congruence. }
    rewrite slot_store_all_keep.
    2:{ intros x Hx Hxi. destruct (H1 _ Hx) as (o & Ho & Hot & Hxo).
        assert (o = c) by (eapply distinct_index; [done..|congruence]). congruence. }
    apply slot_store_all_last.
    + apply elem_of_bfilter. split; [done|]. by rewrite passes_through_negb, Hntr.
    + intros x [Hx _]%elem_of_bfilter Hxi. by eapply distinct_index.
  - intros Hq. destruct out as [e|res]; [|eauto].
    by apply quiet_no_rejection in Hout.
Qed.

End Claims.


Section DocxFacts.
Variable to_primitive : json → option (list N).
Variable respond : nat → list ParagraphChunk → backend_outcome.
Variable extract : result (list N).
Variable repack_error : list N → option exn.
Variable out_path language : list N.
Variable opt_concurrency : option positive.
Variable opt_signal : option (nat → bool).
Variable opt_onProgress : bool.

Notation run := (translateDocx to_primitive respond extract repack_error
                   out_path language opt_concurrency opt_signal opt_onProgress).
Notation say := (notify opt_onProgress).

Lemma notify_repacked msg w : repacked (say msg w) = repacked w.
Proof. unfold notify. by destruct opt_onProgress. Qed.

(** C6.  When the reconstructed document fails the tag-balance check,
    [translateDocx] throws the error of [validateXml] and [repackDocx] is
    not called: nothing is added to the documents written. *)
Theorem malformed_result_not_written w documentXml chunks idTagMap
    translatedChunks w1 cs translatedXml e :
  extract = inr documentXml →
  replaceTagsWithIds (chunkParagraphs documentXml) = (chunks, idTagMap) →
  existsb hasText chunks = true →
  translateChunksInParallel respond
    (translator_options opt_concurrency opt_signal) chunks
    (say (lit "Translating " ++ dec (length (List.filter hasText chunks))
          ++ lit " chunks to " ++ language ++ lit "...")
       (say (lit "Chunking paragraphs...")
          (say (lit "Extracting document XML...") w)))
    = (inr translatedChunks, w1) →
  dense translatedChunks = Some cs →
  reconstructXml to_primitive documentXml cs idTagMap = inr translatedXml →
  validateXml translatedXml = inl e →
  ∃ w', run w = (inl e, w') ∧ repacked w' = repacked w.
Proof.
  intros Hex Hrep Hsome Htr Hd Hrec Hval.
  exists (say (lit "Reconstructing document...") w1). split.
  - unfold translateDocx. rewrite Hex, Hrep.
    assert (bool_decide (length chunks = 0%nat) = false) as ->.
    { apply bool_decide_eq_false. by destruct chunks. }
    rewrite Hsome. simpl negb. cbv iota. simpl orb. cbv iota.
    rewrite Htr, Hd, Hrec, Hval. done.
  - rewrite notify_repacked.
    apply translateChunksInParallel_spec in Htr as (-> & _).
    by rewrite !notify_repacked.
Qed.
End DocxFacts.

(** * Further properties of the code *)

Section OccurrenceFacts.
Implicit Types (s p u v : list N).

Lemma find_sub_None p s :
  find_sub p s = None → ∀ u v, s = u ++ v → strip_prefix p v = None.
Proof.
  induction s as [|c s IH]; intros H u v E.
  - symmetry in E. apply app_eq_nil in E as [-> ->]. simpl in H.
    by destruct (strip_prefix p []).
  - destruct (strip_prefix p (c :: s)) as [r|] eqn:Es.
    + by rewrite (find_sub_here _ _ _ Es) in H.
    + rewrite (find_sub_next _ _ _ Es) in H.
      destruct u as [|d u]; simpl in E; [by subst v|].
      injection E as -> ->. apply (IH) with u; [|done].
      by destruct (find_sub p (u ++ v)) as [[??]|].
Qed.

Lemma find_sub_None_suffix p u v :
  find_sub p (u ++ v) = None → find_sub p v = None.
Proof.
  induction u as [|c u IH]; [done|]. intros H.
  change ((c :: u) ++ v) with (c :: (u ++ v)) in H.
  destruct (strip_prefix p (c :: (u ++ v))) as [r|] eqn:Es.
  - by rewrite (find_sub_here _ _ _ Es) in H.
  - rewrite (find_sub_next _ _ _ Es) in H. apply IH.
    by destruct (find_sub p (u ++ v)) as [[??]|].
Qed.

(** [find_sub] returns the first occurrence: the pattern starts at no
    earlier position. *)
Lemma find_sub_first p s u v :
  find_sub p s = Some (u, v) →
  ∀ u1 u2, u = u1 ++ u2 → u2 ≠ [] → strip_prefix p (u2 ++ p ++ v) = None.
Proof.
  revert u. induction s as [|c s IH]; intros u H u1 u2 E Hne.
  - simpl in H. destruct (strip_prefix p []) eqn:Es; [|done].
    injection H as <- <-. by destruct u1, u2.
  - destruct (strip_prefix p (c :: s)) as [r|] eqn:Es.
    + rewrite (find_sub_here _ _ _ Es) in H. injection H as <- <-.
      by destruct u1, u2.
    + rewrite (find_sub_next _ _ _ Es) in H.
      destruct (find_sub p s) as [[u' v']|] eqn:E'; [|done].
      injection H as <- <-.
      destruct u1 as [|d u1]; simpl in E.
      * subst u2. apply find_sub_Some in E'. by rewrite <- app_comm_cons, <- E'.
      * injection E as -> ->. by eapply IH.
Qed.

Lemma find_sub_before p s u v :
  p ≠ [] → find_sub p s = Some (u, v) → find_sub p u = None.
Proof.
  intros Hp H. destruct (find_sub p u) as [[a b]|] eqn:E; [|done].
  apply find_sub_Some in E. subst u.
  pose proof (find_sub_first _ _ _ _ H a (p ++ b) eq_refl) as Hf.
  rewrite <- app_assoc, strip_prefix_app in Hf.
  discriminate Hf. by destruct p.
Qed.
End OccurrenceFacts.

Section ParagraphFacts.
Implicit Types (s doc p rest : list N).

Lemma para_at_shape s p rest :
  para_at s = Some (p, rest) → s = p ++ rest ∧ paragraph_block p.
Proof.
  unfold para_at.
  destruct (strip_prefix s_p_open s) as [[|c t]|] eqn:E1; [done| |done].
  apply strip_prefix_Some in E1 as ->.
  destruct (is_space c || eqc c 62) eqn:Ec; [|done].
  destruct (find_sub s_p_close t) as [[body r]|] eqn:E2; [|done].
  intros [= <- <-]. assert (Hne : s_p_close ≠ []) by done.
  pose proof (find_sub_before _ _ _ _ Hne E2) as Hb.
  apply find_sub_Some in E2 as ->. split.
  - unfold s_p_open. simpl. by rewrite <- app_assoc.
  - exists c, body. split; [done|]. split; [|done].
    apply orb_true_iff in Ec as [?|?%eqc_eq]; eauto.
Qed.

Lemma para_at_productive : productive para_at.
Proof.
  intros s p rest (-> & c & body & -> & _)%para_at_shape.
  rewrite !length_app. simpl. lia.
Qed.

Lemma weave_cons a b ms tl : weave ((a, b) :: ms) tl = a ++ b ++ weave ms tl.
Proof. unfold weave. simpl. by rewrite <- !app_assoc. Qed.

(** The matches of an expression whose match is the matched text, woven
    with the text between them, give the searched text back. *)
Lemma matches_weave (matcher : list N → option (list N * list N)) s :
  productive matcher →
  (∀ s m rest, matcher s = Some (m, rest) → s = m ++ rest) →
  weave (matches matcher s).1 (matches matcher s).2 = s.
Proof.
  intros Hp Hm. apply (matches_ind matcher Hp (λ s r, weave r.1 r.2 = s)).
  - done.
  - intros s' pre m rest E IH. cbn [fst snd] in *.
    apply search_Some in E as (s'' & -> & E). apply Hm in E as ->.
    by rewrite weave_cons, IH.
Qed.

Lemma matches_tail_done {M} (matcher : list N → option (M * list N)) s :
  productive matcher → search matcher (matches matcher s).2 = None.
Proof.
  intros Hp. by apply (matches_ind matcher Hp (λ s r, search matcher r.2 = None)).
Qed.

Lemma matches_all {M} (matcher : list N → option (M * list N))
    (P : M → Prop) s :
  productive matcher →
  (∀ s m rest, matcher s = Some (m, rest) → P m) →
  Forall P (exec_all matcher s).
Proof.
  intros Hp Hm. unfold exec_all.
  apply (matches_ind matcher Hp (λ s r, Forall P (r.1.*2))).
  - constructor.
  - intros s' pre m rest E IH. simpl. constructor; [|done].
    apply search_Some in E as (s'' & _ & E). by eapply Hm.
Qed.

Lemma search_None_intro {M} (matcher : list N → option (M * list N)) s :
  (∀ u v, s = u ++ v → matcher v = None) → search matcher s = None.
Proof.
  induction s as [|c s IH]; intros H.
  - simpl. by rewrite (H [] []).
  - rewrite search_next by (by apply (H [])). rewrite IH; [done|].
    intros u v ->. by apply (H (c :: u)).
Qed.

(** X2.  A document without the opening of a paragraph tag, or without a
    closing paragraph tag, has no paragraph blocks. *)
Theorem chunkParagraphs_none doc :
  find_sub s_p_open doc = None ∨ find_sub s_p_close doc = None →
  chunkParagraphs doc = [].
Proof.
  intros H. unfold chunkParagraphs, exec_all. rewrite matches_none; [done|].
  apply search_None_intro. intros u v ->. unfold para_at.
  destruct H as [H|H].
  - by rewrite (find_sub_None _ _ H u v).
  - destruct (strip_prefix s_p_open v) as [[|c t]|] eqn:E; [done| |done].
    apply strip_prefix_Some in E as ->.
    destruct (is_space c || eqc c 62); [|done].
    rewrite (find_sub_None_suffix s_p_close (u ++ s_p_open ++ [c]) t); [done|].
    by rewrite <- !app_assoc.
Qed.
End ParagraphFacts.

Section SliceFacts.
Implicit Types (s p u v : list N).

Lemma find_sub_occurs p u v : ∃ a b, find_sub p (u ++ p ++ v) = Some (a, b).
Proof.
  destruct (find_sub p (u ++ p ++ v)) as [[a b]|] eqn:E; [by eauto|].
  pose proof (find_sub_None _ _ E u (p ++ v) eq_refl) as H.
  by rewrite strip_prefix_app in H.
Qed.

Lemma clamp_pos_inside n k : (k ≤ n)%nat → clamp_pos n (Z.of_nat k) = k.
Proof.
  intros H. unfold clamp_pos.
  destruct (Z.ltb_spec (Z.of_nat k) 0); [lia|]. rewrite Nat2Z.id. lia.
Qed.

Lemma slice_prefix u v : slice (u ++ v) 0 (Z.of_nat (length u)) = u.
Proof.
  unfold slice. rewrite (clamp_pos_inside _ 0), clamp_pos_inside
    by (rewrite ?length_app; lia).
  by rewrite Nat.sub_0_r, drop_0, take_app_length.
Qed.

Lemma slice_from_suffix u v : slice_from (u ++ v) (Z.of_nat (length u)) = v.
Proof.
  unfold slice_from. rewrite clamp_pos_inside by (rewrite length_app; lia).
  by rewrite drop_app_length.
Qed.

Lemma indexOf_found p s u v :
  find_sub p s = Some (u, v) → indexOf s p = Z.of_nat (length u).
Proof. intros H. unfold indexOf. by rewrite H. Qed.

Lemma indexOf_from_here u p v :
  indexOf_from (u ++ p ++ v) p (Z.of_nat (length u)) = Z.of_nat (length u).
Proof.
  unfold indexOf_from. rewrite Z.max_l by lia.
  rewrite clamp_pos_inside by (rewrite length_app; lia).
  rewrite drop_app_length, (find_sub_here p (p ++ v) v) by apply strip_prefix_app.
  simpl. f_equal. lia.
Qed.
End SliceFacts.

Section SegmentationFacts.
Implicit Types (s doc p rest gap : list N).

Lemma search_None_all {M} (matcher : list N → option (M * list N)) s :
  search matcher s = None → ∀ u v, s = u ++ v → matcher v = None.
Proof.
  induction s as [|c s IH]; intros H u v E.
  - symmetry in E. apply app_eq_nil in E as [-> ->]. cbn in H.
    by destruct (matcher []) as [[? ?]|].
  - cbn [search] in H. destruct (matcher (c :: s)) as [[mm r]|] eqn:Em; [done|].
    destruct u as [|c' u]; cbn in E.
    + by subst v.
    + injection E as <- E. destruct (search matcher s) as [[[? ?] ?]|] eqn:Es; [done|].
      by eapply IH.
Qed.

(** The match found is the leftmost one. *)
Lemma search_leftmost {M} (matcher : list N → option (M * list N)) s pre mm rest :
  search matcher s = Some (pre, mm, rest) →
  ∃ s', s = pre ++ s' ∧ matcher s' = Some (mm, rest)
        ∧ ∀ u v, pre = u ++ v → v ≠ [] → matcher (v ++ s') = None.
Proof.
  revert pre. induction s as [|c s IH]; intros pre H.
  - cbn in H. destruct (matcher []) as [[m0 r0]|] eqn:Em; [|done].
    injection H as <- <- <-. exists []. split_and!; [done..|].
    intros u v E Hv. symmetry in E. by apply app_eq_nil in E as [_ ->].
  - cbn [search] in H. destruct (matcher (c :: s)) as [[m0 r0]|] eqn:Em.
    + injection H as <- <- <-. exists (c :: s). split_and!; [done..|].
      intros u v E Hv. symmetry in E. by apply app_eq_nil in E as [_ ->].
    + destruct (search matcher s) as [[[pre' m'] r']|] eqn:Es; [|done].
      injection H as <- <- <-.
      destruct (IH pre' eq_refl) as (s' & -> & Hm & Hleft).
      exists s'. split_and!; [done..|].
      intros u v E Hv. destruct u as [|c' u]; cbn in E.
      * subst v. by rewrite <- app_comm_cons.
      * injection E as <- E. by apply (Hleft u v).
Qed.

(** The expression matches wherever a paragraph block begins. *)
Lemma para_at_None s : para_at s = None → ¬ begins_block s.
Proof.
  intros H (p & rest & -> & c & body & -> & Hc & Hb).
  unfold para_at in H. rewrite <- !app_assoc, strip_prefix_app in H.
  rewrite <- app_comm_cons in H.
  assert (Hc' : is_space c || eqc c 62 = true).
  { destruct Hc as [->| ->]; [done|]. by rewrite orb_true_r. }
  rewrite Hc' in H. rewrite <- app_assoc in H.
  destruct (find_sub_occurs s_p_close body rest) as (a & b & E).
  by rewrite E in H.
Qed.

Lemma segmented_matches doc :
  segmented doc (exec_all para_at doc).
Proof.
  unfold exec_all.
  apply (matches_ind para_at para_at_productive
           (λ s r, segmented s (r.1.*2))); cbn [fst snd fmap list_fmap].
  - intros s H. constructor. intros u v E.
    apply para_at_None. by eapply search_None_all.
  - intros s pre p rest E IH.
    apply search_leftmost in E as (s' & -> & Em & Hleft).
    apply para_at_shape in Em as [-> Hp].
    constructor; [done| |done].
    intros u v E Hv. apply para_at_None. by apply (Hleft u v).
Qed.

End SegmentationFacts.

Section SegmentationUnique.
Implicit Types (s doc p rest gap body : list N).

Lemma search_found {M} (matcher : list N → option (M * list N)) gap s mm rest :
  (∀ u v, gap = u ++ v → v ≠ [] → matcher (v ++ s) = None) →
  matcher s = Some (mm, rest) →
  search matcher (gap ++ s) = Some (gap, mm, rest).
Proof.
  intros Hgap Hs. induction gap as [|c gap IH].
  - by apply search_here.
  - cbn [app]. rewrite search_next by (by apply (Hgap [] (c :: gap))).
    rewrite IH; [done|]. intros u v -> Hv. by apply (Hgap (c :: u) v).
Qed.

(** No occurrence of the closing tag begins in a body that holds none and
    ends in the closing tag that follows it. *)
Lemma close_no_overlap u rest :
  u ≠ [] → strip_prefix s_p_close u = None →
  strip_prefix s_p_close (u ++ s_p_close ++ rest) = None.
Proof.
  intros Hne Hu.
  destruct u as [|c1 [|c2 [|c3 [|c4 [|c5 [|c6 u]]]]]]; [done|..];
    cbn [app strip_prefix s_p_close] in *;
    repeat (match goal with
            | |- context [eqc ?a ?b] => destruct (eqc a b) eqn:?; [|done]
            end); try done.
Qed.

Lemma find_sub_close body rest :
  find_sub s_p_close body = None →
  find_sub s_p_close (body ++ s_p_close ++ rest) = Some (body, rest).
Proof.
  intros Hb. pose proof (find_sub_None _ _ Hb) as Hnone. clear Hb.
  induction body as [|c body IH].
  - cbn [app]. apply find_sub_here, strip_prefix_app.
  - cbn [app]. rewrite find_sub_next.
    + rewrite IH; [done|]. intros u v ->. by apply (Hnone (c :: u)).
    + apply (close_no_overlap (c :: body)); [done|]. by apply (Hnone []).
Qed.

(** The expression matches a paragraph block where one begins, and
    matches that block. *)
Lemma para_at_block p rest : paragraph_block p → para_at (p ++ rest) = Some (p, rest).
Proof.
  intros (c & body & -> & Hc & Hb). unfold para_at.
  rewrite <- !app_assoc, strip_prefix_app. rewrite <- app_comm_cons.
  assert (Hc' : is_space c || eqc c 62 = true).
  { destruct Hc as [->| ->]; [done|]. by rewrite orb_true_r. }
  rewrite Hc', <- app_assoc. by rewrite (find_sub_close body rest Hb).
Qed.

(** The cut into paragraph blocks is unique. *)
Lemma segmented_unique doc ps : segmented doc ps → exec_all para_at doc = ps.
Proof.
  induction 1 as [tl Htl|gap p rest ps Hp Hgap _ IH]; unfold exec_all in *.
  - rewrite matches_none; [done|]. apply search_None_intro. intros u v E.
    destruct (para_at v) as [[p r]|] eqn:Ev; [|done]. exfalso.
    apply (Htl u v E). apply para_at_shape in Ev as [-> ?]. by exists p, r.
  - rewrite (matches_step para_at para_at_productive _ gap p rest).
    + cbn [fst fmap list_fmap snd]. by rewrite IH.
    + apply search_found; [|by apply para_at_block].
      intros u v E Hv. destruct (para_at (v ++ p ++ rest)) as [[p' r]|] eqn:Ev; [|done].
      exfalso. apply (Hgap u v E Hv). apply para_at_shape in Ev as [Ev ?].
      by exists p', r.
Qed.

(** X1.  Segmentation cuts the document into its paragraph blocks.  The
    blocks are found from left to right: each is the first block that
    begins in the text left after the block before it, so the blocks occur
    in the document in order and without overlap, no block is skipped, and
    no block begins in the text after the last one.  A block is [<w:p],
    one white-space character or [>], a body without [</w:p>], and
    [</w:p>].  No other list of blocks cuts the document in this way. *)
Theorem chunkParagraphs_partition doc :
  segmented doc (chunkParagraphs doc)
  ∧ ∀ ps, segmented doc ps → ps = chunkParagraphs doc.
Proof.
  split; [apply segmented_matches|].
  intros ps H. symmetry. by apply segmented_unique.
Qed.
End SegmentationUnique.

Section TextElementFacts.
Implicit Types (s whole rest : list N) (tm : t_match).

(** A matched text element is its opening tag, its text and the closing
    tag; the opening tag ends at its first [>] and the text holds no [<]. *)
Lemma t_at_shape s tm rest :
  t_at s = Some (tm, rest) →
  ∃ attrs,
    s = t_whole tm ++ rest
    ∧ t_whole tm = (s_t_open ++ attrs ++ [62]) ++ t_text tm ++ s_t_close
    ∧ Forall (λ c, c ≠ 62) attrs
    ∧ Forall (λ c, c ≠ 60) (t_text tm).
Proof.
  unfold t_at. destruct (strip_prefix s_t_open s) as [t|] eqn:E1; [|done].
  apply strip_prefix_Some in E1 as ->.
  set (sp := match t with
             | c :: t' => if is_space c then let '(a, r) := span not_gt t' in (c :: a, r)
                          else ([], t)
             | [] => ([], t) end).
  assert (Hsp : t = sp.1 ++ sp.2 ∧ Forall (λ c, c ≠ 62) sp.1).
  { subst sp. destruct t as [|c t']; [done|].
    destruct (is_space c) eqn:Ec; [|done].
    destruct (span not_gt t') as [a r] eqn:Es. apply span_spec in Es as (-> & Ha & _).
    split; [done|]. constructor.
    - intros ->. done.
    - eapply Forall_impl; [exact Ha|]. intros x Hx ->. done. }
  destruct sp as [attrs t1]. destruct Hsp as [-> Hattrs].
  cbn [fst snd] in Hattrs |- *.
  destruct t1 as [|g t2]; [done|]. destruct (eqc g 62) eqn:Eg; [|done].
  apply eqc_eq in Eg as ->.
  destruct (span not_lt t2) as [text t3] eqn:Es. cbv beta iota.
  apply span_spec in Es as (-> & Htext & _).
  destruct (strip_prefix s_t_close t3) as [r|] eqn:E3; [|done].
  apply strip_prefix_Some in E3 as ->. intros [= <- <-]. simpl.
  exists attrs. split; [|split; [|split]]; try done.
  - by repeat (rewrite <- ?app_assoc; simpl).
  - by repeat (rewrite <- ?app_assoc; simpl).
  - eapply Forall_impl; [exact Htext|]. intros x Hx ->. done.
Qed.

Lemma t_at_productive : productive t_at.
Proof.
  intros s tm rest (attrs & -> & E & _)%t_at_shape.
  rewrite E, !length_app. simpl. lia.
Qed.

Lemma text_element_parts tm attrs :
  t_whole tm = (s_t_open ++ attrs ++ [62]) ++ t_text tm ++ s_t_close →
  Forall (λ c, c ≠ 62) attrs →
  t_open tm = s_t_open ++ attrs ++ [62] ∧ t_close tm = s_t_close.
Proof.
  intros E Hattrs.
  assert (Hgt : (indexOf (t_whole tm) s_gt + 1)%Z
                = Z.of_nat (length (s_t_open ++ attrs ++ [62]))).
  { rewrite (indexOf_found s_gt _ (s_t_open ++ attrs) (t_text tm ++ s_t_close)).
    - rewrite !length_app. simpl. lia.
    - rewrite E. rewrite <- !app_assoc.
      rewrite (app_assoc s_t_open attrs). apply (find_sub_skip s_gt 62); [done|].
      apply Forall_app. split; [|done]. unfold s_t_open. by repeat constructor. }
  assert (Hi : textStart tm = Z.of_nat (length (s_t_open ++ attrs ++ [62]))).
  { unfold textStart. rewrite Hgt, E. apply indexOf_from_here. }
  unfold t_open, t_close. rewrite Hi. split.
  - rewrite E. apply slice_prefix.
  - rewrite <- Nat2Z.inj_add, <- length_app. rewrite E at 1.
    rewrite app_assoc. apply slice_from_suffix.
Qed.

(** A run is cut at the first occurrence of its text element. *)
Lemma run_parts whole tm u v :
  whole = u ++ t_whole tm ++ v →
  whole = beforeText whole tm ++ t_whole tm ++ afterText whole tm.
Proof.
  intros ->. destruct (find_sub_occurs (t_whole tm) u v) as (b & a & Hf).
  unfold beforeText, afterText. rewrite (indexOf_found _ _ _ _ Hf).
  pose proof (find_sub_Some _ _ _ _ Hf) as Hw. rewrite Hw.
  rewrite slice_prefix. do 2 f_equal.
  rewrite <- Nat2Z.inj_add, <- length_app, app_assoc. symmetry.
  apply slice_from_suffix.
Qed.

(** The stored fragment of a run with a text element. *)
Lemma text_run_fragment_parts whole tm :
  text_run_fragment whole tm
  = stringify_fragment (beforeText whole tm) (afterText whole tm)
      (t_open tm ++ s_TEXT ++ t_close tm).
Proof. done. Qed.
End TextElementFacts.

Section NumberingFacts.
Implicit Types (s para rest : list N) (st : ext_state) (os : list origin)
  (ps : list piece).

Lemma run_at_shape s rm rest :
  run_at s = Some (rm, rest) →
  s = run_whole rm ++ rest
  ∧ ∃ attrs, run_whole rm = s_r_open ++ attrs ++ 62 :: run_inner rm ++ s_r_close.
Proof.
  unfold run_at. destruct (strip_prefix s_r_open s) as [t|] eqn:E1; [|done].
  apply strip_prefix_Some in E1 as ->.
  destruct (match t with c :: _ => is_word c | [] => false end); [done|].
  destruct (span not_gt t) as [attrs t1] eqn:Es. cbv beta iota.
  apply span_spec in Es as (-> & _ & Hg).
  destruct t1 as [|g t2]; [done|].
  assert (g = 62) as ->.
  { unfold not_gt in Hg. apply negb_false_iff in Hg. by apply eqc_eq. }
  destruct (find_sub s_r_close t2) as [[inner r]|] eqn:E2; [|done].
  apply find_sub_Some in E2 as ->. intros [= <- <-]. cbn [run_whole run_inner].
  split; [|by eexists]. by repeat (rewrite <- ?app_assoc; simpl).
Qed.

Lemma run_at_productive : productive run_at.
Proof.
  intros s rm rest (-> & attrs & E)%run_at_shape.
  rewrite E, !length_app. simpl. lia.
Qed.

Lemma span_origin_nil : span_origin [] = [].
Proof. done. Qed.

Lemma opaque_span_number span acc :
  opaque_span span acc = number (span_origin span) acc.
Proof.
  unfold opaque_span, span_origin. by destruct (truthy (trim span)).
Qed.

Lemma number_app os1 os2 acc :
  number (os1 ++ os2) acc = number os2 (number os1 acc).
Proof. apply foldl_app. Qed.

Lemma process_run_number acc m :
  process_run acc m = number (span_origin m.1 ++ [run_origin m.2]) acc.
Proof.
  destruct m as [between rm]. rewrite number_app. unfold process_run.
  cbn [fst snd]. rewrite <- opaque_span_number.
  replace (match between with [] => acc | _ :: _ => opaque_span between acc end)
    with (opaque_span between acc) by (by destruct between).
  unfold run_origin.
  by destruct (search t_at (run_inner rm)) as [[[? tm] ?]|].
Qed.

Lemma foldl_process_run runs acc :
  foldl process_run acc runs
  = number (flat_map (λ m, span_origin m.1 ++ [run_origin m.2]) runs) acc.
Proof.
  revert acc. induction runs as [|m runs IH]; intros acc; [done|].
  cbn [foldl flat_map]. by rewrite number_app, IH, process_run_number.
Qed.

(** The markers of a paragraph are the numbering of its origins. *)
Lemma simplify_number para st :
  simplify para st = number (origins para) ([], st).
Proof.
  unfold simplify, origins. destruct (matches run_at para) as [runs trailing].
  rewrite number_app, <- foldl_process_run, <- opaque_span_number.
  by destruct trailing.
Qed.

Lemma number_snoc os o acc :
  number (os ++ [o]) acc = number_step (number os acc) o.
Proof. by rewrite number_app. Qed.

(** What a numbering writes: consecutive IDs, one per origin. *)
Lemma number_spec os ps st :
  let ids := seq (nextId st) (length os) in
  (number os (ps, st)).1 = ps ++ zip_with piece_of ids os
  ∧ nextId (number os (ps, st)).2 = (nextId st + length os)%nat
  ∧ history (number os (ps, st)).2
    = history st ++ zip ids (fragment_of <$> os).
Proof.
  induction os as [|o os IH] using rev_ind.
  - simpl. by rewrite !app_nil_r.
  - rewrite number_snoc. destruct IH as (IH1 & IH2 & IH3).
    destruct (number os (ps, st)) as [ps1 st1]. cbn [fst snd] in *.
    unfold number_step, alloc. cbn [fst snd nextId history].
    rewrite length_app, seq_app, fmap_app. cbn [length seq fmap list_fmap].
    rewrite zip_with_app by (by rewrite length_seq).
    rewrite zip_with_app by (by rewrite length_seq, length_fmap).
    cbn [zip_with]. rewrite IH1, IH2, IH3, <- !app_assoc.
    split; [done|]. split; [lia|done].
Qed.

Lemma well_numbered_initial : well_numbered initial_state.
Proof.
  split; [done|]. split; [done|]. intros id f. cbn. split; [done|].
  by intros ?%elem_of_nil.
Qed.

Lemma well_numbered_alloc f st :
  well_numbered st → well_numbered (alloc f st).2.
Proof.
  intros (Hn & Hk & Hm). unfold alloc. cbn [snd]. split; [|split].
  - cbn. rewrite length_app. simpl. lia.
  - cbn [history]. rewrite fmap_app, length_app, seq_app, Hk, Hn. done.
  - intros id g. cbn [idTagMap history]. rewrite elem_of_app, list_elem_of_singleton.
    destruct (decide (id = nextId st)) as [->|Hne].
    + rewrite lookup_insert_eq. split.
      * intros [= ->]. by right.
      * intros [Hin|[= ->]]; [|done]. exfalso.
        assert (nextId st ∈ (history st).*1) as Hin'.
        { apply list_elem_of_fmap. by exists (nextId st, g). }
        rewrite Hk, Hn in Hin'. apply elem_of_seq in Hin'. lia.
    + rewrite lookup_insert_ne by done. rewrite Hm. split; [by left|].
      intros [?|[= ? ?]]; [done|]. congruence.
Qed.

Lemma well_numbered_number os acc :
  well_numbered acc.2 → well_numbered (number os acc).2.
Proof.
  induction os as [|o os IH] using rev_ind; [done|].
  intros H. rewrite number_snoc. specialize (IH H).
  unfold number_step. destruct (number os acc) as [ps1 st1].
  cbn [fst snd] in *. 
  pose proof (well_numbered_alloc (fragment_of o) st1 IH) as Ha.
  by destruct (alloc (fragment_of o) st1).
Qed.
End NumberingFacts.

Section ExtractionFacts.
Implicit Types (para : list N) (st : ext_state) (os : list origin)
  (ps : list piece) (h : list (nat * list N)).

Lemma logged_mono h h' ps os :
  (∀ x, x ∈ h → x ∈ h') → logged h ps os → logged h' ps os.
Proof.
  intros Hsub H. eapply Forall2_impl; [exact H|].
  intros p o [? ?]. split; [done|]. by apply Hsub.
Qed.

Lemma piece_id_piece_of id o : piece_id (piece_of id o) = id.
Proof. by destruct o. Qed.

Lemma logged_zip (ids : list nat) os :
  length ids = length os →
  logged (zip ids (fragment_of <$> os)) (zip_with piece_of ids os) os.
Proof.
  revert ids. induction os as [|o os IH]; intros [|id ids] Hl; try done.
  - constructor.
  - injection Hl as Hl. cbn. constructor.
    + rewrite piece_id_piece_of. split; [done|]. by left.
    + eapply logged_mono; [|by apply IH]. intros x Hx. by right.
Qed.

Lemma piece_ids_zip (ids : list nat) os :
  length ids = length os → piece_id <$> (zip_with piece_of ids os) = ids.
Proof.
  revert ids. induction os as [|o os IH]; intros [|id ids] Hl; try done.
  injection Hl as Hl. cbn. by rewrite piece_id_piece_of, IH.
Qed.

Lemma fst_zip_fragments (ids : list nat) os :
  length ids = length os → (zip ids (fragment_of <$> os)).*1 = ids.
Proof. intros Hl. apply fst_zip. rewrite length_fmap. lia. Qed.

Lemma logged_recorded st ps os :
  well_numbered st → logged (history st) ps os → recorded (idTagMap st) ps os.
Proof.
  intros (_ & _ & Hm) H. eapply Forall2_impl; [exact H|].
  intros p o [? ?]. split; [done|]. by apply Hm.
Qed.

(** What the extraction of one paragraph does. *)
Lemma extract_paragraph_spec i para st :
  let e := (extract_paragraph i para st).1 in
  let st1 := (extract_paragraph i para st).2 in
  index (chunk e) = i
  ∧ hasText (chunk e) = truthy (trim (extractTextContent para))
  ∧ simplifiedText (chunk e) = render (markers e)
  ∧ (hasText (chunk e) = false → markers e = [])
  ∧ piece_id <$> markers e = seq (nextId st) (length (para_origins para))
  ∧ nextId st1 = (nextId st + length (para_origins para))%nat
  ∧ (history st1).*1 = (history st).*1 ++ (piece_id <$> markers e)
  ∧ (∃ new, history st1 = history st ++ new)
  ∧ logged (history st1) (markers e) (para_origins para)
  ∧ (well_numbered st → well_numbered st1).
Proof.
  unfold extract_paragraph, para_origins.
  destruct (truthy (trim (extractTextContent para))) eqn:Et; cbn [negb].
  - rewrite simplify_number.
    destruct (number_spec (origins para) [] st) as (H1 & H2 & H3).
    pose proof (well_numbered_number (origins para) ([], st)) as Hw.
    destruct (number (origins para) ([], st)) as [ps st1].
    cbn [fst snd chunk markers index hasText simplifiedText] in *.
    rewrite app_nil_l in H1. subst ps.
    rewrite H3, fmap_app, fst_zip_fragments, piece_ids_zip
      by (by rewrite length_seq).
    split_and!; try done.
    + by eexists.
    + eapply logged_mono; [|apply logged_zip; by rewrite length_seq].
      intros x Hx. apply elem_of_app. by right.
  - cbn. rewrite app_nil_r. split_and!; try done.
    + exists []. by rewrite app_nil_r.
    + constructor.
Qed.

(** What the extraction of a list of paragraphs does. *)
Lemma extract_from_spec paragraphs : ∀ i st,
  let es := (extract_from i paragraphs st).1 in
  let st' := (extract_from i paragraphs st).2 in
  (∀ k e, es !! k = Some e → index (chunk e) = (i + k)%nat)
  ∧ Forall2 (λ e para,
       hasText (chunk e) = truthy (trim (extractTextContent para))
       ∧ simplifiedText (chunk e) = render (markers e)
       ∧ (hasText (chunk e) = false → markers e = [])
       ∧ logged (history st') (markers e) (para_origins para)) es paragraphs
  ∧ marker_ids es = seq (nextId st) (length (marker_ids es))
  ∧ nextId st' = (nextId st + length (marker_ids es))%nat
  ∧ (history st').*1 = (history st).*1 ++ marker_ids es
  ∧ (∃ new, history st' = history st ++ new)
  ∧ (well_numbered st → well_numbered st').
Proof.
  induction paragraphs as [|para rest IH]; intros i st.
  - cbn. rewrite app_nil_r. split_and!; try done.
    exists []. by rewrite app_nil_r.
  - cbn [extract_from].
    pose proof (extract_paragraph_spec i para st) as
      (P1 & P2 & P3 & P4 & P5 & P6 & P7 & [new1 P8] & P9 & P10).
    destruct (extract_paragraph i para st) as [e st1]. cbn [fst snd] in *.
    specialize (IH (S i) st1). cbv zeta in IH.
    destruct IH as (I1 & I2 & I3 & I4 & I5 & [new2 I6] & I7).
    destruct (extract_from (S i) rest st1) as [es st2]. cbn [fst snd] in *.
    assert (Hids : marker_ids (e :: es) = (piece_id <$> markers e) ++ marker_ids es).
    { unfold marker_ids. cbn. by rewrite fmap_app. }
    rewrite Hids, length_app, P5, length_seq.
    split; [|split; [|split; [|split; [|split; [|split]]]]].
    + intros [|k] e'; cbn.
      * intros [= <-]. lia.
      * intros Hk. rewrite (I1 _ _ Hk). lia.
    + constructor; [|done]. split_and!; try done.
      eapply logged_mono; [|exact P9]. intros x Hx. rewrite I6.
      apply elem_of_app. by left.
    + rewrite seq_app. f_equal. rewrite I3 at 1. by rewrite P6.
    + rewrite I4, P6. lia.
    + by rewrite I5, P7, P5, app_assoc.
    + exists (new1 ++ new2). by rewrite I6, P8, app_assoc.
    + intros Hw. by apply I7, P10.
Qed.
End ExtractionFacts.

Section OriginFacts.
Implicit Types (s para : list N) (o : origin) (rm : run_match).

Lemma truthy_trim s : truthy (trim s) = negb (blank s).
Proof.
  destruct (blank s) eqn:E.
  - by rewrite trim_blank.
  - apply trim_not_blank in E. by destruct (trim s).
Qed.

Lemma run_origin_sound rm :
  (∃ attrs, run_whole rm = s_r_open ++ attrs ++ 62 :: run_inner rm ++ s_r_close) →
  sound_origin (run_origin rm).
Proof.
  intros [attrs E]. unfold run_origin.
  destruct (search t_at (run_inner rm)) as [[[pre tm] rest]|] eqn:Es;
    [|by cbn; rewrite E].
  apply search_Some in Es as (s' & Ei & Et).
  apply t_at_shape in Et as (tattrs & -> & Ew & Ha & Ht).
  exists tattrs, (s_r_open ++ attrs ++ 62 :: pre), (rest ++ s_r_close).
  split_and!; try done. rewrite E, Ei.
  by repeat (rewrite <- ?app_assoc; simpl).
Qed.

Lemma matches_each {M} (matcher : list N → option (M * list N))
    (P : M → Prop) s :
  productive matcher →
  (∀ s m rest, matcher s = Some (m, rest) → P m) →
  Forall (λ m, P m.2) (matches matcher s).1.
Proof.
  intros Hp Hm. apply Forall_fmap. by apply matches_all.
Qed.

Lemma span_origin_sound s : Forall sound_origin (span_origin s).
Proof.
  unfold span_origin. rewrite truthy_trim.
  destruct (blank s) eqn:E; by repeat constructor.
Qed.

Lemma origins_sound para : Forall sound_origin (origins para).
Proof.
  unfold origins.
  pose proof (matches_each run_at
    (λ rm, ∃ attrs, run_whole rm = s_r_open ++ attrs ++ 62 :: run_inner rm ++ s_r_close)
    para run_at_productive) as H.
  destruct (matches run_at para) as [runs trailing]. cbn [fst] in H.
  apply Forall_app. split; [|apply span_origin_sound].
  apply Forall_flat_map. eapply Forall_impl.
  - apply H. by intros s m rest [_ ?]%run_at_shape.
  - intros [between rm] Hrm. apply Forall_app. split; [apply span_origin_sound|].
    constructor; [|constructor]. by apply run_origin_sound.
Qed.

Lemma para_origins_sound para : Forall sound_origin (para_origins para).
Proof.
  unfold para_origins. destruct (truthy _); [apply origins_sound|constructor].
Qed.
End OriginFacts.

Section RefillFacts.
Variable to_primitive : json → option (list N).
Implicit Types (m : gmap nat (list N)) (o : origin) (p : piece)
  (os : list origin) (ps : list piece) (s text : list N).

Lemma replace_all_prefix {M} (matcher : list N → option (M * list N)) fn u s :
  productive matcher →
  search matcher (u ++ s) =
    match search matcher s with
    | Some (pre, mm, rest) => Some (u ++ pre, mm, rest)
    | None => None
    end →
  replace_all matcher fn (u ++ s)
  = (out ← replace_all matcher fn s; ok (u ++ out)).
Proof.
  intros Hp E. destruct (search matcher s) as [[[pre mm] rest]|] eqn:Es.
  - rewrite (replace_all_step _ _ _ _ _ _ Hp E), (replace_all_step _ _ _ _ _ _ Hp Es).
    destruct (fn mm) as [e|r]; [done|]. cbn.
    destruct (replace_all matcher fn rest) as [e|out]; [done|]. cbn.
    by rewrite <- app_assoc.
  - by rewrite (replace_all_none _ _ _ E), (replace_all_none _ _ _ Es).
Qed.

Lemma Forall_forallb_ne (c : N) s :
  forallb (λ x, negb (eqc x c)) s = true → Forall (λ x, x ≠ c) s.
Proof.
  intros H. apply Forall_forall. intros x Hx%list_elem_of_In.
  rewrite forallb_forall in H. specialize (H x Hx).
  intros ->. by rewrite eqc_refl in H.
Qed.

Lemma marker_safe_spec text :
  marker_safe text = true →
  Forall (λ c, c ≠ 91) text ∧ Forall (λ c, c ≠ 36) text.
Proof.
  intros H. unfold marker_safe in H. rewrite forallb_forall in H.
  split; apply Forall_forall; intros x Hx%list_elem_of_In; specialize (H x Hx);
    intros ->; done.
Qed.

Lemma xml_entity_no_bracket c : c ≠ 91 → Forall (λ d, d ≠ 91) (xml_entity c).
Proof.
  intros Hc. unfold xml_entity.
  repeat (destruct (eqc c _); [by repeat constructor|]).
  by repeat constructor.
Qed.

Lemma escapeXml_no_bracket s :
  Forall (λ c, c ≠ 91) s → Forall (λ c, c ≠ 91) (escapeXml s).
Proof.
  intros H. rewrite escapeXml_entities. apply Forall_flat_map.
  eapply Forall_impl; [exact H|]. apply xml_entity_no_bracket.
Qed.

(** The parts of a sound, refillable run. *)
Lemma fillable_parts whole tm :
  sound_origin (FromRun whole tm) → fillable (FromRun whole tm) = true →
  whole = beforeText whole tm ++ t_open tm ++ t_text tm ++ t_close tm
          ++ afterText whole tm
  ∧ Forall (λ c, c ≠ 91) (beforeText whole tm)
  ∧ Forall (λ c, c ≠ 91) (t_open tm)
  ∧ Forall (λ c, c ≠ 91) (t_close tm)
  ∧ Forall (λ c, c ≠ 91) (afterText whole tm)
  ∧ Forall (λ c, c ≠ 123) (t_open tm).
Proof.
  intros (attrs & u & v & E & Ha & Ht & Ew) [Hb Ho]%andb_true_iff.
  apply Forall_forallb_ne in Hb, Ho.
  destruct (text_element_parts tm attrs E Ha) as [Eo Ec].
  pose proof (run_parts whole tm u v Ew) as Hw.
  assert (Hw' : whole = beforeText whole tm ++ t_open tm ++ t_text tm
                        ++ t_close tm ++ afterText whole tm).
  { rewrite Hw at 1. rewrite E, Eo, Ec. by rewrite <- !app_assoc. }
  split; [done|]. rewrite Hw' in Hb.
  rewrite !Forall_app in Hb. by destruct Hb as (? & ? & ? & ? & ?).
Qed.

(** The callback of a paired marker, on a marker of a refillable run. *)
Lemma run_replacer_refill m id whole tm text :
  refillable m (RunMarker id text) (FromRun whole tm) →
  run_replacer to_primitive m {| rm_id := dec id; rm_text := text |}
  = ok (restored (FromRun whole tm) (RunMarker id text)).
Proof.
  intros (Hm & Hs & Hf & Ht).
  destruct (fillable_parts whole tm Hs Hf) as (_ & _ & _ & _ & _ & Hbrace).
  apply marker_safe_spec in Ht as [_ Hd].
  rewrite text_run_fragment_parts in Hm.
  rewrite (run_replacer_stored to_primitive m _ _ _ _)
    by (cbn [rm_id]; rewrite parseInt_dec; exact Hm).
  cbn [rm_text restored piece_text].
  rewrite replace_first_template; [|done|by apply escapeXml_no_dollar].
  by rewrite <- !app_assoc.
Qed.

Lemma restored_no_bracket whole tm id text :
  sound_origin (FromRun whole tm) → fillable (FromRun whole tm) = true →
  marker_safe text = true →
  Forall (λ c, c ≠ 91) (restored (FromRun whole tm) (RunMarker id text)).
Proof.
  intros Hs Hf Ht.
  destruct (fillable_parts whole tm Hs Hf) as (_ & ? & ? & ? & ? & _).
  apply marker_safe_spec in Ht as [Hb _].
  cbn [restored piece_text]. rewrite !Forall_app. split_and!; try done.
  by apply escapeXml_no_bracket.
Qed.

Lemma render_cons p ps : render (p :: ps) = render_piece p ++ render ps.
Proof. done. Qed.

(** The first pass replaces the paired markers and passes over the
    unpaired ones. *)
Lemma restore_first_pass m ps os :
  Forall2 (refillable m) ps os →
  replace_all run_marker_at (run_replacer to_primitive m) (render ps)
  = ok (concat (zip_with half_restored os ps)).
Proof.
  induction 1 as [|p o ps os Hp _ IH]; [done|].
  rewrite render_cons. cbn [zip_with concat].
  destruct o as [span|whole tm], p as [id|id text]; try done.
  - (* an unpaired marker *)
    cbn [half_restored render_piece].
    change (s_TAG ++ dec id ++ s_rb)
      with (91 :: (drop 1 s_TAG ++ dec id ++ s_rb)).
    rewrite replace_all_prefix, IH; [done|apply run_marker_at_productive|].
    apply search_pass; [apply run_marker_at_bracket|done|apply tag_text_plain].
  - (* a paired marker *)
    pose proof Hp as (_ & _ & _ & [Hb _]%marker_safe_spec).
    cbn [half_restored render_piece].
    rewrite (replace_all_step run_marker_at _ _ []
               {| rm_id := dec id; rm_text := text |} (render ps)).
    + rewrite (run_replacer_refill _ _ _ _ _ Hp), IH. done.
    + apply run_marker_at_productive.
    + apply search_here. rewrite <- !app_assoc.
      apply run_marker_at_here; [apply dec_nonempty|apply dec_digits|done].
Qed.

(** The second pass replaces the unpaired markers and passes over the
    restored runs. *)
Lemma restore_second_pass m ps os :
  Forall2 (refillable m) ps os →
  replace_all tag_marker_at (tag_replacer m) (concat (zip_with half_restored os ps))
  = ok (concat (zip_with restored os ps)).
Proof.
  induction 1 as [|p o ps os Hp _ IH]; [done|].
  cbn [zip_with concat].
  destruct o as [span|whole tm], p as [id|id text]; try done.
  - cbn [half_restored render_piece restored].
    rewrite (replace_all_step tag_marker_at _ _ [] (dec id)
               (concat (zip_with half_restored os ps))).
    + rewrite IH. unfold tag_replacer. rewrite parseInt_dec. cbn in Hp.
      by rewrite Hp.
    + apply tag_marker_at_productive.
    + apply search_here. rewrite <- !app_assoc.
      apply tag_marker_at_here; [apply dec_nonempty|apply dec_digits].
  - cbn [half_restored].
    rewrite replace_all_prefix, IH; [done|apply tag_marker_at_productive|].
    apply search_no_bracket; [done|apply tag_marker_at_bracket|].
    destruct Hp as (_ & ? & ? & ?). by apply restored_no_bracket.
Qed.

(** Restoring the markers of refillable origins. *)
Lemma restore_refillable m ps os :
  Forall2 (refillable m) ps os →
  restoreParagraphXml to_primitive (render ps) m
  = ok (concat (zip_with restored os ps)).
Proof.
  intros H. unfold restoreParagraphXml.
  rewrite (restore_first_pass _ _ _ H). cbn.
  by apply restore_second_pass.
Qed.
End RefillFacts.

Section RestoreFallback.
Variable to_primitive : json → option (list N).
Implicit Types (m : gmap nat (list N)) (x : part) (xs : list part)
  (out text : list N) (outs : list (list N)).

Lemma run_replacer_fallback m mk :
  falls_back m (parseInt (rm_id mk)) →
  run_replacer to_primitive m mk = ok (rm_text mk).
Proof.
  intros [H|(stored & e & H & Hp)]; unfold run_replacer; rewrite H; [done|].
  destruct (negb (truthy stored)); [done|].
  unfold fill_template. by rewrite Hp.
Qed.

Lemma render_parts_cons x xs : render_parts (x :: xs) = render_part x ++ render_parts xs.
Proof. done. Qed.

(** The first pass replaces the paired markers and passes over the rest. *)
Lemma parts_first_pass m xs outs :
  Forall2 (restores m) xs outs →
  replace_all run_marker_at (run_replacer to_primitive m) (render_parts xs)
  = ok (concat (zip_with after_runs xs outs)).
Proof.
  induction 1 as [|x out xs outs Hx _ IH]; [done|].
  rewrite render_parts_cons. cbn [zip_with concat].
  destruct x as [[id|id text]|text].
  - cbn [after_runs render_part render_piece].
    change (s_TAG ++ dec id ++ s_rb)
      with (91 :: (drop 1 s_TAG ++ dec id ++ s_rb)).
    rewrite replace_all_prefix, IH; [done|apply run_marker_at_productive|].
    apply search_pass; [apply run_marker_at_bracket|done|apply tag_text_plain].
  - destruct Hx as (_ & Hb & Hx). cbn [after_runs render_part render_piece].
    rewrite (replace_all_step run_marker_at _ _ []
               {| rm_id := dec id; rm_text := text |} (render_parts xs)).
    + rewrite IH.
      destruct Hx as [[Hf ->]|(whole & tm & Hr & ->)].
      * rewrite run_replacer_fallback; [done|]. cbn [rm_id]. by rewrite parseInt_dec.
      * by rewrite (run_replacer_refill _ _ _ _ _ _ Hr).
    + apply run_marker_at_productive.
    + apply search_here. rewrite <- !app_assoc.
      apply run_marker_at_here; [apply dec_nonempty|apply dec_digits|done].
  - destruct Hx as [Hb ->]. cbn [after_runs render_part].
    rewrite replace_all_prefix, IH; [done|apply run_marker_at_productive|].
    apply search_no_bracket; [done|apply run_marker_at_bracket|done].
Qed.

(** The second pass replaces the unpaired markers and passes over the
    rest. *)
Lemma parts_second_pass m xs outs :
  Forall2 (restores m) xs outs →
  replace_all tag_marker_at (tag_replacer m) (concat (zip_with after_runs xs outs))
  = ok (concat outs).
Proof.
  induction 1 as [|x out xs outs Hx _ IH]; [done|].
  cbn [zip_with concat].
  destruct x as [[id|id text]|text].
  - destruct Hx as [_ ->]. cbn [after_runs render_piece].
    rewrite (replace_all_step tag_marker_at _ _ [] (dec id)
               (concat (zip_with after_runs xs outs))).
    + rewrite IH. unfold tag_replacer. by rewrite parseInt_dec.
    + apply tag_marker_at_productive.
    + apply search_here. rewrite <- !app_assoc.
      apply tag_marker_at_here; [apply dec_nonempty|apply dec_digits].
  - destruct Hx as (_ & Hb & Hx). cbn [after_runs].
    rewrite replace_all_prefix, IH; [done|apply tag_marker_at_productive|].
    apply search_no_bracket; [done|apply tag_marker_at_bracket|].
    destruct Hx as [[_ ->]|(whole & tm & (_ & ? & ? & ?) & ->)]; [done|].
    by apply restored_no_bracket.
  - destruct Hx as [Hb ->]. cbn [after_runs].
    rewrite replace_all_prefix, IH; [done|apply tag_marker_at_productive|].
    apply search_no_bracket; [done|apply tag_marker_at_bracket|done].
Qed.

End RestoreFallback.

Section ReconstructFacts.
Variable to_primitive : json → option (list N).
Implicit Types (m byIndex : gmap nat (list N)) (chunks : list ParagraphChunk)
  (ms : list (list N * list N)) (tl doc : list N).

Lemma positioned_snoc chunks c :
  positioned (chunks ++ [c]) → positioned chunks ∧ index c = length chunks.
Proof.
  intros H. split.
  - intros i c' Hi. apply H. by apply lookup_app_l_Some.
  - apply H. by rewrite lookup_app_r, Nat.sub_diag.
Qed.

Lemma translatedByIndex_snoc chunks c :
  translatedByIndex (chunks ++ [c])
  = if hasText c then <[index c := simplifiedText c]> (translatedByIndex chunks)
    else translatedByIndex chunks.
Proof. unfold translatedByIndex. by rewrite foldl_app. Qed.

(** When the index of every chunk is its position, the text a paragraph is
    rebuilt from is the text of the chunk at its position, if that chunk
    has text. *)
Lemma translatedByIndex_positioned chunks j :
  positioned chunks →
  translatedByIndex chunks !! j
  = chunks !! j ≫= λ c, if hasText c then Some (simplifiedText c) else None.
Proof.
  induction chunks as [|c chunks IH] using rev_ind; intros Hp; [done|].
  apply positioned_snoc in Hp as [Hp Hc]. specialize (IH Hp).
  rewrite translatedByIndex_snoc.
  destruct (decide (j = length chunks)) as [->|Hne].
  - rewrite lookup_app_r, Nat.sub_diag by done. cbn.
    destruct (hasText c).
    + by rewrite Hc, lookup_insert_eq.
    + rewrite IH, lookup_ge_None_2; done.
  - assert (Hj : (chunks ++ [c]) !! j = chunks !! j).
    { destruct (decide (j < length chunks)%nat).
      - by rewrite lookup_app_l.
      - rewrite !lookup_ge_None_2; [done|lia|rewrite length_app; simpl; lia]. }
    rewrite Hj. destruct (hasText c); [|done].
    rewrite lookup_insert_ne by lia. done.
Qed.

(** The paragraphs are rebuilt one by one; the text between them and after
    them is kept. *)
Lemma rebuild_spec byIndex m ms tl : ∀ k,
  ∃ outs,
    length outs = length ms
    ∧ rebuild to_primitive byIndex m k ms tl = ok (weave (zip ms.*1 outs) tl)
    ∧ ∀ j para out, ms.*2 !! j = Some para → outs !! j = Some out →
        match byIndex !! (k + j)%nat with
        | None => out = para
        | Some t => restoreParagraphXml to_primitive t m = ok out
        end.
Proof.
  induction ms as [|[pre para] ms IH]; intros k.
  - exists []. by split_and!.
  - destruct (IH (S k)) as (outs & Hl & Hr & Ho).
    assert (∃ out, match byIndex !! k with
                   | None => ok para
                   | Some t => restoreParagraphXml to_primitive t m
                   end = ok out
                   ∧ match byIndex !! k with
                     | None => out = para
                     | Some t => restoreParagraphXml to_primitive t m = ok out
                     end) as (out & E & Hout).
    { destruct (byIndex !! k) as [t|]; [|by eexists].
      destruct (restoreParagraphXml_total to_primitive t m) as [out E].
      by exists out. }
    exists (out :: outs). split_and!.
    + cbn. by rewrite Hl.
    + cbn [rebuild]. rewrite E, Hr.
      change (zip ((pre, para) :: ms).*1 (out :: outs))
        with ((pre, out) :: zip ms.*1 outs).
      by rewrite weave_cons.
    + intros [|j] para' out'; cbn.
      * intros [= <-] [= <-]. by rewrite Nat.add_0_r.
      * intros H1 H2. specialize (Ho j para' out' H1 H2).
        by rewrite Nat.add_succ_r.
Qed.
End ReconstructFacts.

Section ExtractionProperties.
Implicit Types (para : list N) (paragraphs : list (list N)).

Lemma replaceTagsWithIds_extraction paragraphs :
  replaceTagsWithIds paragraphs
  = (chunk <$> (extraction paragraphs).1, idTagMap (extraction paragraphs).2).
Proof. unfold replaceTagsWithIds. by destruct (extraction paragraphs). Qed.

Lemma exec_all_none {M} (matcher : list N → option (M * list N)) s :
  search matcher s = None → exec_all matcher s = [].
Proof. intros E. unfold exec_all. by rewrite matches_none. Qed.

(** A paragraph with text content holds a [<]. *)
Lemma text_content_not_blank para :
  truthy (trim (extractTextContent para)) = true → blank para = false.
Proof.
  intros H. destruct (search t_at para) as [[[pre tm] rest]|] eqn:E.
  - apply search_Some in E as (s' & -> & (attrs & -> & Ew & _)%t_at_shape).
    rewrite Ew. apply not_true_is_false. intros Hb%blank_Forall.
    rewrite !Forall_app in Hb. destruct Hb as (_ & ((Ho & _) & _) & _).
    by inversion Ho.
  - unfold extractTextContent in H. by rewrite exec_all_none in H.
Qed.

Lemma origins_nonempty para :
  truthy (trim (extractTextContent para)) = true → origins para ≠ [].
Proof.
  intros H. unfold origins.
  destruct (search run_at para) as [[[pre rm] rest]|] eqn:E.
  - rewrite (matches_step run_at run_at_productive _ _ _ _ E). cbn.
    by destruct (span_origin pre).
  - rewrite (matches_none _ _ E). cbn. unfold span_origin.
    by rewrite truthy_trim, (text_content_not_blank _ H).
Qed.

Lemma render_head p ps : head (render (p :: ps)) = Some 91.
Proof. by destruct p. Qed.

Lemma bracket_translatable c rest :
  hasText c = true → simplifiedText c = 91 :: rest → translatable c = true.
Proof.
  intros Hh Hs. unfold translatable. by rewrite Hh, Hs, truthy_trim.
Qed.

(** X3.  Extraction yields one chunk per paragraph, in order, whose index
    is its position.  A chunk has text exactly when the text content of its
    paragraph is not blank; a chunk without text has an empty simplified
    text, and the simplified text of a chunk with text starts with a marker,
    so that the translator sends it to the backend. *)
Theorem replaceTagsWithIds_chunks paragraphs :
  let chunks := (replaceTagsWithIds paragraphs).1 in
  length chunks = length paragraphs
  ∧ positioned chunks
  ∧ Forall2 (λ c para,
       hasText c = negb (blank (extractTextContent para))
       ∧ (hasText c = false → simplifiedText c = [])
       ∧ (hasText c = true →
            head (simplifiedText c) = Some 91 ∧ translatable c = true))
      chunks paragraphs.
Proof.
  rewrite replaceTagsWithIds_extraction. cbn [fst]. unfold extraction.
  pose proof (extract_from_spec paragraphs 0 initial_state)
    as (Hi & Hf & _).
  set (es := (extract_from 0 paragraphs initial_state).1) in *.
  clearbody es. split_and!.
  - rewrite length_fmap. by eapply Forall2_length.
  - intros i c Hc. apply list_lookup_fmap_Some in Hc as (e & -> & He).
    by apply Hi in He.
  - apply Forall2_fmap_l. eapply Forall2_impl; [exact Hf|].
    intros e para (Hh & Hs & Hn & Hl). unfold compose. cbn beta.
    rewrite Hh, truthy_trim. split_and!; [done| |].
    + intros Hb. rewrite Hh in Hn. rewrite Hs, Hn; [done|].
      by rewrite truthy_trim.
    + intros Hb. rewrite <- truthy_trim in Hb.
      assert (Ho : para_origins para ≠ []).
      { unfold para_origins. rewrite Hb. by apply origins_nonempty. }
      destruct Hl as [|p o ps os _ _]; [done|].
      assert (Hhead : head (simplifiedText (chunk e)) = Some 91).
      { rewrite Hs. apply render_head. }
      split; [done|].
      destruct (simplifiedText (chunk e)) as [|x rest] eqn:Ex; [done|].
      injection Hhead as ->. apply (bracket_translatable _ rest); [|done].
      by rewrite Hh.
Qed.

(** X4.  Allocation of IDs.  The simplified text of every chunk is the
    rendering of its markers, and a chunk without text has no marker; over
    the whole document the markers carry the IDs 1, 2, ..., n in the order
    of the text, each ID is stored once, and the keys of the ID map are
    exactly these IDs. *)
Theorem extraction_ids paragraphs :
  let es := (extraction paragraphs).1 in
  let st := (extraction paragraphs).2 in
  replaceTagsWithIds paragraphs = (chunk <$> es, idTagMap st)
  ∧ Forall (λ e, simplifiedText (chunk e) = render (markers e)
                 ∧ (hasText (chunk e) = false → markers e = [])) es
  ∧ marker_ids es = seq 1 (length (marker_ids es))
  ∧ (history st).*1 = marker_ids es
  ∧ (∀ id, is_Some (idTagMap st !! id) ↔ id ∈ marker_ids es).
Proof.
  cbv zeta. split; [apply replaceTagsWithIds_extraction|]. unfold extraction.
  pose proof (extract_from_spec paragraphs 0 initial_state)
    as (_ & Hf & Hids & _ & Hh & _ & Hw).
  specialize (Hw well_numbered_initial).
  set (es := (extract_from 0 paragraphs initial_state).1) in *.
  set (st := (extract_from 0 paragraphs initial_state).2) in *.
  clearbody es st. cbn in Hh. split_and!; try done.
  - eapply Forall2_Forall_l; [exact Hf|]. apply Forall_forall.
    by intros para _ e (_ & ? & ? & _).
  - intros id. destruct Hw as (_ & _ & Hm). rewrite <- Hh. split.
    + intros [f Hf']. apply Hm in Hf'. apply list_elem_of_fmap.
      by exists (id, f).
    + intros ([id' f] & -> & Hin)%list_elem_of_fmap. exists f. by apply Hm.
Qed.
End ExtractionProperties.

Section RoundTripFacts.
Variable to_primitive : json → option (list N).
Implicit Types (m : gmap nat (list N)) (o : origin) (p : piece)
  (os : list origin) (ps : list piece) (s para : list N)
  (paragraphs : list (list N)).

(** The final ID map holds the fragment of every marker. *)
Lemma extraction_recorded paragraphs :
  Forall2 (λ e para,
      hasText (chunk e) = truthy (trim (extractTextContent para))
      ∧ simplifiedText (chunk e) = render (markers e)
      ∧ recorded (idTagMap (extraction paragraphs).2) (markers e)
                 (para_origins para))
    (extraction paragraphs).1 paragraphs.
Proof.
  unfold extraction.
  pose proof (extract_from_spec paragraphs 0 initial_state)
    as (_ & Hf & _ & _ & _ & _ & Hw).
  specialize (Hw well_numbered_initial).
  eapply Forall2_impl; [exact Hf|]. intros e para (? & ? & _ & Hl).
  split_and!; try done. by apply logged_recorded.
Qed.

Lemma recorded_refillable m ps os ps' :
  recorded m ps os → Forall sound_origin os → retexted ps ps' →
  Forall (λ o, fillable o = true) os →
  Forall (λ p, marker_safe (piece_text p) = true) ps' →
  Forall2 (refillable m) ps' os.
Proof.
  intros Hr. revert ps'.
  induction Hr as [|p o ps os [Hp Hm] _ IH]; intros ps' Hs Ht Hf Hsafe.
  - inversion Ht. constructor.
  - inversion Ht as [|? p' ? ps'' Hpp Ht']; subst.
    inversion Hs; inversion Hf; inversion Hsafe; subst.
    constructor; [|by apply IH].
    destruct o as [span|whole tm]; rewrite Hp in Hpp, Hm; cbn in Hpp, Hm.
    + destruct p' as [id'|]; [|done]. by subst.
    + destruct p' as [|id' text']; [done|]. subst. by split_and!.
Qed.

Lemma retexted_refl ps : retexted ps ps.
Proof. induction ps as [|[|] ps IH]; by constructor. Qed.

Lemma plain_char_spec c :
  plain_char c = true →
  xml_entity c = [c] ∧ negb (eqc c 91 || eqc c 36) = true.
Proof.
  unfold plain_char, xml_entity. intros H.
  destruct (eqc c 38), (eqc c 60), (eqc c 62), (eqc c 34), (eqc c 39),
    (eqc c 36), (eqc c 91); done.
Qed.

Lemma plain_text_spec text :
  forallb plain_char text = true →
  escapeXml text = text ∧ marker_safe text = true.
Proof.
  intros H. rewrite escapeXml_entities. unfold marker_safe.
  induction text as [|c text IH]; [done|].
  cbn in H. apply andb_true_iff in H as [Hc H].
  destruct (IH H) as [IH1 IH2]. destruct (plain_char_spec c Hc) as [E1 E2].
  cbn [flat_map forallb]. by rewrite E1, E2, IH1, IH2.
Qed.

(** A clean run restores to itself. *)
Lemma clean_restored id o :
  sound_origin o → clean_origin o = true →
  restored o (piece_of id o) = source_of o
  ∧ fillable o = true
  ∧ marker_safe (piece_text (piece_of id o)) = true.
Proof.
  intros Hs [Hf Hc]%andb_true_iff. destruct o as [span|whole tm]; [done|].
  apply plain_text_spec in Hc as [He Hsafe].
  destruct (fillable_parts whole tm Hs Hf) as (Hw & _).
  cbn [restored piece_of piece_text source_of]. by rewrite He, <- Hw.
Qed.

Lemma matches_weave_by {M} (matcher : list N → option (M * list N))
    (whole : M → list N) s :
  productive matcher →
  (∀ s mm rest, matcher s = Some (mm, rest) → s = whole mm ++ rest) →
  weave ((λ x, (x.1, whole x.2)) <$> (matches matcher s).1)
        (matches matcher s).2 = s.
Proof.
  intros Hp Hm.
  apply (matches_ind matcher Hp
           (λ s r, weave ((λ x, (x.1, whole x.2)) <$> r.1) r.2 = s)).
  - done.
  - intros s' pre mm rest E IH. cbn [fst snd fmap list_fmap] in *.
    apply search_Some in E as (s'' & -> & E). apply Hm in E as ->.
    by rewrite weave_cons, IH.
Qed.

Lemma kept_span_source s :
  kept_span s = true → concat (source_of <$> span_origin s) = s.
Proof.
  unfold kept_span, span_origin. rewrite truthy_trim.
  destruct s as [|c s]; [done|]. intros ->%negb_true_iff. cbn.
  by rewrite app_nil_r.
Qed.

Lemma source_of_run_origin rm : source_of (run_origin rm) = run_whole rm.
Proof.
  unfold run_origin. by destruct (search t_at (run_inner rm)) as [[[??]?]|].
Qed.

(** The origins of a clean paragraph are clean and cover it. *)
Lemma clean_paragraph_spec para :
  clean_paragraph para = true →
  Forall (λ o, clean_origin o = true) (origins para)
  ∧ concat (source_of <$> origins para) = para.
Proof.
  unfold clean_paragraph, origins. intros H.
  pose proof (matches_weave_by run_at run_whole para run_at_productive) as Hw.
  destruct (matches run_at para) as [runs trailing]. cbn [fst snd] in Hw.
  apply andb_true_iff in H as [Hr Ht].
  assert (Hspan : ∀ s, Forall (λ o, clean_origin o = true) (span_origin s)).
  { intros s. unfold span_origin. destruct (truthy (trim s)); by repeat constructor. }
  specialize (Hw ltac:(by intros s rm rest [? _]%run_at_shape)).
  split.
  - apply Forall_app. split; [|apply Hspan]. apply Forall_flat_map.
    apply Forall_forall. intros [between rm] Hin%list_elem_of_In.
    rewrite forallb_forall in Hr. apply Hr in Hin.
    apply andb_true_iff in Hin as [_ Hc]. apply Forall_app. split; [apply Hspan|].
    by repeat constructor.
  - rewrite <- Hw. clear Hw. unfold weave.
    rewrite fmap_app, concat_app, (kept_span_source _ Ht).
    f_equal. clear Ht Hspan.
    induction runs as [|[between rm] runs IH]; [done|].
    cbn in Hr. apply andb_true_iff in Hr as [[Hk _]%andb_true_iff Hr].
    cbn [flat_map fmap list_fmap concat fst snd].
    rewrite !fmap_app, !concat_app, (kept_span_source _ Hk), (IH Hr).
    cbn. by rewrite source_of_run_origin, app_nil_r, <- !app_assoc.
Qed.

Lemma recorded_clean_restore m ps os :
  recorded m ps os → Forall sound_origin os →
  Forall (λ o, clean_origin o = true) os →
  restoreParagraphXml to_primitive (render ps) m
  = ok (concat (source_of <$> os)).
Proof.
  intros Hr Hs Hc.
  assert (H : Forall2 (refillable m) ps os
              ∧ zip_with restored os ps = source_of <$> os).
  { induction Hr as [|p o ps os [Hp Hm] _ IH]; [by split; [constructor|]|].
    inversion Hs; inversion Hc; subst.
    destruct IH as [IH1 IH2]; [done..|].
    destruct (clean_restored (piece_id p) o) as (E & Hf & Hsafe); [done..|].
    rewrite <- Hp in E, Hsafe. split.
    - constructor; [|done].
      destruct o as [span|whole tm]; rewrite Hp in Hm |- *; cbn in Hm |- *;
        [done|]. rewrite Hp in Hsafe. by split_and!.
    - cbn. by rewrite E, IH2. }
  destruct H as [H1 H2]. by rewrite (restore_refillable _ _ _ _ H1), H2.
Qed.
End RoundTripFacts.

Section StoredFragments.
Implicit Types (m : gmap nat (list N)) (o : origin) (p : piece)
  (os : list origin) (ps : list piece) (s para : list N)
  (paragraphs : list (list N)).

Lemma covers_span s os rest :
  covers os rest → covers (span_origin s ++ os) (s ++ rest).
Proof.
  intros H. unfold span_origin. rewrite truthy_trim.
  destruct (blank s) eqn:Eb; cbn [negb app].
  - destruct H as [rest Hr|gap o os rest Hg H].
    + constructor. unfold blank in *. rewrite forallb_app. by rewrite Eb, Hr.
    + rewrite app_assoc. constructor; [|done].
      unfold blank in *. rewrite forallb_app. by rewrite Eb, Hg.
  - by apply (covers_next [] (FromSpan s)).
Qed.

(** The origins of a paragraph are its stretches, in order; only white
    space is left out. *)
Lemma origins_cover para : covers (origins para) para.
Proof.
  unfold origins.
  pose proof (matches_weave_by run_at run_whole para run_at_productive) as Hw.
  destruct (matches run_at para) as [runs trailing]. cbn [fst snd] in Hw.
  rewrite <- Hw by (by intros s mm r [? _]%run_at_shape). clear Hw.
  induction runs as [|[b rm] runs IH].
  - cbn [flat_map app fmap list_fmap]. unfold weave. cbn [fmap list_fmap concat app].
    pose proof (covers_span trailing [] [] (covers_end [] eq_refl)) as H.
    by rewrite !app_nil_r in H.
  - cbn [flat_map fmap list_fmap fst snd]. rewrite weave_cons, <- !app_assoc.
    apply covers_span. cbn [app].
    rewrite <- (source_of_run_origin rm).
    by apply (covers_next [] (run_origin rm)).
Qed.

(** X5.  What the ID map holds.  The markers of a paragraph with text stand,
    one for one and in order, for the stretches of the paragraph that are
    not blank: the text between two runs and after the last run, and the
    runs; only white space between them has no marker.  The ID of an
    unpaired marker maps to its stretch.  A run with a text element has a
    paired marker; its ID maps to the JSON text of an object whose fields
    are the run before the first occurrence of the text element, the run
    after it, and the text element with the placeholder in place of its
    text; the text between the markers is the text of that element and
    holds no [<], the run is these parts put together, and [JSON.parse]
    gives the object back. *)
Theorem stored_fragments paragraphs :
  let m := (replaceTagsWithIds paragraphs).2 in
  Forall2 (λ e para,
      (hasText (chunk e) = true → covers (para_origins para) para)
      ∧ Forall2 (λ p o,
          match o with
          | FromSpan span =>
              p = TagMarker (piece_id p)
              ∧ blank span = false
              ∧ m !! piece_id p = Some span
          | FromRun whole tm =>
              p = RunMarker (piece_id p) (t_text tm)
              ∧ Forall (λ c, c ≠ 60) (t_text tm)
              ∧ whole = beforeText whole tm ++ t_open tm ++ t_text tm
                        ++ s_t_close ++ afterText whole tm
              ∧ m !! piece_id p
                = Some (stringify_fragment (beforeText whole tm)
                          (afterText whole tm)
                          (t_open tm ++ s_TEXT ++ s_t_close))
              ∧ Json.parse (stringify_fragment (beforeText whole tm)
                              (afterText whole tm)
                              (t_open tm ++ s_TEXT ++ s_t_close))
                = ok (fragment_object (beforeText whole tm)
                        (afterText whole tm)
                        (t_open tm ++ s_TEXT ++ s_t_close))
          end) (markers e) (para_origins para))
    (extraction paragraphs).1 paragraphs.
Proof.
  rewrite replaceTagsWithIds_extraction. cbn [snd].
  eapply Forall2_impl; [apply extraction_recorded|].
  intros e para (Hh & _ & Hr). split.
  - intros Ht. unfold para_origins. rewrite <- Hh, Ht. apply origins_cover.
  - pose proof (para_origins_sound para) as Hs.
    revert Hs. induction Hr as [|p o ps os [Hp Hm] _ IH]; intros Hs; [constructor|].
    inversion Hs as [|? ? Ho Hs']; subst. constructor; [|by apply IH].
    destruct o as [span|whole tm]; cbn [fragment_of piece_of] in *.
    + by split_and!.
    + destruct Ho as (attrs & u & v & E & Ha & Ht & Ew).
      destruct (text_element_parts tm attrs E Ha) as [Eo Ec].
      split_and!; try done.
      * rewrite (run_parts whole tm u v Ew) at 1. rewrite E, Eo.
        by rewrite <- !app_assoc.
      * by rewrite Hm, text_run_fragment_parts, Ec.
      * apply parse_stringify_fragment.
Qed.
End StoredFragments.

Section RoundTrip.
Variable to_primitive : json → option (list N).
Implicit Types (m : gmap nat (list N)) (o : origin) (p : piece)
  (os : list origin) (ps : list piece) (s para doc : list N)
  (paragraphs : list (list N)).

(** X6.  Restoring a translated paragraph.  Take the markers of an
    extracted paragraph and put other texts between the paired markers.
    If no run with a text element holds an opening bracket, no opening tag
    of such a text element holds an opening brace, and the new texts hold
    neither an opening bracket nor a dollar sign, then restoring the
    rendering with the ID map of the extraction gives, marker by marker,
    the stored stretch or the original run with the escaped new text in
    place of the text of its text element. *)
Theorem restore_translated paragraphs k para e ps' :
  paragraphs !! k = Some para →
  (extraction paragraphs).1 !! k = Some e →
  retexted (markers e) ps' →
  Forall (λ o, fillable o = true) (para_origins para) →
  Forall (λ p, marker_safe (piece_text p) = true) ps' →
  restoreParagraphXml to_primitive (render ps')
    (replaceTagsWithIds paragraphs).2
  = ok (concat (zip_with restored (para_origins para) ps')).
Proof.
  intros Hpara He Ht Hf Hsafe. rewrite replaceTagsWithIds_extraction. cbn [snd].
  pose proof (Forall2_lookup_lr _ _ _ _ _ _ (extraction_recorded paragraphs)
                He Hpara) as (_ & _ & Hr).
  apply restore_refillable.
  eapply recorded_refillable; [exact Hr|apply para_origins_sound|done..].
Qed.

Lemma extraction_positioned paragraphs :
  positioned (replaceTagsWithIds paragraphs).1.
Proof.
  rewrite replaceTagsWithIds_extraction. cbn [fst]. unfold extraction.
  pose proof (extract_from_spec paragraphs 0 initial_state) as (Hi & _).
  intros i c Hc. apply list_lookup_fmap_Some in Hc as (e & -> & He).
  by apply Hi in He.
Qed.

(** Reconstruction replaces the paragraphs and keeps what is between
    them. *)
Lemma reconstructXml_spec doc chunks m :
  ∃ gaps tl outs,
    length gaps = length (chunkParagraphs doc)
    ∧ length outs = length (chunkParagraphs doc)
    ∧ doc = weave (zip gaps (chunkParagraphs doc)) tl
    ∧ reconstructXml to_primitive doc chunks m = ok (weave (zip gaps outs) tl)
    ∧ ∀ j para out,
        chunkParagraphs doc !! j = Some para → outs !! j = Some out →
        match translatedByIndex chunks !! j with
        | None => out = para
        | Some t => restoreParagraphXml to_primitive t m = ok out
        end.
Proof.
  unfold reconstructXml, chunkParagraphs, exec_all.
  pose proof (matches_weave para_at doc para_at_productive) as Hw.
  destruct (matches para_at doc) as [ms tl]. cbn [fst snd] in *.
  destruct (rebuild_spec to_primitive (translatedByIndex chunks) m ms tl 0)
    as (outs & Hl & Hr & Ho).
  exists ms.*1, tl, outs. split_and!.
  - by rewrite !length_fmap.
  - by rewrite Hl, length_fmap.
  - rewrite zip_fst_snd. symmetry. apply Hw.
    by intros s p rest [? _]%para_at_shape.
  - done.
  - intros j para out Hj Hout. by specialize (Ho j para out Hj Hout).
Qed.

(** X7.  Reconstruction changes nothing outside the paragraphs.  When the
    index of every chunk is its position, the result is the document with
    each paragraph block replaced: a paragraph whose chunk has text by what
    [restoreParagraphXml] makes of the simplified text of the chunk, every
    other paragraph by itself.  The text between the paragraphs and after
    the last one is kept, and the call does not throw. *)
Theorem reconstruct_frame doc chunks m :
  positioned chunks →
  ∃ gaps tl outs,
    length gaps = length (chunkParagraphs doc)
    ∧ length outs = length (chunkParagraphs doc)
    ∧ doc = weave (zip gaps (chunkParagraphs doc)) tl
    ∧ reconstructXml to_primitive doc chunks m = ok (weave (zip gaps outs) tl)
    ∧ ∀ j para out,
        chunkParagraphs doc !! j = Some para → outs !! j = Some out →
        match chunks !! j with
        | Some c =>
            if hasText c
            then restoreParagraphXml to_primitive (simplifiedText c) m = ok out
            else out = para
        | None => out = para
        end.
Proof.
  intros Hp.
  destruct (reconstructXml_spec doc chunks m)
    as (gaps & tl & outs & H1 & H2 & H3 & H4 & H5).
  exists gaps, tl, outs. split_and!; try done.
  intros j para out Hj Hout. specialize (H5 j para out Hj Hout).
  rewrite (translatedByIndex_positioned _ _ Hp) in H5.
  destruct (chunks !! j) as [c|]; [|done]. cbn in H5.
  by destruct (hasText c).
Qed.

(** A document is reconstructed from its unchanged chunks when its
    paragraphs with text are clean. *)
Lemma round_trip_extraction doc :
  Forall (λ para, blank (extractTextContent para) = false →
                  clean_paragraph para = true) (chunkParagraphs doc) →
  reconstructXml to_primitive doc
    (replaceTagsWithIds (chunkParagraphs doc)).1
    (replaceTagsWithIds (chunkParagraphs doc)).2
  = ok doc.
Proof.
  intros Hclean.
  pose proof (extraction_positioned (chunkParagraphs doc)) as Hp.
  destruct (reconstructXml_spec doc (replaceTagsWithIds (chunkParagraphs doc)).1
              (replaceTagsWithIds (chunkParagraphs doc)).2)
    as (gaps & tl & outs & H1 & H2 & H3 & H4 & H5).
  rewrite H4. rewrite H3 at 1. do 3 f_equal.
  apply list_eq_same_length with (length outs); [done|by rewrite H2|].
  intros j out para _ Hout Hj. specialize (H5 j para out Hj Hout).
  rewrite (translatedByIndex_positioned _ _ Hp) in H5.
  rewrite replaceTagsWithIds_extraction in H5. cbn [fst snd] in H5.
  pose proof (extraction_recorded (chunkParagraphs doc)) as Hr.
  rewrite list_lookup_fmap in H5.
  destruct ((extraction (chunkParagraphs doc)).1 !! j) as [e|] eqn:He;
    cbn in H5; [|done].
  pose proof (Forall2_lookup_lr _ _ _ _ _ _ Hr He Hj) as (Hh & Hs & Hrec).
  destruct (hasText (chunk e)) eqn:Ht; [|done].
  rewrite Forall_forall in Hclean.
  assert (Hc : clean_paragraph para = true).
  { apply Hclean; [by eapply list_elem_of_lookup_2|].
    symmetry in Hh. rewrite truthy_trim in Hh. by destruct (blank _). }
  apply clean_paragraph_spec in Hc as [Hc Hsrc].
  assert (Eo : para_origins para = origins para).
  { unfold para_origins. by rewrite <- Hh. }
  rewrite Hs, (recorded_clean_restore to_primitive _ _ _ Hrec) in H5.
  - rewrite Eo, Hsrc in H5. by injection H5.
  - apply para_origins_sound.
  - by rewrite Eo.
Qed.

Lemma round_trip_all_clean doc :
  Forall (λ para, clean_paragraph para = true) (chunkParagraphs doc) →
  reconstructXml to_primitive doc
    (replaceTagsWithIds (chunkParagraphs doc)).1
    (replaceTagsWithIds (chunkParagraphs doc)).2
  = ok doc.
Proof.
  intros H. apply round_trip_extraction.
  eapply Forall_impl; [exact H|]. by intros para Hc _.
Qed.

(** X8.  Round trip.  Segmenting a document, extracting its chunks and
    reconstructing it from the unchanged chunks gives the document back,
    when every paragraph is clean: each stretch between runs and after the
    last run is empty or not blank, and in each run with a text element the
    text holds none of the characters [&], [>], double quote, apostrophe,
    dollar sign and opening bracket, the run holds no opening bracket and
    the opening tag of the text element holds no opening brace. *)
Theorem round_trip_clean doc :
  Forall (λ para, clean_paragraph para = true) (chunkParagraphs doc) →
  reconstructXml to_primitive doc
    (replaceTagsWithIds (chunkParagraphs doc)).1
    (replaceTagsWithIds (chunkParagraphs doc)).2
  = ok doc.
Proof. apply round_trip_all_clean. Qed.

(** C1 (amended).  Round-trip identity.  Segmenting a document, extracting
    its chunks and reconstructing it from the unchanged chunks and the ID
    map gives the document back byte for byte, when every paragraph with
    text is clean: each stretch between runs and after the last run is
    empty or not blank (a blank stretch gets no marker and is left out),
    and in each run with a text element the text holds none of the
    characters [&], [>], double quote, apostrophe, dollar sign and opening
    bracket, the run holds no opening bracket and the opening tag of the
    text element holds no opening brace.  Paragraphs without text come
    back as they are, whatever they hold. *)
Theorem round_trip_identity doc :
  Forall (λ para, blank (extractTextContent para) = false →
                  clean_paragraph para = true) (chunkParagraphs doc) →
  reconstructXml to_primitive doc
    (replaceTagsWithIds (chunkParagraphs doc)).1
    (replaceTagsWithIds (chunkParagraphs doc)).2
  = ok doc.
Proof. apply round_trip_extraction. Qed.
End RoundTrip.

Section TranslatorLogs.
Variable respond : nat → list ParagraphChunk → backend_outcome.
Variable options : TranslateOptions.
Implicit Types (c o t : ParagraphChunk) (batch miss : list ParagraphChunk)
  (w : world) (wave : list (list ParagraphChunk)).

Lemma translateBatch_log batch w :
  batch ≠ [] →
  dispatched (translateBatch respond batch w).2 = dispatched w ++ [batch]
  ∧ progress (translateBatch respond batch w).2 = progress w
  ∧ checks (translateBatch respond batch w).2 = checks w
  ∧ repacked (translateBatch respond batch w).2 = repacked w.
Proof.
  intros Hne. destruct batch as [|c batch]; [done|]. unfold translateBatch.
  by destruct (respond _ _).
Qed.

Lemma dispatch_wave_log wave w :
  Forall (λ b, b ≠ []) wave →
  dispatched (dispatch_wave respond wave w).2 = dispatched w ++ wave
  ∧ progress (dispatch_wave respond wave w).2 = progress w
  ∧ checks (dispatch_wave respond wave w).2 = checks w
  ∧ repacked (dispatch_wave respond wave w).2 = repacked w.
Proof.
  intros H. revert w. induction H as [|b wave Hb _ IH]; intros w.
  - cbn. by rewrite app_nil_r.
  - cbn [dispatch_wave].
    destruct (translateBatch_log b w Hb) as (B1 & B2 & B3 & B4).
    destruct (translateBatch respond b w) as [r w1]. cbn [snd] in *.
    specialize (IH w1). destruct (dispatch_wave respond wave w1) as [rs w2].
    cbn [snd] in *. destruct IH as (I1 & I2 & I3 & I4).
    rewrite I1, I2, I3, I4, B1, B2, B3, B4, <- app_assoc. done.
Qed.

Lemma read_aborted_log w :
  dispatched (read_aborted options w).2 = dispatched w
  ∧ progress (read_aborted options w).2 = progress w
  ∧ repacked (read_aborted options w).2 = repacked w
  ∧ (signal options = None → checks (read_aborted options w).2 = checks w).
Proof. unfold read_aborted. by destruct (signal options). Qed.

Lemma report_log msg w :
  dispatched (report options msg w) = dispatched w
  ∧ checks (report options msg w) = checks w
  ∧ repacked (report options msg w) = repacked w
  ∧ (∃ msgs, progress (report options msg w) = progress w ++ msgs
             ∧ (length msgs ≤ 1)%nat
             ∧ (onProgress options = false → msgs = [])).
Proof.
  unfold report. destruct (onProgress options); cbn; split_and!; try done.
  - exists [msg]. by split_and!.
  - exists []. rewrite app_nil_r. split_and!; [done|cbn; lia|done].
Qed.

(** The waves dispatched by [run_waves]: a prefix of the batches, all of
    them when the loop completes. *)
Lemma run_waves_log waves : ∀ st w,
  Forall (Forall (λ b, b ≠ [])) waves →
  progress (run_waves respond options waves st w).2 = progress w
  ∧ repacked (run_waves respond options waves st w).2 = repacked w
  ∧ (signal options = None →
     checks (run_waves respond options waves st w).2 = checks w)
  ∧ ∃ sent,
      dispatched (run_waves respond options waves st w).2 = dispatched w ++ sent
      ∧ sent `prefix_of` concat waves
      ∧ (∀ r, (run_waves respond options waves st w).1 = inr r →
              sent = concat waves).
Proof.
  induction waves as [|wave waves IH]; intros st w Hne.
  - cbn. split_and!; try done. exists []. rewrite app_nil_r. by split_and!.
  - apply Forall_cons in Hne as [Hw Hne]. cbn [run_waves].
    destruct (read_aborted_log w) as (A1 & A2 & A3 & A4).
    destruct (read_aborted options w) as [ab w1]. cbn [snd] in *.
    destruct ab.
    { cbn. split_and!; try done. exists []. rewrite app_nil_r, A1.
      split_and!; [done|apply prefix_nil|done]. }
    destruct (dispatch_wave_log wave w1 Hw) as (D1 & D2 & D3 & D4).
    destruct (dispatch_wave respond wave w1) as [rs w2]. cbn [snd] in *.
    destruct (promise_all _ rs) as [e|brs].
    { cbn. split_and!; try congruence.
      - intros Hs. rewrite D3. by apply A4.
      - exists wave. rewrite D1, A1. split_and!; [done| |done].
        by apply prefix_app_r. }
    destruct (IH (absorb st brs) w2 Hne) as (I1 & I2 & I3 & sent & I4 & I5 & I6).
    split_and!; try congruence.
    + intros Hs. rewrite I3, D3 by done. by apply A4.
    + exists (wave ++ sent). rewrite I4, D1, A1, <- app_assoc.
      split_and!; [done|by apply prefix_app|].
      intros r Hr. cbn. f_equal. by eapply I6.
Qed.

Lemma batch_result_missing_length batch br :
  batch_result respond batch br → (length (missing br) ≤ length batch)%nat.
Proof.
  intros [| |k b text Hne Hr]; cbn; [done..|].
  rewrite parse_reply_unfold. cbn. apply length_filter.
Qed.

Lemma batch_result_genuine batch br t :
  batch_result respond batch br → t ∈ translated br →
  ∃ o body, o ∈ batch ∧ t = accepted o (trim body).
Proof.
  intros [| |k b text Hne Hr]; cbn; [set_solver..|].
  intros (m & o & _ & Hf & ->)%parse_reply_translated.
  apply find_chunk_Some in Hf as [Ho _]. by exists o, (p_body m).
Qed.

(** The facts of a whole pass about lengths and about what the translated
    chunks are. *)
Lemma pass_genuine batches brs :
  Forall2 (batch_result respond) batches brs →
  (length (concat (missing <$> brs)) ≤ length (concat batches))%nat
  ∧ ∀ t, t ∈ concat (translated <$> brs) →
         ∃ o body, o ∈ concat batches ∧ t = accepted o (trim body).
Proof.
  induction 1 as [|batch br batches brs Hbr _ [IH1 IH2]]; cbn.
  - split; [done|]. by intros t ?%elem_of_nil.
  - rewrite !length_app. split.
    + pose proof (batch_result_missing_length _ _ Hbr). lia.
    + intros t [Ht|Ht]%elem_of_app.
      * destruct (batch_result_genuine _ _ _ Hbr Ht) as (o & body & ? & ?).
        exists o, body. split; [|done]. apply elem_of_app. by left.
      * destruct (IH2 _ Ht) as (o & body & ? & ?).
        exists o, body. split; [|done]. apply elem_of_app. by right.
Qed.

Lemma singleton_waves (conc : positive) miss :
  Forall (Forall (λ b : list ParagraphChunk, b ≠ []))
    (slices conc ((λ c, [c]) <$> miss)).
Proof.
  apply Forall_forall. intros wave Hw. apply Forall_forall. intros b Hb.
  pose proof (elem_of_slices _ _ _ _ Hw Hb) as Hin.
  by apply list_elem_of_fmap in Hin as (c & -> & _).
Qed.

Lemma retry_loop_step n retry res miss w :
  miss ≠ [] →
  retry_loop respond options (S n) retry res miss w =
  let '(ab, w1) := read_aborted options w in
  if ab then (throw aborted_error, w1)
  else
    let w2 := report options (retry_message retry miss) w1 in
    match run_waves respond options
            (slices (concurrency options) ((λ c, [c]) <$> miss))
            (res, []) w2 with
    | (inl e, w3) => (throw e, w3)
    | (inr (results', stillMissing), w3) =>
        retry_loop respond options n (S retry) results' stillMissing w3
    end.
Proof. intros Hne. by destruct miss. Qed.

(** The retry loop: what it sends, reports and stores. *)
Lemma retry_loop_strong remaining : ∀ retry res miss w,
  let out := retry_loop respond options remaining retry res miss w in
  repacked out.2 = repacked w
  ∧ (signal options = None → checks out.2 = checks w)
  ∧ (∃ msgs, progress out.2 = progress w ++ msgs
             ∧ (length msgs ≤ remaining)%nat
             ∧ (onProgress options = false → msgs = []))
  ∧ (∃ sent, dispatched out.2 = dispatched w ++ sent
             ∧ (length sent ≤ remaining * length miss)%nat
             ∧ Forall (λ b, ∃ c, c ∈ miss ∧ b = [c]) sent)
  ∧ match out.1 with
    | inr (res', miss') =>
        ∃ T, res' = store_all res T
             ∧ (∀ t, t ∈ T → ∃ o body, o ∈ miss ∧ t = accepted o (trim body))
             ∧ (∀ c, c ∈ miss' → c ∈ miss)
    | inl _ => True
    end.
Proof.
  induction remaining as [|n IH]; intros retry res miss w; cbv zeta.
  - cbn. split_and!; try done.
    + exists []. by rewrite app_nil_r.
    + exists []. rewrite app_nil_r. by split_and!.
    + exists []. split_and!; [done|by intros t ?%elem_of_nil|done].
  - destruct miss as [|c0 miss0] eqn:Emiss.
    { cbn. split_and!; try done.
      + exists []. rewrite app_nil_r. split_and!; [done|cbn; lia|done].
      + exists []. rewrite app_nil_r. split_and!; [done|cbn; lia|done].
      + exists []. split_and!; [done|by intros t ?%elem_of_nil|done]. }
    rewrite <- Emiss. assert (Hne : miss ≠ []) by by subst.
    clear Emiss c0 miss0. rewrite (retry_loop_step _ _ _ _ _ Hne).
    destruct (read_aborted_log w) as (A1 & A2 & A3 & A4).
    destruct (read_aborted options w) as [ab w1]. cbn [snd] in *.
    destruct ab.
    { cbn. split_and!; try done.
      + exists []. rewrite app_nil_r. split_and!; [done|cbn; lia|done].
      + exists []. rewrite app_nil_r, A1. split_and!; [done|cbn; lia|done]. }
    destruct (report_log (retry_message retry miss) w1)
      as (R1 & R2 & R3 & msgs0 & R4 & R5 & R6).
    set (w2 := report options (retry_message retry miss) w1) in *.
    pose proof (run_waves_log
                  (slices (concurrency options) ((λ c, [c]) <$> miss))
                  (res, []) w2 (singleton_waves _ _))
      as (W1 & W2 & W3 & sent0 & W4 & W5 & W6).
    pose proof (run_waves_spec respond options
                  (slices (concurrency options) ((λ c, [c]) <$> miss))
                  res [] w2) as Hspec.
    rewrite concat_slices in W5, W6, Hspec.
    destruct (run_waves respond options _ (res, []) w2) as [o3 w3].
    cbn [fst snd] in *. specialize (Hspec o3 w3 eq_refl) as (_ & _ & Hout).
    assert (Hsent0 : (length sent0 ≤ length miss)%nat
                     ∧ Forall (λ b, ∃ c, c ∈ miss ∧ b = [c]) sent0).
    { destruct W5 as [k H]. split.
      - apply (f_equal length) in H. rewrite length_fmap, length_app in H. lia.
      - apply Forall_forall. intros b Hb.
        assert (Hin : b ∈ (λ c, [c]) <$> miss).
        { rewrite H. apply elem_of_app. by left. }
        apply list_elem_of_fmap in Hin as (c & -> & ?). eauto. }
    destruct Hsent0 as [L0 F0].
    destruct o3 as [e|[res3 miss3]].
    { cbn. split_and!; try congruence; try done.
      + intros Hs. rewrite W3, R2 by done. by apply A4.
      + exists msgs0. rewrite W1, R4, A2. split_and!; [done|lia|done].
      + exists sent0. rewrite W4, R1, A1. split_and!; [done|lia|done]. }
    destruct Hout as (brs & Hf & -> & ->). cbn [app]. cbv beta iota.
    destruct (pass_genuine _ _ Hf) as [G1 G2].
    pose proof (pass_facts respond _ _ Hf) as (_ & F2 & _ & _).
    rewrite concat_singletons in G1, G2, F2.
    specialize (IH (S retry) (store_all res (concat (translated <$> brs)))
                  (concat (missing <$> brs)) w3).
    cbv zeta in IH.
    destruct IH as (I1 & I2 & (msgs & I3 & I4 & I5) & (sent & I6 & I7 & I8) & I9).
    split_and!.
    + congruence.
    + intros Hs. rewrite I2, W3, R2 by done. by apply A4.
    + exists (msgs0 ++ msgs). rewrite I3, W1, R4, A2, <- app_assoc.
      split_and!; [done|rewrite length_app; lia|].
      intros Hoff. by rewrite R6, I5.
    + exists (sent0 ++ sent). rewrite I6, W4, R1, A1, <- app_assoc.
      split_and!; [done| |].
      * rewrite length_app. nia.
      * apply Forall_app. split; [done|].
        eapply Forall_impl; [exact I8|]. intros b (c & Hc & ->).
        exists c. split; [by apply F2|done].
    + destruct (retry_loop respond options n (S retry) _ _ w3).1
        as [e|[res' miss']]; [done|].
      destruct I9 as (T & -> & T1 & T2).
      exists (concat (translated <$> brs) ++ T). rewrite store_all_app.
      split_and!; [done| |].
      * intros t [Ht|Ht]%elem_of_app; [by apply G2|].
        destruct (T1 _ Ht) as (o & body & Ho & ->). exists o, body.
        split; [by apply F2|done].
      * intros c Hc. by apply F2, T2.
Qed.
End TranslatorLogs.

Section ParallelStrong.
Variable respond : nat → list ParagraphChunk → backend_outcome.
Variable options : TranslateOptions.
Implicit Types (c o t : ParagraphChunk) (chunks : list ParagraphChunk)
  (w : world).

Lemma slices_aux_length {A} fuel step (l b : list A) :
  b ∈ slices_aux fuel step l → (length b ≤ step)%nat.
Proof.
  revert l. induction fuel as [|f IH]; intros l; cbn; [by intros ?%elem_of_nil|].
  destruct l as [|x l]; [by intros ?%elem_of_nil|].
  intros [->|Hb]%elem_of_cons; [|by eapply IH].
  rewrite length_take. lia.
Qed.

(** Every slice is non-empty, holds at most [step] elements, and holds
    elements of the list. *)
Lemma slices_Forall {A} (step : positive) (l : list A) :
  Forall (λ b, b ≠ [] ∧ (length b ≤ Pos.to_nat step)%nat ∧ ∀ x, x ∈ b → x ∈ l)
    (slices step l).
Proof.
  apply Forall_forall. intros b Hb. split_and!.
  - eapply slices_aux_nonempty; [|exact Hb]. lia.
  - by eapply slices_aux_length.
  - intros x Hx. by eapply elem_of_slices.
Qed.

Lemma slices_aux_count {A} fuel step (l : list A) :
  (0 < step)%nat → (length l ≤ fuel)%nat →
  length (slices_aux fuel step l) = ((length l + step - 1) / step)%nat.
Proof.
  intros Hs. revert l. induction fuel as [|f IH]; intros l Hl.
  - destruct l; [|cbn in Hl; lia]. cbn. symmetry. apply Nat.div_small. lia.
  - destruct l as [|x l].
    { cbn. symmetry. apply Nat.div_small. lia. }
    cbn [slices_aux length]. rewrite IH by (rewrite length_drop; cbn in *; lia).
    rewrite length_drop. cbn [length].
    replace (S (length l) + step - 1)%nat with (length l + 1 * step)%nat by lia.
    rewrite Nat.div_add by lia.
    destruct (decide (step ≤ S (length l))%nat).
    + replace (S (length l) - step + step - 1)%nat with (length l) by lia. lia.
    + replace (S (length l) - step + step - 1)%nat with (step - 1)%nat by lia.
      rewrite !Nat.div_small by lia. lia.
Qed.

(** The number of slices. *)
Lemma slices_count {A} (step : positive) (l : list A) :
  length (slices step l)
  = ((length l + Pos.to_nat step - 1) / Pos.to_nat step)%nat.
Proof. apply slices_aux_count; [lia|done]. Qed.

Lemma slices_waves {A} (conc : positive) (batches : list (list A)) :
  Forall (λ b, b ≠ []) batches →
  Forall (Forall (λ b, b ≠ [])) (slices conc batches).
Proof.
  intros H. apply Forall_forall. intros wave Hw. apply Forall_forall.
  intros b Hb. rewrite Forall_forall in H. apply H. by eapply elem_of_slices.
Qed.

(** The whole translation: what it sends, reports and returns. *)
Lemma parallel_strong chunks w :
  let out := translateChunksInParallel respond options chunks w in
  let size := default default_batchSize (batchSize options) in
  let TT := List.filter translatable chunks in
  repacked out.2 = repacked w
  ∧ (signal options = None → checks out.2 = checks w)
  ∧ (∃ msgs, progress out.2 = progress w ++ msgs
             ∧ (length msgs ≤ S MAX_RETRIES)%nat
             ∧ (onProgress options = false → msgs = []))
  ∧ (∃ sent, dispatched out.2 = dispatched w ++ sent
             ∧ (length sent ≤ length (slices size TT)
                               + MAX_RETRIES * length TT)%nat
             ∧ Forall (λ b, b ≠ [] ∧ (length b ≤ Pos.to_nat size)%nat
                            ∧ ∀ c, c ∈ b → c ∈ chunks ∧ translatable c = true)
                      sent)
  ∧ match out.1 with
    | inr res =>
        ∃ T Mi,
          res = store_all
                  (store_all
                     (store_all (replicate (length chunks) None)
                                (List.filter passes_through chunks)) T) Mi
          ∧ (∀ t, t ∈ T → ∃ o body, o ∈ chunks ∧ translatable o = true
                                    ∧ t = accepted o (trim body))
          ∧ (∀ c, c ∈ Mi → c ∈ chunks)
    | inl _ => True
    end.
Proof.
  cbv zeta. unfold translateChunksInParallel.
  set (res0 := store_all _ (List.filter passes_through chunks)).
  set (size := default default_batchSize (batchSize options)).
  set (TT := List.filter translatable chunks).
  assert (HTT : ∀ c, c ∈ TT ↔ c ∈ chunks ∧ translatable c = true)
    by (intros c; apply elem_of_bfilter).
  pose proof (slices_Forall size TT) as Hbatches.
  assert (Hne : Forall (λ b : list ParagraphChunk, b ≠ []) (slices size TT)).
  { eapply Forall_impl; [exact Hbatches|]. by intros b (? & _). }
  pose proof (run_waves_log respond options
                (slices (concurrency options) (slices size TT)) (res0, []) w
                (slices_waves _ _ Hne))
    as (W1 & W2 & W3 & sent0 & W4 & W5 & W6).
  pose proof (run_waves_spec respond options
                (slices (concurrency options) (slices size TT)) res0 [] w)
    as Hspec.
  rewrite concat_slices in W5, W6, Hspec.
  destruct (run_waves respond options _ (res0, []) w) as [o1 w1].
  cbn [fst snd] in *. specialize (Hspec o1 w1 eq_refl) as (_ & _ & Hout).
  assert (Hsent0 : (length sent0 ≤ length (slices size TT))%nat
            ∧ Forall (λ b, b ≠ [] ∧ (length b ≤ Pos.to_nat size)%nat
                           ∧ ∀ c, c ∈ b → c ∈ chunks ∧ translatable c = true)
                sent0).
  { destruct W5 as [k H]. split.
    - apply (f_equal length) in H. rewrite length_app in H. lia.
    - rewrite H in Hbatches. apply Forall_app in Hbatches as [Hb _].
      eapply Forall_impl; [exact Hb|]. intros b (? & ? & Hin).
      split_and!; [done..|]. intros c Hc. by apply HTT, Hin. }
  destruct Hsent0 as [L0 F0].
  destruct o1 as [e|[res1 miss1]].
  { cbn. split_and!; try done.
    - exists []. rewrite app_nil_r. split_and!; [done|cbn; lia|done].
    - exists sent0. split_and!; [done|lia|done]. }
  destruct Hout as (brs & Hf & -> & ->). cbn [app]. cbv beta iota.
  destruct (pass_genuine respond _ _ Hf) as [G1 G2].
  pose proof (pass_facts respond _ _ Hf) as (_ & F2 & _ & _).
  rewrite concat_slices in G1, G2, F2.
  pose proof (retry_loop_strong respond options MAX_RETRIES 1
                (store_all res0 (concat (translated <$> brs)))
                (concat (missing <$> brs)) w1) as Hretry.
  cbv zeta in Hretry.
  destruct Hretry as (I1 & I2 & (msgs & I3 & I4 & I5) & (sent & I6 & I7 & I8) & I9).
  assert (Hsent : Forall (λ b, b ≠ [] ∧ (length b ≤ Pos.to_nat size)%nat
                    ∧ ∀ c, c ∈ b → c ∈ chunks ∧ translatable c = true) sent).
  { eapply Forall_impl; [exact I8|]. intros b (c & Hc & ->).
    split_and!; [done|cbn; lia|].
    intros x ->%list_elem_of_singleton. by apply HTT, F2. }
  assert (Hlen : (length (sent0 ++ sent)
                  ≤ length (slices size TT) + MAX_RETRIES * length TT)%nat).
  { rewrite length_app.
    assert (MAX_RETRIES * length (concat (missing <$> brs))
            ≤ MAX_RETRIES * length TT)%nat by (apply Nat.mul_le_mono_l; lia).
    lia. }
  destruct (retry_loop respond options MAX_RETRIES 1 _ _ w1) as [o2 w2].
  cbn [fst snd] in *.
  destruct o2 as [e|[res2 miss2]].
  { cbn. split_and!; try congruence; try done.
    - intros Hs. rewrite I2 by done. by apply W3.
    - exists msgs. rewrite I3, W1. split_and!; [done|lia|done].
    - exists (sent0 ++ sent). rewrite I6, W4, <- app_assoc.
      split_and!; [done|done|by apply Forall_app]. }
  destruct I9 as (T & -> & T1 & T2).
  assert (HT : ∀ t, t ∈ concat (translated <$> brs) ++ T →
               ∃ o body, o ∈ chunks ∧ translatable o = true
                         ∧ t = accepted o (trim body)).
  { intros t [Ht|Ht]%elem_of_app.
    - destruct (G2 _ Ht) as (o & body & Ho%HTT & ->). exists o, body. tauto.
    - destruct (T1 _ Ht) as (o & body & Ho%F2%HTT & ->). exists o, body. tauto. }
  assert (HM : ∀ c, c ∈ miss2 → c ∈ chunks).
  { intros c Hc. by apply T2, F2, HTT in Hc as [? _]. }
  destruct miss2 as [|c0 miss2'] eqn:Emiss.
  - cbn [fst snd]. split_and!; try congruence.
    + intros Hs. rewrite I2 by done. by apply W3.
    + exists msgs. rewrite I3, W1. split_and!; [done|lia|done].
    + exists (sent0 ++ sent). rewrite I6, W4, <- app_assoc.
      split_and!; [done|done|by apply Forall_app].
    + exists (concat (translated <$> brs) ++ T), [].
      rewrite <- store_all_app. by split_and!.
  - rewrite <- Emiss in *. clear Emiss.
    destruct (report_log options (warning_message miss2) w2)
      as (R1 & R2 & R3 & msgs1 & R4 & R5 & R6).
    cbn [fst snd]. split_and!; try congruence.
    + intros Hs. rewrite R2, I2 by done. by apply W3.
    + exists (msgs ++ msgs1). rewrite R4, I3, W1, <- app_assoc.
      split_and!; [done|rewrite length_app; lia|].
      intros Hoff. by rewrite I5, R6.
    + exists (sent0 ++ sent). rewrite R1, I6, W4, <- app_assoc.
      split_and!; [done|done|by apply Forall_app].
    + exists (concat (translated <$> brs) ++ T), miss2.
      rewrite <- store_all_app. by split_and!.
Qed.
End ParallelStrong.

Section TiedRuns.
Variable respond : nat → list ParagraphChunk → backend_outcome.
Variable options : TranslateOptions.
Implicit Types (c o t : ParagraphChunk) (batch miss : list ParagraphChunk)
  (w : world) (wave : list (list ParagraphChunk)).

Lemma translateBatch_outcome batch w :
  batch ≠ [] →
  translateBatch respond batch w
  = (outcome respond (length (dispatched w)) batch, log_dispatch batch w).
Proof.
  intros Hne. destruct batch as [|c batch]; [done|].
  unfold translateBatch, outcome. by destruct (respond _ _).
Qed.

Lemma dispatch_wave_outcomes wave : ∀ w,
  Forall (λ b, b ≠ []) wave →
  (dispatch_wave respond wave w).1
  = imap (λ i b, outcome respond (length (dispatched w) + i) b) wave.
Proof.
  induction wave as [|b wave IH]; intros w Hne; [done|].
  apply Forall_cons in Hne as [Hb Hne]. cbn [dispatch_wave].
  rewrite (translateBatch_outcome b w Hb).
  specialize (IH (log_dispatch b w) Hne).
  destruct (dispatch_wave respond wave (log_dispatch b w)) as [rs w2].
  cbn [fst] in *. rewrite IH. cbn [imap]. rewrite Nat.add_0_r. f_equal.
  apply imap_ext. intros i x _. cbn. rewrite length_app. cbn.
  f_equal. lia.
Qed.

Lemma called_later w0 w1 w2 k batch :
  (length (dispatched w0) ≤ length (dispatched w1))%nat →
  called w1 w2 k batch → called w0 w2 k batch.
Proof. intros Hl [H1 H2]. split; [lia|done]. Qed.

Lemma called_earlier w0 w1 w2 k batch :
  (∃ sent, dispatched w2 = dispatched w1 ++ sent) →
  called w0 w1 k batch → called w0 w2 k batch.
Proof.
  intros [sent Hs] [H1 H2]. split; [done|]. rewrite Hs.
  by apply lookup_app_l_Some.
Qed.

Lemma reply_unit_mono w0 w1 w2 o body :
  (length (dispatched w0) ≤ length (dispatched w1))%nat →
  (∃ sent, dispatched w2 = dispatched w1 ++ sent) →
  reply_unit respond w1 w2 o body ∨ reply_unit respond w0 w1 o body →
  reply_unit respond w0 w2 o body.
Proof.
  intros Hl Hs [H|H]; destruct H as (k & batch & text & m & Hc & H);
    exists k, batch, text, m; (split; [|done]).
  - by apply (called_later w0 w1).
  - by apply (called_earlier w0 w1).
Qed.

Lemma failed_session_mono w0 w1 w2 e :
  (length (dispatched w0) ≤ length (dispatched w1))%nat →
  (∃ sent, dispatched w2 = dispatched w1 ++ sent) →
  failed_session respond w1 w2 e ∨ failed_session respond w0 w1 e →
  failed_session respond w0 w2 e.
Proof.
  intros Hl Hs [H|H]; destruct H as (k & batch & Hc & H);
    exists k, batch; (split; [|done]).
  - by apply (called_later w0 w1).
  - by apply (called_earlier w0 w1).
Qed.

Lemma observed_abort_mono w0 w1 w2 :
  (checks w0 ≤ checks w1)%nat →
  observed_abort options w1 w2 → observed_abort options w0 w2.
Proof.
  intros Hl (sig & k & ? & ? & ? & ?). exists sig, k. split_and!; [done|lia|done..].
Qed.

(** A read of the signal: the value read and the count. *)
Lemma read_aborted_tied w :
  dispatched (read_aborted options w).2 = dispatched w
  ∧ (checks w ≤ checks (read_aborted options w).2)%nat
  ∧ ((read_aborted options w).1 = true →
     observed_abort options w (read_aborted options w).2).
Proof.
  unfold read_aborted, observed_abort. destruct (signal options) as [sig|]; cbn.
  - split_and!; [done|lia|]. intros H. exists sig, (checks w). by split_and!.
  - by split_and!.
Qed.

(** What the loop over the waves stores and why it rejects, tied to the
    calls and reads it made. *)
Lemma run_waves_tied waves : ∀ st w,
  Forall (Forall (λ b, b ≠ [])) waves →
  let out := run_waves respond options waves st w in
  (checks w ≤ checks out.2)%nat
  ∧ (∃ sent, dispatched out.2 = dispatched w ++ sent)
  ∧ match out.1 with
    | inl e =>
        (e = aborted_error ∧ observed_abort options w out.2)
        ∨ failed_session respond w out.2 e
    | inr (res', miss') =>
        ∃ T, res' = store_all st.1 T
             ∧ ∀ t, t ∈ T →
                    ∃ o body, o ∈ concat (concat waves)
                              ∧ reply_unit respond w out.2 o body
                              ∧ t = accepted o (trim body)
    end.
Proof.
  induction waves as [|wave waves IH]; intros [res miss] w Hne; cbv zeta.
  { cbn. split_and!; [lia|exists []; by rewrite app_nil_r|].
    exists []. split; [done|]. by intros t ?%elem_of_nil. }
  apply Forall_cons in Hne as [Hw Hne]. cbn [run_waves].
  destruct (read_aborted_tied w) as (A1 & A2 & A3).
  destruct (read_aborted options w) as [ab w1]. cbn [fst snd] in *.
  destruct ab.
  { cbn. split_and!; [done|exists []; by rewrite app_nil_r|].
    left. split; [done|]. by apply A3. }
  pose proof (dispatch_wave_outcomes wave w1 Hw) as Hrs.
  destruct (dispatch_wave_log respond wave w1 Hw) as (D1 & _ & D3 & _).
  destruct (dispatch_wave respond wave w1) as [rs w2]. cbn [fst snd] in *.
  pose proof (promise_all_spec (settles w2 (length (dispatched w2))) rs) as Hpa.
  assert (Hcall : ∀ i batch, wave !! i = Some batch →
            called w w2 (length (dispatched w) + i) batch).
  { intros i batch Hi. split; [lia|]. rewrite D1, A1.
    rewrite lookup_app_r by lia.
    by replace (length (dispatched w) + i - length (dispatched w))%nat
      with i by lia. }
  destruct (promise_all _ rs) as [e|brs].
  { cbn. split_and!; [lia|exists wave; by rewrite D1, A1|]. right.
    apply list_elem_of_lookup in Hpa as [i Hi]. rewrite Hrs in Hi.
    rewrite list_lookup_imap in Hi.
    destruct (wave !! i) as [batch|] eqn:Eb; [|done]. cbn in Hi.
    exists (length (dispatched w) + i)%nat, batch. split; [by apply Hcall|].
    injection Hi as Hi. unfold outcome in Hi. rewrite A1 in Hi.
    by destruct (respond _ batch); [injection Hi as ->|..]. }
  rewrite absorb_closed.
  specialize (IH (store_all res (concat (translated <$> brs)),
                  miss ++ concat (missing <$> brs)) w2 Hne).
  cbv zeta in IH. destruct IH as (I1 & [sent I2] & I3).
  assert (Hlen : (length (dispatched w) ≤ length (dispatched w2))%nat).
  { rewrite D1, A1, length_app. lia. }
  split_and!.
  - lia.
  - exists (wave ++ sent). by rewrite I2, D1, A1, <- app_assoc.
  - destruct (run_waves respond options waves _ w2) as [[e|[res' miss']] w3];
      cbn [fst snd] in *.
    + destruct I3 as [[-> I3]|I3].
      * left. split; [done|]. apply (observed_abort_mono w w2); [lia|done].
      * right. apply (failed_session_mono w w2); [done|by exists sent|by left].
    + destruct I3 as (T & -> & HT).
      exists (concat (translated <$> brs) ++ T). rewrite store_all_app.
      split; [done|]. intros t [Ht|Ht]%elem_of_app.
      * apply elem_of_concat in Ht as (trs & Htrs & Ht).
        apply list_elem_of_fmap in Htrs as (br & -> & Hbr).
        apply list_elem_of_lookup in Hbr as [i Hi].
        assert (Hri : rs !! i = Some (inr br)).
        { rewrite Hpa, list_lookup_fmap, Hi. done. }
        rewrite Hrs, list_lookup_imap in Hri.
        destruct (wave !! i) as [batch|] eqn:Eb; [|done]. cbn in Hri.
        injection Hri as Hri. unfold outcome in Hri. rewrite A1 in Hri.
        destruct (respond (length (dispatched w) + i) batch)
          as [e| |text] eqn:Er; [done| |].
        { injection Hri as <-. by apply elem_of_nil in Ht. }
        injection Hri as <-.
        apply parse_reply_translated in Ht as (m & o & Hm & Hf & ->).
        apply find_chunk_Some in Hf as [Ho Hio].
        exists o, (p_body m). split_and!; [|..|done].
        -- cbn [concat]. rewrite concat_app. apply elem_of_app. left.
           apply elem_of_concat.
           exists batch. split; [|done]. by eapply list_elem_of_lookup_2.
        -- apply (reply_unit_mono w w2 w3); [done|by exists sent|]. right.
           exists (length (dispatched w) + i)%nat, batch, text, m.
           split_and!; try done. by apply Hcall.
      * destruct (HT t Ht) as (o & body & Ho & Hu & ->).
        exists o, body. split_and!; [|..|done].
        -- cbn [concat]. rewrite concat_app. apply elem_of_app. by right.
        -- apply (reply_unit_mono w w2 w3); [done|by exists sent|]. by left.
Qed.

(** The same for the retry loop. *)
Lemma retry_loop_tied remaining : ∀ retry res miss w,
  let out := retry_loop respond options remaining retry res miss w in
  (checks w ≤ checks out.2)%nat
  ∧ (∃ sent, dispatched out.2 = dispatched w ++ sent)
  ∧ match out.1 with
    | inl e =>
        (e = aborted_error ∧ observed_abort options w out.2)
        ∨ failed_session respond w out.2 e
    | inr (res', miss') =>
        ∃ T, res' = store_all res T
             ∧ ∀ t, t ∈ T →
                    ∃ o body, o ∈ miss ∧ reply_unit respond w out.2 o body
                              ∧ t = accepted o (trim body)
    end.
Proof.
  induction remaining as [|n IH]; intros retry res miss w; cbv zeta.
  { cbn. split_and!; [lia|exists []; by rewrite app_nil_r|].
    exists []. split; [done|]. by intros t ?%elem_of_nil. }
  destruct miss as [|c0 miss0] eqn:Emiss.
  { cbn. split_and!; [lia|exists []; by rewrite app_nil_r|].
    exists []. split; [done|]. by intros t ?%elem_of_nil. }
  rewrite <- Emiss. assert (Hne : miss ≠ []) by by subst.
  clear Emiss c0 miss0. rewrite (retry_loop_step _ _ _ _ _ _ _ Hne).
  destruct (read_aborted_tied w) as (A1 & A2 & A3).
  destruct (read_aborted options w) as [ab w1]. cbn [fst snd] in *.
  destruct ab.
  { cbn. split_and!; [done|exists []; by rewrite app_nil_r|].
    left. split; [done|]. by apply A3. }
  destruct (report_log options (retry_message retry miss) w1)
    as (R1 & R2 & _).
  set (w2 := report options (retry_message retry miss) w1) in *.
  pose proof (run_waves_tied
                (slices (concurrency options) ((λ c, [c]) <$> miss))
                (res, []) w2 (singleton_waves _ _)) as Ht.
  pose proof (run_waves_spec respond options
                (slices (concurrency options) ((λ c, [c]) <$> miss))
                res [] w2) as Hspec.
  cbv zeta in Ht. rewrite concat_slices, concat_singletons in Ht.
  rewrite concat_slices in Hspec.
  destruct (run_waves respond options _ (res, []) w2) as [o3 w3].
  cbn [fst snd] in *. specialize (Hspec o3 w3 eq_refl) as (_ & _ & Hout).
  destruct Ht as (T1 & [sent0 T2] & T3).
  assert (Hl : (length (dispatched w) ≤ length (dispatched w2))%nat)
    by (rewrite R1, A1; lia).
  destruct o3 as [e|[res3 miss3]].
  { cbn. split_and!; [lia|exists sent0; by rewrite T2, R1, A1|].
    destruct T3 as [[-> T3]|T3].
    - left. split; [done|]. apply (observed_abort_mono w w2); [lia|done].
    - right. destruct T3 as (k & batch & [? ?] & ?). exists k, batch.
      split; [split; [lia|done]|done]. }
  destruct Hout as (brs & Hf & _ & Hm3). cbn [app] in Hm3.
  pose proof (pass_facts respond _ _ Hf) as (_ & F2 & _ & _).
  rewrite concat_singletons in F2. rewrite <- Hm3 in F2.
  destruct T3 as (T & -> & HT). cbv beta iota.
  specialize (IH (S retry) (store_all res T) miss3 w3). cbv zeta in IH.
  destruct IH as (I1 & [sent I2] & I3).
  split_and!.
  - lia.
  - exists (sent0 ++ sent). by rewrite I2, T2, R1, A1, <- app_assoc.
  - destruct (retry_loop respond options n (S retry) _ miss3 w3)
      as [[e|[res' miss']] w4]; cbn [fst snd] in *.
    + destruct I3 as [[-> I3]|I3].
      * left. split; [done|]. apply (observed_abort_mono w w3); [lia|done].
      * right. apply (failed_session_mono w w3);
          [rewrite T2, length_app; lia|by exists sent|by left].
    + destruct I3 as (T' & -> & HT').
      exists (T ++ T'). rewrite store_all_app. split; [done|].
      intros t [Ht|Ht]%elem_of_app.
      * destruct (HT t Ht) as (o & body & Ho & Hu & ->).
        exists o, body. split_and!; [done| |done].
        apply (reply_unit_mono w w3 w4);
          [rewrite T2, length_app; lia|by exists sent|]. right.
        destruct Hu as (k & batch & text & m & [? ?] & Hu).
        exists k, batch, text, m. split; [split; [lia|done]|done].
      * destruct (HT' t Ht) as (o & body & Ho & Hu & ->).
        exists o, body. split_and!; [by apply F2| |done].
        apply (reply_unit_mono w w3 w4);
          [rewrite T2, length_app; lia|by exists sent|]. by left.
Qed.

(** The same for the whole translation. *)
Lemma parallel_tied chunks w :
  let out := translateChunksInParallel respond options chunks w in
  (checks w ≤ checks out.2)%nat
  ∧ (∃ sent, dispatched out.2 = dispatched w ++ sent)
  ∧ match out.1 with
    | inl e =>
        (e = aborted_error ∧ observed_abort options w out.2)
        ∨ failed_session respond w out.2 e
    | inr res =>
        ∃ T Mi,
          res = store_all
                  (store_all
                     (store_all (replicate (length chunks) None)
                                (List.filter passes_through chunks)) T) Mi
          ∧ (∀ t, t ∈ T →
                  ∃ o body, o ∈ chunks ∧ translatable o = true
                            ∧ reply_unit respond w out.2 o body
                            ∧ t = accepted o (trim body))
          ∧ (∀ c, c ∈ Mi → c ∈ chunks)
    end.
Proof.
  cbv zeta. unfold translateChunksInParallel.
  set (res0 := store_all _ (List.filter passes_through chunks)).
  set (size := default default_batchSize (batchSize options)).
  set (TT := List.filter translatable chunks).
  assert (HTT : ∀ c, c ∈ TT ↔ c ∈ chunks ∧ translatable c = true)
    by (intros c; apply elem_of_bfilter).
  assert (Hne : Forall (λ b : list ParagraphChunk, b ≠ []) (slices size TT)).
  { eapply Forall_impl; [apply slices_Forall|]. by intros b (? & _). }
  pose proof (run_waves_tied
                (slices (concurrency options) (slices size TT)) (res0, []) w
                (slices_waves _ _ Hne)) as Ht.
  pose proof (run_waves_spec respond options
                (slices (concurrency options) (slices size TT)) res0 [] w)
    as Hspec.
  cbv zeta in Ht. rewrite !concat_slices in Ht. rewrite concat_slices in Hspec.
  destruct (run_waves respond options _ (res0, []) w) as [o1 w1].
  cbn [fst snd] in *. specialize (Hspec o1 w1 eq_refl) as (_ & _ & Hout).
  destruct Ht as (T1 & [sent0 T2] & T3).
  destruct o1 as [e|[res1 miss1]].
  { cbn. split_and!; [done|by exists sent0|done]. }
  destruct Hout as (brs & Hf & _ & Hm1). cbn [app] in Hm1.
  pose proof (pass_facts respond _ _ Hf) as (_ & F2 & _ & _).
  rewrite concat_slices in F2. rewrite <- Hm1 in F2.
  destruct T3 as (T & -> & HT).
  pose proof (retry_loop_tied MAX_RETRIES 1 (store_all res0 T) miss1 w1) as Hr.
  pose proof (retry_loop_strong respond options MAX_RETRIES 1
                (store_all res0 T) miss1 w1) as Hs.
  cbv zeta in Hr, Hs. destruct Hs as (_ & _ & _ & _ & Hs).
  destruct (retry_loop respond options MAX_RETRIES 1 _ miss1 w1) as [o2 w2].
  cbn [fst snd] in *. destruct Hr as (I1 & [sent I2] & I3).
  assert (Hl : (length (dispatched w) ≤ length (dispatched w1))%nat)
    by (rewrite T2, length_app; lia).
  destruct o2 as [e|[res2 miss2]].
  { cbn. split_and!; [lia|exists (sent0 ++ sent); by rewrite I2, T2, <- app_assoc|].
    destruct I3 as [[-> I3]|I3].
    - left. split; [done|]. apply (observed_abort_mono w w1); [lia|done].
    - right. apply (failed_session_mono w w1); [done|by exists sent|by left]. }
  destruct I3 as (T' & -> & HT'). destruct Hs as (_ & _ & _ & Hmiss).
  assert (HTall : ∀ t, t ∈ T ++ T' →
            ∃ o body, o ∈ chunks ∧ translatable o = true
                      ∧ reply_unit respond w w2 o body
                      ∧ t = accepted o (trim body)).
  { intros t [Ht|Ht]%elem_of_app.
    - destruct (HT t Ht) as (o & body & Ho%HTT & Hu & ->).
      exists o, body. destruct Ho. split_and!; try done.
      apply (reply_unit_mono w w1 w2); [done|by exists sent|by right].
    - destruct (HT' t Ht) as (o & body & Ho%F2%HTT & Hu & ->).
      exists o, body. destruct Ho. split_and!; try done.
      apply (reply_unit_mono w w1 w2); [done|by exists sent|by left]. }
  assert (HM : ∀ c, c ∈ miss2 → c ∈ chunks).
  { intros c Hc. by apply Hmiss, F2, HTT in Hc as [? _]. }
  assert (Hunit : ∀ msg o body, reply_unit respond w w2 o body →
            reply_unit respond w (report options msg w2) o body).
  { intros msg o body (k & batch & text & m & [? Hd] & Hu).
    exists k, batch, text, m. split; [split; [done|]|done].
    destruct (report_log options msg w2) as (-> & _). done. }
  destruct miss2 as [|c0 miss2'] eqn:Emiss.
  - cbn [fst snd]. split_and!; [lia|exists (sent0 ++ sent); by rewrite I2, T2, <- app_assoc|].
    exists (T ++ T'), []. rewrite <- store_all_app. by split_and!.
  - rewrite <- Emiss in *. clear Emiss.
    destruct (report_log options (warning_message miss2) w2)
      as (R1 & R2 & _).
    cbn [fst snd]. split_and!.
    + lia.
    + exists (sent0 ++ sent). by rewrite R1, I2, T2, <- app_assoc.
    + exists (T ++ T'), miss2. rewrite <- store_all_app. split_and!; [done| |done].
      intros t Ht. destruct (HTall t Ht) as (o & body & ? & ? & Hu & ->).
      exists o, body. split_and!; try done. by apply Hunit.
Qed.

(** Why the translation rejects. *)
Lemma rejection_tied chunks w e w' :
  translateChunksInParallel respond options chunks w = (inl e, w') →
  (e = aborted_error ∧ observed_abort options w w')
  ∨ failed_session respond w w' e.
Proof.
  intros E.
  pose proof (parallel_tied chunks w) as H. cbv zeta in H.
  rewrite E in H. cbn [fst snd] in H. by destruct H as (_ & _ & H).
Qed.
End TiedRuns.

Section TranslatorProperties.
Variable respond : nat → list ParagraphChunk → backend_outcome.
Variable options : TranslateOptions.
Implicit Types (c o t : ParagraphChunk) (chunks batch : list ParagraphChunk)
  (w : world).

Lemma slot_store_all_from res cs j c :
  slot (store_all res cs) j = Some c →
  slot res j = Some c ∨ (c ∈ cs ∧ index c = j).
Proof.
  intros H. destruct (slot_store_all res cs j) as [E|(c' & Hin & Hi & E)].
  - left. congruence.
  - right. rewrite E in H. injection H as <-. done.
Qed.

(** X9.  Nothing is invented.  Every chunk of a returned result stands at
    the position of its index and is genuine: a chunk of the input, or the
    accepted translation of a translatable chunk of the input, with the
    same index, [hasText] set, and as text the trimmed body of a unit that
    carries the index of the chunk in the reply to a call of this run whose
    batch held the chunk or, when that body is blank, the original text. *)
Theorem result_provenance chunks w res w' :
  translateChunksInParallel respond options chunks w = (inr res, w') →
  ∀ j c, slot res j = Some c → index c = j ∧ genuine respond w w' chunks c.
Proof.
  intros E j c Hc.
  pose proof (parallel_tied respond options chunks w) as H. cbv zeta in H.
  rewrite E in H. cbn [fst snd] in H.
  destruct H as (_ & _ & T & Mi & -> & HT & HM).
  apply slot_store_all_from in Hc as [Hc|[Hc Hi]].
  - apply slot_store_all_from in Hc as [Hc|[Hc Hi]].
    + apply slot_store_all_from in Hc as [Hc|[Hc Hi]].
      * by rewrite slot_replicate in Hc.
      * split; [done|]. left. by apply elem_of_bfilter in Hc as [? _].
    + split; [done|]. right. destruct (HT _ Hc) as (o & body & ? & ? & ? & ->).
      by exists o, body.
  - split; [done|]. left. by apply HM.
Qed.

(** X10.  Why a translation is rejected.  [translateChunksInParallel]
    rejects only with the cancellation error, when the last read of the
    signal it made returned [true], or with the error of a session of one
    of its own calls that failed outside the [try] block; a prompt that
    fails never makes it reject. *)
Theorem rejection_causes chunks w e w' :
  translateChunksInParallel respond options chunks w = (inl e, w') →
  (e = aborted_error ∧ observed_abort options w w')
  ∨ failed_session respond w w' e.
Proof. apply rejection_tied. Qed.

(** X11.  Calls of the backend.  The batches handed to the backend are
    appended to the log in dispatch order; each is non-empty, holds at most
    [batchSize] chunks (50 when no size is given), and holds translatable
    chunks of the input only.  For [n] translatable chunks there are at
    most [ceil (n / batchSize)] calls in the first pass and at most [n] in
    each of the [MAX_RETRIES] retries, and none when [n] is zero. *)
Theorem backend_calls chunks w :
  let w' := (translateChunksInParallel respond options chunks w).2 in
  let n := length (List.filter translatable chunks) in
  let size := Pos.to_nat (default default_batchSize (batchSize options)) in
  ∃ sent,
    dispatched w' = dispatched w ++ sent
    ∧ (length sent ≤ (n + size - 1) / size + MAX_RETRIES * n)%nat
    ∧ (n = 0%nat → sent = [])
    ∧ Forall (λ b, b ≠ [] ∧ (length b ≤ size)%nat
                   ∧ ∀ c, c ∈ b → c ∈ chunks ∧ translatable c = true) sent.
Proof.
  cbv zeta.
  destruct (parallel_strong respond options chunks w)
    as (_ & _ & _ & (sent & H1 & H2 & H3) & _).
  rewrite slices_count in H2.
  exists sent. split_and!; try done.
  intros Hn. rewrite Hn in H2. rewrite Nat.div_small in H2 by lia.
  destruct sent; [done|cbn in H2; lia].
Qed.

(** X12.  Other effects.  [translateChunksInParallel] writes no document;
    it reports at most one message per retry round and one warning, and
    none when no callback is passed; and it never reads a signal that was
    not passed. *)
Theorem translation_effects chunks w :
  let w' := (translateChunksInParallel respond options chunks w).2 in
  repacked w' = repacked w
  ∧ (signal options = None → checks w' = checks w)
  ∧ ∃ msgs, progress w' = progress w ++ msgs
            ∧ (length msgs ≤ S MAX_RETRIES)%nat
            ∧ (onProgress options = false → msgs = []).
Proof.
  cbv zeta.
  by destruct (parallel_strong respond options chunks w) as (? & ? & ? & _).
Qed.
End TranslatorProperties.

Section EchoFacts.
Implicit Types (c : ParagraphChunk) (batch cs : list ParagraphChunk)
  (s : list N).

Lemma p_at_unit i text s :
  Forall (λ x, x ≠ 60) text →
  p_at (s_pid_open ++ dec i ++ s_pid_mid ++ text ++ s_pid_close ++ s)
  = Some ({| p_id := dec i; p_body := text |}, s).
Proof.
  intros Ht. unfold p_at. rewrite strip_prefix_app.
  change s_pid_mid with (34 :: drop 1 s_pid_mid).
  rewrite <- app_comm_cons.
  rewrite (span_app is_digit (dec i) 34); [|apply dec_digits|done].
  pose proof (dec_nonempty i) as Hne.
  destruct (dec i) as [|d ds] eqn:Ed; [done|]. rewrite <- Ed.
  change (34 :: drop 1 s_pid_mid ++ text ++ s_pid_close ++ s)
    with (s_pid_mid ++ text ++ s_pid_close ++ s).
  rewrite strip_prefix_app.
  by rewrite (find_sub_skip s_pid_close 60 text s).
Qed.

Lemma p_at_productive : productive p_at.
Proof.
  intros s m rest. unfold p_at.
  destruct (strip_prefix s_pid_open s) as [t|] eqn:E1; [|done].
  apply strip_prefix_Some in E1 as ->.
  destruct (span is_digit t) as [ds t1] eqn:Es.
  apply span_spec in Es as (-> & _ & _).
  destruct ds as [|d ds]; [done|].
  destruct (strip_prefix s_pid_mid t1) as [t2|] eqn:E2; [|done].
  apply strip_prefix_Some in E2 as ->.
  destruct (find_sub s_pid_close t2) as [[body r]|] eqn:E3; [|done].
  apply find_sub_Some in E3 as ->. intros [= <- <-].
  rewrite !length_app. cbn. lia.
Qed.

Lemma exec_all_step {M} (matcher : list N → option (M * list N)) s m rest :
  productive matcher → matcher s = Some (m, rest) →
  exec_all matcher s = m :: exec_all matcher rest.
Proof.
  intros Hp E. unfold exec_all.
  by rewrite (matches_step matcher Hp s [] m rest (search_here _ _ _ _ E)).
Qed.

Lemma exec_all_skip {M} (matcher : list N → option (M * list N)) x s :
  productive matcher → matcher (x :: s) = None →
  exec_all matcher (x :: s) = exec_all matcher s.
Proof.
  intros Hp E. unfold exec_all.
  pose proof (search_next matcher x s E) as Hs.
  destruct (search matcher s) as [[[pre m] rest]|] eqn:Es.
  - by rewrite (matches_step matcher Hp _ _ _ _ Hs),
               (matches_step matcher Hp _ _ _ _ Es).
  - by rewrite (matches_none matcher _ Hs), (matches_none matcher _ Es).
Qed.

Lemma join_cons sep (x : list N) l :
  l ≠ [] → join sep (x :: l) = x ++ sep ++ join sep l.
Proof. by destruct l. Qed.

(** The reply expression finds in a prompt the units that were written
    into it. *)
Lemma exec_all_inputContent batch :
  Forall (λ c, Forall (λ x, x ≠ 60) (simplifiedText c)) batch →
  exec_all p_at (inputContent batch)
  = (λ c, {| p_id := dec (index c); p_body := simplifiedText c |}) <$> batch.
Proof.
  unfold inputContent. induction 1 as [|c batch Hc _ IH]; [done|].
  destruct batch as [|c' batch'].
  - cbn [fmap list_fmap join]. rewrite <- ?app_assoc.
    rewrite <- (app_nil_r s_pid_close).
    by rewrite (exec_all_step p_at _ _ [] p_at_productive (p_at_unit _ _ [] Hc)).
  - rewrite fmap_cons, join_cons by done. rewrite <- ?app_assoc.
    rewrite (exec_all_step p_at _ _ _ p_at_productive (p_at_unit _ _ _ Hc)).
    cbn [app]. rewrite exec_all_skip; [|apply p_at_productive|done].
    by rewrite IH.
Qed.

Lemma find_chunk_own batch c :
  NoDup (index <$> batch) → c ∈ batch → find_chunk batch (index c) = Some c.
Proof.
  intros Hnd Hc. destruct (find_chunk_elem batch c Hc) as [o Ho].
  rewrite Ho. f_equal. apply find_chunk_Some in Ho as [Hin Hi].
  by eapply distinct_index.
Qed.

Lemma reply_fold_own batch cs :
  (∀ c, c ∈ cs → find_chunk batch (index c) = Some c) →
  reply_fold batch
    ((λ c, {| p_id := dec (index c); p_body := simplifiedText c |}) <$> cs)
  = ((λ c, accepted c (trim (simplifiedText c))) <$> cs,
     list_to_set (index <$> cs)).
Proof.
  induction cs as [|c cs IH] using rev_ind; intros H; [done|].
  rewrite !fmap_app. cbn [fmap list_fmap]. rewrite reply_fold_snoc, IH.
  - unfold accept_match. cbn [p_id p_body fst snd].
    rewrite parseInt_dec, H by (apply elem_of_app; right; by left).
    f_equal. rewrite list_to_set_app_L. cbn. set_solver.
  - intros x Hx. apply H. apply elem_of_app. by left.
Qed.

Lemma filter_all_out {A} (P : A → Prop) `{∀ x, Decision (P x)} (l : list A) :
  (∀ x, x ∈ l → ¬ P x) → filter P l = [].
Proof.
  induction l as [|x l IH]; intros Hl; [done|].
  rewrite filter_cons_False by (apply Hl; by left).
  apply IH. intros y Hy. apply Hl. by right.
Qed.

(** Parsing a reply that repeats the units of the prompt. *)
Lemma parse_reply_echo batch :
  NoDup (index <$> batch) →
  Forall (λ c, Forall (λ x, x ≠ 60) (simplifiedText c)) batch →
  parse_reply batch (inputContent batch)
  = {| translated := (λ c, accepted c (trim (simplifiedText c))) <$> batch;
       missing := [] |}.
Proof.
  intros Hnd Ht. rewrite parse_reply_unfold, (exec_all_inputContent _ Ht).
  rewrite reply_fold_own by (intros c Hc; by apply find_chunk_own).
  cbn [fst snd]. f_equal. apply filter_all_out. intros c Hc Hn. apply Hn.
  apply elem_of_list_to_set, list_elem_of_fmap. by exists c.
Qed.

(** X13.  The prompt and the reply expression agree.  When a reply repeats
    the units of the prompt, every chunk of the batch is found: the parsed
    result holds for each chunk its accepted translation, in the order of
    the batch, and no chunk is missing.  This holds for batches with
    distinct indices whose texts hold no [<], as the simplified texts of
    [replaceTagsWithIds] do. *)
Theorem echo_reply batch :
  NoDup (index <$> batch) →
  Forall (λ c, Forall (λ x, x ≠ 60) (simplifiedText c)) batch →
  parse_reply batch (inputContent batch)
  = {| translated := (λ c, accepted c (trim (simplifiedText c))) <$> batch;
       missing := [] |}.
Proof. apply parse_reply_echo. Qed.
End EchoFacts.

Section ResultFacts.
Variable respond : nat → list ParagraphChunk → backend_outcome.
Variable options : TranslateOptions.
Implicit Types (c o t : ParagraphChunk) (chunks : list ParagraphChunk)
  (w : world).

Lemma positioned_bound chunks c :
  positioned chunks → c ∈ chunks → (index c < length chunks)%nat.
Proof.
  intros Hpos [i Hi]%list_elem_of_lookup. rewrite (Hpos _ _ Hi).
  by eapply lookup_lt_Some.
Qed.

(** A returned result has no holes when the index of every chunk is its
    position. *)
Lemma result_filled chunks w res w' :
  positioned chunks →
  translateChunksInParallel respond options chunks w = (inr res, w') →
  length res = length chunks
  ∧ ∀ i, (i < length chunks)%nat → is_Some (slot res i).
Proof.
  intros Hpos E.
  apply translateChunksInParallel_spec in E
    as (_ & _ & _ & T & Mi & -> & H1 & H2 & H3 & _).
  pose proof (positioned_bound chunks) as Hb.
  set (r0 := replicate (length chunks) None).
  set (PT := List.filter passes_through chunks).
  assert (L1 : length (store_all r0 PT) = length chunks).
  { rewrite length_store_all; [apply length_replicate|].
    intros c [Hc _]%elem_of_bfilter. unfold r0. rewrite length_replicate.
    by apply Hb. }
  assert (L2 : length (store_all (store_all r0 PT) T) = length chunks).
  { rewrite length_store_all; [done|]. intros t Ht. rewrite L1.
    destruct (H1 _ Ht) as (o & Ho & _ & ->). by apply Hb. }
  split.
  { rewrite length_store_all; [done|]. intros c Hc. rewrite L2.
    apply Hb; [done|]. by apply H2. }
  intros i Hi. destruct (lookup_lt_is_Some_2 chunks i Hi) as [c Hc].
  assert (Hin : c ∈ chunks) by by eapply list_elem_of_lookup_2.
  assert (Hidx : index c = i) by by apply Hpos.
  destruct (translatable c) eqn:Etr.
  - destruct (H3 _ Hin Etr) as [Hm|(t & Ht & Hti)].
    + rewrite <- Hidx. by apply slot_store_all_elem.
    + apply slot_store_all_filled. rewrite <- Hidx, <- Hti.
      by apply slot_store_all_elem.
  - do 2 apply slot_store_all_filled. rewrite <- Hidx.
    apply slot_store_all_elem, elem_of_bfilter. split; [done|].
    by rewrite passes_through_negb, Etr.
Qed.

Lemma dense_filled (res : list (option ParagraphChunk)) :
  (∀ i, (i < length res)%nat → is_Some (slot res i)) →
  ∃ cs, dense res = Some cs.
Proof.
  induction res as [|x res IH]; intros H; [by exists []|].
  destruct (H 0%nat) as [c Hc]; [cbn; lia|]. unfold slot in Hc. cbn in Hc.
  subst x. destruct IH as [cs Hcs].
  { intros i Hi. apply (H (S i)). cbn. lia. }
  exists (c :: cs). unfold dense in *. cbn. by rewrite Hcs.
Qed.
End ResultFacts.

Section DocxProperties.
Variable to_primitive : json → option (list N).
Variable respond : nat → list ParagraphChunk → backend_outcome.
Variable extract : result (list N).
Variable repack_error : list N → option exn.
Variable out_path language : list N.
Variable opt_concurrency : option positive.
Variable opt_signal : option (nat → bool).
Variable opt_onProgress : bool.

Notation run := (translateDocx to_primitive respond extract repack_error
                   out_path language opt_concurrency opt_signal opt_onProgress).
Notation say := (notify opt_onProgress).
Notation topts := (translator_options opt_concurrency opt_signal).

Lemma notify_dispatched msg w : dispatched (say msg w) = dispatched w.
Proof. unfold notify. by destruct opt_onProgress. Qed.

Lemma reconstructXml_total doc chunks m :
  ∃ out, reconstructXml to_primitive doc chunks m = ok out.
Proof.
  destruct (reconstructXml_spec to_primitive doc chunks m)
    as (gaps & tl & outs & _ & _ & _ & E & _). eauto.
Qed.

(** X16.  Documents without text.  When the text content of every
    paragraph is blank (also when there is no paragraph), [translateDocx]
    never calls the backend, writes the XML of the input as it is and
    reports zero translated chunks. *)
Theorem no_text_path w doc :
  extract = inr doc →
  Forall (λ para, blank (extractTextContent para) = true) (chunkParagraphs doc) →
  repack_error doc = None →
  ∃ w', run w = (ok {| outputPath := out_path; chunksTranslated := 0;
                       targetLanguage := language |}, w')
        ∧ repacked w' = repacked w ++ [doc]
        ∧ dispatched w' = dispatched w.
Proof.
  intros Hex Hblank Hrep. unfold translateDocx. rewrite Hex.
  rewrite replaceTagsWithIds_extraction.
  set (chunks := chunk <$> (extraction (chunkParagraphs doc)).1).
  assert (Hno : existsb hasText chunks = false).
  { apply not_true_is_false. intros (c & Hin & Hc)%existsb_exists.
    apply list_elem_of_In, list_elem_of_fmap in Hin as (ex & -> & Hex').
    apply list_elem_of_lookup in Hex' as [i Hi].
    pose proof (extraction_recorded (chunkParagraphs doc)) as Hr.
    destruct (Forall2_lookup_l _ _ _ _ _ Hr Hi) as (para & Hp & Hh & _).
    rewrite Hh, truthy_trim in Hc. rewrite Forall_forall in Hblank.
    rewrite Hblank in Hc; [done|]. by eapply list_elem_of_lookup_2. }
  rewrite Hno, orb_true_r. unfold repackDocx. rewrite Hrep.
  eexists. split; [done|]. cbn [repacked dispatched log_repack].
  by rewrite !notify_repacked, !notify_dispatched.
Qed.
End DocxProperties.

Section DocxOutcomes.
Variable to_primitive : json → option (list N).
Variable respond : nat → list ParagraphChunk → backend_outcome.
Variable extract : result (list N).
Variable repack_error : list N → option exn.
Variable out_path language : list N.
Variable opt_concurrency : option positive.
Variable opt_signal : option (nat → bool).
Variable opt_onProgress : bool.

Notation run := (translateDocx to_primitive respond extract repack_error
                   out_path language opt_concurrency opt_signal opt_onProgress).
Notation say := (notify opt_onProgress).
Notation topts := (translator_options opt_concurrency opt_signal).

Lemma only_messages_refl w : only_messages w w.
Proof. split_and!; try done. exists []. by rewrite app_nil_r. Qed.

Lemma only_messages_say msg w wa :
  only_messages w wa → only_messages w (say msg wa).
Proof.
  intros (H1 & H2 & H3 & H4 & msgs & H5). unfold notify.
  destruct opt_onProgress; [|by split_and!; [..|exists msgs]].
  unfold only_messages. cbn. split_and!; try done. exists (msgs ++ [msg]).
  by rewrite H5, <- app_assoc.
Qed.

Lemma no_text_test (chunks : list ParagraphChunk) :
  bool_decide (length chunks = 0%nat) || negb (existsb hasText chunks)
  = negb (existsb hasText chunks).
Proof. destruct chunks; [done|]. by cbn. Qed.

Lemma repackDocx_run xml w :
  repackDocx repack_error xml w
  = (match repack_error xml with Some e => throw e | None => ok tt end,
     log_repack xml w).
Proof. unfold repackDocx. by destruct (repack_error xml). Qed.

(** The outcomes of [translateDocx]. *)
Lemma translateDocx_cases w :
  let r := (run w).1 in
  let w' := (run w).2 in
  match extract with
  | inl e0 => r = inl e0 ∧ only_messages w w'
  | inr doc =>
      let chunks := (replaceTagsWithIds (chunkParagraphs doc)).1 in
      let m := (replaceTagsWithIds (chunkParagraphs doc)).2 in
      if existsb hasText chunks then
        ∃ wa, only_messages w wa
          ∧ match translateChunksInParallel respond topts chunks wa with
            | (inl e, wb) =>
                r = inl e ∧ w' = wb ∧ repacked wb = repacked w
            | (inr results, wb) =>
                ∃ cs xml,
                  dense results = Some cs
                  ∧ reconstructXml to_primitive doc cs m = ok xml
                  ∧ dispatched w' = dispatched wb ∧ checks w' = checks wb
                  ∧ match validateXml xml with
                    | inl e => r = inl e ∧ repacked w' = repacked w
                    | inr _ =>
                        repacked w' = repacked w ++ [xml]
                        ∧ match repack_error xml with
                          | Some e => r = inl e
                          | None => ∃ res, r = inr res
                          end
                    end
            end
      else
        dispatched w' = dispatched w ∧ checks w' = checks w
        ∧ repacked w' = repacked w ++ [doc]
        ∧ match repack_error doc with
          | Some e => r = inl e
          | None => ∃ res, r = inr res
          end
  end.
Proof.
  cbv zeta. unfold translateDocx.
  destruct extract as [e|doc] eqn:Eex.
  { cbn [fst snd]. split; [done|]. apply only_messages_say, only_messages_refl. }
  pose proof (extraction_positioned (chunkParagraphs doc)) as Hpos.
  destruct (replaceTagsWithIds (chunkParagraphs doc)) as [chunks m].
  cbn [fst snd] in *. rewrite no_text_test.
  destruct (existsb hasText chunks); cbn [negb].
  2:{ rewrite repackDocx_run.
      destruct (repack_error doc) as [e|]; unfold throw, ok;
        cbn [fst snd log_repack dispatched
        checks repacked]; unfold notify; destruct opt_onProgress; cbn;
        split_and!; try done; by eexists. }
  match goal with
  | |- context [translateChunksInParallel respond topts chunks ?w0] =>
      exists w0; split; [by do 3 apply only_messages_say, only_messages_refl||
                         (do 3 apply only_messages_say; apply only_messages_refl)|];
      destruct (translateChunksInParallel respond topts chunks w0)
        as [[e|res] w1] eqn:Etr
  end.
  { cbn [fst snd]. split_and!; [done..|].
    apply translateChunksInParallel_spec in Etr as (Hr & _).
    by rewrite Hr, !notify_repacked. }
  pose proof Etr as Hspec.
  apply translateChunksInParallel_spec in Hspec as (Hr & _).
  destruct (result_filled _ _ _ _ _ _ Hpos Etr) as [Hlen Hfill].
  destruct (dense_filled res) as [cs Hcs].
  { intros i Hi. apply Hfill. by rewrite <- Hlen. }
  rewrite Hcs. cbv beta iota.
  destruct (reconstructXml_total to_primitive doc cs m) as [xml Hxml].
  rewrite Hxml. unfold ok. cbv beta iota.
  exists cs, xml. split; [done|]. split; [done|].
  destruct (validateXml xml) as [e|[]] eqn:Ev.
  { cbn [fst snd]. rewrite notify_repacked, notify_dispatched, Hr, !notify_repacked.
    split_and!; try done. unfold notify. by destruct opt_onProgress. }
  rewrite repackDocx_run.
  destruct (repack_error xml) as [e|]; unfold throw, ok; cbn [fst snd];
    rewrite ?notify_repacked, ?notify_dispatched; cbn [log_repack dispatched
      checks repacked]; rewrite ?notify_repacked, ?notify_dispatched, Hr,
      ?notify_repacked; unfold notify; destruct opt_onProgress; cbn;
      split_and!; try done; by eexists.
Qed.

(** X14.  Calls of [repackDocx].  [translateDocx] calls [repackDocx] at
    most once.  When it returns it made one call, which succeeded; when it
    throws it made no call, or its one call raised the error it throws.
    The document handed over is the XML of the input when no chunk has
    text; otherwise it is the document [reconstructXml] made of the chunks
    that the translation of this run returned, and [validateXml] accepted
    it. *)
Theorem written_documents w :
  ∃ docs,
    repacked (run w).2 = repacked w ++ docs
    ∧ match (run w).1 with
      | inr _ => ∃ xml, docs = [xml] ∧ repack_error xml = None
      | inl e => docs = [] ∨ ∃ xml, docs = [xml] ∧ repack_error xml = Some e
      end
    ∧ ∀ xml, xml ∈ docs →
        ∃ doc, extract = inr doc
          ∧ ((existsb hasText (replaceTagsWithIds (chunkParagraphs doc)).1
              = false ∧ xml = doc)
             ∨ (reconstructed to_primitive respond topts doc w (run w).2 xml
                ∧ validateXml xml = ok tt)).
Proof.
  pose proof (translateDocx_cases w) as H. cbv zeta in H.
  destruct extract as [e0|doc] eqn:Eex.
  { destruct H as [-> (_ & _ & Hr & _)]. exists []. rewrite Hr, app_nil_r.
    split_and!; [done|by left|by intros xml ?%elem_of_nil]. }
  destruct (existsb hasText (replaceTagsWithIds (chunkParagraphs doc)).1) eqn:Et.
  2:{ destruct H as (_ & _ & Hr & Hres). exists [doc]. split; [done|]. split.
      - destruct (repack_error doc) as [e|] eqn:Ee.
        + rewrite Hres. right. by exists doc.
        + destruct Hres as [res ->]. by exists doc.
      - intros xml ->%list_elem_of_singleton. exists doc. split; [done|]. by left. }
  destruct H as (wa & Hwa & H).
  destruct (translateChunksInParallel respond topts _ wa) as [[e|results] wb] eqn:Etr.
  { destruct H as (-> & -> & Hr). exists []. rewrite Hr, app_nil_r.
    split_and!; [done|by left|by intros xml ?%elem_of_nil]. }
  destruct H as (cs & xml & Hcs & Hxml & Hd & Hc & H).
  destruct (validateXml xml) as [e|[]] eqn:Ev.
  { destruct H as [-> Hr]. exists []. rewrite Hr, app_nil_r.
    split_and!; [done|by left|by intros ? ?%elem_of_nil]. }
  destruct H as [Hr Hres]. exists [xml]. split; [done|]. split.
  - destruct (repack_error xml) as [e|] eqn:Ee.
    + rewrite Hres. right. by exists xml.
    + destruct Hres as [res ->]. by exists xml.
  - intros ? ->%list_elem_of_singleton. exists doc. split; [done|]. right.
    split; [|done]. by exists wa, results, wb, cs.
Qed.

(** X15.  Why [translateDocx] fails.  It throws only: the error of
    [extractDocxXml]; the error [repackDocx] raised for the document it
    was handed; the cancellation error, when the last read of the signal
    made in this run returned [true]; the error of a session of a call of
    this run that failed outside the [try] block of its batch; or the
    error of [validateXml] on the document this run reconstructed.
    Reconstruction never throws, and the array of translated chunks has no
    holes. *)
Theorem failure_causes w e w' :
  run w = (inl e, w') →
  extract = inl e
  ∨ (∃ xml, repacked w' = repacked w ++ [xml] ∧ repack_error xml = Some e)
  ∨ (e = aborted_error ∧ observed_abort topts w w')
  ∨ failed_session respond w w' e
  ∨ (∃ doc xml, extract = inr doc
                ∧ reconstructed to_primitive respond topts doc w w' xml
                ∧ validateXml xml = inl e).
Proof.
  intros E. pose proof (translateDocx_cases w) as H. cbv zeta in H.
  rewrite E in H. cbn [fst snd] in H.
  destruct extract as [e0|doc] eqn:Eex.
  { destruct H as [[= ->] _]. by left. }
  destruct (existsb hasText (replaceTagsWithIds (chunkParagraphs doc)).1).
  2:{ destruct H as (_ & _ & Hr & Hres). right. left. exists doc.
      destruct (repack_error doc) as [e1|]; [|by destruct Hres].
      by injection Hres as ->. }
  destruct H as (wa & Hwa & H).
  pose proof (rejection_tied respond topts
                (replaceTagsWithIds (chunkParagraphs doc)).1 wa) as Hrej.
  destruct (translateChunksInParallel respond topts _ wa) as [[e1|results] wb] eqn:Etr.
  { destruct H as ([= ->] & -> & _). specialize (Hrej _ _ eq_refl).
    destruct Hwa as (Hd & Hc & _).
    destruct Hrej as [[-> (sig & k & ? & ? & ? & ?)]|(k & batch & [? ?] & ?)].
    - do 2 right. left. split; [done|]. exists sig, k. split_and!; try done. by rewrite <- Hc.
    - do 3 right. left. exists k, batch. split; [split; [by rewrite <- Hd|done]|done]. }
  destruct H as (cs & xml & Hcs & Hxml & Hd & Hc & H).
  destruct (validateXml xml) as [e1|[]] eqn:Ev.
  { destruct H as [[= ->] Hr]. do 4 right. exists doc, xml. split; [done|].
    split; [|done]. by exists wa, results, wb, cs. }
  destruct H as [Hr Hres]. right. left. exists xml.
  destruct (repack_error xml) as [e1|]; [|by destruct Hres].
  by injection Hres as ->.
Qed.
End DocxOutcomes.

Section EchoPipeline.
Implicit Types (c o t : ParagraphChunk) (chunks batch : list ParagraphChunk)
  (s : list N) (ps : list piece) (os : list origin).

Lemma trim_tight s (a z : N) :
  head s = Some a → last s = Some z → is_space a = false → is_space z = false →
  trim s = s.
Proof.
  intros Hh Hl Hc Hd.
  destruct (trim_trimmed s) as (l & r & E & Hsl & Hsr & _ & _).
  destruct l as [|x l].
  - destruct r as [|y r] using rev_ind.
    + by rewrite app_nil_r in E.
    + clear IHr. rewrite E, !app_assoc, last_snoc in Hl. injection Hl as ->.
      apply Forall_app in Hsr as [_ Hy]. inversion Hy; congruence.
  - rewrite E in Hh. cbn in Hh. injection Hh as ->.
    inversion Hsl; congruence.
Qed.

Lemma digits_no_lt s : Forall (λ d, is_digit d = true) s → Forall (λ x, x ≠ 60) s.
Proof. intros H. eapply Forall_impl; [exact H|]. by intros x Hx ->. Qed.

Lemma render_piece_last p : last (render_piece p) = Some 93.
Proof.
  destruct p as [id|id text]; cbn [render_piece]; rewrite ?app_assoc;
    apply last_snoc.
Qed.

Lemma render_last ps : ps ≠ [] → last (render ps) = Some 93.
Proof.
  destruct ps as [|p ps _] using rev_ind; [done|]. intros _.
  unfold render. rewrite fmap_app, concat_app. cbn. rewrite app_nil_r.
  pose proof (render_piece_last p) as H.
  destruct (render_piece p) as [|x r] using rev_ind; [done|].
  rewrite app_assoc, last_snoc. by rewrite last_snoc in H.
Qed.

Lemma render_no_lt m ps os :
  recorded m ps os → Forall sound_origin os → Forall (λ x, x ≠ 60) (render ps).
Proof.
  induction 1 as [|p o ps os [Hp _] _ IH]; intros Hs; [constructor|].
  inversion Hs as [|? ? Ho Hs']; subst. rewrite render_cons.
  apply Forall_app. split; [|by apply IH]. rewrite Hp.
  pose proof (digits_no_lt _ (dec_digits (piece_id p))) as Hd.
  destruct o as [span|whole tm]; cbn [piece_of render_piece].
  - rewrite !Forall_app. split_and!; [by repeat constructor|done|by repeat constructor].
  - destruct Ho as (attrs & u & v & _ & _ & Ht & _).
    rewrite !Forall_app.
    split_and!; try done; by repeat constructor.
Qed.

(** The simplified text of an extracted chunk with text holds no [<], has
    no white space at its ends, and is sent for translation. *)
Lemma extracted_text_facts (paragraphs : list (list N)) c :
  c ∈ (replaceTagsWithIds paragraphs).1 → hasText c = true →
  Forall (λ x, x ≠ 60) (simplifiedText c)
  ∧ trim (simplifiedText c) = simplifiedText c
  ∧ translatable c = true.
Proof.
  rewrite replaceTagsWithIds_extraction. cbn [fst].
  intros (e & -> & He)%list_elem_of_fmap Hh.
  apply list_elem_of_lookup in He as [i Hi].
  destruct (Forall2_lookup_l _ _ _ _ _ (extraction_recorded paragraphs) Hi)
    as (para & Hp & Hh' & Hs & Hr).
  rewrite Hh in Hh'. symmetry in Hh'.
  assert (Ho : para_origins para ≠ []).
  { unfold para_origins. rewrite Hh'. by apply origins_nonempty. }
  assert (Hne : markers e ≠ []).
  { intros E. rewrite E in Hr. inversion Hr; congruence. }
  assert (Etrim : trim (simplifiedText (chunk e)) = simplifiedText (chunk e)).
  { rewrite Hs. destruct (markers e) as [|p ps] eqn:Em; [done|].
    apply (trim_tight _ 91 93); [apply render_head|by apply render_last|done..]. }
  split_and!; [|done|].
  - rewrite Hs. eapply render_no_lt; [exact Hr|apply para_origins_sound].
  - unfold translatable. rewrite Hh, Etrim, Hs.
    destruct (markers e) as [|p ps]; [done|]. by destruct p.
Qed.
End EchoPipeline.

Section EchoRun.
Variable options : TranslateOptions.
Implicit Types (c o t : ParagraphChunk) (chunks batch : list ParagraphChunk)
  (w : world).

Lemma accepted_self c : stable c → accepted c (trim (simplifiedText c)) = c.
Proof.
  intros (Hh & _ & Ht & Htr). unfold accepted. rewrite Ht.
  unfold translatable in Htr. rewrite Hh, Ht in Htr. cbn in Htr. rewrite Htr.
  destruct c. cbn in *. by subst.
Qed.

Lemma echo_batch_result batch br :
  batch_result echo batch br → NoDup (index <$> batch) →
  (∀ c, c ∈ batch → stable c) →
  br = {| translated := batch; missing := [] |}.
Proof.
  intros [|k b Hne Hr|k b text Hne Hr] Hnd Hst; [done|done|].
  injection Hr as <-. rewrite parse_reply_echo; [|done|].
  - f_equal. rewrite <- (list_fmap_id b) at 2. apply list_fmap_ext.
    intros i c Hc. apply accepted_self, Hst. by eapply list_elem_of_lookup_2.
  - apply Forall_forall. intros c Hc. by destruct (Hst c Hc) as (_ & ? & _).
Qed.

Lemma echo_pass batches brs :
  Forall2 (batch_result echo) batches brs →
  Forall (λ b, NoDup (index <$> b) ∧ ∀ c, c ∈ b → stable c) batches →
  concat (translated <$> brs) = concat batches
  ∧ concat (missing <$> brs) = [].
Proof.
  induction 1 as [|batch br batches brs Hbr _ IH]; intros Hb; [done|].
  apply Forall_cons in Hb as [[Hnd Hst] Hb]. destruct (IH Hb) as [IH1 IH2].
  rewrite (echo_batch_result _ _ Hbr Hnd Hst). cbn. by rewrite IH1, IH2.
Qed.

Lemma retry_loop_nil respond n retry res w :
  retry_loop respond options n retry res [] w = (ok (res, []), w).
Proof. by destruct n. Qed.

Lemma bfilter_sublist {A} (f : A → bool) (l : list A) :
  List.filter f l `sublist_of` l.
Proof.
  induction l as [|x l IH]; [done|]. cbn. destruct (f x).
  - by apply sublist_skip.
  - by apply sublist_cons.
Qed.

Lemma slices_aux_sublist {A} fuel step (l b : list A) :
  b ∈ slices_aux fuel step l → b `sublist_of` l.
Proof.
  revert l. induction fuel as [|f IH]; intros l; cbn; [by intros ?%elem_of_nil|].
  destruct l as [|x l]; [by intros ?%elem_of_nil|].
  intros [->|Hb]%elem_of_cons; [apply sublist_take|].
  etrans; [by apply IH|apply sublist_drop].
Qed.

Lemma positioned_NoDup chunks : positioned chunks → NoDup (index <$> chunks).
Proof.
  intros Hpos. apply NoDup_alt. intros i j x Hi Hj.
  apply list_lookup_fmap_Some in Hi as (ci & -> & Hi).
  apply list_lookup_fmap_Some in Hj as (cj & Hx & Hj).
  apply Hpos in Hi, Hj. congruence.
Qed.

(** With the echo backend and no cancellation, the translation of
    positioned chunks whose translatable chunks are stable returns the
    chunks themselves. *)
Lemma echo_translation chunks w :
  positioned chunks →
  (∀ c, c ∈ chunks → translatable c = true → stable c) →
  (∀ sig k, signal options = Some sig → sig k = false) →
  ∃ w', translateChunksInParallel echo options chunks w
        = (ok (Some <$> chunks), w')
        ∧ repacked w' = repacked w.
Proof.
  intros Hpos Hst Hsig.
  assert (Hq : quiet echo options) by (by split).
  pose proof (positioned_NoDup _ Hpos) as Hnd.
  unfold translateChunksInParallel.
  set (res0 := store_all _ (List.filter passes_through chunks)).
  set (size := default default_batchSize (batchSize options)).
  set (TT := List.filter translatable chunks).
  assert (HTT : ∀ c, c ∈ TT ↔ c ∈ chunks ∧ translatable c = true)
    by (intros c; apply elem_of_bfilter).
  destruct (run_waves echo options _ (res0, []) w) as [o1 w1] eqn:E1.
  apply run_waves_spec in E1 as ([_ Hr1] & _ & Hout1).
  rewrite concat_slices in Hout1.
  destruct o1 as [e|[res1 miss1]]; [by apply quiet_no_rejection in Hout1|].
  destruct Hout1 as (brs & Hf & -> & ->).
  destruct (echo_pass _ _ Hf) as [E2 E3].
  { apply Forall_forall. intros b Hb. split.
    - eapply sublist_NoDup; [exact Hnd|]. apply fmap_sublist.
      etrans; [by eapply slices_aux_sublist|apply bfilter_sublist].
    - intros c Hc. pose proof (elem_of_slices _ _ _ _ Hb Hc) as Hin.
      apply HTT in Hin as [? ?]. by apply Hst. }
  rewrite E2, E3, concat_slices. cbn [app]. rewrite retry_loop_nil.
  exists w1. split; [|done]. f_equal. f_equal.
  assert (Hb : ∀ c, c ∈ chunks → (index c < length chunks)%nat)
    by (intros c; by apply positioned_bound).
  assert (L0 : length res0 = length chunks).
  { unfold res0. rewrite length_store_all; [apply length_replicate|].
    intros c [Hc _]%elem_of_bfilter. rewrite length_replicate. by apply Hb. }
  assert (L1 : length (store_all res0 TT) = length chunks).
  { rewrite length_store_all; [done|]. intros c [Hc _]%HTT. rewrite L0.
    by apply Hb. }
  apply list_eq_same_length with (length chunks);
    [by rewrite length_fmap|done|].
  intros i x y Hi Hx Hy.
  apply list_lookup_fmap_Some in Hy as (c & -> & Hc).
  assert (Hin : c ∈ chunks) by by eapply list_elem_of_lookup_2.
  assert (Hidx : index c = i) by by apply Hpos.
  assert (Hslot : slot (store_all res0 TT) i = Some c).
  { destruct (translatable c) eqn:Etr.
    - rewrite <- Hidx. apply slot_store_all_last; [by apply HTT|].
      intros y [Hy _]%HTT Hyi. by eapply distinct_index.
    - rewrite slot_store_all_keep.
      + unfold res0. rewrite <- Hidx. apply slot_store_all_last.
        * apply elem_of_bfilter. split; [done|].
          by rewrite passes_through_negb, Etr.
        * intros y [Hy _]%elem_of_bfilter Hyi. by eapply distinct_index.
      + intros y [Hy Hty]%HTT Hyi.
        assert (y = c) by (eapply distinct_index; try done; congruence).
        congruence. }
  apply slot_Some in Hslot. congruence.
Qed.
End EchoRun.

Section EchoDocx.
Variable to_primitive : json → option (list N).
Variable extract : result (list N).
Variable repack_error : list N → option exn.
Variable out_path language : list N.
Variable opt_concurrency : option positive.
Variable opt_signal : option (nat → bool).
Variable opt_onProgress : bool.

Lemma dense_Some (cs : list ParagraphChunk) : dense (Some <$> cs) = Some cs.
Proof. unfold dense. by apply mapM_fmap_Some. Qed.

Lemma no_text_count (chunks : list ParagraphChunk) :
  bool_decide (length chunks = 0%nat) || negb (existsb hasText chunks) = true →
  length (List.filter hasText chunks) = 0%nat.
Proof.
  intros [H|H]%orb_true_iff.
  - apply bool_decide_eq_true in H. by destruct chunks.
  - apply negb_true_iff in H. induction chunks as [|c cs IH]; [done|].
    cbn in H |- *. apply orb_false_iff in H as [-> H]. by apply IH.
Qed.

(** X17.  The whole pipeline with a backend that repeats its input.  For a
    clean document that passes [validateXml], when the archive can be
    written and no cancellation is observed, [translateDocx] returns,
    writes the XML of the input byte for byte, and reports as many
    translated chunks as there are paragraphs with text. *)
Theorem echo_pipeline w doc :
  extract = inr doc →
  Forall (λ para, clean_paragraph para = true) (chunkParagraphs doc) →
  validateXml doc = ok tt →
  repack_error doc = None →
  (∀ sig k, opt_signal = Some sig → sig k = false) →
  ∃ w',
    translateDocx to_primitive echo extract repack_error out_path language
      opt_concurrency opt_signal opt_onProgress w
    = (ok {| outputPath := out_path;
             chunksTranslated :=
               length (List.filter hasText
                         (replaceTagsWithIds (chunkParagraphs doc)).1);
             targetLanguage := language |}, w')
    ∧ repacked w' = repacked w ++ [doc].
Proof.
  intros Hex Hclean Hval Hrep Hsig. unfold translateDocx. rewrite Hex.
  pose proof (round_trip_all_clean to_primitive doc Hclean) as Hrt.
  pose proof (extraction_positioned (chunkParagraphs doc)) as Hpos.
  pose proof (extracted_text_facts (chunkParagraphs doc)) as Hfacts.
  rewrite replaceTagsWithIds_extraction in *. cbn [fst snd] in *.
  set (chunks := chunk <$> (extraction (chunkParagraphs doc)).1) in *.
  set (m := idTagMap (extraction (chunkParagraphs doc)).2) in *.
  destruct (bool_decide (length chunks = 0%nat) || negb (existsb hasText chunks))
    eqn:Ec.
  { unfold repackDocx. rewrite Hrep, (no_text_count _ Ec).
    eexists. split; [done|]. cbn [repacked log_repack].
    by rewrite !notify_repacked. }
  match goal with
  | |- context [translateChunksInParallel echo ?o chunks ?w0] =>
      destruct (echo_translation o chunks w0) as (w1 & -> & Hr1)
  end.
  - done.
  - intros c Hc Htr. assert (Hh : hasText c = true).
    { unfold translatable in Htr. by apply andb_true_iff in Htr as [? _]. }
    destruct (Hfacts c Hc Hh) as (? & ? & ?). by split_and!.
  - done.
  - unfold ok. cbv beta iota. rewrite dense_Some. cbv beta iota.
    unfold ok in Hrt, Hval. rewrite Hrt. cbv beta iota. rewrite Hval.
    cbv beta iota. unfold repackDocx. rewrite Hrep.
    eexists. split; [done|]. rewrite notify_repacked.
    cbn [repacked log_repack]. by rewrite notify_repacked, Hr1, !notify_repacked.
Qed.
End EchoDocx.

Section ValidateFacts.
Implicit Types (xml : list N) (evs : list tag_event) (st : list (list N)).

Lemma validate_loop_events xml ms : ∀ offset st,
  match validate_loop xml ms offset st with
  | inr st' => run_events (omap event_of ms.*2) st = Some st'
  | inl _ => run_events (omap event_of ms.*2) st = None
  end.
Proof.
  induction ms as [|[pre m] ms IH]; intros offset st; [done|].
  cbn [validate_loop].
  assert (E : omap event_of ((pre, m) :: ms).*2
              = match (if isSelfClosing m then None
                       else Some (if isClosing m then Close (tagName m)
                                  else Open (tagName m))) with
                | Some ev => ev :: omap event_of ms.*2
                | None => omap event_of ms.*2
                end) by done.
  rewrite E. clear E.
  destruct (isSelfClosing m); [apply IH|].
  destruct (isClosing m); cbn [run_events].
  - destruct st as [|expected below]; [done|].
    destruct (decide (expected = tagName m)); [apply IH|done].
  - apply IH.
Qed.

Lemma run_events_app evs1 evs2 st :
  run_events (evs1 ++ evs2) st = run_events evs1 st ≫= run_events evs2.
Proof.
  revert st. induction evs1 as [|[n|n] evs1 IH]; intros st; cbn; [done|apply IH|].
  destruct st as [|expected below]; [done|].
  destruct (decide (expected = n)); [apply IH|done].
Qed.

Lemma balanced_run evs : balanced evs → ∀ st, run_events evs st = Some st.
Proof.
  induction 1 as [|n inner after _ IH1 _ IH2]; intros st; [done|].
  cbn [run_events]. rewrite run_events_app, IH1. cbn.
  rewrite decide_True by done. apply IH2.
Qed.

Lemma closes_wrap st n inner evs :
  balanced inner → closes st evs → closes st (Open n :: inner ++ Close n :: evs).
Proof.
  intros Hi. destruct st as [|m below]; cbn.
  - intros He. by constructor.
  - intros (v0 & v' & -> & Hv0 & Hc).
    exists (Open n :: inner ++ Close n :: v0), v'. split_and!; [|by constructor|done].
    by rewrite <- app_comm_cons, <- app_assoc.
Qed.

Lemma run_closes evs : ∀ st, run_events evs st = Some [] → closes st evs.
Proof.
  induction evs as [|[n|n] evs IH]; intros st; cbn [run_events].
  - intros [= ->]. constructor.
  - intros H. apply IH in H as (inner & after & -> & Hi & Hc).
    by apply closes_wrap.
  - destruct st as [|expected below]; [done|].
    destruct (decide (expected = n)) as [->|]; [|done].
    intros H. apply IH in H. exists [], evs. split_and!; [done|constructor|done].
Qed.

(** The stack discipline accepts exactly the properly nested tags. *)
Lemma run_events_balanced evs : run_events evs [] = Some [] ↔ balanced evs.
Proof.
  split; [apply run_closes|]. intros H. by apply balanced_run.
Qed.

(** The verdict of [validateXml] depends on the tags only. *)
Lemma validateXml_events xml :
  validateXml xml = ok tt ↔ balanced (tag_events xml).
Proof.
  unfold validateXml, tag_events.
  pose proof (validate_loop_events xml (matches tag_at xml).1 0 []) as H.
  rewrite <- run_events_balanced.
  destruct (validate_loop xml _ 0 []) as [e|st]; rewrite H; cbn.
  - split; done.
  - destruct st; split; done.
Qed.

(** X18.  [validateXml] accepts a document exactly when its tags that are
    not self-closing, in the order of the text, are properly nested: every
    closing tag closes the innermost open element of the same name, and no
    element stays open. *)
Theorem validateXml_balanced xml :
  validateXml xml = ok tt ↔ balanced (tag_events xml).
Proof. apply validateXml_events. Qed.
End ValidateFacts.

Section TagFacts.
Implicit Types (s x W Z : list N).

Lemma tag_at_head c s : c ≠ 60 → tag_at (c :: s) = None.
Proof. intros Hc%eqc_neq. cbn. by rewrite Hc. Qed.

(** A tag that is found ends with the first [>] after its name; text that
    follows does not change it. *)
Lemma tag_at_app s Z :
  62 ∈ s →
  tag_at (s ++ Z)
  = match tag_at s with
    | Some (m, r) => Some (m, r ++ Z)
    | None => None
    end.
Proof.
  intros Hgt. destruct s as [|lt t]; [by apply elem_of_nil in Hgt|].
  cbn [tag_at app]. destruct (eqc lt 60) eqn:Elt; [|done].
  apply eqc_eq in Elt as ->.
  apply elem_of_cons in Hgt as [Hgt|Hgt]; [done|].
  set (cl := match t with
             | c :: t' => if eqc c 47 then (true, t') else (false, t)
             | [] => (false, t) end).
  assert (Hcl : match t ++ Z with
                | c :: t' => if eqc c 47 then (true, t') else (false, t ++ Z)
                | [] => (false, t ++ Z) end = (cl.1, cl.2 ++ Z) ∧ 62 ∈ cl.2).
  { subst cl. destruct t as [|c t']; [by apply elem_of_nil in Hgt|].
    cbn [app]. destruct (eqc c 47) eqn:Ec; [|done].
    apply eqc_eq in Ec as ->. cbn. split; [done|].
    by apply elem_of_cons in Hgt as [|]. }
  destruct Hcl as [-> Hgt1]. destruct cl as [closing t1]. cbn [fst snd] in *.
  clear Hgt.
  destruct (span is_name_char t1) as [name t2] eqn:Es1.
  pose proof Es1 as (-> & Hname & Hstop)%span_spec.
  assert (Hgt2 : 62 ∈ t2).
  { apply elem_of_app in Hgt1 as [Hin|]; [|done].
    rewrite Forall_forall in Hname. by specialize (Hname _ Hin). }
  rewrite <- app_assoc, (span_stop is_name_char name (t2 ++ Z)); [|done|].
  2:{ destruct t2 as [|c2 t2']; [by apply elem_of_nil in Hgt2|].
      cbn. by intros c [= <-]. }
  destruct name as [|n name]; [done|].
  destruct (span not_gt t2) as [body t3] eqn:Es2.
  pose proof Es2 as (-> & Hbody & Hstop2)%span_spec.
  assert (Hgt3 : 62 ∈ t3).
  { apply elem_of_app in Hgt2 as [Hin|]; [|done].
    rewrite Forall_forall in Hbody. by specialize (Hbody _ Hin). }
  rewrite <- app_assoc, (span_stop not_gt body (t3 ++ Z)); [|done|].
  2:{ destruct t3 as [|g rest]; [by apply elem_of_nil in Hgt3|].
      cbn. by intros c [= <-]. }
  destruct t3 as [|g rest]; [by apply elem_of_nil in Hgt3|]. done.
Qed.

Lemma tag_at_suffix s m r :
  tag_at s = Some (m, r) →
  (length r < length s)%nat ∧ ∃ u, s = u ++ [62] ++ r.
Proof.
  destruct s as [|lt t]; [done|]. cbn [tag_at].
  destruct (eqc lt 60) eqn:Elt; [|done].
  set (cl := match t with
             | c :: t' => if eqc c 47 then (true, t') else (false, t)
             | [] => (false, t) end).
  assert (Hcl : ∃ u, t = u ++ cl.2).
  { subst cl. destruct t as [|c t']; [by exists []|].
    destruct (eqc c 47); [by exists [c]|by exists []]. }
  destruct Hcl as [u0 Ht]. destruct cl as [closing t1]. cbn [snd] in Ht.
  destruct (span is_name_char t1) as [name t2] eqn:Es1.
  apply span_spec in Es1 as (-> & _ & _).
  destruct name as [|n name]; [done|].
  destruct (span not_gt t2) as [body t3] eqn:Es2.
  apply span_spec in Es2 as (-> & _ & Hg).
  destruct t3 as [|g rest]; [done|]. intros [= <- <-].
  assert (g = 62) as ->.
  { unfold not_gt in Hg. apply negb_false_iff in Hg. by apply eqc_eq. }
  subst t. split.
  - cbn. rewrite !length_app. cbn. rewrite !length_app. cbn. lia.
  - exists (lt :: u0 ++ (n :: name) ++ body).
    by repeat (rewrite <- ?app_assoc; cbn).
Qed.

Lemma tag_at_productive : productive tag_at.
Proof. intros s m r H. by apply tag_at_suffix in H as [? _]. Qed.

Lemma tag_events_exec xml :
  tag_events xml = omap event_of (exec_all tag_at xml).
Proof. done. Qed.

Lemma exec_all_no_lt W T :
  Forall (λ c, c ≠ 60) T → exec_all tag_at (T ++ W) = exec_all tag_at W.
Proof.
  induction 1 as [|c T Hc _ IH]; [done|].
  cbn [app]. rewrite exec_all_skip; [done|apply tag_at_productive|].
  by apply tag_at_head.
Qed.

(** Text without [<] after a [>] does not change the tags that are
    found. *)
Lemma exec_all_text x : ∀ T W,
  x = [] ∨ last x = Some 62 →
  Forall (λ c, c ≠ 60) T →
  exec_all tag_at (x ++ T ++ W) = exec_all tag_at (x ++ W).
Proof.
  induction x as [x IH] using (induction_ltof1 _ (@length N)).
  unfold ltof in IH. intros T W Hx HT.
  destruct x as [|c x']; [cbn [app]; by apply exec_all_no_lt|].
  destruct Hx as [|Hlast]; [done|].
  assert (Hgt : 62 ∈ c :: x').
  { destruct (c :: x') as [|y l _] using rev_ind; [done|].
    rewrite last_snoc in Hlast. injection Hlast as ->.
    apply elem_of_app. right. by left. }
  pose proof (tag_at_app (c :: x') (T ++ W) Hgt) as E1.
  pose proof (tag_at_app (c :: x') W Hgt) as E2.
  destruct (tag_at (c :: x')) as [[m r]|] eqn:Et.
  - rewrite (exec_all_step tag_at _ _ _ tag_at_productive E1).
    rewrite (exec_all_step tag_at _ _ _ tag_at_productive E2).
    f_equal. destruct (tag_at_suffix _ _ _ Et) as [Hlen [u Hu]].
    apply IH; [done| |done].
    destruct r as [|y r' _] using rev_ind; [by left|]. right.
    rewrite Hu, !app_assoc, last_snoc in Hlast. by rewrite last_snoc.
  - change ((c :: x') ++ T ++ W) with (c :: (x' ++ T ++ W)) in *.
    change ((c :: x') ++ W) with (c :: (x' ++ W)) in *.
    rewrite !exec_all_skip; [|apply tag_at_productive|done
                             |apply tag_at_productive|done].
    apply IH; [cbn; lia| |done].
    destruct x' as [|y l]; [by left|]. right.
    by rewrite last_cons_cons in Hlast.
Qed.
End TagFacts.

Section TranslatedRuns.
Variable to_primitive : json → option (list N).
Implicit Types (m : gmap nat (list N)) (s text whole pre post : list N)
  (tm : t_match).

Lemma xml_entity_no_lt c : Forall (λ d, d ≠ 60) (xml_entity c).
Proof.
  unfold xml_entity.
  destruct (eqc c 38); [by repeat constructor|].
  destruct (eqc c 60) eqn:E; [by repeat constructor|].
  apply eqc_neq in E.
  repeat (destruct (eqc c _); [by repeat constructor|]).
  by repeat constructor.
Qed.

Lemma escapeXml_no_lt s : Forall (λ c, c ≠ 60) (escapeXml s).
Proof.
  rewrite escapeXml_entities. apply Forall_flat_map, Forall_forall.
  intros c _. apply xml_entity_no_lt.
Qed.

(** The parts of a run with a text element. *)
Lemma sound_parts whole tm :
  sound_origin (FromRun whole tm) →
  whole = beforeText whole tm ++ t_open tm ++ t_text tm ++ t_close tm
          ++ afterText whole tm
  ∧ last (t_open tm) = Some 62
  ∧ Forall (λ c, c ≠ 60) (t_text tm).
Proof.
  intros (attrs & u & v & E & Ha & Ht & Ew).
  destruct (text_element_parts tm attrs E Ha) as [Eo Ec].
  split_and!; [|by rewrite Eo, !app_assoc, last_snoc|done].
  rewrite (run_parts whole tm u v Ew) at 1. rewrite E, Eo, Ec.
  by rewrite <- !app_assoc.
Qed.

(** Whatever text is written into a run, the tags of the document stay the
    same. *)
Lemma restored_tags whole tm p pre post :
  sound_origin (FromRun whole tm) →
  tag_events (pre ++ restored (FromRun whole tm) p ++ post)
  = tag_events (pre ++ whole ++ post).
Proof.
  intros Hs. destruct (sound_parts whole tm Hs) as (Hw & Hlast & Ht).
  rewrite Hw at 2. cbn [restored]. rewrite !tag_events_exec. f_equal.
  set (x := pre ++ beforeText whole tm ++ t_open tm).
  set (W := t_close tm ++ afterText whole tm ++ post).
  assert (Hx : x = [] ∨ last x = Some 62).
  { right. unfold x. rewrite !app_assoc.
    destruct (t_open tm) as [|y l _] using rev_ind; [done|].
    rewrite last_snoc in Hlast. injection Hlast as ->.
    by rewrite !app_assoc, last_snoc. }
  transitivity (exec_all tag_at (x ++ W)).
  - replace (pre ++ (beforeText whole tm ++ t_open tm
                     ++ escapeXml (piece_text p) ++ t_close tm
                     ++ afterText whole tm) ++ post)
      with (x ++ escapeXml (piece_text p) ++ W)
      by (unfold x, W; by rewrite <- !app_assoc).
    apply exec_all_text; [done|apply escapeXml_no_lt].
  - replace (pre ++ (beforeText whole tm ++ t_open tm ++ t_text tm
                     ++ t_close tm ++ afterText whole tm) ++ post)
      with (x ++ t_text tm ++ W)
      by (unfold x, W; by rewrite <- !app_assoc).
    symmetry. by apply exec_all_text.
Qed.

(** X19.  Translated text does not change the tag structure.  The
    callback of a paired marker, on the marker of a run that can be
    refilled and with any text that holds neither an opening bracket nor a
    dollar sign, returns a run that has, in any document around it, the
    tags of the original run; so [validateXml] accepts the document with
    the translated run exactly when it accepts it with the original run. *)
Theorem translated_run_same_tags m id whole tm text pre post :
  refillable m (RunMarker id text) (FromRun whole tm) →
  ∃ out,
    run_replacer to_primitive m {| rm_id := dec id; rm_text := text |} = ok out
    ∧ tag_events (pre ++ out ++ post) = tag_events (pre ++ whole ++ post)
    ∧ (validateXml (pre ++ out ++ post) = ok tt
       ↔ validateXml (pre ++ whole ++ post) = ok tt).
Proof.
  intros Hr. exists (restored (FromRun whole tm) (RunMarker id text)).
  pose proof Hr as (_ & Hs & _).
  pose proof (restored_tags whole tm (RunMarker id text) pre post Hs) as Ht.
  split_and!; [by apply run_replacer_refill|done|].
  by rewrite !validateXml_events, Ht.
Qed.

Lemma length_xml_entity c : (1 ≤ length (xml_entity c))%nat.
Proof.
  unfold xml_entity. repeat (destruct (eqc c _); [cbn; lia|]). cbn. lia.
Qed.

Lemma length_escaped s : (length s ≤ length (flat_map xml_entity s))%nat.
Proof.
  induction s as [|c s IH]; [done|]. cbn [flat_map]. rewrite length_app.
  pose proof (length_xml_entity c). cbn. lia.
Qed.

Lemma xml_entity_plain c :
  xml_entity c = [c] ↔ c ≠ 38 ∧ c ≠ 60 ∧ c ≠ 62 ∧ c ≠ 34 ∧ c ≠ 39.
Proof.
  unfold xml_entity. split.
  - intros H.
    destruct (eqc c 38) eqn:E1; [apply eqc_eq in E1 as ->; done|].
    destruct (eqc c 60) eqn:E2; [apply eqc_eq in E2 as ->; done|].
    destruct (eqc c 62) eqn:E3; [apply eqc_eq in E3 as ->; done|].
    destruct (eqc c 34) eqn:E4; [apply eqc_eq in E4 as ->; done|].
    destruct (eqc c 39) eqn:E5; [apply eqc_eq in E5 as ->; done|].
    by rewrite <- !eqc_neq.
  - intros (H1 & H2 & H3 & H4 & H5). rewrite <- eqc_neq in H1, H2, H3, H4, H5.
    by rewrite H1, H2, H3, H4, H5.
Qed.

(** A text is its own escaped form exactly when it holds no character
    that [escapeXml] rewrites. *)
Lemma escapeXml_fixed s :
  escapeXml s = s ↔ Forall (λ c, c ≠ 38 ∧ c ≠ 60 ∧ c ≠ 62 ∧ c ≠ 34 ∧ c ≠ 39) s.
Proof.
  rewrite escapeXml_entities. induction s as [|c s IH]; [by split|].
  cbn [flat_map]. rewrite Forall_cons, <- IH, <- xml_entity_plain. split.
  - intros H.
    assert (Hl : length (xml_entity c) = 1%nat).
    { apply (f_equal length) in H. rewrite length_app in H. cbn in H.
      pose proof (length_xml_entity c). pose proof (length_escaped s). lia. }
    destruct (xml_entity c) as [|y [|??]]; try done.
    cbn in H. by injection H as -> ->.
  - intros [-> ->]. done.
Qed.

(** X20.  When a run comes back unchanged.  The callback of a paired
    marker, on the marker of a run that can be refilled and with the run's
    own text, returns the original run exactly when the text holds none of
    the characters [&], [>], double quote and apostrophe: a text that holds
    one of them, such as the entity of an ampersand, is escaped once
    more. *)
Theorem run_round_trip_iff m id whole tm :
  refillable m (RunMarker id (t_text tm)) (FromRun whole tm) →
  run_replacer to_primitive m {| rm_id := dec id; rm_text := t_text tm |}
    = ok whole
  ↔ Forall (λ c, c ≠ 38 ∧ c ≠ 62 ∧ c ≠ 34 ∧ c ≠ 39) (t_text tm).
Proof.
  intros Hr. rewrite (run_replacer_refill to_primitive _ _ _ _ _ Hr).
  pose proof Hr as (_ & Hs & _).
  destruct (sound_parts whole tm Hs) as (Hw & _ & Ht).
  cbn [restored piece_text].
  assert (Hfix : escapeXml (t_text tm) = t_text tm
                 ↔ Forall (λ c, c ≠ 38 ∧ c ≠ 62 ∧ c ≠ 34 ∧ c ≠ 39) (t_text tm)).
  { rewrite escapeXml_fixed. split; intros H.
    - eapply Forall_impl; [exact H|]. naive_solver.
    - rewrite Forall_forall in *. intros c Hc. specialize (H c Hc).
      specialize (Ht c Hc). naive_solver. }
  rewrite <- Hfix. split.
  - intros [= H].
    assert (H' : beforeText whole tm ++ t_open tm ++ escapeXml (t_text tm)
                 ++ t_close tm ++ afterText whole tm
                 = beforeText whole tm ++ t_open tm ++ t_text tm
                   ++ t_close tm ++ afterText whole tm)
      by (by rewrite <- Hw).
    do 2 apply app_inv_head in H'. by apply app_inv_tail in H'.
  - intros ->. by rewrite <- Hw.
Qed.
End TranslatedRuns.

Section MoreValidate.
Variable to_primitive : json → option (list N).
Implicit Types (m : gmap nat (list N)) (s text pre post : list N).

Lemma restore_plain m text :
  Forall (λ c, c ≠ 91) text →
  restoreParagraphXml to_primitive text m = ok text.
Proof.
  intros Ht. unfold restoreParagraphXml.
  rewrite replace_all_none
    by (apply search_plain; [done|apply run_marker_at_bracket|done]).
  cbn. apply replace_all_none, search_plain;
    [done|apply tag_marker_at_bracket|done].
Qed.

(** X21.  [validateXml] looks at tags only.  Text without [<] that stands
    at the beginning of a document or after a [>] does not change its
    verdict.  So a translation that lost all its markers goes unnoticed:
    [restoreParagraphXml] returns a text without opening bracket as it is,
    and the document with this bare text in place of the paragraph is
    accepted exactly when the document without the paragraph is. *)
Theorem validateXml_ignores_text m pre text post :
  pre = [] ∨ last pre = Some 62 →
  Forall (λ c, c ≠ 60) text →
  (validateXml (pre ++ text ++ post) = ok tt
   ↔ validateXml (pre ++ post) = ok tt)
  ∧ (Forall (λ c, c ≠ 91) text →
     restoreParagraphXml to_primitive text m = ok text).
Proof.
  intros Hpre Ht. split; [|apply restore_plain].
  rewrite !validateXml_events, !tag_events_exec.
  by rewrite (exec_all_text pre text post Hpre Ht).
Qed.
End MoreValidate.

Section ReportedResult.
Variable to_primitive : json → option (list N).
Variable respond : nat → list ParagraphChunk → backend_outcome.
Variable extract : result (list N).
Variable repack_error : list N → option exn.
Variable out_path language : list N.
Variable opt_concurrency : option positive.
Variable opt_signal : option (nat → bool).
Variable opt_onProgress : bool.

Notation run := (translateDocx to_primitive respond extract repack_error
                   out_path language opt_concurrency opt_signal opt_onProgress).

Lemma count_hasText (paragraphs : list (list N)) :
  length (List.filter hasText (replaceTagsWithIds paragraphs).1)
  = length (List.filter (λ para, negb (blank (extractTextContent para)))
              paragraphs).
Proof.
  rewrite replaceTagsWithIds_extraction. cbn [fst].
  pose proof (extraction_recorded paragraphs) as H.
  induction H as [|e para es paras (Hh & _) _ IH]; [done|].
  cbn [fmap list_fmap List.filter]. rewrite Hh, truthy_trim.
  destruct (negb (blank (extractTextContent para))); cbn; by rewrite IH.
Qed.

(** X22.  What a completed run reports.  The result names the output path
    and the target language it was given, and [chunksTranslated] is the
    number of paragraphs whose text content is not blank, whether their
    translations were found in the replies or the original text was
    kept. *)
Theorem reported_result w doc res w' :
  extract = inr doc →
  run w = (inr res, w') →
  outputPath res = out_path
  ∧ targetLanguage res = language
  ∧ chunksTranslated res
    = length (List.filter (λ para, negb (blank (extractTextContent para)))
                (chunkParagraphs doc)).
Proof.
  intros Hex. unfold translateDocx. rewrite Hex.
  rewrite <- count_hasText.
  destruct (replaceTagsWithIds (chunkParagraphs doc)) as [chunks m].
  cbn [fst].
  destruct (bool_decide (length chunks = 0%nat) || negb (existsb hasText chunks))
    eqn:Ec.
  { rewrite (no_text_count _ Ec).
    destruct (repackDocx repack_error doc _) as [[e|[]] w1]; [done|].
    by intros [= <- <-]. }
  destruct (translateChunksInParallel respond _ chunks _) as [[e|tr] w1]; [done|].
  destruct (dense tr) as [cs|]; [|done].
  destruct (reconstructXml to_primitive doc cs m) as [e|xml]; [done|].
  destruct (validateXml xml) as [e|[]]; [done|].
  destruct (repackDocx repack_error xml _) as [[e|[]] w2]; [done|].
  by intros [= <- <-].
Qed.
End ReportedResult.

Section AbsentBackend.
Variable respond : nat → list ParagraphChunk → backend_outcome.
Variable options : TranslateOptions.
Implicit Types (c o t : ParagraphChunk) (chunks : list ParagraphChunk)
  (w : world).

(** When no reply ever returns a chunk, the result is the input. *)
Lemma absent_translation chunks w :
  positioned chunks →
  quiet respond options →
  (∀ c, c ∈ chunks → translatable c = true → always_absent respond c) →
  ∃ w', translateChunksInParallel respond options chunks w
        = (ok (Some <$> chunks), w')
        ∧ repacked w' = repacked w.
Proof.
  intros Hpos Hq Habs.
  destruct (quiet_returns respond options chunks w Hq) as (res & w' & E).
  destruct (result_filled respond options chunks w res w' Hpos E) as [Hlen _].
  pose proof E as Hspec.
  apply translateChunksInParallel_spec in Hspec
    as (Hr & _ & _ & T & Mi & Hres & H1 & H2 & _ & H4 & _).
  exists w'. split; [|done]. rewrite E. f_equal. f_equal.
  pose proof (positioned_NoDup _ Hpos) as Hnd.
  apply list_eq_same_length with (length chunks);
    [by rewrite length_fmap|done|].
  intros i x y Hi Hx Hy.
  apply list_lookup_fmap_Some in Hy as (c & -> & Hc).
  assert (Hin : c ∈ chunks) by by eapply list_elem_of_lookup_2.
  assert (Hidx : index c = i) by by apply Hpos.
  assert (Hslot : slot res i = Some c).
  { rewrite Hres. destruct (translatable c) eqn:Etr.
    - rewrite <- Hidx. apply slot_store_all_last; [apply H4; auto|].
      intros y [Hy _]%H2 Hyi. by eapply distinct_index.
    - assert (HMi : ∀ y, y ∈ Mi → index y ≠ i).
      { intros y [Hy Hty]%H2 Hyi.
        assert (y = c) by (eapply distinct_index; try done; congruence).
        congruence. }
      assert (HT : ∀ t, t ∈ T → index t ≠ i).
      { intros t Ht Hti. destruct (H1 _ Ht) as (o & Ho & Hto & Hio).
        assert (o = c) by (eapply distinct_index; try done; congruence).
        congruence. }
      rewrite (slot_store_all_keep _ Mi) by done.
      rewrite (slot_store_all_keep _ T) by done.
      rewrite <- Hidx. apply slot_store_all_last.
      + apply elem_of_bfilter. split; [done|].
        by rewrite passes_through_negb, Etr.
      + intros y [Hy _]%elem_of_bfilter Hyi. by eapply distinct_index. }
  apply slot_Some in Hslot. congruence.
Qed.
End AbsentBackend.

Section OutageDocx.
Variable to_primitive : json → option (list N).
Variable respond : nat → list ParagraphChunk → backend_outcome.
Variable extract : result (list N).
Variable repack_error : list N → option exn.
Variable out_path language : list N.
Variable opt_concurrency : option positive.
Variable opt_signal : option (nat → bool).
Variable opt_onProgress : bool.

(** X23.  A backend that returns nothing.  When every prompt fails, or no
    reply holds a unit of the batch it answers, and no session fails and no
    cancellation is observed, [translateDocx] on a clean document that
    passes [validateXml] keeps every original text: it returns and writes
    the XML of the input byte for byte. *)
Theorem outage_pipeline w doc :
  extract = inr doc →
  Forall (λ para, clean_paragraph para = true) (chunkParagraphs doc) →
  validateXml doc = ok tt →
  repack_error doc = None →
  (∀ sig k, opt_signal = Some sig → sig k = false) →
  (∀ k batch e, respond k batch ≠ SessionFailure e) →
  (∀ k batch text, respond k batch = Reply text →
     ∀ c, c ∈ batch → index c ∉ reply_ids text) →
  ∃ res w',
    translateDocx to_primitive respond extract repack_error out_path language
      opt_concurrency opt_signal opt_onProgress w
    = (ok res, w')
    ∧ repacked w' = repacked w ++ [doc].
Proof.
  intros Hex Hclean Hval Hrep Hsig Hsess Hreply. unfold translateDocx.
  rewrite Hex.
  pose proof (round_trip_all_clean to_primitive doc Hclean) as Hrt.
  pose proof (extraction_positioned (chunkParagraphs doc)) as Hpos.
  rewrite replaceTagsWithIds_extraction in *. cbn [fst snd] in *.
  set (chunks := chunk <$> (extraction (chunkParagraphs doc)).1) in *.
  set (m := idTagMap (extraction (chunkParagraphs doc)).2) in *.
  destruct (bool_decide (length chunks = 0%nat) || negb (existsb hasText chunks)).
  { unfold repackDocx. rewrite Hrep.
    eexists _, _. split; [done|]. cbn [repacked log_repack].
    by rewrite !notify_repacked. }
  match goal with
  | |- context [translateChunksInParallel respond ?o chunks ?w0] =>
      destruct (absent_translation respond o chunks w0) as (w1 & -> & Hr1)
  end.
  - done.
  - by split.
  - intros c _ _ k batch Hc. destruct (respond k batch) as [| |text] eqn:Er;
      [done..|]. by eapply Hreply.
  - unfold ok. cbv beta iota. rewrite dense_Some. cbv beta iota.
    unfold ok in Hrt, Hval. rewrite Hrt. cbv beta iota. rewrite Hval.
    cbv beta iota. unfold repackDocx. rewrite Hrep.
    eexists _, _. split; [done|]. rewrite notify_repacked.
    cbn [repacked log_repack]. by rewrite notify_repacked, Hr1, !notify_repacked.
Qed.
End OutageDocx.

Section RewritingBackend.
Variable options : TranslateOptions.
Variable g : list N → list N.
Implicit Types (c o t : ParagraphChunk) (chunks batch cs : list ParagraphChunk)
  (w : world).

Lemma reply_fold_bodies batch (body : ParagraphChunk → list N) cs :
  (∀ c, c ∈ cs → find_chunk batch (index c) = Some c) →
  reply_fold batch
    ((λ c, {| p_id := dec (index c); p_body := body c |}) <$> cs)
  = ((λ c, accepted c (trim (body c))) <$> cs, list_to_set (index <$> cs)).
Proof.
  induction cs as [|c cs IH] using rev_ind; intros H; [done|].
  rewrite !fmap_app. cbn [fmap list_fmap]. rewrite reply_fold_snoc, IH.
  - unfold accept_match. cbn [p_id p_body fst snd].
    rewrite parseInt_dec, H by (apply elem_of_app; right; by left).
    f_equal. rewrite list_to_set_app_L. cbn. set_solver.
  - intros x Hx. apply H. apply elem_of_app. by left.
Qed.

(** Parsing a reply that repeats the units of the prompt with rewritten
    texts. *)
Lemma parse_reply_rewritten batch :
  NoDup (index <$> batch) →
  Forall (λ c, Forall (λ x, x ≠ 60) (g (simplifiedText c))) batch →
  parse_reply batch (inputContent (with_text g <$> batch))
  = {| translated := (λ c, accepted c (trim (g (simplifiedText c)))) <$> batch;
       missing := [] |}.
Proof.
  intros Hnd Ht. rewrite parse_reply_unfold, exec_all_inputContent.
  - rewrite <- list_fmap_compose.
    rewrite (reply_fold_bodies batch (λ c, g (simplifiedText c)))
      by (intros c Hc; by apply find_chunk_own).
    cbn [fst snd]. f_equal. apply filter_all_out. intros c Hc Hn. apply Hn.
    apply elem_of_list_to_set, list_elem_of_fmap. by exists c.
  - apply Forall_fmap. eapply Forall_impl; [exact Ht|]. by intros c Hc.
Qed.

Lemma accepted_rewritten c :
  rewritable g c → accepted c (trim (g (simplifiedText c))) = with_text g c.
Proof.
  intros (Hh & _ & Ht & Hne). unfold accepted, with_text. rewrite Ht, Hh.
  by destruct (g (simplifiedText c)).
Qed.

Lemma rewriting_batch_result batch br :
  batch_result (rewriting g) batch br → NoDup (index <$> batch) →
  (∀ c, c ∈ batch → rewritable g c) →
  br = {| translated := with_text g <$> batch; missing := [] |}.
Proof.
  intros [|k b Hne Hr|k b text Hne Hr] Hnd Hst; [done|done|].
  injection Hr as <-. rewrite parse_reply_rewritten; [|done|].
  - f_equal. apply list_fmap_ext.
    intros i c Hc. apply accepted_rewritten, Hst.
    by eapply list_elem_of_lookup_2.
  - apply Forall_forall. intros c Hc. by destruct (Hst c Hc) as (_ & ? & _).
Qed.

Lemma rewriting_pass batches brs :
  Forall2 (batch_result (rewriting g)) batches brs →
  Forall (λ b, NoDup (index <$> b) ∧ ∀ c, c ∈ b → rewritable g c) batches →
  concat (translated <$> brs) = with_text g <$> concat batches
  ∧ concat (missing <$> brs) = [].
Proof.
  induction 1 as [|batch br batches brs Hbr _ IH]; intros Hb; [done|].
  apply Forall_cons in Hb as [[Hnd Hst] Hb]. destruct (IH Hb) as [IH1 IH2].
  rewrite (rewriting_batch_result _ _ Hbr Hnd Hst). cbn.
  by rewrite IH1, IH2, fmap_app.
Qed.

(** With a rewriting backend and no cancellation, the translation of
    positioned chunks returns the rewritten chunks. *)
Lemma rewriting_translation chunks w :
  positioned chunks →
  (∀ c, c ∈ chunks → translatable c = true → rewritable g c) →
  (∀ sig k, signal options = Some sig → sig k = false) →
  ∃ w', translateChunksInParallel (rewriting g) options chunks w
        = (ok (Some <$> (rewritten g <$> chunks)), w')
        ∧ repacked w' = repacked w.
Proof.
  intros Hpos Hst Hsig.
  assert (Hq : quiet (rewriting g) options) by (by split).
  pose proof (positioned_NoDup _ Hpos) as Hnd.
  unfold translateChunksInParallel.
  set (res0 := store_all _ (List.filter passes_through chunks)).
  set (size := default default_batchSize (batchSize options)).
  set (TT := List.filter translatable chunks).
  assert (HTT : ∀ c, c ∈ TT ↔ c ∈ chunks ∧ translatable c = true)
    by (intros c; apply elem_of_bfilter).
  destruct (run_waves (rewriting g) options _ (res0, []) w) as [o1 w1] eqn:E1.
  apply run_waves_spec in E1 as ([_ Hr1] & _ & Hout1).
  rewrite concat_slices in Hout1.
  destruct o1 as [e|[res1 miss1]]; [by apply quiet_no_rejection in Hout1|].
  destruct Hout1 as (brs & Hf & -> & ->).
  destruct (rewriting_pass _ _ Hf) as [E2 E3].
  { apply Forall_forall. intros b Hb. split.
    - eapply sublist_NoDup; [exact Hnd|]. apply fmap_sublist.
      etrans; [by eapply slices_aux_sublist|apply bfilter_sublist].
    - intros c Hc. pose proof (elem_of_slices _ _ _ _ Hb Hc) as Hin.
      apply HTT in Hin as [? ?]. by apply Hst. }
  rewrite E2, E3, concat_slices. cbn [app]. rewrite retry_loop_nil.
  exists w1. split; [|done]. f_equal. f_equal.
  assert (Hb : ∀ c, c ∈ chunks → (index c < length chunks)%nat)
    by (intros c; by apply positioned_bound).
  assert (L0 : length res0 = length chunks).
  { unfold res0. rewrite length_store_all; [apply length_replicate|].
    intros c [Hc _]%elem_of_bfilter. rewrite length_replicate. by apply Hb. }
  assert (L1 : length (store_all res0 (with_text g <$> TT)) = length chunks).
  { rewrite length_store_all; [done|].
    intros x (c & -> & [Hc _]%HTT)%list_elem_of_fmap. rewrite L0.
    change (index (with_text g c)) with (index c). by apply Hb. }
  apply list_eq_same_length with (length chunks);
    [by rewrite !length_fmap|done|].
  intros i x y Hi Hx Hy.
  apply list_lookup_fmap_Some in Hy as (c' & -> & Hc').
  apply list_lookup_fmap_Some in Hc' as (c & -> & Hc).
  assert (Hin : c ∈ chunks) by by eapply list_elem_of_lookup_2.
  assert (Hidx : index c = i) by by apply Hpos.
  assert (Hslot : slot (store_all res0 (with_text g <$> TT)) i
                  = Some (rewritten g c)).
  { unfold rewritten. destruct (translatable c) eqn:Etr.
    - rewrite <- Hidx. change (index c) with (index (with_text g c)).
      apply slot_store_all_last.
      + apply list_elem_of_fmap. exists c. split; [done|]. by apply HTT.
      + intros x' (y & -> & [Hy _]%HTT)%list_elem_of_fmap Hyi. cbn in Hyi.
        f_equal. by eapply distinct_index.
    - rewrite slot_store_all_keep.
      + unfold res0. rewrite <- Hidx. apply slot_store_all_last.
        * apply elem_of_bfilter. split; [done|].
          by rewrite passes_through_negb, Etr.
        * intros y [Hy _]%elem_of_bfilter Hyi. by eapply distinct_index.
      + intros x' (y & -> & [Hy Hty]%HTT)%list_elem_of_fmap Hyi. cbn in Hyi.
        assert (y = c) by (eapply distinct_index; try done; congruence).
        congruence. }
  apply slot_Some in Hslot. congruence.
Qed.
End RewritingBackend.

Section TranslationFacts.
Variable to_primitive : json → option (list N).
Variable f g : list N → list N.
Implicit Types (m : gmap nat (list N)) (o : origin) (p : piece)
  (os : list origin) (ps : list piece) (c : ParagraphChunk)
  (para doc : list N).

Hypothesis f_safe : ∀ text, marker_safe (f text) = true.
Hypothesis f_no_lt : ∀ text, Forall (λ x, x ≠ 60) (f text).

Lemma retexted_retext ps : retexted ps (retext f ps).
Proof.
  unfold retexted, retext. apply Forall2_fmap_r, Forall_Forall2_diag.
  apply Forall_forall. by intros [id|id text] _.
Qed.

Lemma retext_safe ps :
  Forall (λ p, marker_safe (piece_text p) = true) (retext f ps).
Proof.
  unfold retext. apply Forall_fmap, Forall_forall. intros [id|id text] _; [done|].
  apply f_safe.
Qed.

Lemma render_retext_no_lt ps : Forall (λ x, x ≠ 60) (render (retext f ps)).
Proof.
  induction ps as [|p ps IH]; [constructor|].
  change (retext f (p :: ps)) with (retext f [p] ++ retext f ps).
  cbn [app]. destruct (retext f [p]) as [|p' [|]] eqn:E; try by destruct p.
  cbn [app]. rewrite render_cons. apply Forall_app. split; [|done].
  pose proof (digits_no_lt _ (dec_digits (piece_id p'))) as Hd.
  assert (Ht : Forall (λ x, x ≠ 60) (piece_text p')).
  { destruct p as [id|id text]; injection E as <-; [constructor|apply f_no_lt]. }
  clear E. destruct p' as [id|id text]; cbn [render_piece piece_text] in *;
    rewrite !Forall_app; split_and!; try done; by repeat constructor.
Qed.

Lemma render_retext_tight ps :
  ps ≠ [] →
  trim (render (retext f ps)) = render (retext f ps)
  ∧ render (retext f ps) ≠ [].
Proof.
  intros Hne. assert (Hne' : retext f ps ≠ []) by by destruct ps.
  destruct (retext f ps) as [|p ps'] eqn:E; [done|]. split.
  - apply (trim_tight _ 91 93); [apply render_head|by apply render_last|done..].
  - pose proof (render_head p ps') as H. by destruct (render (p :: ps')).
Qed.

(** Restoring the rewritten markers of a paragraph gives its
    translation. *)
Lemma restore_retext m ps os :
  recorded m ps os → Forall sound_origin os →
  Forall (λ o, fillable o = true) os →
  restoreParagraphXml to_primitive (render (retext f ps)) m
  = ok (concat (translated_origin f <$> os)).
Proof.
  intros Hr Hs Hf.
  rewrite (restore_refillable to_primitive m (retext f ps) os).
  - do 2 f_equal. clear Hs Hf.
    induction Hr as [|p o ps os [Hp _] _ IH]; [done|].
    cbn [retext fmap list_fmap zip_with]. fold (retext f ps). rewrite IH.
    f_equal. rewrite Hp. by destruct o.
  - eapply recorded_refillable;
      [exact Hr|done|apply retexted_retext|done|apply retext_safe].
Qed.

Lemma zip_fmap_pairs {A B C} (h : B → C) (ms : list (A * B)) :
  zip ms.*1 (h <$> ms.*2) = (λ mm, (mm.1, h mm.2)) <$> ms.
Proof. induction ms as [|[a b] ms IH]; [done|]. cbn. by rewrite <- IH. Qed.

Lemma hasText_rewritten c : hasText (rewritten g c) = hasText c.
Proof. unfold rewritten. by destruct (translatable c). Qed.

Lemma positioned_rewritten (chunks : list ParagraphChunk) :
  positioned chunks → positioned (rewritten g <$> chunks).
Proof.
  intros Hp i c' Hc. apply list_lookup_fmap_Some in Hc as (c & -> & Hc).
  apply Hp in Hc. unfold rewritten. by destruct (translatable c).
Qed.

(** Reconstruction from the rewritten chunks of a document gives its
    translation. *)
Lemma reconstruct_rewritten doc :
  Forall (λ e, hasText (chunk e) = true →
               g (simplifiedText (chunk e)) = render (retext f (markers e)))
    (extraction (chunkParagraphs doc)).1 →
  Forall (λ para, Forall (λ o, fillable o = true) (para_origins para))
    (chunkParagraphs doc) →
  reconstructXml to_primitive doc
    (rewritten g <$> (replaceTagsWithIds (chunkParagraphs doc)).1)
    (replaceTagsWithIds (chunkParagraphs doc)).2
  = ok (translated_document f doc).
Proof.
  intros Hg Hfill.
  pose proof (extraction_positioned (chunkParagraphs doc)) as Hp.
  apply positioned_rewritten in Hp.
  pose proof (extracted_text_facts (chunkParagraphs doc)) as Hfacts.
  pose proof (extraction_recorded (chunkParagraphs doc)) as Hr.
  rewrite replaceTagsWithIds_extraction in *. cbn [fst snd] in *.
  set (m := idTagMap (extraction (chunkParagraphs doc)).2) in *.
  set (es := (extraction (chunkParagraphs doc)).1) in *.
  unfold reconstructXml, translated_document.
  revert Hr Hfill. unfold chunkParagraphs at 1 2, exec_all.
  destruct (matches para_at doc) as [ms tl]. cbn [fst snd]. intros Hr Hfill.
  destruct (rebuild_spec to_primitive
              (translatedByIndex (rewritten g <$> (chunk <$> es))) m ms tl 0)
    as (outs & Hl & -> & Ho).
  do 2 f_equal. rewrite <- zip_fmap_pairs. f_equal.
  apply list_eq_same_length with (length outs);
    [by rewrite length_fmap, Hl, length_fmap|done|].
  intros j out out' _ Hout Hout'.
  apply list_lookup_fmap_Some in Hout' as (para & -> & Hj).
  specialize (Ho j para out Hj Hout). cbn [Nat.add] in Ho.
  rewrite (translatedByIndex_positioned _ _ Hp), !list_lookup_fmap in Ho.
  destruct (Forall2_lookup_r _ _ _ _ _ Hr Hj) as (e & He & Hh & Hs & Hrec).
  rewrite He in Ho. cbn in Ho. rewrite hasText_rewritten, Hh in Ho.
  unfold translated_paragraph.
  unfold para_origins in Hrec.
  rewrite Forall_forall in Hfill.
  assert (Hfp := Hfill para ltac:(by eapply list_elem_of_lookup_2)).
  unfold para_origins in Hfp.
  pose proof (para_origins_sound para) as Hso. unfold para_origins in Hso.
  destruct (truthy (trim (extractTextContent para))) eqn:Et; [|done].
  assert (Hin : chunk e ∈ chunk <$> es).
  { apply list_elem_of_fmap. exists e. split; [done|].
    by eapply list_elem_of_lookup_2. }
  destruct (Hfacts _ Hin Hh) as (_ & _ & Htr).
  unfold rewritten in Ho. rewrite Htr in Ho. cbn [with_text simplifiedText] in Ho.
  rewrite Forall_forall in Hg.
  rewrite (Hg e ltac:(by eapply list_elem_of_lookup_2) Hh) in Ho.
  rewrite (restore_retext m (markers e) (origins para)) in Ho by done.
  by injection Ho.
Qed.
End TranslationFacts.

Section TranslationTags.
Variable f : list N → list N.
Implicit Types (o : origin) (s x para doc pre post trailing : list N).

Lemma translated_origin_tags o pre post :
  sound_origin o →
  tag_events (pre ++ translated_origin f o ++ post)
  = tag_events (pre ++ source_of o ++ post).
Proof.
  destruct o as [span|whole tm]; [done|]. intros Hs.
  apply (restored_tags whole tm (RunMarker 0 (f (t_text tm))) pre post Hs).
Qed.

Lemma blank_no_lt s : blank s = true → Forall (λ c, c ≠ 60) s.
Proof.
  unfold blank. rewrite forallb_forall, Forall_forall.
  intros H c Hc%list_elem_of_In%H ->. done.
Qed.

(** A stretch between runs that extraction drops holds no tag. *)
Lemma span_tags s x post :
  x = [] ∨ last x = Some 62 ∨ blank s = false →
  tag_events (x ++ concat (translated_origin f <$> span_origin s) ++ post)
  = tag_events (x ++ s ++ post).
Proof.
  intros Hx. unfold span_origin. rewrite truthy_trim.
  destruct (blank s) eqn:Eb; cbn; [|by rewrite app_nil_r].
  rewrite !tag_events_exec. f_equal. symmetry. apply exec_all_text.
  - by destruct Hx as [|[|]]; [left|right|].
  - by apply blank_no_lt.
Qed.

Lemma last_app_r {A} (u v : list A) c : last v = Some c → last (u ++ v) = Some c.
Proof. intros H. rewrite last_app. by rewrite H. Qed.

Lemma runs_tags (ms : list (list N * run_match)) trailing : ∀ x post,
  Forall (λ mm, ∃ attrs, run_whole mm.2
                         = s_r_open ++ attrs ++ 62 :: run_inner mm.2 ++ s_r_close)
    ms →
  x = [] ∨ last x = Some 62
  ∨ blank (match ms with mm :: _ => mm.1 | [] => trailing end) = false →
  tag_events
    (x ++ concat (translated_origin f <$>
                    (flat_map (λ mm, span_origin mm.1 ++ [run_origin mm.2]) ms
                     ++ span_origin trailing)) ++ post)
  = tag_events (x ++ weave ((λ mm, (mm.1, run_whole mm.2)) <$> ms) trailing
                  ++ post).
Proof.
  induction ms as [|[b rm] ms IH]; intros x post Hs Hx.
  - cbn [flat_map app fmap list_fmap]. unfold weave. cbn [fmap list_fmap concat app].
    by apply span_tags.
  - inversion Hs as [|? ? Hrm Hs']; subst. cbn [fst snd] in *.
    cbn [flat_map fmap list_fmap]. rewrite weave_cons.
    rewrite <- ?app_assoc, !fmap_app, !concat_app. cbn [fmap list_fmap concat].
    rewrite app_nil_r, <- ?app_assoc.
    rewrite (span_tags b x) by done.
    rewrite (app_assoc x b).
    rewrite translated_origin_tags by by apply run_origin_sound.
    rewrite source_of_run_origin.
    rewrite (app_assoc (x ++ b)).
    specialize (IH ((x ++ b) ++ run_whole rm) post Hs').
    rewrite !fmap_app, !concat_app, <- !app_assoc in IH.
    rewrite <- ?app_assoc. apply IH. right. left.
    destruct Hrm as [attrs ->].
    rewrite app_comm_cons, !app_assoc. by apply last_app_r.
Qed.

Lemma paragraph_head para :
  paragraph_block para → ∃ rest, para = 60 :: 119 :: 58 :: 112 :: rest.
Proof. intros (c & body & -> & _). by eexists. Qed.

(** The translation of a paragraph has the tags of the paragraph. *)
Lemma paragraph_tags para pre post :
  paragraph_block para →
  tag_events (pre ++ translated_paragraph f para ++ post)
  = tag_events (pre ++ para ++ post).
Proof.
  intros [rest Hp]%paragraph_head. unfold translated_paragraph.
  destruct (truthy (trim (extractTextContent para))); [|done].
  unfold origins.
  pose proof (matches_weave_by run_at run_whole para run_at_productive) as Hw.
  pose proof (matches_each run_at
                (λ rm, ∃ attrs, run_whole rm
                   = s_r_open ++ attrs ++ 62 :: run_inner rm ++ s_r_close)
                para run_at_productive) as Hs.
  destruct (matches run_at para) as [runs trailing]. cbn [fst snd] in *.
  rewrite runs_tags.
  - rewrite Hw; [done|]. by intros s mm r [? _]%run_at_shape.
  - apply Hs. by intros s mm r [_ ?]%run_at_shape.
  - right. right.
    rewrite <- Hw in Hp by (by intros s mm r [? _]%run_at_shape).
    destruct runs as [|[b rm] runs].
    + unfold weave in Hp. cbn in Hp. by rewrite Hp.
    + assert (Hrm : ∃ attrs, run_whole rm
                      = s_r_open ++ attrs ++ 62 :: run_inner rm ++ s_r_close).
      { specialize (Hs ltac:(by intros s mm r [_ ?]%run_at_shape)).
        by inversion Hs. }
      destruct Hrm as [attrs Hrm].
      cbn [fmap list_fmap fst snd] in Hp. rewrite weave_cons, Hrm in Hp.
      destruct b as [|c b]; [done|]. injection Hp as -> _. done.
Qed.

(** The translation of a document has the tags of the document. *)
Lemma document_tags doc : tag_events (translated_document f doc) = tag_events doc.
Proof.
  unfold translated_document.
  pose proof (matches_weave para_at doc para_at_productive) as Hw.
  pose proof (matches_each para_at paragraph_block doc para_at_productive) as Hs.
  destruct (matches para_at doc) as [ms tl]. cbn [fst snd] in *.
  rewrite <- Hw by (by intros s p r [? _]%para_at_shape).
  specialize (Hs ltac:(by intros s p r [_ ?]%para_at_shape)). clear Hw.
  enough (∀ x, tag_events (x ++ weave ((λ m, (m.1, translated_paragraph f m.2))
                                          <$> ms) tl)
               = tag_events (x ++ weave ms tl)) as H by apply (H []).
  induction Hs as [|[pre para] ms Hpara _ IH]; intros x; [done|].
  cbn [fmap list_fmap fst snd] in *. rewrite !weave_cons.
  rewrite (app_assoc x pre), paragraph_tags by done.
  by rewrite (app_assoc (x ++ pre)), IH, <- !app_assoc.
Qed.

Lemma translated_document_valid doc :
  validateXml (translated_document f doc) = ok tt ↔ validateXml doc = ok tt.
Proof. by rewrite !validateXml_events, document_tags. Qed.

(** A document without text is its own translation. *)
Lemma translated_document_no_text doc :
  Forall (λ para, blank (extractTextContent para) = true) (chunkParagraphs doc) →
  translated_document f doc = doc.
Proof.
  unfold translated_document, chunkParagraphs, exec_all.
  pose proof (matches_weave para_at doc para_at_productive) as Hw.
  destruct (matches para_at doc) as [ms tl]. cbn [fst snd] in *.
  intros Hb. rewrite <- Hw by (by intros s p r [? _]%para_at_shape).
  f_equal. clear Hw. induction ms as [|[pre para] ms IH]; [done|].
  inversion Hb as [|? ? Hpara Hb']; subst. cbn [fmap list_fmap fst snd] in *.
  rewrite IH by done. unfold translated_paragraph.
  by rewrite truthy_trim, Hpara.
Qed.
End TranslationTags.

Section TranslationDocx.
Variable to_primitive : json → option (list N).
Variable extract : result (list N).
Variable repack_error : list N → option exn.
Variable out_path language : list N.
Variable opt_concurrency : option positive.
Variable opt_signal : option (nat → bool).
Variable opt_onProgress : bool.
Variable f g : list N → list N.

Lemma no_text_blank (paragraphs : list (list N)) :
  bool_decide (length (replaceTagsWithIds paragraphs).1 = 0%nat)
  || negb (existsb hasText (replaceTagsWithIds paragraphs).1) = true →
  Forall (λ para, blank (extractTextContent para) = true) paragraphs.
Proof.
  intros Hc. apply no_text_count in Hc. rewrite count_hasText in Hc.
  apply Forall_forall. intros para Hin%list_elem_of_In.
  destruct (blank (extractTextContent para)) eqn:Eb; [done|].
  assert (Hf : In para (List.filter (λ para, negb (blank (extractTextContent para)))
                          paragraphs)).
  { apply filter_In. by rewrite Eb. }
  destruct (List.filter _ paragraphs); [done|discriminate].
Qed.

(** The text a rewriting backend returns for an extracted chunk with text
    is accepted as it is. *)
Lemma extracted_rewritable (paragraphs : list (list N)) :
  (∀ text, Forall (λ x, x ≠ 60) (f text)) →
  Forall (λ e, hasText (chunk e) = true →
               g (simplifiedText (chunk e)) = render (retext f (markers e)))
    (extraction paragraphs).1 →
  ∀ c, c ∈ (replaceTagsWithIds paragraphs).1 → translatable c = true →
       rewritable g c.
Proof.
  intros Hf Hg c Hc Htr. rewrite replaceTagsWithIds_extraction in Hc. cbn [fst] in Hc.
  apply list_elem_of_fmap in Hc as (e & -> & He).
  assert (Hh : hasText (chunk e) = true).
  { unfold translatable in Htr. by apply andb_true_iff in Htr as [? _]. }
  rewrite Forall_forall in Hg. specialize (Hg e He Hh).
  apply list_elem_of_lookup in He as [i Hi].
  destruct (Forall2_lookup_l _ _ _ _ _ (extraction_recorded paragraphs) Hi)
    as (para & Hp & Hh' & Hs & Hr).
  rewrite Hh in Hh'. symmetry in Hh'.
  assert (Ho : para_origins para ≠ []).
  { unfold para_origins. rewrite Hh'. by apply origins_nonempty. }
  assert (Hne : markers e ≠ []).
  { intros E. rewrite E in Hr. inversion Hr; congruence. }
  destruct (render_retext_tight f (markers e) Hne) as [Ht Hn].
  unfold rewritable. rewrite Hg. split_and!; try done.
  by apply render_retext_no_lt.
Qed.

(** X24.  The whole pipeline with a backend that translates the texts and
    keeps the markers.  Let the backend return every unit of its prompt
    with the text between each pair of markers replaced by its image under
    [f], where the images hold no [<], no opening bracket and no dollar
    sign.  For a document that passes [validateXml], in which no run with
    a text element holds an opening bracket and no opening tag of such a
    text element holds an opening brace, when the archive can be written
    and no cancellation is observed, [translateDocx] returns and writes
    the translation of the document and reports as many translated chunks
    as there are paragraphs with text.  In the translation, in each paragraph with text, every
    run with a text element has the escaped image of the text of its first
    text element in place of that text, blank stretches between runs are
    dropped, and everything else is as in the input.  The written XML
    passes [validateXml]. *)
Theorem translation_pipeline w doc :
  extract = inr doc →
  validateXml doc = ok tt →
  (∀ text, marker_safe (f text) = true ∧ Forall (λ x, x ≠ 60) (f text)) →
  Forall (λ e, hasText (chunk e) = true →
               g (simplifiedText (chunk e)) = render (retext f (markers e)))
    (extraction (chunkParagraphs doc)).1 →
  Forall (λ para, Forall (λ o, fillable o = true) (para_origins para))
    (chunkParagraphs doc) →
  repack_error (translated_document f doc) = None →
  (∀ sig k, opt_signal = Some sig → sig k = false) →
  ∃ w',
    translateDocx to_primitive (rewriting g) extract repack_error out_path
      language opt_concurrency opt_signal opt_onProgress w
    = (ok {| outputPath := out_path;
             chunksTranslated :=
               length (List.filter hasText
                         (replaceTagsWithIds (chunkParagraphs doc)).1);
             targetLanguage := language |}, w')
    ∧ repacked w' = repacked w ++ [translated_document f doc]
    ∧ validateXml (translated_document f doc) = ok tt.
Proof.
  intros Hex Hval Hf Hg Hfill Hrep Hsig.
  assert (Hsafe : ∀ text, marker_safe (f text) = true) by (intros; apply Hf).
  assert (Hlt : ∀ text, Forall (λ x, x ≠ 60) (f text)) by (intros; apply Hf).
  assert (Hval' : validateXml (translated_document f doc) = ok tt)
    by by apply translated_document_valid.
  unfold translateDocx. rewrite Hex.
  pose proof (reconstruct_rewritten to_primitive f g Hsafe doc Hg Hfill) as Hrt.
  pose proof (extraction_positioned (chunkParagraphs doc)) as Hpos.
  pose proof (extracted_rewritable (chunkParagraphs doc) Hlt Hg) as Hrw.
  pose proof (no_text_blank (chunkParagraphs doc)) as Hnt.
  destruct (replaceTagsWithIds (chunkParagraphs doc)) as [chunks m].
  cbn [fst snd] in *.
  destruct (bool_decide (length chunks = 0%nat) || negb (existsb hasText chunks))
    eqn:Ec.
  { rewrite (translated_document_no_text f doc (Hnt eq_refl)) in *.
    unfold repackDocx. rewrite Hrep, (no_text_count _ Ec).
    eexists. split_and!; [done| |done]. cbn [repacked log_repack].
    by rewrite !notify_repacked. }
  match goal with
  | |- context [translateChunksInParallel (rewriting g) ?o chunks ?w0] =>
      destruct (rewriting_translation o g chunks w0) as (w1 & -> & Hr1)
  end; [done..|].
  unfold ok. cbv beta iota.
  rewrite <- list_fmap_compose, (list_fmap_compose (rewritten g) Some), dense_Some.
  cbv beta iota. unfold ok in Hrt, Hval'. rewrite Hrt. cbv beta iota.
  rewrite Hval'. cbv beta iota. unfold repackDocx. rewrite Hrep.
  eexists. split_and!; [done| |done]. rewrite notify_repacked.
  cbn [repacked log_repack]. by rewrite notify_repacked, Hr1, !notify_repacked.
Qed.
End TranslationDocx.

Section MarkerScan.
Implicit Types (m : gmap nat (list N)) (p : piece) (ps : list piece)
  (s text : list N) (paragraphs : list (list N)).

Lemma exec_all_prefix {M} (matcher : list N → option (M * list N)) u s :
  productive matcher →
  search matcher (u ++ s) =
    match search matcher s with
    | Some (pre, mm, rest) => Some (u ++ pre, mm, rest)
    | None => None
    end →
  exec_all matcher (u ++ s) = exec_all matcher s.
Proof.
  intros Hp E. unfold exec_all.
  destruct (search matcher s) as [[[pre mm] rest]|] eqn:Es.
  - by rewrite (matches_step matcher Hp _ _ _ _ E),
               (matches_step matcher Hp _ _ _ _ Es).
  - by rewrite (matches_none matcher _ E), (matches_none matcher _ Es).
Qed.

Lemma digits_plain ds : Forall (λ d, is_digit d = true) ds → Forall (λ c, c ≠ 91) ds.
Proof. intros H. eapply Forall_impl; [exact H|]. by intros x Hx ->. Qed.

(** The unpaired-marker expression finds the unpaired markers of a
    rendering. *)
Lemma tag_scan ps :
  Forall (λ p, Forall (λ c, c ≠ 91) (piece_text p)) ps →
  exec_all tag_marker_at (render ps)
  = omap (λ p, match p with TagMarker id => Some (dec id) | _ => None end) ps.
Proof.
  induction 1 as [|p ps Hp _ IH]; [done|].
  rewrite render_cons. pose proof (digits_plain _ (dec_digits (piece_id p))) as Hd.
  destruct p as [id|id text]; cbn [omap list_omap option_bind render_piece piece_text piece_id] in *.
  - rewrite <- !app_assoc.
    rewrite (exec_all_step tag_marker_at _ (dec id) (render ps)
               tag_marker_at_productive); [by rewrite IH|].
    apply tag_marker_at_here; [apply dec_nonempty|apply dec_digits].
  - assert (E : (s_RUN ++ dec id ++ s_rb ++ text ++ s_RUN_end ++ dec id ++ s_rb)
                ++ render ps
                = (91 :: (drop 1 s_RUN ++ dec id ++ s_rb ++ text))
                  ++ (91 :: (drop 1 s_RUN_end ++ dec id ++ s_rb))
                  ++ render ps).
    { repeat (rewrite <- ?app_assoc; cbn [app]). done. }
    rewrite E. clear E.
    rewrite exec_all_prefix; [|apply tag_marker_at_productive|].
    + rewrite exec_all_prefix; [done|apply tag_marker_at_productive|].
      apply search_pass; [apply tag_marker_at_bracket|done|].
      rewrite !Forall_app. split_and!; try done; by repeat constructor.
    + apply search_pass; [apply tag_marker_at_bracket|done|].
      rewrite !Forall_app. split_and!; try done; by repeat constructor.
Qed.

(** The paired-marker expression finds the paired markers of a
    rendering. *)
Lemma run_scan ps :
  Forall (λ p, Forall (λ c, c ≠ 91) (piece_text p)) ps →
  exec_all run_marker_at (render ps)
  = omap (λ p, match p with
               | RunMarker id text => Some {| rm_id := dec id; rm_text := text |}
               | _ => None
               end) ps.
Proof.
  induction 1 as [|p ps Hp _ IH]; [done|].
  rewrite render_cons.
  destruct p as [id|id text]; cbn [omap list_omap option_bind render_piece piece_text] in *.
  - change (s_TAG ++ dec id ++ s_rb)
      with (91 :: (drop 1 s_TAG ++ dec id ++ s_rb)).
    rewrite exec_all_prefix; [done|apply run_marker_at_productive|].
    apply search_pass; [apply run_marker_at_bracket|done|apply tag_text_plain].
  - rewrite <- !app_assoc.
    rewrite (exec_all_step run_marker_at _ {| rm_id := dec id; rm_text := text |}
               (render ps) run_marker_at_productive); [by rewrite IH|].
    apply run_marker_at_here; [apply dec_nonempty|apply dec_digits|done].
Qed.

Lemma referenced_render ps :
  Forall (λ p, Forall (λ c, c ≠ 91) (piece_text p)) ps →
  ∀ id, id ∈ referenced (render ps) ↔ id ∈ piece_id <$> ps.
Proof.
  intros H id. unfold referenced. rewrite (tag_scan ps H), (run_scan ps H).
  rewrite elem_of_app, !list_elem_of_fmap. split.
  - intros [(ds & -> & Hds)|(mk & -> & Hmk)].
    + apply list_elem_of_omap in Hds as (p & Hp & Ep). exists p.
      split; [|done]. destruct p as [i|i text]; [|done].
      injection Ep as Ep. subst ds. cbn [piece_id]. by rewrite parseInt_dec.
    + apply list_elem_of_omap in Hmk as (p & Hp & Ep). exists p.
      split; [|done]. destruct p as [i|i text]; [done|].
      injection Ep as Ep. subst mk. cbn [piece_id rm_id]. by rewrite parseInt_dec.
  - intros (p & -> & Hp). destruct p as [i|i text].
    + left. exists (dec i). split; [cbn [piece_id]; by rewrite parseInt_dec|].
      apply list_elem_of_omap. by exists (TagMarker i).
    + right. exists {| rm_id := dec i; rm_text := text |}.
      split; [cbn [piece_id rm_id]; by rewrite parseInt_dec|].
      apply list_elem_of_omap. by exists (RunMarker i text).
Qed.

Lemma fst_NoDup_functional {A B} (l : list (A * B)) :
  NoDup l.*1 → ∀ a b1 b2, (a, b1) ∈ l → (a, b2) ∈ l → b1 = b2.
Proof.
  induction l as [|[a' b'] l IH]; intros Hnd a b1 b2 H1 H2.
  { by apply elem_of_nil in H1. }
  cbn in Hnd. apply NoDup_cons in Hnd as [Hin Hnd].
  apply elem_of_cons in H1 as [E1|H1]; apply elem_of_cons in H2 as [E2|H2].
  - congruence.
  - injection E1 as -> ->. exfalso. apply Hin.
    apply list_elem_of_fmap. by exists (a', b2).
  - injection E2 as -> ->. exfalso. apply Hin.
    apply list_elem_of_fmap. by exists (a', b1).
  - by apply (IH Hnd a).
Qed.

(** C9 (amended).  Allocation of IDs.  The simplified text of every chunk
    is the rendering of the markers written for it.  Over the whole
    document these markers carry the IDs 1, 2, ... in the order of the
    text, [idTagMap.set] is called once for each of them and for nothing
    else, so no ID is given to two fragments, and the returned map holds
    for the ID of every marker written the one fragment stored for it.
    When the texts between the paired markers hold no opening bracket, the
    IDs of the markers that the marker expressions find in a simplified
    text are exactly the IDs of the markers written. *)
Theorem ids_allocated_once paragraphs :
  let es := (extraction paragraphs).1 in
  let st := (extraction paragraphs).2 in
  replaceTagsWithIds paragraphs = (chunk <$> es, idTagMap st)
  ∧ Forall (λ e, simplifiedText (chunk e) = render (markers e)) es
  ∧ marker_ids es = seq 1 (length (marker_ids es))
  ∧ (history st).*1 = marker_ids es
  ∧ (∀ id f g, (id, f) ∈ history st → (id, g) ∈ history st → f = g)
  ∧ (∀ id, id ∈ marker_ids es →
           ∃ f, idTagMap st !! id = Some f
                ∧ ∀ g, (id, g) ∈ history st → g = f)
  ∧ Forall (λ e,
      Forall (λ p, Forall (λ c, c ≠ 91) (piece_text p)) (markers e) →
      ∀ id, id ∈ referenced (simplifiedText (chunk e))
            ↔ id ∈ piece_id <$> markers e) es.
Proof.
  cbv zeta. split; [apply replaceTagsWithIds_extraction|]. unfold extraction.
  pose proof (extract_from_spec paragraphs 0 initial_state)
    as (_ & Hf & Hids & _ & Hh & _ & Hw).
  specialize (Hw well_numbered_initial).
  set (es := (extract_from 0 paragraphs initial_state).1) in *.
  set (st := (extract_from 0 paragraphs initial_state).2) in *.
  clearbody es st. cbn in Hh.
  assert (Hs : Forall (λ e, simplifiedText (chunk e) = render (markers e)) es).
  { eapply Forall2_Forall_l; [exact Hf|]. apply Forall_forall.
    by intros para _ e (_ & ? & _). }
  assert (Hfun : ∀ id f g, (id, f) ∈ history st → (id, g) ∈ history st → f = g).
  { apply fst_NoDup_functional. rewrite Hh, Hids. apply NoDup_seq. }
  destruct Hw as (_ & _ & Hm).
  split_and!; try done.
  - intros id Hid. rewrite <- Hh in Hid.
    apply list_elem_of_fmap in Hid as ([id' f] & -> & Hin). exists f.
    split; [by apply Hm|]. intros g Hg. by apply (Hfun id' g f).
  - eapply Forall_impl; [exact Hs|]. intros e -> Ht.
    by apply referenced_render.
Qed.
End MarkerScan.

(** ** Instances

    The theorems above applied to concrete runs. *)

Definition demo_chunks : list ParagraphChunk :=
  [demo_chunk 0 (lit "Hello") true; demo_chunk 1 [] false].

Definition demo_options : TranslateOptions :=
  {| concurrency := 2; batchSize := None; signal := None; onProgress := true |}.

(** A backend that answers every call with an empty reply. *)
Definition silent : nat → list ParagraphChunk → backend_outcome :=
  λ _ _, Reply [].

Lemma demo_positioned : positioned demo_chunks.
Proof. intros [|[|i]] c; simpl; intros [= <-]; reflexivity. Defined.

Lemma demo_quiet : quiet silent demo_options.
Proof. split; [intros sig k [=]|intros k batch e [=]]. Defined.

Lemma demo_nodup : NoDup (index <$> demo_chunks).
Proof. repeat constructor; set_solver. Defined.

Lemma order_preserved_witness :
  ∃ res w',
    translateChunksInParallel silent demo_options demo_chunks initial_world
    = (inr res, w')
    ∧ length res = 2%nat.
Proof.
  destruct (order_preserved silent demo_options demo_chunks initial_world
              demo_positioned) as [Hres Hret].
  destruct (Hret demo_quiet) as (res & w' & E).
  exists res, w'. split; [exact E|]. exact (proj1 (Hres res w' E)).
Defined.

Lemma missing_falls_back_witness :
  ∃ res w' stillMissing,
    translateChunksInParallel silent demo_options demo_chunks initial_world
    = (inr res, w')
    ∧ slot res 0 = Some (demo_chunk 0 (lit "Hello") true)
    ∧ demo_chunk 0 (lit "Hello") true ∈ stillMissing
    ∧ lit "Warning: " ++ dec (length stillMissing)
      ++ lit " chunks could not be translated after " ++ dec 2
      ++ lit " retries (ids: "
      ++ join (lit ", ") ((λ x, dec (index x)) <$> stillMissing)
      ++ lit "). Keeping original text." ∈ progress w'.
Proof.
  apply (missing_falls_back silent demo_options demo_chunks initial_world
           (demo_chunk 0 (lit "Hello") true)).
  - exact demo_nodup.
  - apply list_elem_of_here.
  - reflexivity.
  - intros k batch _. simpl. apply not_elem_of_nil.
  - exact demo_quiet.
  - reflexivity.
Defined.

Lemma pass_through_untouched_witness :
  ∃ res,
    (translateChunksInParallel silent demo_options demo_chunks initial_world).1
    = inr res
    ∧ slot res 1 = Some (demo_chunk 1 [] false).
Proof.
  destruct (pass_through_untouched silent demo_options demo_chunks
              initial_world (demo_chunk 1 [] false))
    as (_ & Hslot & Hret).
  - apply list_elem_of_further, list_elem_of_here.
  - left. reflexivity.
  - destruct (Hret demo_quiet) as [res E]. exists res.
    split; [exact E|]. exact (Hslot demo_nodup res E).
Defined.


(** A reply whose only unit is padded with white space. *)
Definition padded_reply : list N :=
  s_pid_open ++ dec 0 ++ s_pid_mid ++ lit "  Hallo " ++ s_pid_close.

Lemma reply_text_trimmed_witness :
  ∃ br w' t,
    translateBatch (λ _ _, Reply padded_reply)
      [demo_chunk 0 (lit "Hello") true] initial_world = (inr br, w')
    ∧ t ∈ translated br
    ∧ simplifiedText t = lit "Hallo".
Proof.
  destruct (reply_text_trimmed (λ _ _, Reply padded_reply)
              [demo_chunk 0 (lit "Hello") true] initial_world padded_reply
              {| p_id := dec 0; p_body := lit "  Hallo " |}
              (demo_chunk 0 (lit "Hello") true))
    as (br & w' & t & E & Ht & _ & _ & _ & _ & Htrim).
  - reflexivity.
  - apply list_elem_of_here.
  - reflexivity.
  - exists br, w', t. split; [exact E|]. split; [exact Ht|].
    exact (proj1 (Htrim eq_refl)).
Defined.

(** A document whose translation comes back without the marker of the
    paragraph's closing tag. *)
Definition demo_document : list N :=
  lit "<w:p><w:r><w:t>Hello</w:t></w:r></w:p>".

Definition truncating : nat → list ParagraphChunk → backend_outcome :=
  λ _ _, Reply (s_pid_open ++ dec 0 ++ s_pid_mid
                ++ lit "[TAG:1][RUN:2]Hallo[/RUN:2]" ++ s_pid_close).

Lemma malformed_result_not_written_witness :
  ∃ e w',
    translateDocx (λ _, None) truncating (inr demo_document) (λ _, None)
      (lit "out.docx") (lit "German") None None true initial_world
    = (inl e, w')
    ∧ repacked w' = [].
Proof.
  eexists.
  eapply (malformed_result_not_written (λ _, None) truncating
            (inr demo_document) (λ _, None) (lit "out.docx") (lit "German")
            None None true initial_world demo_document).
  - reflexivity.
  - vm_compute. reflexivity.
  - reflexivity.
  - vm_compute. reflexivity.
  - reflexivity.
  - vm_compute. reflexivity.
  - vm_compute. reflexivity.
Defined.

(** The warning of the run above, as passed to [onProgress]. *)
Lemma demo_warning :
  last (progress (translateChunksInParallel silent demo_options demo_chunks
                    initial_world).2)
  = Some (lit "Warning: 1 chunks could not be translated after 2 retries (ids: 0). Keeping original text.").
Proof. vm_compute. reflexivity. Qed.

(** A map that holds the fragment of one unpaired marker. *)
Definition demo_map : gmap nat (list N) := {[ 1%nat := lit "<w:pPr/>" ]}.



(** A paragraph with a space between its two runs. *)
Definition spaced_document : list N :=
  lit "<w:body><w:p><w:r><w:t>a</w:t></w:r> <w:r><w:t>b</w:t></w:r></w:p></w:body>".

(** C1 as stated fails on a paragraph with white space between two runs: the
    blank stretch gets no marker, so the reconstructed paragraph lacks it. *)
Lemma round_trip_drops_blank :
  reconstructXml (λ _, None) spaced_document
    (replaceTagsWithIds (chunkParagraphs spaced_document)).1
    (replaceTagsWithIds (chunkParagraphs spaced_document)).2
  = ok (lit "<w:body><w:p><w:r><w:t>a</w:t></w:r><w:r><w:t>b</w:t></w:r></w:p></w:body>")
  ∧ lit "<w:body><w:p><w:r><w:t>a</w:t></w:r><w:r><w:t>b</w:t></w:r></w:p></w:body>"
    ≠ spaced_document.
Proof. split; [vm_compute; reflexivity|discriminate]. Qed.

(** A document with a clean paragraph with text and a paragraph without text
    that has a space between its runs. *)
Definition mixed_document : list N :=
  lit "<w:body><w:p><w:r><w:t>Hello</w:t></w:r></w:p><w:p><w:r><w:br/></w:r> <w:r><w:tab/></w:r></w:p></w:body>".

Lemma round_trip_identity_witness :
  reconstructXml (λ _, None) mixed_document
    (replaceTagsWithIds (chunkParagraphs mixed_document)).1
    (replaceTagsWithIds (chunkParagraphs mixed_document)).2
  = ok mixed_document.
Proof.
  apply round_trip_identity.
  assert (E : chunkParagraphs mixed_document
              = [lit "<w:p><w:r><w:t>Hello</w:t></w:r></w:p>";
                 lit "<w:p><w:r><w:br/></w:r> <w:r><w:tab/></w:r></w:p>"])
    by (vm_compute; reflexivity).
  rewrite E. constructor; [intros _; vm_compute; reflexivity|].
  constructor; [intros H; vm_compute in H; discriminate|constructor].
Defined.

(** A paragraph whose text looks like a marker. *)
Definition bracket_paragraph : list N :=
  lit "<w:p><w:r><w:t>[TAG:99]</w:t></w:r></w:p>".

(** C9 as stated fails when the text of a run looks like a marker: the
    simplified text then refers to an ID that was never allocated. *)
Lemma unknown_marker_referenced :
  simplifiedText <$> (replaceTagsWithIds [bracket_paragraph]).1
  = [lit "[TAG:1][RUN:2][TAG:99][/RUN:2][TAG:3]"]
  ∧ referenced (lit "[TAG:1][RUN:2][TAG:99][/RUN:2][TAG:3]")
    = [1; 99; 3; 2]%nat
  ∧ (replaceTagsWithIds [bracket_paragraph]).2 !! 99%nat = None.
Proof. split; [|split]; vm_compute; reflexivity. Qed.

(** A paragraph with one bold run. *)
Definition bold_paragraph : list N :=
  lit "<w:p><w:r><w:rPr><w:b/></w:rPr><w:t>Hello</w:t></w:r></w:p>".

(** C3.  The escaped text is handed to [replace] as a replacement pattern, in
    which a dollar sign is special.  With the ID map of the paragraph above,
    the translated text [A & B < C] is written as [A &amp; B &lt; C]; but in
    the translated text [Tom $& Ann] the [&] is not written as [&amp;]: the
    escaped text holds [$&], which [replace] takes for the matched
    placeholder. *)
Lemma dollar_before_ampersand :
  simplifiedText <$> (replaceTagsWithIds [bold_paragraph]).1
  = [lit "[TAG:1][RUN:2]Hello[/RUN:2][TAG:3]"]
  ∧ restoreParagraphXml (λ _, None) (lit "[TAG:1][RUN:2]A & B < C[/RUN:2][TAG:3]")
      (replaceTagsWithIds [bold_paragraph]).2
    = ok (lit "<w:p><w:r><w:rPr><w:b/></w:rPr><w:t>A &amp; B &lt; C</w:t></w:r></w:p>")
  ∧ restoreParagraphXml (λ _, None) (lit "[TAG:1][RUN:2]Tom $& Ann[/RUN:2][TAG:3]")
      (replaceTagsWithIds [bold_paragraph]).2
    = ok (lit "<w:p><w:r><w:rPr><w:b/></w:rPr><w:t>Tom {{TEXT}}amp; Ann</w:t></w:r></w:p>").
Proof. split; [|split]; vm_compute; reflexivity. Qed.

(** ** Instances of the further properties *)

(** A document with two paragraphs, the second without text, between the
    opening of the body and the section properties. *)
Definition sample_paragraph : list N :=
  lit "<w:p><w:pPr><w:jc w:val='center'/></w:pPr><w:r><w:rPr><w:b/></w:rPr><w:t xml:space='preserve'>Hello world</w:t></w:r></w:p>".

Definition sample_document : list N :=
  lit "<w:body>" ++ sample_paragraph
  ++ lit "<w:p><w:r><w:br/></w:r></w:p><w:sectPr/></w:body>".

Definition sample_extracted : extracted :=
  {| chunk := {| index := 0;
                 simplifiedText := lit "[TAG:1][RUN:2]Hello world[/RUN:2][TAG:3]";
                 hasText := true |};
     markers := [TagMarker 1; RunMarker 2 (lit "Hello world"); TagMarker 3] |}.

Lemma chunkParagraphs_none_witness :
  chunkParagraphs (lit "<w:body><w:sectPr/></w:body>") = [].
Proof.
  apply chunkParagraphs_none. left. vm_compute. reflexivity.
Defined.

Lemma restore_translated_witness :
  restoreParagraphXml (λ _, None)
    (render [TagMarker 1; RunMarker 2 (lit "Tom & Ann"); TagMarker 3])
    (replaceTagsWithIds [sample_paragraph]).2
  = ok (lit "<w:p><w:pPr><w:jc w:val='center'/></w:pPr><w:r><w:rPr><w:b/></w:rPr><w:t xml:space='preserve'>Tom &amp; Ann</w:t></w:r></w:p>").
Proof.
  pose proof (restore_translated (λ _, None) [sample_paragraph] 0
                sample_paragraph sample_extracted
                [TagMarker 1; RunMarker 2 (lit "Tom & Ann"); TagMarker 3]) as H.
  rewrite H.
  - vm_compute. reflexivity.
  - reflexivity.
  - vm_compute. reflexivity.
  - repeat constructor.
  - vm_compute. repeat constructor.
  - vm_compute. repeat constructor.
Defined.

Lemma sample_positioned :
  positioned [demo_chunk 0 (lit "[TAG:1][RUN:2]Hallo Welt[/RUN:2][TAG:3]") true].
Proof. intros [|i] c; simpl; [intros [= <-]; reflexivity|intros [=]]. Defined.

Lemma reconstruct_frame_witness :
  ∃ gaps tl outs,
    length gaps = length (chunkParagraphs sample_document)
    ∧ length outs = length (chunkParagraphs sample_document)
    ∧ sample_document = weave (zip gaps (chunkParagraphs sample_document)) tl
    ∧ reconstructXml (λ _, None) sample_document
        [demo_chunk 0 (lit "[TAG:1][RUN:2]Hallo Welt[/RUN:2][TAG:3]") true]
        (replaceTagsWithIds (chunkParagraphs sample_document)).2
      = ok (weave (zip gaps outs) tl).
Proof.
  destruct (reconstruct_frame (λ _, None) sample_document
              [demo_chunk 0 (lit "[TAG:1][RUN:2]Hallo Welt[/RUN:2][TAG:3]") true]
              (replaceTagsWithIds (chunkParagraphs sample_document)).2
              sample_positioned)
    as (gaps & tl & outs & H1 & H2 & H3 & H4 & _).
  exists gaps, tl, outs. split; [exact H1|]. split; [exact H2|].
  split; [exact H3|exact H4].
Defined.

Lemma round_trip_clean_witness :
  reconstructXml (λ _, None) sample_document
    (replaceTagsWithIds (chunkParagraphs sample_document)).1
    (replaceTagsWithIds (chunkParagraphs sample_document)).2
  = ok sample_document.
Proof.
  apply round_trip_clean.
  assert (H : forallb clean_paragraph (chunkParagraphs sample_document) = true)
    by (vm_compute; reflexivity).
  apply Forall_forall. intros para Hin.
  apply (proj1 (forallb_forall _ _) H). apply list_elem_of_In. exact Hin.
Defined.

Definition sample_chunks : list ParagraphChunk :=
  [demo_chunk 0 (lit "[TAG:1][RUN:2]Hello world[/RUN:2][TAG:3]") true;
   demo_chunk 1 [] false].

Definition sample_options : TranslateOptions :=
  {| concurrency := 2; batchSize := None; signal := None; onProgress := false |}.

(** A backend whose reply pads the translation with white space. *)
Definition padding : nat → list ParagraphChunk → backend_outcome :=
  λ _ _, Reply (s_pid_open ++ dec 0 ++ s_pid_mid
                ++ lit " [TAG:1][RUN:2]Hallo Welt[/RUN:2][TAG:3] "
                ++ s_pid_close).

Lemma result_provenance_witness :
  index (demo_chunk 0 (lit "[TAG:1][RUN:2]Hallo Welt[/RUN:2][TAG:3]") true) = 0%nat
  ∧ genuine padding initial_world
      (translateChunksInParallel padding sample_options sample_chunks
         initial_world).2
      sample_chunks
      (demo_chunk 0 (lit "[TAG:1][RUN:2]Hallo Welt[/RUN:2][TAG:3]") true).
Proof.
  apply (result_provenance padding sample_options sample_chunks initial_world
           [Some (demo_chunk 0 (lit "[TAG:1][RUN:2]Hallo Welt[/RUN:2][TAG:3]") true);
            Some (demo_chunk 1 [] false)]
           (translateChunksInParallel padding sample_options sample_chunks
              initial_world).2).
  - vm_compute. reflexivity.
  - reflexivity.
Defined.

(** A backend whose sessions cannot be created. *)
Definition failing : nat → list ParagraphChunk → backend_outcome :=
  λ _ _, SessionFailure TypeError.

Lemma rejection_causes_witness :
  (TypeError = aborted_error
   ∧ observed_abort sample_options initial_world
       (translateChunksInParallel failing sample_options sample_chunks
          initial_world).2)
  ∨ failed_session failing initial_world
      (translateChunksInParallel failing sample_options sample_chunks
         initial_world).2 TypeError.
Proof.
  apply (rejection_causes failing sample_options
           sample_chunks initial_world TypeError
           (translateChunksInParallel failing
              sample_options sample_chunks initial_world).2).
  vm_compute. reflexivity.
Defined.

Lemma echo_reply_witness :
  parse_reply sample_chunks (inputContent sample_chunks)
  = {| translated :=
         (λ c, accepted c (trim (simplifiedText c))) <$> sample_chunks;
       missing := [] |}.
Proof.
  apply echo_reply.
  - repeat constructor; set_solver.
  - repeat constructor; vm_compute; discriminate.
Defined.

Lemma failure_causes_witness :
  @inr exn (list N) sample_document = inl TypeError
  ∨ (∃ xml,
       repacked (translateDocx (λ _, None) failing (inr sample_document)
                   (λ _, None) (lit "out.docx") (lit "German") None None false
                   initial_world).2
       = repacked initial_world ++ [xml]
       ∧ (λ _ : list N, @None exn) xml = Some TypeError)
  ∨ (TypeError = aborted_error
     ∧ observed_abort (translator_options None None) initial_world
         (translateDocx (λ _, None) failing (inr sample_document)
            (λ _, None) (lit "out.docx") (lit "German") None None false
            initial_world).2)
  ∨ failed_session failing initial_world
      (translateDocx (λ _, None) failing (inr sample_document)
         (λ _, None) (lit "out.docx") (lit "German") None None false
         initial_world).2 TypeError
  ∨ (∃ doc xml,
       @inr exn (list N) sample_document = inr doc
       ∧ reconstructed (λ _, None) failing (translator_options None None) doc
           initial_world
           (translateDocx (λ _, None) failing (inr sample_document)
              (λ _, None) (lit "out.docx") (lit "German") None None false
              initial_world).2 xml
       ∧ validateXml xml = inl TypeError).
Proof.
  apply (failure_causes (λ _, None) failing (inr sample_document)
           (λ _, None) (lit "out.docx") (lit "German") None None false
           initial_world TypeError
           (translateDocx (λ _, None) failing (inr sample_document)
              (λ _, None) (lit "out.docx") (lit "German") None None false
              initial_world).2).
  vm_compute. reflexivity.
Defined.

(** A document whose only paragraph holds a line break and no text. *)
Definition textless_document : list N :=
  lit "<w:body><w:p><w:r><w:br/></w:r></w:p><w:sectPr/></w:body>".

Lemma no_text_path_witness :
  ∃ w',
    translateDocx (λ _, None) echo (inr textless_document) (λ _, None)
      (lit "out.docx") (lit "German") None None true initial_world
    = (ok {| outputPath := lit "out.docx"; chunksTranslated := 0;
             targetLanguage := lit "German" |}, w')
    ∧ repacked w' = repacked initial_world ++ [textless_document]
    ∧ dispatched w' = dispatched initial_world.
Proof.
  apply (no_text_path (λ _, None) echo (inr textless_document) (λ _, None)
           (lit "out.docx") (lit "German") None None true initial_world
           textless_document).
  - reflexivity.
  - vm_compute. repeat constructor.
  - reflexivity.
Defined.

Lemma echo_pipeline_witness :
  ∃ w',
    translateDocx (λ _, None) echo (inr sample_document) (λ _, None)
      (lit "out.docx") (lit "German") None None true initial_world
    = (ok {| outputPath := lit "out.docx";
             chunksTranslated :=
               length (List.filter hasText
                         (replaceTagsWithIds (chunkParagraphs sample_document)).1);
             targetLanguage := lit "German" |}, w')
    ∧ repacked w' = repacked initial_world ++ [sample_document].
Proof.
  apply (echo_pipeline (λ _, None) (inr sample_document) (λ _, None)
           (lit "out.docx") (lit "German") None None true initial_world
           sample_document).
  - reflexivity.
  - assert (H : forallb clean_paragraph (chunkParagraphs sample_document) = true)
      by (vm_compute; reflexivity).
    apply Forall_forall. intros para Hin.
    apply (proj1 (forallb_forall _ _) H). apply list_elem_of_In. exact Hin.
  - vm_compute. reflexivity.
  - reflexivity.
  - intros sig k [=].
Defined.

(** A run with a text element, and an ID map that holds its fragment. *)
Definition sample_run : list N :=
  lit "<w:r><w:rPr><w:b/></w:rPr><w:t xml:space='preserve'>Hello world</w:t></w:r>".

Definition sample_text_element : t_match :=
  {| t_whole := lit "<w:t xml:space='preserve'>Hello world</w:t>";
     t_text := lit "Hello world" |}.

Definition sample_map : gmap nat (list N) :=
  <[2%nat := text_run_fragment sample_run sample_text_element]> ∅.

Ltac all_differ := vm_compute; repeat (constructor; [discriminate|]); constructor.

Lemma sample_sound : sound_origin (FromRun sample_run sample_text_element).
Proof.
  exists (lit " xml:space='preserve'"), (lit "<w:r><w:rPr><w:b/></w:rPr>"),
    (lit "</w:r>").
  split; [reflexivity|]. split; [all_differ|]. split; [all_differ|reflexivity].
Defined.

Lemma sample_refillable text :
  marker_safe text = true →
  refillable sample_map (RunMarker 2 text) (FromRun sample_run sample_text_element).
Proof.
  intros Hsafe. split; [apply lookup_insert_eq|]. split; [exact sample_sound|].
  split; [vm_compute; reflexivity|exact Hsafe].
Defined.

Lemma translated_run_same_tags_witness :
  ∃ out,
    run_replacer (λ _, None) sample_map
      {| rm_id := dec 2; rm_text := lit "Tom & Ann <3" |} = ok out
    ∧ tag_events (lit "<w:p>" ++ out ++ lit "</w:p>")
      = tag_events (lit "<w:p>" ++ sample_run ++ lit "</w:p>")
    ∧ (validateXml (lit "<w:p>" ++ out ++ lit "</w:p>") = ok tt
       ↔ validateXml (lit "<w:p>" ++ sample_run ++ lit "</w:p>") = ok tt).
Proof.
  apply (translated_run_same_tags (λ _, None) sample_map 2 sample_run
           sample_text_element (lit "Tom & Ann <3") (lit "<w:p>") (lit "</w:p>")).
  apply sample_refillable. reflexivity.
Defined.

Lemma run_round_trip_iff_witness :
  run_replacer (λ _, None) sample_map
    {| rm_id := dec 2; rm_text := t_text sample_text_element |} = ok sample_run
  ↔ Forall (λ c, c ≠ 38 ∧ c ≠ 62 ∧ c ≠ 34 ∧ c ≠ 39) (t_text sample_text_element).
Proof.
  apply (run_round_trip_iff (λ _, None) sample_map 2 sample_run
           sample_text_element).
  apply sample_refillable. reflexivity.
Defined.

(** A backend whose prompts all fail: every chunk keeps its original
    text. *)
Definition failing_prompt : nat → list ParagraphChunk → backend_outcome :=
  λ _ _, PromptFailure.

Lemma validateXml_ignores_text_witness :
  (validateXml (lit "<w:body>" ++ lit "Hallo Welt" ++ lit "</w:body>") = ok tt
   ↔ validateXml (lit "<w:body>" ++ lit "</w:body>") = ok tt)
  ∧ restoreParagraphXml (λ _, None) (lit "Hallo Welt") ∅ = ok (lit "Hallo Welt").
Proof.
  destruct (validateXml_ignores_text (λ _, None) ∅ (lit "<w:body>")
              (lit "Hallo Welt") (lit "</w:body>")) as [Hv Hr].
  - right. reflexivity.
  - all_differ.
  - split; [exact Hv|]. apply Hr. all_differ.
Defined.

Lemma reported_result_witness :
  outputPath {| outputPath := lit "out.docx"; chunksTranslated := 1;
                targetLanguage := lit "German" |} = lit "out.docx"
  ∧ targetLanguage {| outputPath := lit "out.docx"; chunksTranslated := 1;
                      targetLanguage := lit "German" |} = lit "German"
  ∧ chunksTranslated {| outputPath := lit "out.docx"; chunksTranslated := 1;
                        targetLanguage := lit "German" |}
    = length (List.filter (λ para, negb (blank (extractTextContent para)))
                (chunkParagraphs sample_document)).
Proof.
  apply (reported_result (λ _, None) failing_prompt (inr sample_document)
           (λ _, None) (lit "out.docx") (lit "German") None None false
           initial_world sample_document
           {| outputPath := lit "out.docx"; chunksTranslated := 1;
              targetLanguage := lit "German" |}
           (translateDocx (λ _, None) failing_prompt (inr sample_document)
              (λ _, None) (lit "out.docx") (lit "German") None None false
              initial_world).2).
  - reflexivity.
  - vm_compute. reflexivity.
Defined.

Lemma outage_pipeline_witness :
  ∃ res w',
    translateDocx (λ _, None) failing_prompt (inr sample_document) (λ _, None)
      (lit "out.docx") (lit "German") None None true initial_world
    = (ok res, w')
    ∧ repacked w' = repacked initial_world ++ [sample_document].
Proof.
  apply (outage_pipeline (λ _, None) failing_prompt (inr sample_document)
           (λ _, None) (lit "out.docx") (lit "German") None None true
           initial_world sample_document).
  - reflexivity.
  - assert (H : forallb clean_paragraph (chunkParagraphs sample_document) = true)
      by (vm_compute; reflexivity).
    apply Forall_forall. intros para Hin.
    apply (proj1 (forallb_forall _ _) H). apply list_elem_of_In. exact Hin.
  - vm_compute. reflexivity.
  - reflexivity.
  - intros sig k [=].
  - intros k batch e [=].
  - intros k batch text [=].
Defined.

(** A translation of the sample document: the text of its run, and the unit
    a backend returns for its chunk. *)
Definition german (text : list N) : list N :=
  if decide (text = lit "Hello world") then lit "Hallo Welt" else [].

Definition german_unit (s : list N) : list N :=
  if decide (s = lit "[TAG:1][RUN:2]Hello world[/RUN:2][TAG:3]")
  then lit "[TAG:1][RUN:2]Hallo Welt[/RUN:2][TAG:3]" else s.

Definition sample_translation : list N :=
  lit "<w:body><w:p><w:pPr><w:jc w:val='center'/></w:pPr><w:r><w:rPr><w:b/></w:rPr><w:t xml:space='preserve'>Hallo Welt</w:t></w:r></w:p><w:p><w:r><w:br/></w:r></w:p><w:sectPr/></w:body>".

Lemma translation_pipeline_witness :
  ∃ w',
    translateDocx (λ _, None) (rewriting german_unit) (inr sample_document)
      (λ _, None) (lit "out.docx") (lit "German") None None true initial_world
    = (ok {| outputPath := lit "out.docx";
             chunksTranslated :=
               length (List.filter hasText
                         (replaceTagsWithIds (chunkParagraphs sample_document)).1);
             targetLanguage := lit "German" |}, w')
    ∧ repacked w' = repacked initial_world ++ [sample_translation]
    ∧ validateXml sample_translation = ok tt.
Proof.
  change sample_translation with (translated_document german sample_document).
  apply (translation_pipeline (λ _, None) (inr sample_document) (λ _, None)
           (lit "out.docx") (lit "German") None None true german german_unit
           initial_world sample_document).
  - reflexivity.
  - vm_compute. reflexivity.
  - intros text. unfold german. destruct (decide (text = lit "Hello world")).
    + split; [reflexivity|]. vm_compute. repeat (constructor; [discriminate|]).
      constructor.
    + split; [reflexivity|constructor].
  - vm_compute. repeat constructor.
  - vm_compute. repeat constructor.
  - reflexivity.
  - intros sig k [=].
Defined.
